(** * Hostname extraction from a hosted site tree: model and verified properties

    The repository holds two implementations of the same engine:
    - [backend/main.go]: a Go server that walks the tree with one goroutine per
      directory and streams every site record over a channel;
    - a TypeScript class [BMNodeHostnameExtractor] that walks the tree
      sequentially and accumulates the records in a [Map].

    Both are embedded here.  Regular expressions are embedded as syntax trees
    run by a backtracking matcher; network calls are effects of a small
    program type whose answers are chosen by the environment. *)

From Stdlib Require Import ZArith Lia Ascii String.
From stdpp Require Import base tactics option list strings gmap.

Local Open Scope Z_scope.
Local Open Scope list_scope.

(* ===================================================================== *)
(** ** Characters and text *)
(* ===================================================================== *)

(** Text handed to a regular expression is a list of characters.  In the Go
    model a character is a byte; in the TypeScript model it is a UTF-16 code
    unit below 256. *)
Abbreviation text := (list ascii).

Definition chr (n : nat) : ascii := Ascii.ascii_of_nat n.

Definition dquote : ascii := chr 34.
Definition squote : ascii := chr 39.
Definition newline : ascii := chr 10.

Definition is_quote (c : ascii) : bool :=
  Ascii.eqb c dquote || Ascii.eqb c squote.

Definition txt (s : string) : text := String.list_ascii_of_string s.
Definition str (t : text) : string := String.string_of_list_ascii t.

(** Longest prefix of characters satisfying [p], and what follows it. *)
Fixpoint take_while (p : ascii -> bool) (s : text) : text :=
  match s with
  | c :: s' => if p c then c :: take_while p s' else []
  | [] => []
  end.

Fixpoint drop_while (p : ascii -> bool) (s : text) : text :=
  match s with
  | c :: s' => if p c then drop_while p s' else s
  | [] => []
  end.

(** [strip l s] removes the prefix [l] from [s] when [s] starts with it. *)
Fixpoint strip (l s : text) : option text :=
  match l, s with
  | [], _ => Some s
  | a :: l', b :: s' => if Ascii.eqb b a then strip l' s' else None
  | _ :: _, [] => None
  end.

(* ===================================================================== *)
(** ** Regular expressions with leftmost-first (backtracking) semantics *)
(* ===================================================================== *)

Module Regex.

(** The constructs used by the two patterns of the program. *)
Inductive regex : Type :=
| Chr (c : ascii)              (* a literal character *)
| Cls (p : ascii -> bool)      (* a character class, or [.] *)
| Eps                          (* the empty pattern *)
| Seq (r1 r2 : regex)          (* r1 r2 *)
| Opt (r : regex)              (* r?   greedy *)
| Star (r : regex)             (* r*   greedy *)
| Plus (r : regex)             (* r+   greedy *)
| Grp (r : regex)              (* (r)  capturing group 1 *)
| Eot.                         (* $ without the multi-line flag *)

Fixpoint lit (l : text) : regex :=
  match l with
  | [] => Eps
  | c :: l' => Seq (Chr c) (lit l')
  end.

Section Matcher.
Context {R : Type}.

(** A continuation receives the text still to be read and the capture. *)
Definition cont : Type := text -> option text -> option R.

(** Greedy iteration of a matcher [m]: one more round first, and the
    continuation when that fails.  A round that reads nothing is not
    repeated. *)
Fixpoint star (m : text -> option text -> cont -> option R)
    (n : nat) (s : text) (cap : option text) (k : cont) : option R :=
  match n with
  | O => k s cap
  | S n' =>
      match m s cap (fun s1 cap1 =>
                       if (length s1 <? length s)%nat
                       then star m n' s1 cap1 k else None) with
      | Some x => Some x
      | None => k s cap
      end
  end.

Fixpoint bt (r : regex) (s : text) (cap : option text) (k : cont)
    {struct r} : option R :=
  match r with
  | Chr c =>
      match s with
      | a :: s' => if Ascii.eqb a c then k s' cap else None
      | [] => None
      end
  | Cls p =>
      match s with
      | a :: s' => if p a then k s' cap else None
      | [] => None
      end
  | Eps => k s cap
  | Seq r1 r2 => bt r1 s cap (fun s1 cap1 => bt r2 s1 cap1 k)
  | Opt r1 =>
      match bt r1 s cap k with
      | Some x => Some x
      | None => k s cap
      end
  | Star r1 => star (bt r1) (length s) s cap k
  | Plus r1 =>
      bt r1 s cap (fun s1 cap1 => star (bt r1) (length s1) s1 cap1 k)
  | Grp r1 =>
      bt r1 s cap
         (fun s1 _ => k s1 (Some (take (length s - length s1)%nat s)))
  | Eot =>
      match s with
      | [] => k [] cap
      | _ :: _ => None
      end
  end.
End Matcher.

(** [m] reads one character of the class [p]. *)
Definition reads_class {R} (m : text -> option text -> @cont R -> option R)
    (p : ascii -> bool) : Prop :=
  forall s cap k,
    m s cap k =
    match s with
    | a :: s' => if p a then k s' cap else None
    | [] => None
    end.

(** A continuation that accepts whatever it is given. *)
Definition total {R} (k : @cont R) : Prop := forall s cap, is_Some (k s cap).

(** A match: the matched text and the text of group 1, if it took part. *)
Definition result : Type := text * option text.

(** Match attempt anchored at the start of [s]. *)
Definition match_here (r : regex) (s : text) : option result :=
  bt r s None
     (fun rest cap => Some (take (length s - length rest)%nat s, cap)).

(** Leftmost match: the first start position at which an attempt succeeds. *)
Fixpoint search (r : regex) (s : text) : option result :=
  match match_here r s with
  | Some m => Some m
  | None =>
      match s with
      | [] => None
      | _ :: s' => search r s'
      end
  end.

End Regex.

(* ===================================================================== *)
(** ** The two patterns of the program *)
(* ===================================================================== *)

(** The annotation key, a literal in both patterns (its dots are escaped). *)
Definition annotation_key : text :=
  txt "bmac.agent-install.openshift.io/hostname:".

Definition bm_node_prefix : text := txt "bm-node-".
Definition yaml_suffix : text := txt ".yaml".

Module Patterns.
Import Regex.

(** [bm-node-.+\.yaml$], for a given meaning of [.]. *)
Definition bmNodeFile (dot : ascii -> bool) : regex :=
  Seq (lit bm_node_prefix)
      (Seq (Plus (Cls dot)) (Seq (lit yaml_suffix) Eot)).

(** [key\s*["']?(value+)["']?], for given meanings of [\s] and of the
    class of the captured characters. *)
Definition hostname_tail (value : ascii -> bool) : regex :=
  Seq (Grp (Plus (Cls value))) (Opt (Cls is_quote)).

Definition hostname_after_key (space value : ascii -> bool) : regex :=
  Seq (Star (Cls space)) (Seq (Opt (Cls is_quote)) (hostname_tail value)).

Definition hostname (space value : ascii -> bool) : regex :=
  Seq (lit annotation_key) (hostname_after_key space value).

End Patterns.

(* ===================================================================== *)
(** ** The annotation in the words of the specification *)
(* ===================================================================== *)

Section Annotation.
Variable space : ascii -> bool.

(** A character that may belong to the value: neither blank nor quote. *)
Definition value_char (c : ascii) : bool := negb (is_quote c || space c).

(** [annotation_after post v]: right after the key comes optional blank
    space, an optional quote and the value [v], one or more value
    characters, as many as there are. *)
Definition annotation_after (post v : text) : Prop :=
  exists ws q rest,
    post = ws ++ q ++ v ++ rest /\
    Forall (fun c => space c = true) ws /\
    (q = [] \/ q = [squote] \/ q = [dquote]) /\
    v <> [] /\
    Forall (fun c => value_char c = true) v /\
    (rest = [] \/ exists c rest', rest = c :: rest' /\ value_char c = false).

(** The same, as a function of the text after the key. *)
Definition value_after (post : text) : option text :=
  let s1 := drop_while space post in
  let s2 := match s1 with
            | c :: t => if is_quote c then t else s1
            | [] => []
            end in
  match take_while value_char s2 with
  | [] => None
  | v => Some v
  end.

(** An attempt at position [n] of the content. *)
Definition attempt_at (s : text) (n : nat) : option text :=
  match strip annotation_key (drop n s) with
  | Some post => value_after post
  | None => None
  end.

(** First position of the content where the key is followed by a value. *)
Fixpoint first_annotation (s : text) : option text :=
  match (match strip annotation_key s with
         | Some post => value_after post
         | None => None
         end) with
  | Some v => Some v
  | None =>
      match s with
      | [] => None
      | _ :: s' => first_annotation s'
      end
  end.

(** [first_occurrence s v]: the key occurs in [s] followed by the value
    [v], and no occurrence of the key further left is followed by a value. *)
Definition first_occurrence (s v : text) : Prop :=
  exists pre post,
    s = pre ++ annotation_key ++ post /\
    annotation_after post v /\
    forall pre' post' v',
      s = pre' ++ annotation_key ++ post' ->
      annotation_after post' v' ->
      (length pre <= length pre')%nat.

(** [no_occurrence s]: nowhere in [s] is the key followed by a value. *)
Definition no_occurrence (s : text) : Prop :=
  forall pre post v,
    s = pre ++ annotation_key ++ post -> ~ annotation_after post v.
End Annotation.

(* ===================================================================== *)
(** ** Strings, as the two programs use them *)
(* ===================================================================== *)

Module Str.

(** Removal of the trailing characters that satisfy [p]. *)
Definition trim_right (p : ascii -> bool) (s : text) : text :=
  rev (drop_while p (rev s)).

(** Pieces of [s] between occurrences of the non-empty separator [sep];
    [cur] holds, reversed, the piece being read. *)
Fixpoint split_go (n : nat) (sep s cur : text) : list text :=
  match n with
  | O => [rev cur ++ s]
  | S n' =>
      match s with
      | [] => [rev cur]
      | c :: s' =>
          match strip sep s with
          | Some rest => rev cur :: split_go n' sep rest []
          | None => split_go n' sep s' (c :: cur)
          end
      end
  end.

Definition split (s sep : string) : list string :=
  str <$> split_go (length (txt s)) (txt sep) (txt s) [].

Fixpoint join (parts : list string) (sep : string) : string :=
  match parts with
  | [] => ""
  | [p] => p
  | p :: rest => p +:+ sep +:+ join rest sep
  end.

(** Decimal digits of a natural number, most significant first. *)
Fixpoint digits (fuel : nat) (n : N) (acc : text) : text :=
  match fuel with
  | O => acc
  | S fuel' =>
      let d := chr (48 + N.to_nat (n mod 10)) in
      if (n <? 10)%N then d :: acc
      else digits fuel' (n / 10)%N (d :: acc)
  end.

(** [%d] of an integer. *)
Definition itoa (z : Z) : string :=
  let n := Z.abs_N z in
  let ds := str (digits (S (N.to_nat (N.log2 n))) n []) in
  if (z <? 0)%Z then "-" +:+ ds else ds.

End Str.

(* ===================================================================== *)
(** ** The Go server ([backend/main.go]) *)
(* ===================================================================== *)

Module Go.
Import Regex.

(** *** Data *)

(** An [error] is modelled by its message ([err.Error()]). *)
Definition error : Type := string.

(** [GiteaFile]: a file or directory of a listing. *)
Record GiteaFile : Type := {
  Name : string;
  Type_ : string;
  DownloadURL : string
}.

(** [SiteHostnameInfo]: the record of one site. *)
Record SiteHostnameInfo : Type := {
  SitePath : string;
  Hostnames : list string;
  BMNodeFiles : list string;
  Errors : list string
}.

(** *** The regular expressions *)

(** [\s] of Go's regexp package: tab, line feed, form feed, carriage
    return and space. *)
Definition space (c : ascii) : bool :=
  let n := nat_of_ascii c in
  ((n =? 9) || (n =? 10) || (n =? 12) || (n =? 13) || (n =? 32))%nat.

(** [.] without the [s] flag. *)
Definition dot (c : ascii) : bool := negb (Ascii.eqb c newline).

(** The class of the captured characters: not a line feed (written as a
    line break inside the raw string), not a quote, not [\s]. *)
Definition value_class (c : ascii) : bool :=
  negb (Ascii.eqb c newline || is_quote c || space c).

Definition bmNodeFileRegex : regex := Patterns.bmNodeFile dot.
Definition hostnameRegex : regex := Patterns.hostname space value_class.

(** [re.MatchString(s)] *)
Definition MatchString (re : regex) (s : string) : bool :=
  match search re (txt s) with
  | Some _ => true
  | None => false
  end.

(** [re.FindStringSubmatch(s)]: the match and its group, or [nil]. *)
Definition FindStringSubmatch (re : regex) (s : string) : list string :=
  match search re (txt s) with
  | Some (whole, cap) => [str whole; str (default [] cap)]
  | None => []
  end.

(** *** The HTTP client, seen from the program *)

Definition Second : Z := 1000000000.
Definition VersionTLS12 : Z := 771.
Definition StatusOK : Z := 200.

Record TLSConfig : Type := {
  InsecureSkipVerify : bool;
  MinVersion : Z;
  MaxVersion : Z
}.

(** [http.Client] with its transport; [Timeout] in nanoseconds. *)
Record Client : Type := {
  TLSClientConfig : TLSConfig;
  Timeout : Z
}.

(** A response: status code, status line, and what [ioutil.ReadAll] of the
    body gives, the bytes read and the error that ended the reading. *)
Record Response : Type := {
  StatusCode : Z;
  Status : string;
  Body : string * option error
}.

(** What [client.Get] returns. *)
Inductive GetResult : Type :=
| GotResponse (resp : Response)
| GetFailed (err : error).

(** *** Programs *)

(** A started goroutine is named by the call of its [go] statement. *)
Inductive Goroutine : Type :=
| GoDiscover (repoURL currentPath branch : string)
| GoProducer (repoURL branch : string).

(** Programs over the effects of the server: the network, the log, the
    result channel, the wait group, [go] statements and panics. *)
Inductive Prog (A : Type) : Type :=
| Ret (a : A)
| Panic (msg : string)
| ClientGet (c : Client) (url : string) (k : GetResult -> Prog A)
| LogPrintf (line : string) (k : Prog A)
| ChanSend (v : SiteHostnameInfo) (k : Prog A)
| ChanClose (k : Prog A)
| WgAdd (delta : Z) (k : Prog A)
| WgDone (k : Prog A)
| WgWait (k : Prog A)
| GoStmt (g : Goroutine) (k : Prog A).

Arguments Ret {A} a.
Arguments Panic {A} msg.
Arguments ClientGet {A} c url k.
Arguments LogPrintf {A} line k.
Arguments ChanSend {A} v k.
Arguments ChanClose {A} k.
Arguments WgAdd {A} delta k.
Arguments WgDone {A} k.
Arguments WgWait {A} k.
Arguments GoStmt {A} g k.

Fixpoint bind {A B} (p : Prog A) (f : A -> Prog B) : Prog B :=
  match p with
  | Ret a => f a
  | Panic msg => Panic msg
  | ClientGet c url k => ClientGet c url (fun r => bind (k r) f)
  | LogPrintf line k => LogPrintf line (bind k f)
  | ChanSend v k => ChanSend v (bind k f)
  | ChanClose k => ChanClose (bind k f)
  | WgAdd d k => WgAdd d (bind k f)
  | WgDone k => WgDone (bind k f)
  | WgWait k => WgWait (bind k f)
  | GoStmt g k => GoStmt g (bind k f)
  end.

Notation "'do' x <- p ; q" := (bind p (fun x => q))
  (at level 10, x name, p at level 100, q at level 200).

(** [defer d] in front of the body [p]: [d] runs when [p] returns. *)
Definition defer (d : Prog unit) (p : Prog unit) : Prog unit := do _ <- p ; d.

(** [l[:n]] and [l[n]], which panic out of range. *)
Definition slice_to (l : list string) (n : Z) : Prog (list string) :=
  if (0 <=? n) && (n <=? Z.of_nat (length l))
  then Ret (take (Z.to_nat n) l)
  else Panic "runtime error: slice bounds out of range".

Definition index (l : list string) (n : Z) : Prog string :=
  if (0 <=? n) && (n <? Z.of_nat (length l))
  then Ret (nth (Z.to_nat n) l "")
  else Panic "runtime error: index out of range".

(** [strings.TrimRight(s, cutset)], [strings.Split], [strings.Join] *)
Definition TrimRight (s cutset : string) : string :=
  str (Str.trim_right (fun c => bool_decide (c ∈ txt cutset)) (txt s)).
Definition Split (s sep : string) : list string := Str.split s sep.
Definition Join (parts : list string) (sep : string) : string := Str.join parts sep.

Definition len {A} (l : list A) : Z := Z.of_nat (length l).

(** *** The functions of the server *)

Section Server.
(** [json.Unmarshal(body, &files)] for [files []GiteaFile]: the decoded
    slice, or [None] when it returns an error. *)
Variable json_Unmarshal : string -> option (list GiteaFile).

(** [fetchURL], lines 96 to 105: what is returned once [client.Get]
    has answered [r]. *)
Definition fetchURL_returns (url : string) (r : GetResult)
    : string * option error :=
  match r with
  | GetFailed err => ("", Some err)
  | GotResponse resp =>
      if negb (StatusCode resp =? StatusOK)
      then ("", Some ("HTTP " +:+ Str.itoa (StatusCode resp) +:+ ": "
                      +:+ Status resp +:+ " for " +:+ url))
      else Body resp
  end.

Definition fetchURL (url : string) : Prog (string * option error) :=
  let tr := {| InsecureSkipVerify := true;
               MinVersion := VersionTLS12;
               MaxVersion := VersionTLS12 |} in
  let client := {| TLSClientConfig := tr; Timeout := 15 * Second |} in
  ClientGet client url (fun r => Ret (fetchURL_returns url r)).

Definition convertToGiteaAPIURL (repoURL path branch : string) : Prog string :=
  let urlParts := Split (TrimRight repoURL "/") "/" in
  do base <- slice_to urlParts (len urlParts - 2) ;
  let baseURL := Join base "/" in
  do owner <- index urlParts (len urlParts - 2) ;
  do repo <- index urlParts (len urlParts - 1) ;
  let pathSegment := if bool_decide (path ≠ "") then "/" +:+ path else "" in
  Ret (baseURL +:+ "/api/v1/repos/" +:+ owner +:+ "/" +:+ repo
       +:+ "/contents" +:+ pathSegment +:+ "?ref=" +:+ branch).

Definition getGiteaDirectoryListing (repoURL path branch : string)
    : Prog (list GiteaFile * option error) :=
  do apiURL <- convertToGiteaAPIURL repoURL path branch ;
  do r <- fetchURL apiURL ;
  match r with
  | (_, Some err) => Ret ([], Some err)
  | (body, None) =>
      match json_Unmarshal body with
      | None => Ret ([], None)
      | Some files => Ret (files, None)
      end
  end.

(** The test of lines 139 and 157. *)
Definition isBMNodeFile (item : GiteaFile) : bool :=
  bool_decide (Type_ item = "file") && MatchString bmNodeFileRegex (Name item).

Definition isSiteDirectory (items : list GiteaFile) : bool :=
  existsb isBMNodeFile items.

Definition constructRawURL (repoURL filePath branch : string) : Prog string :=
  let urlParts := Split (TrimRight repoURL "/") "/" in
  do owner <- index urlParts (len urlParts - 2) ;
  do repo <- index urlParts (len urlParts - 1) ;
  do base <- slice_to urlParts (len urlParts - 2) ;
  let baseURL := Join base "/" in
  Ret (baseURL +:+ "/" +:+ owner +:+ "/" +:+ repo +:+ "/raw/branch/"
       +:+ branch +:+ "/" +:+ filePath).

(** Lines 168 to 173: the match and the test of its length. *)
Definition matchHostname (content : string) : option string :=
  let match_ := FindStringSubmatch hostnameRegex content in
  if 1 <? len match_ then Some (nth 1 match_ "") else None.

Definition appendHostname (si : SiteHostnameInfo) (h : string) : SiteHostnameInfo :=
  {| SitePath := SitePath si; Hostnames := Hostnames si ++ [h];
     BMNodeFiles := BMNodeFiles si; Errors := Errors si |}.
Definition appendBMNodeFile (si : SiteHostnameInfo) (f : string) : SiteHostnameInfo :=
  {| SitePath := SitePath si; Hostnames := Hostnames si;
     BMNodeFiles := BMNodeFiles si ++ [f]; Errors := Errors si |}.
Definition appendError (si : SiteHostnameInfo) (e : string) : SiteHostnameInfo :=
  {| SitePath := SitePath si; Hostnames := Hostnames si;
     BMNodeFiles := BMNodeFiles si; Errors := Errors si ++ [e] |}.

(** The loop of [processSiteDirectory] over the listing. *)
Fixpoint processSiteDirectory_loop (repoURL sitePath branch : string)
    (items : list GiteaFile) (siteInfo : SiteHostnameInfo)
    : Prog SiteHostnameInfo :=
  match items with
  | [] => Ret siteInfo
  | file :: rest =>
      if isBMNodeFile file then
        let siteInfo := appendBMNodeFile siteInfo (Name file) in
        do fileURL <- constructRawURL repoURL (sitePath +:+ "/" +:+ Name file) branch ;
        do r <- fetchURL fileURL ;
        match r with
        | (_, Some err) =>
            processSiteDirectory_loop repoURL sitePath branch rest
              (appendError siteInfo
                 ("Error processing " +:+ Name file +:+ ": " +:+ err))
        | (content, None) =>
            match matchHostname content with
            | Some h =>
                processSiteDirectory_loop repoURL sitePath branch rest
                  (appendHostname siteInfo h)
            | None =>
                processSiteDirectory_loop repoURL sitePath branch rest
                  (appendError siteInfo
                     ("No hostname annotation found in " +:+ Name file))
            end
        end
      else processSiteDirectory_loop repoURL sitePath branch rest siteInfo
  end.

Definition processSiteDirectory (repoURL sitePath branch : string) : Prog unit :=
  let siteInfo := {| SitePath := sitePath; Hostnames := [];
                     BMNodeFiles := []; Errors := [] |} in
  do r <- getGiteaDirectoryListing repoURL sitePath branch ;
  match r with
  | (_, Some err) =>
      ChanSend (appendError siteInfo err) (Ret tt)
  | (items, None) =>
      do siteInfo <- processSiteDirectory_loop repoURL sitePath branch items siteInfo ;
      ChanSend siteInfo (Ret tt)
  end.

(** The loop of [discoverSitesRecursively] over the listing. *)
Fixpoint discoverSitesRecursively_loop (repoURL currentPath branch : string)
    (items : list GiteaFile) : Prog unit :=
  match items with
  | [] => Ret tt
  | subdir :: rest =>
      if bool_decide (Type_ subdir = "dir") then
        let dirPath := if bool_decide (currentPath ≠ "")
                       then currentPath +:+ "/" +:+ Name subdir
                       else Name subdir in
        WgAdd 1 (GoStmt (GoDiscover repoURL dirPath branch)
                   (discoverSitesRecursively_loop repoURL currentPath branch rest))
      else discoverSitesRecursively_loop repoURL currentPath branch rest
  end.

Definition discoverSitesRecursively (repoURL currentPath branch : string)
    : Prog unit :=
  defer (WgDone (Ret tt))
    (do r <- getGiteaDirectoryListing repoURL currentPath branch ;
     match r with
     | (_, Some err) =>
         LogPrintf ("Error getting directory listing for " +:+ currentPath
                    +:+ ": " +:+ err) (Ret tt)
     | (items, None) =>
         do _ <- (if isSiteDirectory items then
                    let pathKey := if bool_decide (currentPath = "") then "root"
                                   else currentPath in
                    processSiteDirectory repoURL pathKey branch
                  else Ret tt) ;
         discoverSitesRecursively_loop repoURL currentPath branch items
     end).

Definition extractHostnamesFromGiteaRepository (repoURL branch : string)
    : Prog unit :=
  WgAdd 1 (GoStmt (GoDiscover repoURL "" branch) (WgWait (Ret tt))).

(** The goroutine started by [dataHandler]. *)
Definition producer (repoURL branch : string) : Prog unit :=
  defer (ChanClose (Ret tt))
    (extractHostnamesFromGiteaRepository repoURL branch).

(** The body run by a goroutine. *)
Definition body (g : Goroutine) : Prog unit :=
  match g with
  | GoDiscover repoURL currentPath branch =>
      discoverSitesRecursively repoURL currentPath branch
  | GoProducer repoURL branch => producer repoURL branch
  end.

(** *** One program run alone *)

(** What a program does, one action per effect. *)
Inductive Action : Type :=
| AGet (c : Client) (url : string) (r : GetResult)
| ALog (line : string)
| ASend (v : SiteHostnameInfo)
| AClose
| AAdd (delta : Z)
| ADone
| AWait
| AGo (g : Goroutine)
| APanic (msg : string).

(** The network: the answer to the [n]-th request of the run. *)
Definition Network : Type := nat -> GetResult.

(** [run p net n]: the actions of [p] when nothing makes it wait, the
    number of the next request, and the value returned unless [p]
    panics; the requests are numbered from [n]. *)
Fixpoint run {A} (p : Prog A) (net : Network) (n : nat)
    : list Action * nat * option A :=
  match p with
  | Ret a => ([], n, Some a)
  | Panic msg => ([APanic msg], n, None)
  | ClientGet c url k =>
      let '(t, m, a) := run (k (net n)) net (S n) in
      (AGet c url (net n) :: t, m, a)
  | LogPrintf line k =>
      let '(t, m, a) := run k net n in (ALog line :: t, m, a)
  | ChanSend v k =>
      let '(t, m, a) := run k net n in (ASend v :: t, m, a)
  | ChanClose k =>
      let '(t, m, a) := run k net n in (AClose :: t, m, a)
  | WgAdd d k =>
      let '(t, m, a) := run k net n in (AAdd d :: t, m, a)
  | WgDone k =>
      let '(t, m, a) := run k net n in (ADone :: t, m, a)
  | WgWait k =>
      let '(t, m, a) := run k net n in (AWait :: t, m, a)
  | GoStmt g k =>
      let '(t, m, a) := run k net n in (AGo g :: t, m, a)
  end.

(** The records sent, the requests made and the goroutines started. *)
Definition sent (t : list Action) : list SiteHostnameInfo :=
  omap (fun a => match a with ASend v => Some v | _ => None end) t.
Definition requested (t : list Action) : list string :=
  omap (fun a => match a with AGet _ url _ => Some url | _ => None end) t.
Definition started (t : list Action) : list Goroutine :=
  omap (fun a => match a with AGo g => Some g | _ => None end) t.

(** *** All goroutines together *)

(** The handler loops over the channel: it waits for a record, writes
    the one it received, or has seen the channel closed. *)
Inductive Handler : Type :=
| Receiving
| Writing (v : SiteHostnameInfo)
| Finished.

(** What has happened, oldest first: an action of goroutine [i], a frame
    written by the handler, the handler leaving its loop. *)
Inductive Event : Type :=
| EvGoroutine (i : nat) (a : Action)
| EvWrite (v : SiteHostnameInfo)
| EvEndOfStream.

Record State : Type := {
  goroutines : list (Goroutine * Prog unit);
  wg : Z;
  closed : bool;
  handler : Handler;
  written : list SiteHostnameInfo;
  panicked : option string;
  events : list Event
}.

(** Goroutine [i] goes on as [k] after the action [a]. *)
Definition advance (s : State) (i : nat) (g : Goroutine) (k : Prog unit)
    (a : Action) : State :=
  {| goroutines := <[i := (g, k)]> (goroutines s);
     wg := wg s; closed := closed s; handler := handler s;
     written := written s; panicked := panicked s;
     events := events s ++ [EvGoroutine i a] |}.

Definition crash (s : State) (i : nat) (msg : string) : State :=
  {| goroutines := goroutines s;
     wg := wg s; closed := closed s; handler := handler s;
     written := written s; panicked := Some msg;
     events := events s ++ [EvGoroutine i (APanic msg)] |}.

Definition with_wg (s : State) (n : Z) : State :=
  {| goroutines := goroutines s;
     wg := n; closed := closed s; handler := handler s;
     written := written s; panicked := panicked s; events := events s |}.

Definition with_closed (s : State) : State :=
  {| goroutines := goroutines s;
     wg := wg s; closed := true; handler := handler s;
     written := written s; panicked := panicked s; events := events s |}.

Definition with_handler (s : State) (h : Handler) : State :=
  {| goroutines := goroutines s;
     wg := wg s; closed := closed s; handler := h;
     written := written s; panicked := panicked s; events := events s |}.

Definition with_started (s : State) (g : Goroutine) : State :=
  {| goroutines := goroutines s ++ [(g, body g)];
     wg := wg s; closed := closed s; handler := handler s;
     written := written s; panicked := panicked s; events := events s |}.

(** The scheduler picks a goroutine, for which the network picks an
    answer should it be about to make a request, or the handler. *)
Inductive Choice : Type :=
| RunGoroutine (i : nat) (r : GetResult)
| RunHandler.

(** One step; [None] when the chosen party cannot move. *)
Definition step (s : State) (c : Choice) : option State :=
  match panicked s with
  | Some _ => None
  | None =>
      match c with
      | RunHandler =>
          match handler s with
          | Receiving =>
              if closed s then
                Some {| goroutines := goroutines s; wg := wg s;
                        closed := closed s; handler := Finished;
                        written := written s; panicked := panicked s;
                        events := events s ++ [EvEndOfStream] |}
              else None
          | Writing v =>
              Some {| goroutines := goroutines s; wg := wg s;
                      closed := closed s; handler := Receiving;
                      written := written s ++ [v]; panicked := panicked s;
                      events := events s ++ [EvWrite v] |}
          | Finished => None
          end
      | RunGoroutine i r =>
          match goroutines s !! i with
          | None => None
          | Some (g, p) =>
              match p with
              | Ret _ => None
              | Panic msg => Some (crash s i msg)
              | ClientGet c url k => Some (advance s i g (k r) (AGet c url r))
              | LogPrintf line k => Some (advance s i g k (ALog line))
              | ChanSend v k =>
                  if closed s then Some (crash s i "send on closed channel")
                  else
                    match handler s with
                    | Receiving =>
                        Some (advance (with_handler s (Writing v)) i g k (ASend v))
                    | _ => None
                    end
              | ChanClose k =>
                  if closed s then Some (crash s i "close of closed channel")
                  else Some (advance (with_closed s) i g k AClose)
              | WgAdd d k =>
                  if wg s + d <? 0
                  then Some (crash s i "sync: negative WaitGroup counter")
                  else Some (advance (with_wg s (wg s + d)) i g k (AAdd d))
              | WgDone k =>
                  if wg s - 1 <? 0
                  then Some (crash s i "sync: negative WaitGroup counter")
                  else Some (advance (with_wg s (wg s - 1)) i g k ADone)
              | WgWait k =>
                  if wg s =? 0 then Some (advance s i g k AWait) else None
              | GoStmt g' k =>
                  Some (advance (with_started s g') i g k (AGo g'))
              end
          end
      end
  end.

Fixpoint exec (s : State) (cs : list Choice) : option State :=
  match cs with
  | [] => Some s
  | c :: cs' =>
      match step s c with
      | Some s' => exec s' cs'
      | None => None
      end
  end.

(** A schedule names the party of each step, [None] for the handler;
    [drive remote s schedule] are the choices of that schedule when the
    network is the remote [remote], which answers by address. *)
Definition pending_url (s : State) (i : nat) : option string :=
  match goroutines s !! i with
  | Some (_, ClientGet _ url _) => Some url
  | _ => None
  end.

Fixpoint drive (remote : string -> GetResult) (s : State)
    (schedule : list (option nat)) : list Choice :=
  match schedule with
  | [] => []
  | who :: rest =>
      let c := match who with
               | None => RunHandler
               | Some i =>
                   RunGoroutine i match pending_url s i with
                                  | Some url => remote url
                                  | None => GetFailed ""
                                  end
               end in
      c :: match step s c with
           | Some s' => drive remote s' rest
           | None => []
           end
  end.

(** [dataHandler] from the creation of the channel on: the producer
    goroutine is started and the handler enters its loop. *)
Definition dataHandler_start (repoURL branch : string) : State :=
  {| goroutines := [(GoProducer repoURL branch, body (GoProducer repoURL branch))];
     wg := 0; closed := false; handler := Receiving;
     written := []; panicked := None; events := [] |}.

Definition reachable (repoURL branch : string) (s : State) : Prop :=
  exists cs, exec (dataHandler_start repoURL branch) cs = Some s.

(** No party can move. *)
Definition stuck (s : State) : Prop := forall c, step s c = None.

(** The run is over: every goroutine has returned and the handler has
    left its loop. *)
Definition finished (s : State) : Prop :=
  panicked s = None /\ closed s = true /\ handler s = Finished /\
  Forall (fun gp => gp.2 = Ret tt) (goroutines s).
End Server.

(** The repository and the branch of [dataHandler]. *)
Definition repoURL : string := "https://codeview.jio.indradhanus.com/indradhanus/sites".
Definition branch : string := "prod".

End Go.

(* ===================================================================== *)
(** ** The TypeScript extractor (class [BMNodeHostnameExtractor]) *)
(* ===================================================================== *)

Module TS.
Import Regex.

(** *** Data *)

(** An object of a listing: its properties [type], [name] and
    [download_url] are strings when present.  An element of a listing is
    such an object or [null], written [None]; a number, a string or a
    boolean in that place has no property and reads as the object without
    any. *)
Record Item : Type := {
  type_ : option string;
  name : option string;
  download_url : option string
}.

Record SiteHostnameInfo : Type := {
  sitePath : string;
  hostnames : list string;
  bmNodeFiles : list string;
  errors : list string
}.

(** A string is truthy when it is not empty; [undefined] is falsy. *)
Definition truthy (s : option string) : bool :=
  match s with
  | Some v => bool_decide (v ≠ "")
  | None => false
  end.

(** A property inside a template literal. *)
Definition template (s : option string) : string := default "undefined" s.

(** *** The regular expressions *)

(** Text is read as code units below 256.  [\s] on these: tab, line
    feed, vertical tab, form feed, carriage return, space and no-break
    space.  Above 255, which this text does not hold, [\s] has further
    members, and [.] rejects the separators U+2028 and U+2029; the Go
    server reads text as bytes, and the two readings are the same on
    ASCII only. *)
Definition space (c : ascii) : bool :=
  let n := nat_of_ascii c in
  ((n =? 9) || (n =? 10) || (n =? 11) || (n =? 12) || (n =? 13)
   || (n =? 32) || (n =? 160))%nat.

(** [.] on the code units below 256: anything but the line terminators. *)
Definition dot (c : ascii) : bool :=
  let n := nat_of_ascii c in negb ((n =? 10) || (n =? 13))%nat.

(** The class of the captured characters: not a quote, not [\s]. *)
Definition value_class (c : ascii) : bool := negb (is_quote c || space c).

Definition bmNodeFileRegex : regex := Patterns.bmNodeFile dot.
Definition hostnameRegex : regex := Patterns.hostname space value_class.

(** [re.test(s)] *)
Definition test (re : regex) (s : string) : bool :=
  match search re (txt s) with
  | Some _ => true
  | None => false
  end.

(** [s.match(re)] for a pattern without the [g] flag: the match and its
    group, or [null]. *)
Definition match_ (s : string) (re : regex) : option (list (option string)) :=
  match search re (txt s) with
  | Some (whole, cap) => Some [Some (str whole); str <$> cap]
  | None => None
  end.

(** *** One HTTP request, seen from the program *)

(** [https.Agent] options. *)
Record Agent : Type := {
  rejectUnauthorized : bool;
  timeout : Z
}.

Inductive Client : Type := Https | Http.

(** What happens to a request: the response callback runs, with the
    status, the [location] header and the data received until [end]; the
    response callback runs with status 200 and the response never emits
    [end], the connection being cut after the headers, a case for which
    [fetchUrl] has no listener; the request emits [error]; its timer
    fires first; or [get] itself throws. *)
Inductive HttpEvent : Type :=
| Response (statusCode : Z) (statusMessage : string)
           (location : option string) (data : string)
| ResponseCut
| RequestError (message : string)
| RequestTimeout
| GetThrows (message : string).

(** *** Programs *)

(** Programs over the effects of the extractor: requests, updates of the
    site map, calls of the walk, and exceptions.  [GiveUp] stands for a
    computation without a result: a promise that stays pending for ever,
    or a computation the model follows no further. *)
Inductive Prog (A : Type) : Type :=
| Ret (a : A)
| Throw (message : string)
| GiveUp
| HttpGet (client : Client) (url : string) (agent : option Agent)
          (setTimeout : Z) (k : HttpEvent -> Prog A)
| MapSet (key : string) (value : SiteHostnameInfo) (k : Prog A)
| Call (currentPath : string) (k : Prog A).

Arguments Ret {A} a.
Arguments Throw {A} message.
Arguments GiveUp {A}.
Arguments HttpGet {A} client url agent setTimeout k.
Arguments MapSet {A} key value k.
Arguments Call {A} currentPath k.

Fixpoint bind {A B} (p : Prog A) (f : A -> Prog B) : Prog B :=
  match p with
  | Ret a => f a
  | Throw e => Throw e
  | GiveUp => GiveUp
  | HttpGet c url ag t k => HttpGet c url ag t (fun ev => bind (k ev) f)
  | MapSet key v k => MapSet key v (bind k f)
  | Call path k => Call path (bind k f)
  end.

(** [try { p } catch (error) { h error }] *)
Fixpoint try_catch {A} (p : Prog A) (h : string -> Prog A) : Prog A :=
  match p with
  | Ret a => Ret a
  | Throw e => h e
  | GiveUp => GiveUp
  | HttpGet c url ag t k => HttpGet c url ag t (fun ev => try_catch (k ev) h)
  | MapSet key v k => MapSet key v (try_catch k h)
  | Call path k => Call path (try_catch k h)
  end.

Notation "'do' x <- p ; q" := (bind p (fun x => q))
  (at level 10, x name, p at level 100, q at level 200).

(** *** String helpers of the class *)

Definition startsWith (s prefix : string) : bool :=
  match strip (txt prefix) (txt s) with
  | Some _ => true
  | None => false
  end.

(** [s.replace(/\/$/, '')]: one trailing slash is removed. *)
Definition replace_trailing_slash (s : string) : string :=
  match rev (txt s) with
  | c :: r => if Ascii.eqb c "/" then str (rev r) else s
  | [] => s
  end.

Definition split (s sep : string) : list string := Str.split s sep.
Definition join (parts : list string) (sep : string) : string := Str.join parts sep.

(** [l.slice(0, -2)] *)
Definition slice_0_minus2 (l : list string) : list string :=
  take (length l - 2)%nat l.

(** [l[l.length - k]], [undefined] out of range. *)
Definition from_end (l : list string) (k : nat) : option string :=
  if (k <=? length l)%nat then l !! (length l - k)%nat else None.

(** *** The methods of the class *)

Section Extractor.
(** [JSON.parse(response)] followed by [Array.isArray]: an array of
    items, another value, or [None] when [JSON.parse] throws. *)
Inductive JSValue : Type :=
| JSArray (items : list (option Item))
| JSOther.

(** The message of the [TypeError] that reading the property [type] of
    [null] throws, in the words of V8. *)
Definition TypeError_null : string :=
  "Cannot read properties of null (reading 'type')".

(** [items.some(test)], where [test] reads [item.type] first: it stops
    at the first element that passes, and throws at a [null] it
    reaches. *)
Fixpoint some (test : Item -> bool) (items : list (option Item)) : Prog bool :=
  match items with
  | [] => Ret false
  | None :: _ => Throw TypeError_null
  | Some item :: rest => if test item then Ret true else some test rest
  end.

(** [items.filter(test)], where [test] reads [item.type] first: it
    visits every element, and throws at the first [null]. *)
Fixpoint filter_ (test : Item -> bool) (items : list (option Item))
    : Prog (list Item) :=
  match items with
  | [] => Ret []
  | None :: _ => Throw TypeError_null
  | Some item :: rest =>
      do kept <- filter_ test rest ;
      Ret (if test item then item :: kept else kept)
  end.

Variable JSON_parse : string -> option JSValue.

(** How many redirects, and how many levels of directories, the model
    follows. *)
Variable fuel : nat.

Definition createInsecureAgent : Agent :=
  {| rejectUnauthorized := false; timeout := 15000 |}.

Fixpoint fetchUrl_fuel (n : nat) (url : string) : Prog string :=
  let isHttps := startsWith url "https://" in
  let client := if isHttps then Https else Http in
  let agent := if isHttps then Some createInsecureAgent else None in
  HttpGet client url agent 15000 (fun ev =>
    match ev with
    | Response statusCode statusMessage location data =>
        if ((statusCode =? 301) || (statusCode =? 302)) && truthy location
        then
          match n with
          | S n' => fetchUrl_fuel n' (default "" location)
          | O => GiveUp
          end
        else if negb (statusCode =? 200)
        then Throw ("HTTP " +:+ Str.itoa statusCode +:+ ": " +:+ statusMessage
                    +:+ " for " +:+ url)
        else Ret data
    | ResponseCut => GiveUp
    | RequestError message =>
        Throw ("Request failed for " +:+ url +:+ ": " +:+ message)
    | RequestTimeout => Throw ("Request timeout for " +:+ url)
    | GetThrows message => Throw message
    end).

Definition fetchUrl (url : string) : Prog string := fetchUrl_fuel fuel url.

Definition convertToGiteaApiUrl (repoUrl path branch : string) : string :=
  let urlParts := split (replace_trailing_slash repoUrl) "/" in
  let baseUrl := join (slice_0_minus2 urlParts) "/" in
  let owner := from_end urlParts 2 in
  let repo := from_end urlParts 1 in
  let pathSegment := if bool_decide (path ≠ "") then "/" +:+ path else "" in
  baseUrl +:+ "/api/v1/repos/" +:+ template owner +:+ "/" +:+ template repo
  +:+ "/contents" +:+ pathSegment +:+ "?ref=" +:+ branch.

Definition getGiteaDirectoryListing (repoUrl path branch : string)
    : Prog (list (option Item)) :=
  try_catch
    (let apiUrl := convertToGiteaApiUrl repoUrl path branch in
     do response <- fetchUrl apiUrl ;
     match JSON_parse response with
     | None => Throw "Unexpected token in JSON"
     | Some JSOther => Throw "Unexpected response format from Gitea API"
     | Some (JSArray items) => Ret items
     end)
    (fun _ => Ret []).

(** The test of lines 132 to 134 and 156 to 158. *)
Definition isBMNodeFile (item : Item) : bool :=
  bool_decide (type_ item = Some "file") && truthy (name item)
  && test bmNodeFileRegex (default "" (name item)).

Definition isSiteDirectory (items : list (option Item)) : Prog bool :=
  some isBMNodeFile items.

Definition constructRawUrl (repoUrl filePath branch : string) : string :=
  let urlParts := split (replace_trailing_slash repoUrl) "/" in
  let owner := from_end urlParts 2 in
  let repo := from_end urlParts 1 in
  let baseUrl := join (slice_0_minus2 urlParts) "/" in
  baseUrl +:+ "/" +:+ template owner +:+ "/" +:+ template repo
  +:+ "/raw/branch/" +:+ branch +:+ "/" +:+ filePath.

Definition extractHostnameFromContent (content : string) : option string :=
  match match_ content hostnameRegex with
  | Some m => default None (m !! 1%nat)
  | None => None
  end.

Definition push_hostname (si : SiteHostnameInfo) (h : string) : SiteHostnameInfo :=
  {| sitePath := sitePath si; hostnames := hostnames si ++ [h];
     bmNodeFiles := bmNodeFiles si; errors := errors si |}.
Definition push_bmNodeFile (si : SiteHostnameInfo) (f : string) : SiteHostnameInfo :=
  {| sitePath := sitePath si; hostnames := hostnames si;
     bmNodeFiles := bmNodeFiles si ++ [f]; errors := errors si |}.
Definition push_error (si : SiteHostnameInfo) (e : string) : SiteHostnameInfo :=
  {| sitePath := sitePath si; hostnames := hostnames si;
     bmNodeFiles := bmNodeFiles si; errors := errors si ++ [e] |}.

(** The loop of [processSiteDirectory] over the matched files; the
    record is the object the loop pushes into. *)
Fixpoint processSiteDirectory_loop (repoUrl sitePath branch : string)
    (bmNodeFiles : list Item) (siteInfo : SiteHostnameInfo)
    : Prog SiteHostnameInfo :=
  match bmNodeFiles with
  | [] => Ret siteInfo
  | file :: rest =>
      let fileName := default "" (name file) in
      let fileUrl :=
        if truthy (download_url file) then default "" (download_url file)
        else constructRawUrl repoUrl (sitePath +:+ "/" +:+ fileName) branch in
      let siteInfo := push_bmNodeFile siteInfo fileName in
      do siteInfo <-
        try_catch
          (do content <- fetchUrl fileUrl ;
           match extractHostnameFromContent content with
           | Some hostname =>
               if bool_decide (hostname ≠ "")
               then Ret (push_hostname siteInfo hostname)
               else Ret (push_error siteInfo
                           ("No hostname annotation found in " +:+ fileName))
           | None =>
               Ret (push_error siteInfo
                      ("No hostname annotation found in " +:+ fileName))
           end)
          (fun message =>
             Ret (push_error siteInfo
                    ("Error processing " +:+ fileName +:+ ": " +:+ message))) ;
      processSiteDirectory_loop repoUrl sitePath branch rest siteInfo
  end.

Definition processSiteDirectory (repoUrl sitePath branch : string)
    : Prog SiteHostnameInfo :=
  let siteInfo := {| sitePath := sitePath; hostnames := [];
                     bmNodeFiles := []; errors := [] |} in
  try_catch
    (do items <- getGiteaDirectoryListing repoUrl sitePath branch ;
     do bmNodeFiles <- filter_ isBMNodeFile items ;
     processSiteDirectory_loop repoUrl sitePath branch bmNodeFiles siteInfo)
    (fun message =>
       Ret (push_error siteInfo
              ("Error processing site directory " +:+ sitePath +:+ ": "
               +:+ message))).

(** The walk.  [n] bounds the depth of the calls. *)
Fixpoint discoverSitesRecursively_fuel (n : nat)
    (repoUrl currentPath branch : string) : Prog unit :=
  try_catch
    (do items <- getGiteaDirectoryListing repoUrl currentPath branch ;
     do site <- isSiteDirectory items ;
     do _ <- (if site then
                do siteInfo <- processSiteDirectory repoUrl currentPath branch ;
                MapSet (if bool_decide (currentPath ≠ "") then currentPath
                        else "root") siteInfo (Ret tt)
              else Ret tt) ;
     do subdirectories <-
       filter_ (fun item => bool_decide (type_ item = Some "dir")) items ;
     (fix loop (subdirs : list Item) : Prog unit :=
        match subdirs with
        | [] => Ret tt
        | subdir :: rest =>
            let dirPath :=
              if bool_decide (currentPath ≠ "")
              then currentPath +:+ "/" +:+ template (name subdir)
              else default "" (name subdir) in
            do _ <- Call dirPath
                      match n with
                      | S n' => discoverSitesRecursively_fuel n' repoUrl dirPath branch
                      | O => GiveUp
                      end ;
            loop rest
        end) subdirectories)
    (fun _ => Ret tt).

Definition discoverSitesRecursively (repoUrl currentPath branch : string)
    : Prog unit :=
  discoverSitesRecursively_fuel fuel repoUrl currentPath branch.

(** The map a method returns: the one the walk fills, or a new one. *)
Inductive MapRef : Type := SiteMap | NewMap.

(** [branch] is [undefined] when the caller leaves it out. *)
Definition extractHostnamesFromGiteaRepository (repoUrl : string)
    (branch : option string) : Prog MapRef :=
  try_catch
    (do _ <- Call "" (discoverSitesRecursively repoUrl ""
                        (default "dev" branch)) ;
     Ret SiteMap)
    (fun _ => Ret NewMap).

(** *** Runs *)

Inductive Action : Type :=
| AGet (client : Client) (url : string) (agent : option Agent)
       (setTimeout : Z) (ev : HttpEvent)
| ASet (key : string) (value : SiteHostnameInfo)
| ACall (currentPath : string).

(** How a run ends: a value, an exception, or no result (the promise
    stays pending, or the model gives up). *)
Inductive Result (A : Type) : Type :=
| Returned (a : A)
| Threw (message : string)
| GaveUp.
Arguments Returned {A} a.
Arguments Threw {A} message.
Arguments GaveUp {A}.

(** The network: what happens to the [n]-th request of the run. *)
Definition Network : Type := nat -> HttpEvent.

(** [run p net n m]: the actions of [p], the number of the next
    request, the site map and the result; the requests are numbered from
    [n] and the site map starts as [m]. *)
Fixpoint run {A} (p : Prog A) (net : Network) (n : nat)
    (m : gmap string SiteHostnameInfo)
    : list Action * nat * gmap string SiteHostnameInfo * Result A :=
  match p with
  | Ret a => ([], n, m, Returned a)
  | Throw e => ([], n, m, Threw e)
  | GiveUp => ([], n, m, GaveUp)
  | HttpGet c url ag t k =>
      let '(tr, n', m', r) := run (k (net n)) net (S n) m in
      (AGet c url ag t (net n) :: tr, n', m', r)
  | MapSet key v k =>
      let '(tr, n', m', r) := run k net n (<[key := v]> m) in
      (ASet key v :: tr, n', m', r)
  | Call path k =>
      let '(tr, n', m', r) := run k net n m in
      (ACall path :: tr, n', m', r)
  end.

(** The map [extractHostnamesFromGiteaRepository] resolves to. *)
Definition resolved_map (net : Network) (repoUrl : string)
    (branch : option string) : option (gmap string SiteHostnameInfo) :=
  match run (extractHostnamesFromGiteaRepository repoUrl branch) net 0 ∅ with
  | (_, _, m, Returned SiteMap) => Some m
  | (_, _, _, Returned NewMap) => Some ∅
  | _ => None
  end.
End Extractor.

Arguments Returned {A} a.
Arguments Threw {A} message.
Arguments GaveUp {A}.

End TS.

(* ===================================================================== *)
(** ** The properties, in the words of the specification *)
(* ===================================================================== *)

(** The three quoting styles of one annotation line: the key, blank space,
    and the value bare, in single quotes or in double quotes.  A bare value
    ends where the text ends or a blank or a quote follows. *)
Definition annotation_line (space : ascii -> bool) (ws q v tail : text) : Prop :=
  Forall (fun c => space c = true) ws /\
  (q = [] \/ q = [squote] \/ q = [dquote]) /\
  v <> [] /\
  Forall (fun c => value_char space c = true) v /\
  (q = [] -> tail = [] \/ exists c t, tail = c :: t /\ value_char space c = false).

(** [extract] is the Annotation Extractor for the blank characters [space]:
    it returns the value of the first occurrence, whatever the quoting style,
    and nothing when there is no occurrence. *)
Definition extracts_first_annotation (space : ascii -> bool)
    (extract : string -> option string) : Prop :=
  (forall content v,
     extract content = Some v <-> first_occurrence space (txt content) (txt v)) /\
  (forall content,
     extract content = None <-> no_occurrence space (txt content)) /\
  (forall pre ws q v tail content,
     annotation_line space ws q v tail ->
     content = pre ++ annotation_key ++ ws ++ q ++ v ++ q ++ tail ->
     (forall pre' post' v',
        content = pre' ++ annotation_key ++ post' ->
        annotation_after space post' v' ->
        (length pre <= length pre')%nat) ->
     extract (str content) = Some (str v)).

(** The claim as it is worded, the annotation on a line: after the key
    come, on the same line, optional blank space, an optional quote and the
    value [v]; the blank space holds no line break. *)
Definition line_break (c : ascii) : bool :=
  Ascii.eqb c newline || Ascii.eqb c (chr 13).

Definition annotation_on_line (space : ascii -> bool) (post v : text) : Prop :=
  exists ws q rest,
    post = ws ++ q ++ v ++ rest /\
    Forall (fun c => space c = true /\ line_break c = false) ws /\
    (q = [] \/ q = [squote] \/ q = [dquote]) /\
    v <> [] /\
    Forall (fun c => value_char space c = true) v.

(** The claim that content without such a line gives nothing. *)
Definition absent_without_line (space : ascii -> bool)
    (extract : string -> option string) : Prop :=
  forall content,
    (forall pre post v,
       txt content = pre ++ annotation_key ++ post ->
       ~ annotation_on_line space post v) ->
    extract content = None.

(** The outcomes of the matched files of a site: a hostname or an error
    message each. *)
Definition hostnames_of (outcomes : list (string + string)) : list string :=
  omap (fun o => match o with inl h => Some h | inr _ => None end) outcomes.
Definition errors_of (outcomes : list (string + string)) : list string :=
  omap (fun o => match o with inl _ => None | inr e => Some e end) outcomes.

Module GoSpec.
Import Go.

(** The client [fetchURL] builds for each request. *)
Definition the_client : Client :=
  {| TLSClientConfig := {| InsecureSkipVerify := true;
                           MinVersion := VersionTLS12;
                           MaxVersion := VersionTLS12 |};
     Timeout := 15 * Second |}.

(** A repository address with an owner and a name to be read from it. *)
Definition well_formed (repoURL : string) : bool :=
  2 <=? len (Split (TrimRight repoURL "/") "/").

(** The address [constructRawURL] returns, when it returns. *)
Definition rawURL (repoURL filePath branch : string) : string :=
  match constructRawURL repoURL filePath branch with
  | Ret u => u
  | _ => ""
  end.

(** The address [convertToGiteaAPIURL] returns, when it returns. *)
Definition apiURL (repoURL path branch : string) : string :=
  match convertToGiteaAPIURL repoURL path branch with
  | Ret u => u
  | _ => ""
  end.

(** Step 3 of the Site Processor for one matched file, from what fetching
    it returned: a fetch failure and an absent annotation are errors, an
    extracted value is a hostname. *)
Definition file_outcome (file : GiteaFile) (fetched : string * option error)
    : string + string :=
  match fetched with
  | (_, Some cause) => inr ("Error processing " +:+ Name file +:+ ": " +:+ cause)
  | (content, None) =>
      match matchHostname content with
      | Some h => inl h
      | None => inr ("No hostname annotation found in " +:+ Name file)
      end
  end.

(** The outcomes of the matched files, fetched by the requests [n],
    [n+1], ... of the run. *)
Fixpoint file_outcomes (repoURL sitePath branch : string) (net : Network)
    (n : nat) (matched : list GiteaFile) : list (string + string) :=
  match matched with
  | [] => []
  | file :: rest =>
      file_outcome file
        (fetchURL_returns
           (rawURL repoURL (sitePath +:+ "/" +:+ Name file) branch) (net n))
      :: file_outcomes repoURL sitePath branch net (S n) rest
  end.

(** The record the Site Processor assembles from the matched files and
    their outcomes. *)
Definition site_record (sitePath : string) (matched : list GiteaFile)
    (outcomes : list (string + string)) : SiteHostnameInfo :=
  {| SitePath := sitePath;
     Hostnames := hostnames_of outcomes;
     BMNodeFiles := Name <$> matched;
     Errors := errors_of outcomes |}.

(** The record of a site whose listing failed with [cause]. *)
Definition failed_listing_record (sitePath cause : string) : SiteHostnameInfo :=
  {| SitePath := sitePath; Hostnames := []; BMNodeFiles := []; Errors := [cause] |}.

(** The path of a child directory, and the branches started for the
    directories of a listing, in listing order. *)
Definition child_path (currentPath childName : string) : string :=
  if bool_decide (currentPath = "") then childName
  else currentPath +:+ "/" +:+ childName.

Definition children (repoURL currentPath branch : string)
    (items : list GiteaFile) : list Goroutine :=
  (fun d => GoDiscover repoURL (child_path currentPath (Name d)) branch)
    <$> filter (fun item => Type_ item = "dir") items.

(** The actions that start those branches. *)
Definition spawn_actions (gs : list Goroutine) : list Action :=
  gs ≫= (fun g => [AAdd 1; AGo g]).

(** The Site Processor, run from request [n] on a site whose listing gave
    [items]: it returns after one request per matched file and has sent
    one record, assembled from one outcome per matched file; with [N]
    matched files of which [K] failed, the record has [N - K] hostnames,
    [K] errors and [N] matched files. *)
Definition processes_site (json_Unmarshal : string -> option (list GiteaFile))
    (repoURL sitePath branch : string) (net : Network) (n : nat)
    (items : list GiteaFile) : Prop :=
  let matched := filter (fun f => isBMNodeFile f = true) items in
  let outcomes := file_outcomes repoURL sitePath branch net (S n) matched in
  let N := length matched in
  let K := length (errors_of outcomes) in
  exists t rec,
    run (processSiteDirectory json_Unmarshal repoURL sitePath branch) net n =
      (t, (S n + N)%nat, Some tt) /\
    sent t = [rec] /\
    rec = site_record sitePath matched outcomes /\
    length outcomes = N /\
    (K <= N)%nat /\
    length (Hostnames rec) = (N - K)%nat /\
    length (Errors rec) = K /\
    length (BMNodeFiles rec) = N.

(** The key under which the record of a directory is published. *)
Definition path_key (currentPath : string) : string :=
  if bool_decide (currentPath = "") then "root" else currentPath.

(** What [getGiteaDirectoryListing] returns, from what [fetchURL]
    returned. *)
Definition listing_of (json_Unmarshal : string -> option (list GiteaFile))
    (fetched : string * option error) : list GiteaFile * option error :=
  match fetched with
  | (_, Some err) => ([], Some err)
  | (body, None) =>
      match json_Unmarshal body with
      | None => ([], None)
      | Some files => (files, None)
      end
  end.

(** The claim that the Site Processor fetches a matched file from the
    direct locator of its entry whenever the entry carries one. *)
Definition fetches_direct_locators : Prop :=
  forall json_Unmarshal repoURL sitePath branch net n t0 items t n' r file,
    well_formed repoURL = true ->
    run (getGiteaDirectoryListing json_Unmarshal repoURL sitePath branch) net n =
      (t0, S n, Some (items, None)) ->
    run (processSiteDirectory json_Unmarshal repoURL sitePath branch) net n =
      (t, n', r) ->
    file ∈ filter (fun f => isBMNodeFile f = true) items ->
    DownloadURL file <> "" ->
    DownloadURL file ∈ requested t.

(** Every answer of the run is the one the remote [remote] gives for the
    address requested. *)
Definition answered_by (remote : string -> GetResult) (evs : list Event) : Prop :=
  Forall (fun e => match e with
                   | EvGoroutine _ (AGet _ url r) => r = remote url
                   | _ => True
                   end) evs.

(** The records sent during a run, each with the goroutine that sent it. *)
Definition sends (evs : list Event) : list (nat * SiteHostnameInfo) :=
  omap (fun e => match e with
                 | EvGoroutine i (ASend v) => Some (i, v)
                 | _ => None
                 end) evs.

(** A status in the 2xx range. *)
Definition is_2xx (code : Z) : bool := (200 <=? code) && (code <? 300).

(** The transport succeeded: a response with status 200 whose body was
    read to its end. *)
Definition transport_ok (r : GetResult) : Prop :=
  exists resp body,
    r = GotResponse resp /\ StatusCode resp = 200 /\ Body resp = (body, None).

(** [fetched] is a failure of the transport: [fetchURL] returned an error. *)
Definition fetch_failed (fetched : string * option error) : bool :=
  match fetched with
  | (_, Some _) => true
  | (_, None) => false
  end.
End GoSpec.

Module TSSpec.
Import TS.

Section WithParser.
Variable JSON_parse : string -> option JSValue.
Variable fuel : nat.

(** What [fetchUrl url] settles to when its first request is the
    [n]-th of the run, and the number of the request after its last. *)
Definition fetched (url : string) (net : Network) (n : nat)
    : Result string * nat :=
  let '(_, n', _, r) := run (fetchUrl fuel url) net n ∅ in (r, n').

(** The address a matched file is fetched from: its direct locator when
    it has one, the synthesized address otherwise. *)
Definition locator (repoUrl sitePath branch : string) (file : Item) : string :=
  match download_url file with
  | Some direct =>
      if bool_decide (direct ≠ "") then direct
      else constructRawUrl repoUrl (sitePath +:+ "/" +:+ default "" (name file)) branch
  | None =>
      constructRawUrl repoUrl (sitePath +:+ "/" +:+ default "" (name file)) branch
  end.

(** Step 3 of the Site Processor for one matched file, from what
    fetching it settled to; nothing when the fetch has no result. *)
Definition file_outcome (file : Item) (r : Result string)
    : option (string + string) :=
  match r with
  | Returned content =>
      match extractHostnameFromContent content with
      | Some h => Some (inl h)
      | None => Some (inr ("No hostname annotation found in "
                           +:+ default "" (name file)))
      end
  | Threw cause =>
      Some (inr ("Error processing " +:+ default "" (name file)
                 +:+ ": " +:+ cause))
  | GaveUp => None
  end.

(** The outcomes of the matched files, fetched one after the other from
    request [n] on, and the number of the next request. *)
Fixpoint file_outcomes (repoUrl sitePath branch : string) (net : Network)
    (n : nat) (matched : list Item) : option (list (string + string) * nat) :=
  match matched with
  | [] => Some ([], n)
  | file :: rest =>
      let '(r, n') := fetched (locator repoUrl sitePath branch file) net n in
      match file_outcome file r with
      | None => None
      | Some o =>
          match file_outcomes repoUrl sitePath branch net n' rest with
          | Some (os, n'') => Some (o :: os, n'')
          | None => None
          end
      end
  end.

Definition site_record (sitePath : string) (matched : list Item)
    (outcomes : list (string + string)) : SiteHostnameInfo :=
  {| sitePath := sitePath;
     hostnames := hostnames_of outcomes;
     bmNodeFiles := (fun f => default "" (name f)) <$> matched;
     errors := errors_of outcomes |}.

(** The actions of a fetch are requests only. *)
Definition only_requests (t : list Action) : Prop :=
  Forall (fun a => match a with AGet _ _ _ _ _ => True | _ => False end) t.

(** What the listing resolves to, from what fetching it settled to. *)
Definition listing_of (r : Result string) : Result (list (option Item)) :=
  match r with
  | Returned response =>
      match JSON_parse response with
      | Some (JSArray items) => Returned items
      | _ => Returned []
      end
  | Threw _ => Returned []
  | GaveUp => GaveUp
  end.

(** The Site Processor, run from request [n] with the site map [m], on
    a site whose listing gave [items] and left [n1] as the next request:
    it returns a record assembled from one outcome per matched file and
    leaves the site map alone. *)
Definition processes_site (repoUrl sitePath branch : string) (net : Network)
    (n : nat) (m : gmap string SiteHostnameInfo) (n1 : nat)
    (items : list Item) : Prop :=
  let matched := filter (fun f => isBMNodeFile f = true) items in
  let N := length matched in
  exists t n2 outcomes rec,
    file_outcomes repoUrl sitePath branch net n1 matched = Some (outcomes, n2) /\
    run (processSiteDirectory JSON_parse fuel repoUrl sitePath branch) net n m =
      (t, n2, m, Returned rec) /\
    rec = site_record sitePath matched outcomes /\
    length outcomes = N /\
    (length (errors_of outcomes) <= N)%nat /\
    length (hostnames rec) = (N - length (errors_of outcomes))%nat /\
    length (errors rec) = length (errors_of outcomes) /\
    length (bmNodeFiles rec) = N.

(** The message of the error [fetchUrl url] rejects with when the
    request ends as [ev]; there is none for a response that is cut,
    where [fetchUrl] rejects nothing. *)
Definition failure_message (url : string) (ev : HttpEvent) : string :=
  match ev with
  | Response statusCode statusMessage _ _ =>
      "HTTP " +:+ Str.itoa statusCode +:+ ": " +:+ statusMessage
      +:+ " for " +:+ url
  | ResponseCut => ""
  | RequestError message => "Request failed for " +:+ url +:+ ": " +:+ message
  | RequestTimeout => "Request timeout for " +:+ url
  | GetThrows message => message
  end.

(** The requests of [fetchUrl url] when its first request is the
    [n]-th of the run. *)
Definition fetch_trace (url : string) (net : Network) (n : nat) : list Action :=
  (run (fetchUrl fuel url) net n ∅).1.1.1.

(** Every request of the trace is armed with the 15000 ms timer, and
    goes through the agent with the 15000 ms timeout when it is an
    https request. *)
Definition timer_armed (a : Action) : Prop :=
  match a with
  | AGet client _ agent setTimeout _ =>
      setTimeout = 15000 /\
      (client = Https -> exists ag, agent = Some ag /\ timeout ag = 15000)
  | _ => True
  end.

(** A redirect that [fetchUrl] follows. *)
Definition is_redirect (ev : HttpEvent) : bool :=
  match ev with
  | Response statusCode _ location _ =>
      ((statusCode =? 301) || (statusCode =? 302)) && truthy location
  | _ => false
  end.

(** The requests of the Site Processor after those of its listing are
    the requests of one fetch per matched file, each from the locator of
    the file. *)
Definition fetches_from_locators (repoUrl sitePath branch : string)
    (net : Network) (matched : list Item) (t : list Action) : Prop :=
  exists ts,
    t = concat ts /\
    Forall2 (fun file tj =>
               exists nj c ag ev rest,
                 tj = fetch_trace (locator repoUrl sitePath branch file) net nj /\
                 tj = AGet c (locator repoUrl sitePath branch file) ag 15000 ev :: rest)
            matched ts.

(** The updates of the site map during a run. *)
Definition sets (t : list Action) : list (string * SiteHostnameInfo) :=
  omap (fun a => match a with ASet k v => Some (k, v) | _ => None end) t.

(** How a fetch whose last request ended as [last] settles: it resolves
    to the data of a response with status 200 read to its end; it
    rejects, with the message of the failure, when the request failed,
    timed out or was answered with another status; it has no result
    when the response was cut, or when the model gives up on a
    redirect. *)
Definition settles_as (r : Result string) (last : HttpEvent) : Prop :=
  match r with
  | Returned data => exists msg loc, last = Response 200 msg loc data
  | Threw e =>
      is_redirect last = false /\
      last <> ResponseCut /\
      (forall msg loc data, last <> Response 200 msg loc data) /\
      exists url, e = failure_message url last
  | GaveUp => is_redirect last = true \/ last = ResponseCut
  end.

(** The network never redirects more than [fuel] times in a row. *)
Definition redirects_bounded (net : Network) : Prop :=
  forall n, exists k, (k <= fuel)%nat /\ is_redirect (net (n + k)%nat) = false.

(** No response is cut before its end. *)
Definition responses_end (net : Network) : Prop :=
  forall n, net n <> ResponseCut.

(** The objects of a listing that match the pattern of the node
    files. *)
Definition matched_objects (items : list (option Item)) : list Item :=
  filter (fun f => isBMNodeFile f = true) (omap id items).

(** The claim of one outcome per matched file, as it is stated, for
    every listing that succeeds, the requests all settling. *)
Definition one_outcome_per_file : Prop :=
  forall repoUrl sitePath branch net n m t0 n1 items,
    redirects_bounded net -> responses_end net ->
    run (getGiteaDirectoryListing JSON_parse fuel repoUrl sitePath branch) net n m =
      (t0, n1, m, Returned items) ->
    exists t n2 rec,
      run (processSiteDirectory JSON_parse fuel repoUrl sitePath branch) net n m =
        (t, n2, m, Returned rec) /\
      length (bmNodeFiles rec) = length (matched_objects items) /\
      (length (hostnames rec) + length (errors rec))%nat =
        length (matched_objects items).
End WithParser.
End TSSpec.

(* ===================================================================== *)
(** ** Sample inputs *)
(* ===================================================================== *)

Module Sample.

(** A line with the annotation, the value in double quotes. *)
Definition annotated (host : string) : string :=
  "  annotations:" +:+ String newline
    ("    bmac.agent-install.openshift.io/hostname: " +:+ String dquote
       (host +:+ String dquote (String newline "spec: {}"))).

(** The key at the end of its line, and another line. *)
Definition value_on_next_line : string :=
  "bmac.agent-install.openshift.io/hostname:" +:+ String newline "next: b".

Module Go.
Import Go.

(** A site with two node files, one other file and one directory; the
    first node file carries a direct locator. *)
Definition site_listing : list GiteaFile :=
  [ {| Name := "bm-node-1.yaml"; Type_ := "file";
       DownloadURL := "https://mirror.example/raw/bm-node-1.yaml" |};
    {| Name := "README.md"; Type_ := "file"; DownloadURL := "" |};
    {| Name := "bm-node-2.yaml"; Type_ := "file"; DownloadURL := "" |};
    {| Name := "root"; Type_ := "dir"; DownloadURL := "" |} ].

(** The listing of the directory [root]: one node file. *)
Definition inner_listing : list GiteaFile :=
  [ {| Name := "bm-node-3.yaml"; Type_ := "file"; DownloadURL := "" |} ].

(** A decoder that knows the bodies [LISTING] and [INNER] only. *)
Definition json_Unmarshal (body : string) : option (list GiteaFile) :=
  if bool_decide (body = "LISTING") then Some site_listing
  else if bool_decide (body = "INNER") then Some inner_listing
  else None.

Definition ok (body : string) : GetResult :=
  GotResponse {| StatusCode := 200; Status := "200 OK"; Body := (body, None) |}.
Definition not_found : GetResult :=
  GotResponse {| StatusCode := 404; Status := "404 Not Found"; Body := ("", None) |}.

(** The listing, then the first node file with its annotation, then
    nothing but 404. *)
Definition net (n : nat) : GetResult :=
  match n with
  | O => ok "LISTING"
  | S O => ok (annotated "node1.example.com")
  | _ => not_found
  end.

(** Every listing succeeds, every file has the annotation. *)
Definition net_all_ok (n : nat) : GetResult :=
  match n with
  | O => ok "LISTING"
  | S O => ok "LISTING"
  | S (S O) => ok (annotated "node1.example.com")
  | S (S (S O)) => ok (annotated "node2.example.com")
  | _ => not_found
  end.

(** A tree whose root is a site and has a directory named [root] that
    is a site too. *)
Definition remote (url : string) : GetResult :=
  if bool_decide (url = GoSpec.apiURL repoURL "" branch) then ok "LISTING"
  else if bool_decide (url = GoSpec.apiURL repoURL "root" branch) then ok "INNER"
  else if bool_decide (url = GoSpec.rawURL repoURL "root/bm-node-3.yaml" branch)
  then ok (annotated "node3.example.com")
  else not_found.

(** A remote that is down. *)
Definition remote_down (url : string) : GetResult :=
  GetFailed "dial tcp: connection refused".

(** The producer starts the root branch; the root branch runs to its
    end, then the branch of [root]; the producer closes the channel. *)
Definition schedule : list (option nat) :=
  [Some 0; Some 0;
   Some 1; Some 1; Some 1; Some 1; None; Some 1; Some 1; Some 1;
   Some 2; Some 2; Some 2; Some 2; None; Some 2;
   Some 0; Some 0; None]%nat.

Definition choices : list Choice :=
  drive json_Unmarshal remote
    (dataHandler_start json_Unmarshal repoURL branch) schedule.

(** The record both branches of that run send. *)
Definition inner_record : SiteHostnameInfo :=
  {| SitePath := "root"; Hostnames := ["node3.example.com"];
     BMNodeFiles := ["bm-node-3.yaml"]; Errors := [] |}.

(** The same with the remote down. *)
Definition schedule_down : list (option nat) :=
  [Some 0; Some 0; Some 1; Some 1; Some 1; Some 0; Some 0; None]%nat.

Definition choices_down : list Choice :=
  drive json_Unmarshal remote_down
    (dataHandler_start json_Unmarshal repoURL branch) schedule_down.

(** The first listing succeeds, the next request fails. *)
Definition net_then_down (n : nat) : GetResult :=
  match n with
  | O => ok "LISTING"
  | _ => GetFailed "dial tcp: connection refused"
  end.
End Go.

Module TS.
Import TS.

Definition site_listing : list Item :=
  [ {| name := Some "bm-node-1.yaml"; type_ := Some "file";
       download_url := Some "https://mirror.example/raw/bm-node-1.yaml" |};
    {| name := Some "README.md"; type_ := Some "file"; download_url := None |};
    {| name := Some "bm-node-2.yaml"; type_ := Some "file"; download_url := None |};
    {| name := Some "root"; type_ := Some "dir"; download_url := None |} ].

(** The listing of the directory [root]: one node file. *)
Definition inner_listing : list Item :=
  [ {| name := Some "bm-node-3.yaml"; type_ := Some "file"; download_url := None |} ].

(** A parser that knows the bodies [LISTING], [INNER] and [OBJECT], and
    the bodies [NULL], an array whose one element is [null], and
    [MIXED], a node file followed by [null]. *)
Definition JSON_parse (response : string) : option JSValue :=
  if bool_decide (response = "LISTING") then Some (JSArray (Some <$> site_listing))
  else if bool_decide (response = "INNER") then Some (JSArray (Some <$> inner_listing))
  else if bool_decide (response = "OBJECT") then Some JSOther
  else if bool_decide (response = "NULL") then Some (JSArray [None])
  else if bool_decide (response = "MIXED")
       then Some (JSArray ((Some <$> inner_listing) ++ [None]))
  else None.

Definition ok (data : string) : HttpEvent := Response 200 "OK" None data.
Definition not_found : HttpEvent := Response 404 "Not Found" None "".

(** The listing, then the first node file with its annotation, then
    nothing but 404. *)
Definition net (n : nat) : HttpEvent :=
  match n with
  | O => ok "LISTING"
  | S O => ok (annotated "node1.example.com")
  | _ => not_found
  end.

(** A tree whose root is a site and has a directory named [root] that
    is a site too, as the walk meets it: the listing of the root, twice,
    its two node files, the listing of [root], twice, its node file. *)
Definition net_tree (n : nat) : HttpEvent :=
  match n with
  | 0 | 1 => ok "LISTING"
  | 2 => ok (annotated "node1.example.com")
  | 3 => ok (annotated "node2.example.com")
  | 4 | 5 => ok "INNER"
  | 6 => ok (annotated "node3.example.com")
  | _ => not_found
  end%nat.

(** The record of the root directory and the record of [root]. *)
Definition root_record : SiteHostnameInfo :=
  {| sitePath := ""; hostnames := ["node1.example.com"; "node2.example.com"];
     bmNodeFiles := ["bm-node-1.yaml"; "bm-node-2.yaml"]; errors := [] |}.
Definition inner_record : SiteHostnameInfo :=
  {| sitePath := "root"; hostnames := ["node3.example.com"];
     bmNodeFiles := ["bm-node-3.yaml"]; errors := [] |}.

(** Every request fails. *)
Definition net_down (n : nat) : HttpEvent := RequestError "connect ECONNREFUSED".

(** Every listing is the array [[null]]. *)
Definition net_null (n : nat) : HttpEvent := ok "NULL".

(** Every listing is a node file followed by [null]. *)
Definition net_mixed (n : nat) : HttpEvent := ok "MIXED".

(** Every response is cut after its headers. *)
Definition net_cut (n : nat) : HttpEvent := ResponseCut.
End TS.
End Sample.

(* ===================================================================== *)
(** ** The shape of the goroutines of a run *)
(* ===================================================================== *)

Module GoInv.
Import Go GoSpec.

(** A program that talks to the network, the log and the channel only. *)
Inductive quiet {A} : Prog A -> Prop :=
| quiet_ret a : quiet (Ret a)
| quiet_get c url k : (forall r, quiet (k r)) -> quiet (ClientGet c url k)
| quiet_log l k : quiet k -> quiet (LogPrintf l k)
| quiet_send v k : quiet k -> quiet (ChanSend v k).

Section Shapes.
Variables repoURL branch : string.

(** [owing p d]: whichever way the network answers, what is left of a
    branch, [p], will take [d] more units off the wait group than it
    adds: one for its own [Done], one for each branch it has announced
    with [Add] and not started yet.  A branch that owes nothing has
    returned. *)
Inductive owing : Prog unit -> nat -> Prop :=
| owing_ret : owing (Ret tt) 0
| owing_done k d : owing k d -> owing (WgDone k) (S d)
| owing_get c url k d :
    (forall r, owing (k r) d) -> (0 < d)%nat -> owing (ClientGet c url k) d
| owing_log l k d : owing k d -> (0 < d)%nat -> owing (LogPrintf l k) d
| owing_send v k d : owing k d -> (0 < d)%nat -> owing (ChanSend v k) d
| owing_add k d : owing k (S d) -> (0 < d)%nat -> owing (WgAdd 1 k) d
| owing_go path k d :
    owing k d -> (0 < d)%nat ->
    owing (GoStmt (GoDiscover repoURL path branch) k) (S d).

(** The producer goes through five stages: before [Add], before the
    [go] statement, waiting, before [close], returned. *)
Definition producer_stage (st : nat) : Prog unit :=
  match st with
  | 0 => producer repoURL branch
  | 1 => GoStmt (GoDiscover repoURL "" branch) (WgWait (ChanClose (Ret tt)))
  | 2 => WgWait (ChanClose (Ret tt))
  | 3 => ChanClose (Ret tt)
  | _ => Ret tt
  end%nat.

(** The stage a producer program is at, and the steps the producer and
    the handler have left once every branch has returned. *)
Definition stage_of (p : Prog unit) : nat :=
  match p with
  | WgAdd _ _ => 0
  | GoStmt _ _ => 1
  | WgWait _ => 2
  | ChanClose _ => 3
  | _ => 4
  end.

Definition remaining (s : State) : nat :=
  (match goroutines s with
   | (_, p) :: _ => 4 - stage_of p
   | [] => 0
   end
   + match handler s with
     | Receiving => 1
     | Writing _ => 2
     | Finished => 0
     end)%nat.

Section WithDecoder.
Variable json_Unmarshal : string -> option (list GiteaFile).

(** The invariant of a run: the first goroutine is the producer at
    some stage, the others are branches, and the wait group counts
    what the branches owe. *)
Definition invariant (s : State) : Prop :=
  panicked s = None /\
  exists st branches debts,
    goroutines s = (GoProducer repoURL branch, producer_stage st) :: branches /\
    (st <= 4)%nat /\
    Forall2 (fun gp d => owing gp.2 d) branches debts /\
    (st <= 1 -> branches = [])%nat /\
    (2 <= st -> branches <> [])%nat /\
    wg s = Z.of_nat (sum_list debts + (if (st =? 1)%nat then 1 else 0)) /\
    (3 <= st -> sum_list debts = 0)%nat /\
    closed s = bool_decide (st = 4%nat) /\
    (handler s = Finished -> closed s = true).

(** Every answer to a request for the listing of the root is a
    failure of the transport. *)
Definition root_listing_fails (s : State) : Prop :=
  forall i c r,
    EvGoroutine i (AGet c (apiURL repoURL "" branch) r) ∈ events s ->
    fetch_failed (fetchURL_returns (apiURL repoURL "" branch) r) = true.

(** The root branch goes through four stages when its listing fails:
    before the request, before the log line, before [Done],
    returned. *)
Definition failed_root_stage (rk : nat) (p : Prog unit) : Prop :=
  match rk with
  | 0 => p = discoverSitesRecursively json_Unmarshal repoURL "" branch
  | 1 => exists line, p = LogPrintf line (WgDone (Ret tt))
  | 2 => p = WgDone (Ret tt)
  | _ => p = Ret tt
  end%nat.

(** The states of a run whose root listing fails: the producer and at
    most the root branch, nothing sent, and one event per step. *)
Definition failed_root_shape (s : State) : Prop :=
  written s = [] /\
  exists st rk,
    (st <= 4)%nat /\ (rk <= 3)%nat /\
    ((st <= 1 /\ rk = 0 /\
      goroutines s = [(GoProducer repoURL branch, producer_stage st)])%nat \/
     (2 <= st /\
      exists p, failed_root_stage rk p /\
        goroutines s = [(GoProducer repoURL branch, producer_stage st);
                        (GoDiscover repoURL "" branch, p)])%nat) /\
    ((handler s = Receiving /\ length (events s) = st + rk) \/
     (handler s = Finished /\ length (events s) = S (st + rk)))%nat.

(** Every branch has returned. *)
Definition branches_done (s : State) : Prop :=
  exists p branches,
    goroutines s = p :: branches /\ branches <> [] /\
    Forall (fun gp => gp.2 = Ret tt) branches.

(** The actions of goroutine [i], oldest first. *)
Definition actions_of (i : nat) (evs : list Event) : list Action :=
  omap (fun e => match e with
                 | EvGoroutine j a => if bool_decide (j = i) then Some a else None
                 | _ => None
                 end) evs.

(** The answers goroutine [i] has received, oldest first. *)
Definition answers (t : list Action) : list GetResult :=
  omap (fun a => match a with AGet _ _ r => Some r | _ => None end) t.

(** A network whose first answers are [rs]. *)
Definition net_of (rs : list GetResult) : Network :=
  fun n => default (GetFailed "") (rs !! n).

(** The first answers of [net] are [rs]. *)
Definition agrees (net : Network) (rs : list GetResult) : Prop :=
  forall j r, rs !! j = Some r -> net j = r.

(** The actions of [p] run alone from request [n]. *)
Definition trace_of {A} (p : Prog A) (net : Network) (n : nat) : list Action :=
  (run p net n).1.1.

(** What a goroutine has done so far, followed by what is left of it
    run alone, is its body run alone, against any network that
    answers as the goroutine was answered; a goroutine that is not
    there has done nothing. *)
Definition replays (s : State) : Prop :=
  forall i,
    match goroutines s !! i with
    | Some (g, p) =>
        forall net, agrees net (answers (actions_of i (events s))) ->
          trace_of (body json_Unmarshal g) net 0 =
            actions_of i (events s) ++
            trace_of p net (length (answers (actions_of i (events s))))
    | None => actions_of i (events s) = []
    end.
End WithDecoder.
End Shapes.
End GoInv.

(* ===================================================================== *)
(** ** Further notions used to state what the two programs do *)
(* ===================================================================== *)

(** A name the pattern [bm-node-.+\.yaml$] accepts: it ends in [.yaml],
    and somewhere before that comes [bm-node-] followed by one character or
    more, none of them a line terminator ([dot] is the meaning of [.]). *)
Definition node_file_name (dot : ascii -> bool) (s : text) : Prop :=
  exists pre mid,
    s = pre ++ bm_node_prefix ++ mid ++ yaml_suffix /\
    mid <> [] /\
    Forall (fun c => dot c = true) mid.

(** The separator of the segments of an address. *)
Definition slash : ascii := "/"%char.

(** [k] slashes in a row. *)
Definition slashes (k : nat) : string := str (repeat slash k).

(** The pieces of [s] between the occurrences of the character [c], read
    without fuel; [cur] holds, reversed, the piece being read. *)
Fixpoint split_at (c : ascii) (s cur : text) : list text :=
  match s with
  | [] => [rev cur]
  | a :: s' =>
      if Ascii.eqb a c then rev cur :: split_at c s' []
      else split_at c s' (a :: cur)
  end.

(** The record the handler of the Go server has received and not written
    yet. *)
Definition in_flight (h : Go.Handler) : list Go.SiteHostnameInfo :=
  match h with
  | Go.Writing v => [v]
  | _ => []
  end.

(** The records written and the one in flight are the records sent, in the
    order sent. *)
Definition delivered (s : Go.State) : Prop :=
  Go.written s ++ in_flight (Go.handler s) = (GoSpec.sends (Go.events s)).*2.

(** A record of the Go server is either that of a site whose listing
    failed, one error and nothing else, or has one hostname or one error for
    each matched file. *)
Definition record_ok (v : Go.SiteHostnameInfo) : Prop :=
  (length (Go.Hostnames v) + length (Go.Errors v) = length (Go.BMNodeFiles v))%nat \/
  (Go.Hostnames v = [] /\ Go.BMNodeFiles v = [] /\ length (Go.Errors v) = 1%nat).

Module GoCensus.
Import Go GoSpec.

(** [obeys repoURL branch key Q p]: whichever way the network answers,
    [p] makes its requests through the client of [fetchURL], sends only
    well-formed records whose path is [key], and none when there is no
    key, starts only branches over
    [repoURL] and [branch], and returns, if it does, a value that
    satisfies [Q]. *)
Inductive obeys (repoURL branch : string) (key : option string) {A}
    (Q : A -> Prop)
    : Prog A -> Prop :=
| obeys_ret a : Q a -> obeys repoURL branch key Q (Ret a)
| obeys_panic msg : obeys repoURL branch key Q (Panic msg)
| obeys_get url k :
    (forall r, obeys repoURL branch key Q (k r)) ->
    obeys repoURL branch key Q (ClientGet the_client url k)
| obeys_log line k :
    obeys repoURL branch key Q k -> obeys repoURL branch key Q (LogPrintf line k)
| obeys_send v k :
    record_ok v -> key = Some (SitePath v) ->
    obeys repoURL branch key Q k -> obeys repoURL branch key Q (ChanSend v k)
| obeys_close k :
    obeys repoURL branch key Q k -> obeys repoURL branch key Q (ChanClose k)
| obeys_add d k :
    obeys repoURL branch key Q k -> obeys repoURL branch key Q (WgAdd d k)
| obeys_done k :
    obeys repoURL branch key Q k -> obeys repoURL branch key Q (WgDone k)
| obeys_wait k :
    obeys repoURL branch key Q k -> obeys repoURL branch key Q (WgWait k)
| obeys_go path k :
    obeys repoURL branch key Q k ->
    obeys repoURL branch key Q (GoStmt (GoDiscover repoURL path branch) k).

(** The key of the records of a goroutine; the producer sends none. *)
Definition key_of (g : Goroutine) : option string :=
  match g with
  | GoDiscover _ currentPath _ => Some (path_key currentPath)
  | GoProducer _ _ => None
  end.

(** What an event may be, [labels] being the goroutines of the run. *)
Definition event_ok (labels : list Goroutine) (e : Event) : Prop :=
  match e with
  | EvGoroutine i (AGet c _ _) => c = the_client
  | EvGoroutine i (ASend v) =>
      record_ok v /\ exists g, labels !! i = Some g /\ key_of g = Some (SitePath v)
  | _ => True
  end.

(** The census of a run: the producer, then branches over the repository
    and the branch of the handler, each obeying the rules above; and
    every event so far was allowed. *)
Definition census (repoURL branch : string) (s : State) : Prop :=
  (exists paths,
     (goroutines s).*1 =
     GoProducer repoURL branch ::
     ((fun path => GoDiscover repoURL path branch) <$> paths)) /\
  Forall (fun gp => obeys repoURL branch (key_of gp.1) (fun _ => True) gp.2)
    (goroutines s) /\
  Forall (event_ok (goroutines s).*1) (events s).

(** The first action of what is left of a goroutine, what is left after
    it, and the goroutine it starts, if any; [r] answers a request. *)
Definition head_step (json_Unmarshal : string -> option (list GiteaFile))
    (r : GetResult) (p : Prog unit)
    : option (Action * Prog unit * list (Goroutine * Prog unit)) :=
  match p with
  | Ret _ | Panic _ => None
  | ClientGet c url k => Some (AGet c url r, k r, [])
  | LogPrintf line k => Some (ALog line, k, [])
  | ChanSend v k => Some (ASend v, k, [])
  | ChanClose k => Some (AClose, k, [])
  | WgAdd d k => Some (AAdd d, k, [])
  | WgDone k => Some (ADone, k, [])
  | WgWait k => Some (AWait, k, [])
  | GoStmt g k => Some (AGo g, k, [(g, body json_Unmarshal g)])
  end.
End GoCensus.

(** More sample inputs. *)
Module MoreSamples.

(** The answers the branch of the root gets on the sample tree: the
    listing of the root, the listing of [root], its node file. *)
Definition go_net_root (n : nat) : Go.GetResult :=
  match n with
  | 0 => Sample.Go.ok "LISTING"
  | 1 => Sample.Go.ok "INNER"
  | 2 => Sample.Go.ok (Sample.annotated "node3.example.com")
  | _ => Sample.Go.not_found
  end%nat.
End MoreSamples.

Module TSCensus.
Import TS.

(** A record stored under the key it is due: its own path, or [root] for
    the empty path; with one hostname or one error for each of its files,
    or, when the filter of the node files threw, with the one error of
    the site directory and nothing else. *)
Definition stored_ok (key : string) (rec : SiteHostnameInfo) : Prop :=
  key = (if bool_decide (sitePath rec ≠ "") then sitePath rec else "root") /\
  ((length (hostnames rec) + length (errors rec) = length (bmNodeFiles rec))%nat \/
   (hostnames rec = [] /\ bmNodeFiles rec = [] /\ length (errors rec) = 1%nat)).

(** [never_throws p]: however the requests end, [p] throws nothing. *)
Inductive never_throws {A} : Prog A -> Prop :=
| nt_ret a : never_throws (Ret a)
| nt_give_up : never_throws GiveUp
| nt_get c url ag t k :
    (forall ev, never_throws (k ev)) -> never_throws (HttpGet c url ag t k)
| nt_set key v k : never_throws k -> never_throws (MapSet key v k)
| nt_call path k : never_throws k -> never_throws (Call path k).

(** [obeys Q p]: however the requests end, [p] stores records under the
    key they are due only, and returns, if it does, a value that
    satisfies [Q]. *)
Inductive obeys {A} (Q : A -> Prop) : Prog A -> Prop :=
| obeys_ret a : Q a -> obeys Q (Ret a)
| obeys_throw e : obeys Q (Throw e)
| obeys_give_up : obeys Q GiveUp
| obeys_get c url ag t k :
    (forall ev, obeys Q (k ev)) -> obeys Q (HttpGet c url ag t k)
| obeys_set key v k : stored_ok key v -> obeys Q k -> obeys Q (MapSet key v k)
| obeys_call path k : obeys Q k -> obeys Q (Call path k).

(** The site map after the updates [kvs], applied in turn to [m]. *)
Definition apply_sets (m : gmap string SiteHostnameInfo)
    (kvs : list (string * SiteHostnameInfo)) : gmap string SiteHostnameInfo :=
  foldl (fun acc kv => <[kv.1 := kv.2]> acc) m kvs.
End TSCensus.

Module TSHops.
Import TS.

(** A request of [fetchUrl]: over https through the agent that accepts
    any certificate when the address starts with [https://], over plain
    http without an agent otherwise. *)
Definition hop_ok (a : Action) : Prop :=
  match a with
  | AGet c url ag _ _ =>
      if startsWith url "https://"
      then c = Https /\ ag = Some {| rejectUnauthorized := false; timeout := 15000 |}
      else c = Http /\ ag = None
  | _ => True
  end.

(** Each request but the first goes to the [location] of the answer to
    the one before, a 301 or a 302. *)
Fixpoint chained (t : list Action) : Prop :=
  match t with
  | AGet _ _ _ _ ev :: t' =>
      match t' with
      | AGet _ url' _ _ _ :: _ =>
          (exists code msg data,
             ev = Response code msg (Some url') data /\
             (code = 301 \/ code = 302) /\ url' <> "") /\
          chained t'
      | _ => True
      end
  | _ => True
  end.
End TSHops.

(** A character both programs read alike: an ASCII character that is not
    the vertical tab, which [\s] holds in JavaScript and not in Go. *)
Definition plain_char (c : ascii) : bool :=
  (nat_of_ascii c <? 128)%nat && negb (nat_of_ascii c =? 11)%nat.

(* ===================================================================== *)
(** ** The legacy entry point of the extractor *)
(* ===================================================================== *)

(** Regular expressions with numbered groups and both anchors, for the
    pattern of [extractHostnamesFromGiteaDirectory]; the semantics is that
    of [Regex]. *)
Module RegexN.

Inductive regex : Type :=
| Chr (c : ascii)
| Cls (p : ascii -> bool)
| Eps
| Seq (r1 r2 : regex)
| Plus (r : regex)             (* r+  greedy *)
| Grp (i : nat) (r : regex)    (* (r) capturing group i *)
| Bot                          (* ^ without the multi-line flag *)
| Eot.                         (* $ without the multi-line flag *)

Fixpoint lit (l : text) : regex :=
  match l with
  | [] => Eps
  | c :: l' => Seq (Chr c) (lit l')
  end.

(** The groups that took part, the last one set first. *)
Definition captures : Type := list (nat * text).

Fixpoint group (i : nat) (caps : captures) : option text :=
  match caps with
  | [] => None
  | (j, v) :: caps' => if (j =? i)%nat then Some v else group i caps'
  end.

Section Matcher.
Context {R : Type}.

Definition cont : Type := text -> captures -> option R.

Fixpoint star (m : text -> captures -> cont -> option R)
    (n : nat) (s : text) (caps : captures) (k : cont) : option R :=
  match n with
  | O => k s caps
  | S n' =>
      match m s caps (fun s1 caps1 =>
                        if (length s1 <? length s)%nat
                        then star m n' s1 caps1 k else None) with
      | Some x => Some x
      | None => k s caps
      end
  end.

(** [whole] is the length of the input, by which [^] knows the start. *)
Fixpoint bt (whole : nat) (r : regex) (s : text) (caps : captures) (k : cont)
    {struct r} : option R :=
  match r with
  | Chr c =>
      match s with
      | a :: s' => if Ascii.eqb a c then k s' caps else None
      | [] => None
      end
  | Cls p =>
      match s with
      | a :: s' => if p a then k s' caps else None
      | [] => None
      end
  | Eps => k s caps
  | Seq r1 r2 => bt whole r1 s caps (fun s1 caps1 => bt whole r2 s1 caps1 k)
  | Plus r1 =>
      bt whole r1 s caps
         (fun s1 caps1 => star (bt whole r1) (length s1) s1 caps1 k)
  | Grp i r1 =>
      bt whole r1 s caps
         (fun s1 caps1 =>
            k s1 ((i, take (length s - length s1)%nat s) :: caps1))
  | Bot => if (length s =? whole)%nat then k s caps else None
  | Eot =>
      match s with
      | [] => k [] caps
      | _ :: _ => None
      end
  end.
End Matcher.

(** [m] reads one character of the class [p]. *)
Definition reads_class {R} (m : text -> captures -> @cont R -> option R)
    (p : ascii -> bool) : Prop :=
  forall s caps k,
    m s caps k =
    match s with
    | a :: s' => if p a then k s' caps else None
    | [] => None
    end.

(** An attempt at the suffix [s] of an input of length [whole]. *)
Definition match_here (whole : nat) (r : regex) (s : text) : option captures :=
  bt whole r s [] (fun _ caps => Some caps).

(** Leftmost match: the groups of the first attempt that succeeds. *)
Fixpoint search_from (whole : nat) (r : regex) (s : text) : option captures :=
  match match_here whole r s with
  | Some caps => Some caps
  | None =>
      match s with
      | [] => None
      | _ :: s' => search_from whole r s'
      end
  end.

Definition search (r : regex) (s : text) : option captures :=
  search_from (length s) r s.
End RegexN.

Module Legacy.
Import TS.

Definition not_slash (c : ascii) : bool := negb (Ascii.eqb c slash).

(** [^(https:\/\/[^\/]+\/[^\/]+\/[^\/]+)\/raw\/branch\/([^\/]+)\/(.+)$] *)
Definition rawUrlRegex : RegexN.regex :=
  RegexN.Seq RegexN.Bot
    (RegexN.Seq
       (RegexN.Grp 1
          (RegexN.Seq (RegexN.lit (txt "https://"))
             (RegexN.Seq (RegexN.Plus (RegexN.Cls not_slash))
                (RegexN.Seq (RegexN.Chr slash)
                   (RegexN.Seq (RegexN.Plus (RegexN.Cls not_slash))
                      (RegexN.Seq (RegexN.Chr slash)
                         (RegexN.Plus (RegexN.Cls not_slash))))))))
       (RegexN.Seq (RegexN.lit (txt "/raw/branch/"))
          (RegexN.Seq (RegexN.Grp 2 (RegexN.Plus (RegexN.Cls not_slash)))
             (RegexN.Seq (RegexN.Chr slash)
                (RegexN.Seq (RegexN.Grp 3 (RegexN.Plus (RegexN.Cls TS.dot)))
                   RegexN.Eot))))).

(** [baseUrl.match(...)] followed by [const [, repoUrl, branch, path] =
    match]: the three groups, each of which takes part in every match. *)
Definition match_rawUrl (baseUrl : string) : option (string * string * string) :=
  match RegexN.search rawUrlRegex (txt baseUrl) with
  | Some caps =>
      Some (str (default [] (RegexN.group 1 caps)),
            str (default [] (RegexN.group 2 caps)),
            str (default [] (RegexN.group 3 caps)))
  | None => None
  end.

(** The same match as a function of the address: what the three groups
    hold, the host, the owner and the name of the first being read up to
    the next slash, the branch likewise, and the path to the end. *)
Definition parse_rawUrl (s : text) : option (text * text * text) :=
  match strip (txt "https://") s with
  | None => None
  | Some s1 =>
      let host := take_while not_slash s1 in
      match host, drop_while not_slash s1 with
      | _ :: _, _ :: s2 =>
          let owner := take_while not_slash s2 in
          match owner, drop_while not_slash s2 with
          | _ :: _, _ :: s3 =>
              let repo := take_while not_slash s3 in
              match repo, strip (txt "/raw/branch/") (drop_while not_slash s3) with
              | _ :: _, Some s4 =>
                  let branch := take_while not_slash s4 in
                  match branch, drop_while not_slash s4 with
                  | _ :: _, _ :: s5 =>
                      match s5, drop_while TS.dot s5 with
                      | _ :: _, [] =>
                          Some (txt "https://" ++ host ++ slash :: owner
                                  ++ slash :: repo, branch, s5)
                      | _, _ => None
                      end
                  | _, _ => None
                  end
              | _, _ => None
              end
          | _, _ => None
          end
      | _, _ => None
      end
  end.

(** The raw addresses: [https://host/owner/repo/raw/branch/<branch>/<path>]. *)
Definition rawUrl (host owner repo branch path : string) : string :=
  "https://" +:+ host +:+ "/" +:+ owner +:+ "/" +:+ repo +:+ "/raw/branch/"
  +:+ branch +:+ "/" +:+ path.

(** A part between two slashes: not empty, and without a slash. *)
Definition segment (s : string) : Prop := s <> "" /\ slash ∉ txt s.

(** A path: not empty, and without a line terminator. *)
Definition one_line (s : string) : Prop :=
  s <> "" /\ Forall (fun c => TS.dot c = true) (txt s).

Definition is_rawUrl (baseUrl : string) : Prop :=
  exists host owner repo branch path,
    segment host /\ segment owner /\ segment repo /\ segment branch /\
    one_line path /\ baseUrl = rawUrl host owner repo branch path.

(** [map.set(key, value)] on a [Map], which keeps the order of first
    insertion: the value of a key that is there is replaced in place. *)
Fixpoint map_set (key : string) (v : SiteHostnameInfo)
    (l : list (string * SiteHostnameInfo)) : list (string * SiteHostnameInfo) :=
  match l with
  | [] => [(key, v)]
  | (k, w) :: l' =>
      if bool_decide (k = key) then (k, v) :: l' else (k, w) :: map_set key v l'
  end.

(** The [Map] after the updates [kvs], in iteration order. *)
Definition map_of (kvs : list (string * SiteHostnameInfo))
    : list (string * SiteHostnameInfo) :=
  foldl (fun acc kv => map_set kv.1 kv.2 acc) [] kvs.

Section Extractor.
Variable JSON_parse : string -> option JSValue.
Variable fuel : nat.

(** [extractHostnamesFromGiteaDirectory], against the network [net]:
    the hostnames of the records of the map, in iteration order. *)
Definition extractHostnamesFromGiteaDirectory (baseUrl : string) (net : Network)
    : Result (list string) :=
  match match_rawUrl baseUrl with
  | Some (repoUrl, branch, path) =>
      match run (extractHostnamesFromGiteaRepository JSON_parse fuel repoUrl
                   (Some branch)) net 0 ∅ with
      | (t, _, _, Returned SiteMap) =>
          Returned (concat ((fun kv => hostnames kv.2)
                              <$> map_of (TSSpec.sets t)))
      | (_, _, _, Returned NewMap) => Returned []
      | (_, _, _, Threw e) => Threw e
      | (_, _, _, GaveUp) => GaveUp
      end
  | None =>
      Threw "Please use extractHostnamesFromGiteaRepository with repository URL format"
  end.
End Extractor.
End Legacy.

(* ===================================================================== *)
(** * Part II: properties *)
(* ===================================================================== *)

(* ===================================================================== *)
(** ** Text lemmas *)
(* ===================================================================== *)

Lemma take_drop_while p (s : text) : take_while p s ++ drop_while p s = s.
Proof. induction s as [|c s IH]; simpl; [done|]. destruct (p c); simpl; congruence. Qed.

Lemma length_drop_while p (s : text) :
  (length (drop_while p s) <= length s)%nat.
Proof. induction s as [|c s IH]; simpl; [lia|]. destruct (p c); simpl; lia. Qed.

Lemma take_len_drop_while p (s : text) :
  take (length s - length (drop_while p s))%nat s = take_while p s.
Proof.
  induction s as [|c s IH]; simpl; [done|].
  destruct (p c) eqn:E; simpl.
  - pose proof (length_drop_while p s).
    replace (S (length s) - length (drop_while p s))%nat
      with (S (length s - length (drop_while p s))) by lia.
    simpl. by rewrite IH.
  - by rewrite Nat.sub_diag.
Qed.

Lemma take_while_all p (s : text) : Forall (fun c => p c = true) (take_while p s).
Proof.
  induction s as [|c s IH]; simpl; [constructor|].
  destruct (p c) eqn:E; [by constructor|constructor].
Qed.

Lemma drop_while_head p (s : text) c t : drop_while p s = c :: t -> p c = false.
Proof.
  induction s as [|a s IH]; simpl; [done|].
  destruct (p a) eqn:E; [done|]. by intros [= -> _].
Qed.

Lemma take_while_app p (v rest : text) :
  Forall (fun c => p c = true) v ->
  take_while p (v ++ rest) = v ++ take_while p rest.
Proof. induction 1 as [|c v Hc _ IH]; simpl; [done|]. by rewrite Hc, IH. Qed.

Lemma drop_while_app p (v rest : text) :
  Forall (fun c => p c = true) v ->
  drop_while p (v ++ rest) = drop_while p rest.
Proof. induction 1 as [|c v Hc _ IH]; simpl; [done|]. by rewrite Hc. Qed.

Lemma strip_app l (s : text) : strip l (l ++ s) = Some s.
Proof. induction l as [|a l IH]; simpl; [done|]. by rewrite Ascii.eqb_refl. Qed.

Lemma strip_Some l (s s' : text) : strip l s = Some s' <-> s = l ++ s'.
Proof.
  split; [|intros ->; apply strip_app].
  revert s; induction l as [|a l IH]; intros [|b s]; simpl; try congruence.
  destruct (Ascii.eqb b a) eqn:E; [|done].
  apply Ascii.eqb_eq in E as ->. intros H. by rewrite (IH _ H).
Qed.

(* ===================================================================== *)
(** ** The matcher on the shapes the two patterns are built from *)
(* ===================================================================== *)

Module RegexFacts.
Import Regex.

Section Facts.
Context {R : Type}.
Implicit Types (k : @cont R) (s : text) (cap : option text).

(** A literal reads exactly itself. *)
Lemma bt_lit l s cap k :
  bt (lit l) s cap k =
  match strip l s with Some s' => k s' cap | None => None end.
Proof.
  revert s; induction l as [|a l IH]; intros [|b s]; simpl; try done.
  destruct (Ascii.eqb b a); [apply IH|done].
Qed.

(** Greedy iteration of a class commits to the longest run when the
    continuation accepts it. *)
Lemma bt_reads_class p : reads_class (R:=R) (bt (Cls p)) p.
Proof. by intros [|a s] cap k. Qed.

Lemma star_cls_commit m p n s cap k x :
  reads_class m p ->
  (length s <= n)%nat ->
  k (drop_while p s) cap = Some x ->
  star m n s cap k = Some x.
Proof.
  intros Hm. revert s; induction n as [|n IH]; intros s Hn Hk.
  - destruct s; [exact Hk|simpl in Hn; lia].
  - cbn [star]. rewrite Hm. destruct s as [|c s]; [exact Hk|].
    cbn [drop_while length] in *.
    destruct (p c) eqn:E; [|by rewrite Hk].
    destruct (length s <? S (length s))%nat eqn:El;
      [|apply Nat.ltb_ge in El; lia].
    rewrite (IH s); [done|lia|done].
Qed.

(** ... and the shorter runs are of no use to a continuation that
    refuses a text starting with a character of the class. *)
Lemma star_cls_longest m p n s cap k :
  reads_class m p ->
  (length s <= n)%nat ->
  (forall c t, p c = true -> k (c :: t) cap = None) ->
  star m n s cap k = k (drop_while p s) cap.
Proof.
  intros Hm Hn Hk. destruct (k (drop_while p s) cap) as [x|] eqn:E.
  { by eapply star_cls_commit. }
  revert s Hn E; induction n as [|n IH]; intros s Hn E.
  - destruct s; [exact E|simpl in Hn; lia].
  - cbn [star]. rewrite Hm. destruct s as [|c s]; [exact E|].
    cbn [drop_while length] in *.
    destruct (p c) eqn:Ec; [|done].
    destruct (length s <? S (length s))%nat eqn:El;
      [|apply Nat.ltb_ge in El; lia].
    rewrite (IH s); [by apply Hk|lia|done].
Qed.
End Facts.

(** *** The hostname pattern *)
Section Hostname.
Variables space value : ascii -> bool.
Hypothesis value_spec : forall c, value c = value_char space c.
Hypothesis space_not_quote : forall c, space c = true -> is_quote c = false.

Context {R : Type}.
Implicit Types (k : @cont R) (s : text) (cap : option text).

Local Abbreviation tail_re := (Patterns.hostname_tail value).

Lemma take_while_value s : take_while value s = take_while (value_char space) s.
Proof. induction s as [|c s IH]; simpl; [done|]. by rewrite value_spec, IH. Qed.

(** The group takes the longest run of value characters, at least one. *)
Lemma bt_tail_none s cap k :
  take_while value s = [] -> bt tail_re s cap k = None.
Proof.
  destruct s as [|c s]; simpl; [done|]. by destruct (value c).
Qed.

Lemma bt_tail_some s cap k :
  total k -> take_while value s <> [] ->
  exists rest, bt tail_re s cap k = k rest (Some (take_while value s)).
Proof.
  intros Hk Hv. destruct s as [|c s]; [done|].
  cbn [take_while] in *. unfold tail_re. cbn [bt].
  destruct (value c) eqn:Ec; [|done].
  set (v := c :: take_while value s).
  assert (Hcap : take (length (c :: s) - length (drop_while value s))%nat (c :: s) = v).
  { pose proof (take_len_drop_while value (c :: s)) as H.
    cbn [take_while drop_while] in H. rewrite Ec in H. exact H. }
  set (K := fun s1 (_ : option text) =>
              match
                match s1 with
                | [] => None
                | a :: s' => if is_quote a then k s' (Some (take (length (c :: s) - length s1) (c :: s))) else None
                end
              with
              | Some x => Some x
              | None => k s1 (Some (take (length (c :: s) - length s1) (c :: s)))
              end).
  assert (HK : exists rest, K (drop_while value s) cap = k rest (Some v)).
  { unfold K. rewrite Hcap.
    destruct (drop_while value s) as [|q r]; [by exists []|].
    destruct (is_quote q).
    - exists r. by destruct (Hk r (Some v)) as [x ->].
    - by exists (q :: r). }
  destruct HK as [rest HK]. exists rest.
  destruct (Hk rest (Some v)) as [x Hx]. rewrite Hx in HK |- *.
  eapply (star_cls_commit _ value); [apply bt_reads_class|lia|exact HK].
Qed.

(** What the pattern does right after the key. *)
Local Abbreviation after_key := (Patterns.hostname_after_key space value).

Lemma bt_quote_tail_space c t cap k :
  space c = true -> bt (Seq (Opt (Cls is_quote)) tail_re) (c :: t) cap k = None.
Proof.
  intros Hc. cbn [bt]. rewrite (space_not_quote _ Hc).
  apply bt_tail_none. simpl. rewrite value_spec. unfold value_char.
  by rewrite Hc, orb_true_r.
Qed.

Lemma bt_after_key_none post k :
  value_after space post = None -> bt after_key post None k = None.
Proof.
  unfold value_after. intros Hv. cbn [after_key bt].
  rewrite (star_cls_longest _ space); [|apply bt_reads_class|lia|intros; by apply bt_quote_tail_space].
  cbn [bt].
  destruct (drop_while space post) as [|c t] eqn:Ed; [done|].
  destruct (is_quote c) eqn:Eq.
  - rewrite <- take_while_value in Hv.
    destruct (take_while value t) eqn:Et; [|done].
    rewrite (bt_tail_none t) by done.
    apply bt_tail_none. simpl. rewrite value_spec. unfold value_char.
    by rewrite Eq.
  - rewrite <- take_while_value in Hv.
    destruct (take_while value (c :: t)) eqn:Et; [|done].
    by apply bt_tail_none.
Qed.

Lemma bt_after_key_some post v k :
  total k -> value_after space post = Some v ->
  exists rest, bt after_key post None k = k rest (Some v).
Proof.
  unfold value_after. intros Hk Hv. cbn [after_key bt].
  rewrite (star_cls_longest _ space); [|apply bt_reads_class|lia|intros; by apply bt_quote_tail_space].
  cbn [bt].
  destruct (drop_while space post) as [|c t] eqn:Ed; [done|].
  destruct (is_quote c) eqn:Eq.
  - rewrite <- take_while_value in Hv.
    destruct (take_while value t) as [|a w] eqn:Et; [done|].
    destruct (bt_tail_some t None k Hk) as [rest Hr]; [by rewrite Et|].
    exists rest. rewrite Hr, Et.
    injection Hv as <-. by destruct (Hk rest (Some (a :: w))) as [x ->].
  - rewrite <- take_while_value in Hv.
    destruct (take_while value (c :: t)) as [|a w] eqn:Et; [done|].
    destruct (bt_tail_some (c :: t) None k Hk) as [rest Hr]; [by rewrite Et|].
    exists rest. rewrite Hr, Et. by injection Hv as <-.
Qed.

Lemma bt_hostname s k :
  bt (Patterns.hostname space value) s None k =
  match strip annotation_key s with
  | Some post => bt after_key post None k
  | None => None
  end.
Proof. unfold Patterns.hostname. change (bt (Seq ?a ?b) s None k) with (bt a s None (fun s1 cap1 => bt b s1 cap1 k)). by rewrite bt_lit. Qed.
End Hostname.

(** The capture of an anchored attempt, and of the leftmost match. *)
Section HostnameSearch.
Variables space value : ascii -> bool.
Hypothesis value_spec : forall c, value c = value_char space c.
Hypothesis space_not_quote : forall c, space c = true -> is_quote c = false.

Lemma match_here_hostname_none s :
  attempt_at space s 0 = None ->
  match_here (Patterns.hostname space value) s = None.
Proof.
  unfold match_here, attempt_at. rewrite drop_0. intros H.
  rewrite (bt_hostname space value).
  destruct (strip annotation_key s); [|done].
  by apply bt_after_key_none.
Qed.

Lemma match_here_hostname_some s v :
  attempt_at space s 0 = Some v ->
  exists whole, match_here (Patterns.hostname space value) s = Some (whole, Some v).
Proof.
  unfold match_here, attempt_at. rewrite drop_0. intros H.
  rewrite (bt_hostname space value).
  destruct (strip annotation_key s) as [post|]; [|done].
  set (k := fun rest cap => Some (take (length s - length rest)%nat s, cap)).
  destruct (bt_after_key_some space value value_spec space_not_quote post v k)
    as [rest ->]; [intros ??; by eexists|exact H|by eexists].
Qed.

Lemma first_annotation_unfold s :
  first_annotation space s =
  match attempt_at space s 0 with
  | Some v => Some v
  | None => match s with [] => None | _ :: s' => first_annotation space s' end
  end.
Proof. by destruct s. Qed.

Lemma search_unfold r s :
  search r s =
  match match_here r s with
  | Some m => Some m
  | None => match s with [] => None | _ :: s' => search r s' end
  end.
Proof. by destruct s. Qed.

Lemma search_hostname s :
  match first_annotation space s with
  | Some v => exists whole,
      search (Patterns.hostname space value) s = Some (whole, Some v)
  | None => search (Patterns.hostname space value) s = None
  end.
Proof.
  induction s as [|c s IH]; rewrite first_annotation_unfold, search_unfold;
    (destruct (attempt_at space _ 0) as [v|] eqn:E;
     [destruct (match_here_hostname_some _ _ E) as [w ->]; by eexists
     |rewrite match_here_hostname_none by done]); [done|exact IH].
Qed.
End HostnameSearch.

End RegexFacts.

(* ===================================================================== *)
(** ** The annotation: the function and the relation agree *)
(* ===================================================================== *)

Section AnnotationFacts.
Variable space : ascii -> bool.
Hypothesis space_not_quote : forall c, space c = true -> is_quote c = false.

Lemma is_quote_cases c : is_quote c = true -> c = squote \/ c = dquote.
Proof.
  unfold is_quote. intros [H|H]%orb_true_iff; apply Ascii.eqb_eq in H; auto.
Qed.

Lemma value_char_not_space c : value_char space c = true -> space c = false.
Proof. unfold value_char. by intros [_ ?]%negb_true_iff%orb_false_iff. Qed.

Lemma value_char_not_quote c : value_char space c = true -> is_quote c = false.
Proof. unfold value_char. by intros [? _]%negb_true_iff%orb_false_iff. Qed.

Lemma quote_not_value c : is_quote c = true -> value_char space c = false.
Proof. unfold value_char. by intros ->. Qed.

Lemma quote_not_space c : is_quote c = true -> space c = false.
Proof.
  intros Hq. destruct (space c) eqn:E; [|done].
  by rewrite (space_not_quote _ E) in Hq.
Qed.

Lemma take_while_stop p (rest : text) :
  rest = [] \/ (exists c rest', rest = c :: rest' /\ p c = false) ->
  take_while p rest = [].
Proof. intros [->|(c & r & -> & Hc)]; simpl; [done|by rewrite Hc]. Qed.

Lemma value_after_sound post v :
  value_after space post = Some v -> annotation_after space post v.
Proof.
  unfold value_after, annotation_after. intros H.
  pose proof (take_drop_while space post) as Hsplit.
  pose proof (take_while_all space post) as Hws.
  set (ws := take_while space post) in *.
  destruct (drop_while space post) as [|c t] eqn:Ed; [done|].
  pose proof (drop_while_head _ _ _ _ Ed) as Hc.
  destruct (is_quote c) eqn:Eq.
  - pose proof (take_drop_while (value_char space) t) as Ht.
    destruct (take_while (value_char space) t) as [|a w] eqn:Et; [done|].
    injection H as <-.
    exists ws, [c], (drop_while (value_char space) t). repeat split.
    + rewrite Ht. symmetry. exact Hsplit.
    + done.
    + destruct (is_quote_cases _ Eq) as [->| ->]; auto.
    + done.
    + rewrite <- Et. apply take_while_all.
    + destruct (drop_while (value_char space) t) as [|b r] eqn:Er; [by left|].
      right. exists b, r. split; [done|]. eapply drop_while_head; eauto.
  - pose proof (take_drop_while (value_char space) (c :: t)) as Ht.
    destruct (take_while (value_char space) (c :: t)) as [|a w] eqn:Et; [done|].
    injection H as <-.
    exists ws, [], (drop_while (value_char space) (c :: t)). repeat split.
    + rewrite Ht. symmetry. exact Hsplit.
    + done.
    + by left.
    + done.
    + rewrite <- Et. apply take_while_all.
    + destruct (drop_while (value_char space) (c :: t)) as [|b r] eqn:Er; [by left|].
      right. exists b, r. split; [done|]. eapply drop_while_head; eauto.
Qed.

Lemma value_after_complete post v :
  annotation_after space post v -> value_after space post = Some v.
Proof.
  intros (ws & q & rest & -> & Hws & Hq & Hne & Hv & Hrest).
  unfold value_after. rewrite drop_while_app by done.
  destruct v as [|a w]; [done|]. inversion Hv as [|? ? Ha Hw]; subst.
  assert (Htw : take_while (value_char space) ((a :: w) ++ rest) = a :: w).
  { rewrite take_while_app by done. rewrite take_while_stop by done.
    by rewrite app_nil_r. }
  destruct Hq as [->|[->| ->]]; cbn [app drop_while].
  - rewrite (value_char_not_space _ Ha), (value_char_not_quote _ Ha).
    change (a :: w ++ rest) with ((a :: w) ++ rest). by rewrite Htw.
  - rewrite (quote_not_space squote) by done.
    change (is_quote squote) with true. cbv iota.
    change (a :: w ++ rest) with ((a :: w) ++ rest). by rewrite Htw.
  - rewrite (quote_not_space dquote) by done.
    change (is_quote dquote) with true. cbv iota.
    change (a :: w ++ rest) with ((a :: w) ++ rest). by rewrite Htw.
Qed.

Lemma value_after_iff post v :
  value_after space post = Some v <-> annotation_after space post v.
Proof. split; [apply value_after_sound|apply value_after_complete]. Qed.

Lemma attempt_at_Some s n v :
  attempt_at space s n = Some v <->
  exists pre post,
    s = pre ++ annotation_key ++ post /\ length pre = n /\
    annotation_after space post v.
Proof.
  unfold attempt_at. split.
  - destruct (strip annotation_key (drop n s)) as [post|] eqn:E; [|done].
    intros Hv. apply strip_Some in E.
    assert (Hn : (n <= length s)%nat).
    { destruct (decide (n <= length s)%nat) as [|Hgt]; [done|].
      rewrite drop_ge in E by lia. vm_compute in E. discriminate E. }
    exists (take n s), post. split_and!.
    + by rewrite <- E, take_drop.
    + rewrite length_take. lia.
    + by apply value_after_iff.
  - intros (pre & post & -> & <- & Hv).
    rewrite drop_app_length, strip_app. by apply value_after_iff.
Qed.

Lemma attempt_at_nil n : attempt_at space [] n = None.
Proof. unfold attempt_at. by rewrite drop_nil. Qed.

Lemma first_annotation_step s :
  first_annotation space s =
  match attempt_at space s 0 with
  | Some v => Some v
  | None => match s with [] => None | _ :: s' => first_annotation space s' end
  end.
Proof. by destruct s. Qed.

Lemma attempt_at_S c s n : attempt_at space (c :: s) (S n) = attempt_at space s n.
Proof. done. Qed.

Lemma first_annotation_attempts s v :
  first_annotation space s = Some v <->
  exists n, attempt_at space s n = Some v /\ forall m, (m < n)%nat -> attempt_at space s m = None.
Proof.
  induction s as [|c s IH] in v |- *.
  - split; [done|]. intros (n & Hn & _). by rewrite attempt_at_nil in Hn.
  - rewrite first_annotation_step.
    destruct (attempt_at space (c :: s) 0) as [w|] eqn:E.
    + split.
      * intros [= ->]. exists O. split; [done|lia].
      * intros ([|n] & Hn & Hmin); [congruence|].
        rewrite Hmin in E by lia. done.
    + rewrite IH. split.
      * intros (n & Hn & Hmin). exists (S n). split; [by rewrite attempt_at_S|].
        intros [|m] Hm; [exact E|]. rewrite attempt_at_S. apply (Hmin m). lia.
      * intros ([|n] & Hn & Hmin); [congruence|].
        exists n. split; [by rewrite <- (attempt_at_S c)|].
        intros m Hm. rewrite <- (attempt_at_S c). apply (Hmin (S m)). lia.
Qed.

Lemma first_annotation_None s :
  first_annotation space s = None <-> forall n, attempt_at space s n = None.
Proof.
  induction s as [|c s IH].
  - split; [intros _ n; apply attempt_at_nil|done].
  - rewrite first_annotation_step.
    destruct (attempt_at space (c :: s) 0) as [w|] eqn:E.
    + split; [done|]. intros H. by rewrite H in E.
    + rewrite IH. split.
      * intros H [|n]; [done|]. rewrite attempt_at_S. apply H.
      * intros H n. rewrite <- (attempt_at_S c). apply (H (S n)).
Qed.

(** The function finds the first occurrence in the sense of the relation. *)
Lemma first_annotation_first s v :
  first_annotation space s = Some v <-> first_occurrence space s v.
Proof.
  rewrite first_annotation_attempts. unfold first_occurrence. split.
  - intros (n & Hn & Hmin).
    apply attempt_at_Some in Hn as (pre & post & -> & <- & Hv).
    exists pre, post. split_and!; [done..|].
    intros pre' post' v' Heq Hv'.
    destruct (decide (length pre <= length pre')%nat) as [|Hlt]; [done|].
    assert (attempt_at space (pre ++ annotation_key ++ post) (length pre') = Some v') as Hc.
    { apply attempt_at_Some. by exists pre', post'. }
    rewrite Hmin in Hc by lia. done.
  - intros (pre & post & -> & Hv & Hmin).
    exists (length pre). split.
    + apply attempt_at_Some. by exists pre, post.
    + intros m Hm.
      destruct (attempt_at space (pre ++ annotation_key ++ post) m) as [w|] eqn:E; [|done].
      apply attempt_at_Some in E as (pre' & post' & Heq & <- & Hw).
      specialize (Hmin pre' post' w Heq Hw). lia.
Qed.

Lemma first_annotation_absent s :
  first_annotation space s = None <-> no_occurrence space s.
Proof.
  rewrite first_annotation_None. unfold no_occurrence. split.
  - intros H pre post v -> Hv.
    assert (attempt_at space (pre ++ annotation_key ++ post) (length pre) = Some v) as Hc.
    { apply attempt_at_Some. by exists pre, post. }
    by rewrite H in Hc.
  - intros H n.
    destruct (attempt_at space s n) as [w|] eqn:E; [|done].
    apply attempt_at_Some in E as (pre & post & Heq & _ & Hw).
    by destruct (H pre post w Heq).
Qed.

(** The three quoting styles of one value. *)
Lemma annotation_after_styles ws q v tail :
  Forall (fun c => space c = true) ws ->
  (q = [] \/ q = [squote] \/ q = [dquote]) ->
  v <> [] ->
  Forall (fun c => value_char space c = true) v ->
  (q = [] -> tail = [] \/ exists c t, tail = c :: t /\ value_char space c = false) ->
  annotation_after space (ws ++ q ++ v ++ q ++ tail) v.
Proof.
  intros Hws Hq Hne Hv Htail.
  exists ws, q, (q ++ tail). split_and!; try done.
  destruct Hq as [->|[->| ->]]; [by apply Htail|right..];
    eexists _, _; (split; [done|]); by apply quote_not_value.
Qed.
End AnnotationFacts.

(* ===================================================================== *)
(** ** The Annotation Extractor of both programs *)
(* ===================================================================== *)

Lemma txt_str t : txt (str t) = t.
Proof. apply String.list_ascii_of_string_of_list_ascii. Qed.

Lemma str_txt s : str (txt s) = s.
Proof. apply String.string_of_list_ascii_of_string. Qed.

Lemma go_space_not_quote c : Go.space c = true -> is_quote c = false.
Proof. destruct c as [[] [] [] [] [] [] [] []]; by vm_compute. Qed.

Lemma go_value_class c : Go.value_class c = value_char Go.space c.
Proof. destruct c as [[] [] [] [] [] [] [] []]; by vm_compute. Qed.

Lemma ts_space_not_quote c : TS.space c = true -> is_quote c = false.
Proof. destruct c as [[] [] [] [] [] [] [] []]; by vm_compute. Qed.

Lemma ts_value_class c : TS.value_class c = value_char TS.space c.
Proof. done. Qed.

(** The Go lines 168 to 173 compute [first_annotation]. *)
Lemma go_matchHostname content :
  Go.matchHostname content = str <$> first_annotation Go.space (txt content).
Proof.
  unfold Go.matchHostname, Go.FindStringSubmatch, Go.hostnameRegex.
  pose proof (RegexFacts.search_hostname Go.space Go.value_class
                go_value_class go_space_not_quote (txt content)) as H.
  destruct (first_annotation Go.space (txt content)) as [v|].
  - destruct H as [whole ->]. done.
  - by rewrite H.
Qed.

(** [extractHostnameFromContent] computes [first_annotation]. *)
Lemma ts_extractHostnameFromContent content :
  TS.extractHostnameFromContent content =
  str <$> first_annotation TS.space (txt content).
Proof.
  unfold TS.extractHostnameFromContent, TS.match_, TS.hostnameRegex.
  pose proof (RegexFacts.search_hostname TS.space TS.value_class
                ts_value_class ts_space_not_quote (txt content)) as H.
  destruct (first_annotation TS.space (txt content)) as [v|].
  - destruct H as [whole ->]. done.
  - by rewrite H.
Qed.

Section Extractors.
Variable space : ascii -> bool.
Hypothesis space_not_quote : forall c, space c = true -> is_quote c = false.
Variable extract : string -> option string.
Hypothesis extract_spec :
  forall content, extract content = str <$> first_annotation space (txt content).

Lemma extracts_first_annotation_intro : extracts_first_annotation space extract.
Proof.
  assert (Hsome : forall content v,
    extract content = Some v <-> first_occurrence space (txt content) (txt v)).
  { intros content v. rewrite extract_spec.
    rewrite <- first_annotation_first by done. split.
    - destruct (first_annotation _ _) as [w|]; [|done].
      intros [= <-]. by rewrite txt_str.
    - intros ->. simpl. by rewrite str_txt. }
  split_and!; [exact Hsome| |].
  - intros content. rewrite extract_spec.
    rewrite <- first_annotation_absent by done.
    by destruct (first_annotation _ _).
  - intros pre ws q v tail content (Hws & Hq & Hne & Hv & Htail) -> Hfirst.
    apply Hsome. rewrite !txt_str.
    exists pre, (ws ++ q ++ v ++ q ++ tail). split_and!; [done| |done].
    by apply annotation_after_styles.
Qed.
End Extractors.

(** The key occurs once in the sample, at its start. *)
Lemma key_of_value_on_next_line pre post :
  txt Sample.value_on_next_line = pre ++ annotation_key ++ post ->
  post = newline :: txt "next: b".
Proof.
  intros Hc.
  assert (Hk : strip annotation_key (drop (length pre) (txt Sample.value_on_next_line))
               = Some post).
  { rewrite Hc, drop_app_length. apply strip_app. }
  assert (Hlen : (length pre <= 8)%nat).
  { assert (H1 : length (txt Sample.value_on_next_line) = 49%nat) by reflexivity.
    assert (H2 : length annotation_key = 41%nat) by reflexivity.
    apply (f_equal length) in Hc. rewrite !length_app in Hc. lia. }
  destruct (length pre) as [|[|[|[|[|[|[|[|[|n]]]]]]]]]; [| | | | | | | | |lia];
    vm_compute in Hk; try discriminate Hk.
  by injection Hk as <-.
Qed.

Lemma no_line_in_value_on_next_line space pre post v :
  space newline = true ->
  txt Sample.value_on_next_line = pre ++ annotation_key ++ post ->
  ~ annotation_on_line space post v.
Proof.
  intros Hs Hc (ws & q & rest & Hpost & Hws & Hq & Hne & Hval).
  rewrite (key_of_value_on_next_line pre post Hc) in Hpost.
  destruct ws as [|w ws].
  - destruct Hq as [-> | [-> | ->]]; cbn in Hpost; try discriminate Hpost.
    destruct v as [|c v]; [done|]. injection Hpost as <- _.
    apply Forall_cons in Hval as [Hc0 _]. unfold value_char in Hc0.
    rewrite Hs in Hc0. by rewrite orb_true_r in Hc0.
  - injection Hpost as <- _. apply Forall_cons in Hws as [[_ Hb] _]. done.
Qed.

(** Where the key ends its line, both programs take the start of the next
    line for the value: the claim that content without a line holding key
    and value gives nothing fails. *)
Lemma value_read_from_the_next_line :
  ~ absent_without_line Go.space Go.matchHostname /\
  ~ absent_without_line TS.space TS.extractHostnameFromContent.
Proof.
  split; intros H; specialize (H Sample.value_on_next_line).
  - assert (Hsome : Go.matchHostname Sample.value_on_next_line = Some "next:")
      by reflexivity.
    rewrite H in Hsome; [done|].
    intros pre post v. by apply no_line_in_value_on_next_line.
  - assert (Hsome : TS.extractHostnameFromContent Sample.value_on_next_line
                    = Some "next:") by reflexivity.
    rewrite H in Hsome; [done|].
    intros pre post v. by apply no_line_in_value_on_next_line.
Qed.

(** [C4, as amended] The Annotation Extractor of both programs returns the
    value captured at the first occurrence of the key followed by optional
    blank space, an optional quote and one or more characters that are
    neither blank nor quote; the blank space is that of the [\s] of each
    program and may hold line breaks, so that the value need not stand on
    the line of the key.  The bare, single-quoted and double-quoted styles
    of a value give that same value; later occurrences are ignored;
    content without an occurrence gives nothing.  The extractor is a total
    function, so it never fails. *)
Theorem extractHostname_first_annotation :
  extracts_first_annotation Go.space Go.matchHostname /\
  extracts_first_annotation TS.space TS.extractHostnameFromContent.
Proof.
  split.
  - apply extracts_first_annotation_intro;
      [apply go_space_not_quote|apply go_matchHostname].
  - apply extracts_first_annotation_intro;
      [apply ts_space_not_quote|apply ts_extractHostnameFromContent].
Qed.

(** The theorem at a sample line, the value in double quotes. *)
Lemma extractHostname_first_annotation_witness :
  (Go.matchHostname (Sample.annotated "node1.example.com") = Some "node1.example.com" /\
   first_occurrence Go.space (txt (Sample.annotated "node1.example.com"))
     (txt "node1.example.com")) /\
  (TS.extractHostnameFromContent (Sample.annotated "node1.example.com") =
     Some "node1.example.com" /\
   first_occurrence TS.space (txt (Sample.annotated "node1.example.com"))
     (txt "node1.example.com")).
Proof.
  split; (split; [reflexivity|]).
  - apply (proj1 (proj1 (proj1 extractHostname_first_annotation)
                    (Sample.annotated "node1.example.com") "node1.example.com")).
    reflexivity.
  - apply (proj1 (proj1 (proj2 extractHostname_first_annotation)
                    (Sample.annotated "node1.example.com") "node1.example.com")).
    reflexivity.
Defined.

(* ===================================================================== *)
(** ** Runs of the Go functions *)
(* ===================================================================== *)

Module GoFacts.
Import Go GoSpec.

Lemma run_bind {A B} (p : Prog A) (f : A -> Prog B) net n :
  run (bind p f) net n =
  let '(t, m, a) := run p net n in
  match a with
  | Some x => let '(t', m', b) := run (f x) net m in (t ++ t', m', b)
  | None => (t, m, None)
  end.
Proof.
  revert n; induction p as [a|msg|c url k IH|l k IH|v k IH|k IH|d k IH|k IH|k IH|g k IH];
    intros n; simpl.
  - by destruct (run (f a) net n) as [[t m] b].
  - done.
  - rewrite IH. destruct (run (k (net n)) net (S n)) as [[t m] [x|]]; [|done].
    by destruct (run (f x) net m) as [[t' m'] b].
  - rewrite IH. destruct (run k net n) as [[t m] [x|]]; [|done].
    by destruct (run (f x) net m) as [[t' m'] b].
  - rewrite IH. destruct (run k net n) as [[t m] [x|]]; [|done].
    by destruct (run (f x) net m) as [[t' m'] b].
  - rewrite IH. destruct (run k net n) as [[t m] [x|]]; [|done].
    by destruct (run (f x) net m) as [[t' m'] b].
  - rewrite IH. destruct (run k net n) as [[t m] [x|]]; [|done].
    by destruct (run (f x) net m) as [[t' m'] b].
  - rewrite IH. destruct (run k net n) as [[t m] [x|]]; [|done].
    by destruct (run (f x) net m) as [[t' m'] b].
  - rewrite IH. destruct (run k net n) as [[t m] [x|]]; [|done].
    by destruct (run (f x) net m) as [[t' m'] b].
  - rewrite IH. destruct (run k net n) as [[t m] [x|]]; [|done].
    by destruct (run (f x) net m) as [[t' m'] b].
Qed.

(** With a well-formed address the two address builders return. *)
Lemma constructRawURL_returns repoURL filePath branch :
  well_formed repoURL = true ->
  constructRawURL repoURL filePath branch = Ret (rawURL repoURL filePath branch).
Proof.
  unfold well_formed, rawURL, constructRawURL, index, slice_to, len.
  intros H%Z.leb_le.
  set (parts := Split (TrimRight repoURL "/") "/") in *.
  repeat match goal with
  | |- context [if ?b then _ else _] =>
      let E := fresh in destruct b eqn:E; simpl;
      [|exfalso; apply andb_false_iff in E as [E|E]; lia]
  end. done.
Qed.

Lemma convertToGiteaAPIURL_returns repoURL path branch :
  well_formed repoURL = true ->
  convertToGiteaAPIURL repoURL path branch = Ret (apiURL repoURL path branch).
Proof.
  unfold well_formed, apiURL, convertToGiteaAPIURL, index, slice_to, len.
  intros H%Z.leb_le.
  set (parts := Split (TrimRight repoURL "/") "/") in *.
  repeat match goal with
  | |- context [if ?b then _ else _] =>
      let E := fresh in destruct b eqn:E; simpl;
      [|exfalso; apply andb_false_iff in E as [E|E]; lia]
  end. done.
Qed.

Lemma run_fetchURL url net n :
  run (fetchURL url) net n =
  ([AGet {| TLSClientConfig := {| InsecureSkipVerify := true;
                                   MinVersion := VersionTLS12;
                                   MaxVersion := VersionTLS12 |};
            Timeout := 15 * Second |} url (net n)],
   S n, Some (fetchURL_returns url (net n))).
Proof. done. Qed.

Lemma hostnames_of_app (a b : list (string + string)) :
  hostnames_of (a ++ b) = hostnames_of a ++ hostnames_of b.
Proof. apply omap_app. Qed.

Lemma errors_of_app (a b : list (string + string)) :
  errors_of (a ++ b) = errors_of a ++ errors_of b.
Proof. apply omap_app. Qed.

Lemma outcomes_length (os : list (string + string)) :
  (length (hostnames_of os) + length (errors_of os) = length os)%nat.
Proof.
  induction os as [|[h|e] os IH]; simpl; [done|..];
    unfold hostnames_of, errors_of in *; simpl; lia.
Qed.

Lemma requested_get c u r t : requested (AGet c u r :: t) = u :: requested t.
Proof. done. Qed.

Section Site.
Variable json_Unmarshal : string -> option (list GiteaFile).
Variables repoURL sitePath branch : string.
Hypothesis Hwf : well_formed repoURL = true.
Variable net : Network.

Local Abbreviation matched items := (filter (fun f => isBMNodeFile f = true) items).

(** The loop visits the matched files in listing order, makes one
    request per file and nothing else, and appends one outcome per file. *)
Lemma run_processSiteDirectory_loop items si n :
  exists t,
    run (processSiteDirectory_loop repoURL sitePath branch items si) net n =
    (t, (n + length (matched items))%nat,
     Some {| SitePath := SitePath si;
             Hostnames := Hostnames si ++
               hostnames_of (file_outcomes repoURL sitePath branch net n (matched items));
             BMNodeFiles := BMNodeFiles si ++ (Name <$> matched items);
             Errors := Errors si ++
               errors_of (file_outcomes repoURL sitePath branch net n (matched items)) |}) /\
    sent t = [] /\ started t = [] /\
    requested t =
      (fun f => rawURL repoURL (sitePath +:+ "/" +:+ Name f) branch) <$> matched items.
Proof.
  revert si n; induction items as [|file rest IH]; intros si n.
  - exists []. simpl. rewrite Nat.add_0_r, !app_nil_r. by destruct si.
  - cbn [processSiteDirectory_loop].
    rewrite filter_cons. destruct (isBMNodeFile file) eqn:Efile.
    + rewrite decide_True by done.
      rewrite constructRawURL_returns by done. cbn [bind].
      rewrite run_bind, run_fetchURL.
      set (url := rawURL repoURL (sitePath +:+ "/" +:+ Name file) branch).
      cbn [file_outcomes]. fold url.
      destruct (fetchURL_returns url (net n)) as [content [err|]] eqn:Efetch.
      * destruct (IH (appendError (appendBMNodeFile si (Name file))
                     ("Error processing " +:+ Name file +:+ ": " +:+ err)) (S n))
          as (t & -> & Hs & Hg & Hr).
        eexists (_ :: t). split.
        { cbn. unfold hostnames_of, errors_of. cbn.
          rewrite <- !app_assoc, Nat.add_succ_r. reflexivity. }
        split_and!; [exact Hs|exact Hg|by rewrite requested_get, Hr].
      * destruct (matchHostname content) as [h|] eqn:Eh.
        -- destruct (IH (appendHostname (appendBMNodeFile si (Name file)) h) (S n))
             as (t & -> & Hs & Hg & Hr).
           eexists (_ :: t). split.
           { cbn. rewrite Eh. unfold hostnames_of, errors_of. cbn.
             rewrite <- !app_assoc, Nat.add_succ_r. reflexivity. }
           split_and!; [exact Hs|exact Hg|by rewrite requested_get, Hr].
        -- destruct (IH (appendError (appendBMNodeFile si (Name file))
                     ("No hostname annotation found in " +:+ Name file)) (S n))
             as (t & -> & Hs & Hg & Hr).
           eexists (_ :: t). split.
           { cbn. rewrite Eh. unfold hostnames_of, errors_of. cbn.
             rewrite <- !app_assoc, Nat.add_succ_r. reflexivity. }
           split_and!; [exact Hs|exact Hg|by rewrite requested_get, Hr].
    + rewrite decide_False by done. apply IH.
Qed.

(** The listing makes one request and decodes the answer. *)
Lemma run_getGiteaDirectoryListing path n :
  run (getGiteaDirectoryListing json_Unmarshal repoURL path branch) net n =
  ([AGet the_client (apiURL repoURL path branch) (net n)], S n,
   Some (listing_of json_Unmarshal
           (fetchURL_returns (apiURL repoURL path branch) (net n)))).
Proof.
  unfold getGiteaDirectoryListing.
  rewrite convertToGiteaAPIURL_returns by done. cbn [bind].
  rewrite run_bind, run_fetchURL.
  destruct (fetchURL_returns _ _) as [body [err|]]; [done|].
  unfold listing_of. by destruct (json_Unmarshal body).
Qed.

Lemma run_processSiteDirectory_failed n t0 items err :
  run (getGiteaDirectoryListing json_Unmarshal repoURL sitePath branch) net n =
    (t0, S n, Some (items, Some err)) ->
  run (processSiteDirectory json_Unmarshal repoURL sitePath branch) net n =
    (t0 ++ [ASend (failed_listing_record sitePath err)], S n, Some tt).
Proof.
  intros H. unfold processSiteDirectory. rewrite run_bind, H. done.
Qed.

Lemma run_processSiteDirectory_listed n t0 items :
  run (getGiteaDirectoryListing json_Unmarshal repoURL sitePath branch) net n =
    (t0, S n, Some (items, None)) ->
  exists t,
    run (processSiteDirectory json_Unmarshal repoURL sitePath branch) net n =
      (t, (S n + length (matched items))%nat, Some tt) /\
    sent t = [site_record sitePath (matched items)
                (file_outcomes repoURL sitePath branch net (S n) (matched items))] /\
    started t = [] /\
    requested t =
      apiURL repoURL sitePath branch ::
      ((fun f => rawURL repoURL (sitePath +:+ "/" +:+ Name f) branch)
         <$> matched items).
Proof.
  intros H. unfold processSiteDirectory. rewrite run_bind, H.
  rewrite run_getGiteaDirectoryListing in H. injection H as <- _.
  rewrite run_bind.
  destruct (run_processSiteDirectory_loop items
              {| SitePath := sitePath; Hostnames := [];
                 BMNodeFiles := []; Errors := [] |} (S n))
    as (t & -> & Hs & Hg & Hr).
  eexists. split; [reflexivity|].
  unfold sent, started, requested in *.
  rewrite !omap_app, ?Hs, ?Hg, ?Hr. cbn. rewrite ?app_nil_r. done.
Qed.

(** The loop that starts the branches makes no request and sends
    nothing. *)
Lemma run_discoverSitesRecursively_loop currentPath items n :
  run (discoverSitesRecursively_loop repoURL currentPath branch items) net n =
  (spawn_actions (children repoURL currentPath branch items), n, Some tt).
Proof.
  unfold children, spawn_actions.
  induction items as [|item rest IH]; [done|].
  cbn [discoverSitesRecursively_loop]. rewrite filter_cons.
  destruct (decide (Type_ item = "dir")) as [Hd|Hd].
  - rewrite bool_decide_eq_true_2 by done. cbn [run]. rewrite IH.
    cbn. unfold child_path.
    destruct (decide (currentPath = "")) as [->|Hne].
    + done.
    + by rewrite !bool_decide_eq_true_2, bool_decide_eq_false_2 by done.
  - rewrite bool_decide_eq_false_2 by done. apply IH.
Qed.
End Site.

(** *** One branch of the walk, run alone *)
Section Branch.
Variable json_Unmarshal : string -> option (list GiteaFile).
Variables repoURL branch : string.
Hypothesis Hwf : well_formed repoURL = true.
Variable net : Network.

Local Abbreviation listing path n :=
  (listing_of json_Unmarshal (fetchURL_returns (apiURL repoURL path branch) (net n))).

Lemma run_processSiteDirectory sitePath n :
  exists t n',
    run (processSiteDirectory json_Unmarshal repoURL sitePath branch) net n =
      (t, n', Some tt) /\
    started t = [] /\
    exists rec, sent t = [rec] /\
      match listing sitePath n with
      | (_, Some cause) => rec = failed_listing_record sitePath cause
      | (items, None) =>
          rec = site_record sitePath
                  (filter (fun f => isBMNodeFile f = true) items)
                  (file_outcomes repoURL sitePath branch net (S n)
                     (filter (fun f => isBMNodeFile f = true) items))
      end.
Proof.
  pose proof (run_getGiteaDirectoryListing json_Unmarshal repoURL branch Hwf net
                sitePath n) as Hl.
  destruct (listing sitePath n) as [items [cause|]] eqn:El.
  - rewrite (run_processSiteDirectory_failed _ _ _ _ _ _ _ _ _ Hl).
    eexists _, _. split; [done|]. split; [done|]. by eexists.
  - destruct (run_processSiteDirectory_listed _ _ _ _ Hwf _ _ _ _ Hl)
      as (t & -> & Hs & Hg & _).
    eexists _, _. split; [done|]. split; [done|]. by eexists.
Qed.

(** A branch whose listing fails logs the failure and is done. *)
Lemma run_discover_failed currentPath n cause :
  (listing currentPath n).2 = Some cause ->
  run (discoverSitesRecursively json_Unmarshal repoURL currentPath branch) net n =
  ([AGet the_client (apiURL repoURL currentPath branch) (net n);
    ALog ("Error getting directory listing for " +:+ currentPath +:+ ": " +:+ cause);
    ADone], S n, Some tt).
Proof.
  intros H. unfold discoverSitesRecursively, defer.
  rewrite !run_bind, run_getGiteaDirectoryListing by done.
  destruct (listing currentPath n) as [items [e|]]; [|done].
  injection H as ->. done.
Qed.

(** A branch over a directory that is no site starts its children and is
    done. *)
Lemma run_discover_plain currentPath n items :
  listing currentPath n = (items, None) ->
  isSiteDirectory items = false ->
  run (discoverSitesRecursively json_Unmarshal repoURL currentPath branch) net n =
  ([AGet the_client (apiURL repoURL currentPath branch) (net n)]
   ++ spawn_actions (children repoURL currentPath branch items) ++ [ADone],
   S n, Some tt).
Proof.
  intros H Hsite. unfold discoverSitesRecursively, defer.
  rewrite !run_bind, run_getGiteaDirectoryListing by done.
  rewrite H, Hsite. rewrite run_bind. cbn [run].
  rewrite run_discoverSitesRecursively_loop. cbn. by rewrite ?app_nil_r.
Qed.

(** A branch over a site runs the Site Processor, which sends the
    record, then starts its children and is done. *)
Lemma run_discover_site currentPath n items :
  listing currentPath n = (items, None) ->
  isSiteDirectory items = true ->
  exists tp n',
    run (processSiteDirectory json_Unmarshal repoURL (path_key currentPath) branch)
        net (S n) = (tp, n', Some tt) /\
    run (discoverSitesRecursively json_Unmarshal repoURL currentPath branch) net n =
    ([AGet the_client (apiURL repoURL currentPath branch) (net n)]
     ++ tp ++ spawn_actions (children repoURL currentPath branch items) ++ [ADone],
     n', Some tt).
Proof.
  intros H Hsite.
  destruct (run_processSiteDirectory (path_key currentPath) (S n))
    as (tp & n' & Hp & _).
  exists tp, n'. split; [done|].
  unfold discoverSitesRecursively, defer.
  rewrite !run_bind, run_getGiteaDirectoryListing by done.
  rewrite H, Hsite. rewrite run_bind. fold (path_key currentPath).
  rewrite Hp. rewrite run_discoverSitesRecursively_loop. cbn.
  by rewrite ?app_nil_r, <- ?app_assoc.
Qed.
End Branch.
End GoFacts.

(* ===================================================================== *)
(** ** Runs of the TypeScript methods *)
(* ===================================================================== *)

Module TSFacts.
Import TS TSSpec.

Lemma ts_run_bind {A B} (p : Prog A) (f : A -> Prog B) net n m :
  run (bind p f) net n m =
  let '(t, n', m', r) := run p net n m in
  match r with
  | Returned a =>
      let '(t2, n2, m2, r2) := run (f a) net n' m' in (t ++ t2, n2, m2, r2)
  | Threw e => (t, n', m', Threw e)
  | GaveUp => (t, n', m', GaveUp)
  end.
Proof.
  revert n m; induction p as [a|e| |c url ag to k IH|key v k IH|path k IH];
    intros n m; simpl; try done.
  - by destruct (run (f a) net n m) as [[[t n'] m'] r].
  - rewrite IH. destruct (run (k (net n)) net (S n) m) as [[[t n'] m'] [a|e|]];
      try done. by destruct (run (f a) net n' m') as [[[t2 n2] m2] r2].
  - rewrite IH. destruct (run k net n (<[key:=v]> m)) as [[[t n'] m'] [a|e|]];
      try done. by destruct (run (f a) net n' m') as [[[t2 n2] m2] r2].
  - rewrite IH. destruct (run k net n m) as [[[t n'] m'] [a|e|]];
      try done. by destruct (run (f a) net n' m') as [[[t2 n2] m2] r2].
Qed.

Lemma ts_run_try_catch {A} (p : Prog A) (h : string -> Prog A) net n m :
  run (try_catch p h) net n m =
  let '(t, n', m', r) := run p net n m in
  match r with
  | Returned a => (t, n', m', Returned a)
  | Threw e =>
      let '(t2, n2, m2, r2) := run (h e) net n' m' in (t ++ t2, n2, m2, r2)
  | GaveUp => (t, n', m', GaveUp)
  end.
Proof.
  revert n m; induction p as [a|e| |c url ag to k IH|key v k IH|path k IH];
    intros n m; simpl; try done.
  - by destruct (run (h e) net n m) as [[[t n'] m'] r].
  - rewrite IH. destruct (run (k (net n)) net (S n) m) as [[[t n'] m'] [a|e|]];
      try done. by destruct (run (h e) net n' m') as [[[t2 n2] m2] r2].
  - rewrite IH. destruct (run k net n (<[key:=v]> m)) as [[[t n'] m'] [a|e|]];
      try done. by destruct (run (h e) net n' m') as [[[t2 n2] m2] r2].
  - rewrite IH. destruct (run k net n m) as [[[t n'] m'] [a|e|]];
      try done. by destruct (run (h e) net n' m') as [[[t2 n2] m2] r2].
Qed.

Section Fetch.
Variable fuel : nat.
Variable net : Network.

(** A fetch leaves the site map alone, and its result does not depend on
    the map. *)
Lemma ts_run_fetchUrl_fuel k url n m :
  exists t,
    run (fetchUrl_fuel k url) net n m =
      (t, (fetched k url net n).2, m, (fetched k url net n).1) /\
    only_requests t /\ (n < (fetched k url net n).2)%nat.
Proof.
  unfold fetched, fetchUrl.
  revert url n; induction k as [|k IH]; intros url n; cbn [fetchUrl_fuel run].
  - destruct (net n) as [code msg loc data| |msg| |msg]; cbn.
    + destruct (((code =? 301) || (code =? 302)) && truthy loc); cbn.
      * eexists. split; [done|]. split; [|lia]. repeat constructor.
      * destruct (negb (code =? 200)); cbn;
          (eexists; split; [done|]; split; [|lia]; repeat constructor).
    + eexists. split; [done|]. split; [|lia]. repeat constructor.
    + eexists. split; [done|]. split; [|lia]. repeat constructor.
    + eexists. split; [done|]. split; [|lia]. repeat constructor.
    + eexists. split; [done|]. split; [|lia]. repeat constructor.
  - destruct (net n) as [code msg loc data| |msg| |msg]; cbn.
    + destruct (((code =? 301) || (code =? 302)) && truthy loc); cbn.
      * destruct (IH (default "" loc) (S n)) as (t & Ht & Ho & Hlt).
        rewrite Ht.
        destruct (run (fetchUrl_fuel k (default "" loc)) net (S n) ∅)
          as [[[t' n'] m'] r'] eqn:E. cbn in *.
        eexists. split; [done|]. split; [by constructor|lia].
      * destruct (negb (code =? 200)); cbn;
          (eexists; split; [done|]; split; [|lia]; repeat constructor).
    + eexists. split; [done|]. split; [|lia]. repeat constructor.
    + eexists. split; [done|]. split; [|lia]. repeat constructor.
    + eexists. split; [done|]. split; [|lia]. repeat constructor.
    + eexists. split; [done|]. split; [|lia]. repeat constructor.
Qed.
End Fetch.

(** The requests of a fetch do not depend on the site map; the first goes
    to the address given, and each is armed with the timer. *)
Lemma ts_fetch_trace k url net n m :
  (run (fetchUrl_fuel k url) net n m).1.1.1 = fetch_trace k url net n /\
  Forall timer_armed (fetch_trace k url net n) /\
  exists c ag ev rest, fetch_trace k url net n = AGet c url ag 15000 ev :: rest.
Proof.
  unfold fetch_trace, fetchUrl.
  assert (Harm : forall u ev, timer_armed
            (AGet (if startsWith u "https://" then Https else Http) u
                  (if startsWith u "https://" then Some createInsecureAgent else None)
                  15000 ev)).
  { intros u ev. split; [done|]. destruct (startsWith u "https://"); [|done].
    intros _. by eexists. }
  assert (Hone : forall u ev,
            Forall timer_armed
              [AGet (if startsWith u "https://" then Https else Http) u
                    (if startsWith u "https://" then Some createInsecureAgent else None)
                    15000 ev]).
  { intros. constructor; [apply Harm|constructor]. }
  revert url n; induction k as [|k IH]; intros url n; cbn [fetchUrl_fuel run].
  - destruct (net n) as [code msg loc data| |msg| |msg]; cbn;
      try (split_and!; [done|apply Hone|by eexists _, _, _, _]).
    destruct (((code =? 301) || (code =? 302)) && truthy loc); cbn;
      [|destruct (negb (code =? 200)); cbn];
      (split_and!; [done|apply Hone|by eexists _, _, _, _]).
  - destruct (net n) as [code msg loc data| |msg| |msg]; cbn;
      try (split_and!; [done|apply Hone|by eexists _, _, _, _]).
    destruct (((code =? 301) || (code =? 302)) && truthy loc); cbn;
      [|destruct (negb (code =? 200)); cbn;
        (split_and!; [done|apply Hone|by eexists _, _, _, _])].
    destruct (IH (default "" loc) (S n)) as (Heq & Hall & _).
    destruct (run (fetchUrl_fuel k (default "" loc)) net (S n) m)
      as [[[t1 n1] m1] r1].
    destruct (run (fetchUrl_fuel k (default "" loc)) net (S n) ∅)
      as [[[t2 n2] m2] r2].
    cbn [fst snd] in Heq, Hall |- *. subst t1.
    split_and!; [done|constructor; [apply Harm|done]|by eexists _, _, _, _].
Qed.

(** A fetch resolves on a response with status 200 only, and rejects with
    the message of what went wrong. *)
Lemma ts_fetched_settles_as k url net n :
  settles_as (fetched k url net n).1 (net ((fetched k url net n).2 - 1)%nat) /\
  (n < (fetched k url net n).2)%nat.
Proof.
  unfold fetched, fetchUrl.
  revert url n; induction k as [|k IH]; intros url n; cbn [fetchUrl_fuel run].
  - destruct (net n) as [code msg loc data| |msg| |msg] eqn:En; cbn;
      rewrite ?Nat.sub_0_r, ?En; cbn.
    + destruct (((code =? 301) || (code =? 302)) && truthy loc) eqn:Er; cbn;
        rewrite ?Nat.sub_0_r, ?En; cbn; [split; [by left|lia]|].
      destruct (code =? 200) eqn:E2; cbn; rewrite ?Nat.sub_0_r, ?En; cbn.
      * apply Z.eqb_eq in E2 as ->. split; [by eexists _, _|lia].
      * split; [|lia]. split_and!; [done|done| |by eexists].
        intros ??? [= -> _ _ _]. done.
    + split; [by right|lia].
    + split; [|lia]. split_and!; [done|done|done|by eexists].
    + split; [|lia]. split_and!; [done|done|done|by exists url].
    + split; [|lia]. split_and!; [done|done|done|by exists url].
  - destruct (net n) as [code msg loc data| |msg| |msg] eqn:En; cbn;
      rewrite ?Nat.sub_0_r, ?En; cbn.
    + destruct (((code =? 301) || (code =? 302)) && truthy loc) eqn:Er; cbn.
      * destruct (IH (default "" loc) (S n)) as [Hs Hlt].
        destruct (run (fetchUrl_fuel k (default "" loc)) net (S n) ∅)
          as [[[t' n'] m'] r']. cbn [fst snd] in *. split; [done|lia].
      * rewrite ?Nat.sub_0_r, ?En; cbn.
        destruct (code =? 200) eqn:E2; cbn; rewrite ?Nat.sub_0_r, ?En; cbn.
        -- apply Z.eqb_eq in E2 as ->. split; [by eexists _, _|lia].
        -- split; [|lia]. rewrite Er. split_and!; [done|done| |by eexists].
           intros ??? [= -> _ _ _]. done.
    + split; [by right|lia].
    + split; [|lia]. split_and!; [done|done|done|by eexists].
    + split; [|lia]. split_and!; [done|done|done|by exists url].
    + split; [|lia]. split_and!; [done|done|done|by exists url].
Qed.

Lemma only_requests_sets t : only_requests t ->
  omap (fun a => match a with ASet k v => Some (k, v) | _ => None end) t = [].
Proof. induction 1 as [|[] t Ha _ IH]; try done. Qed.

Lemma extract_nonempty content h :
  extractHostnameFromContent content = Some h -> h <> "".
Proof.
  rewrite ts_extractHostnameFromContent.
  destruct (first_annotation TS.space (txt content)) as [v|] eqn:E; [|done].
  intros [= <-] Hv.
  apply first_annotation_first in E as (pre & post & _ & Ha & _);
    [|apply ts_space_not_quote].
  destruct Ha as (ws & q & rest & _ & _ & _ & Hne & _).
  apply Hne. by rewrite <- (txt_str v), Hv.
Qed.

(** *** Listings and their [null] elements *)

Lemma ts_run_filter_objects test (items : list Item) net n m :
  run (filter_ test (Some <$> items)) net n m =
    ([], n, m, Returned (filter (fun f => test f = true) items)).
Proof.
  induction items as [|item rest IH]; [done|].
  cbn [fmap list_fmap filter_]. rewrite ts_run_bind.
  change (list_fmap Item (option Item) Some rest) with (Some <$> rest). rewrite IH.
  cbn [run app]. rewrite filter_cons.
  destruct (test item) eqn:E.
  - by rewrite decide_True.
  - by rewrite decide_False.
Qed.

Lemma ts_run_some_objects test (items : list Item) net n m :
  run (some test (Some <$> items)) net n m = ([], n, m, Returned (existsb test items)).
Proof.
  induction items as [|item rest IH]; [done|].
  cbn [fmap list_fmap some existsb]. by destruct (test item).
Qed.

(** [filter] throws exactly on the listings that hold [null]. *)
Lemma ts_run_filter_null test items net n m :
  None ∈ items ->
  run (filter_ test items) net n m = ([], n, m, Threw TypeError_null).
Proof.
  induction items as [|[item|] rest IH]; intros Hin.
  - by apply elem_of_nil in Hin.
  - apply elem_of_cons in Hin as [|Hin]; [done|].
    cbn [filter_]. rewrite ts_run_bind, IH; done.
  - done.
Qed.

Lemma objects_or_null (items : list (option Item)) :
  None ∈ items \/ exists objects, items = Some <$> objects.
Proof.
  induction items as [|[item|] rest IH].
  - right. by exists [].
  - destruct IH as [Hin|[objects ->]]; [left; by right|].
    right. by exists (item :: objects).
  - left. by left.
Qed.

(** [some] makes no request and leaves the map alone; it returns or
    throws. *)
Lemma ts_run_some test items net n m :
  exists r, run (some test items) net n m = ([], n, m, r) /\ r <> GaveUp.
Proof.
  induction items as [|[item|] rest IH]; cbn [some].
  - by eexists.
  - destruct (test item); [by eexists|done].
  - by eexists.
Qed.

Lemma ts_run_filter test items net n m :
  exists r, run (filter_ test items) net n m = ([], n, m, r) /\ r <> GaveUp.
Proof.
  destruct (objects_or_null items) as [Hin|[objects ->]].
  - rewrite ts_run_filter_null by done. by eexists.
  - rewrite ts_run_filter_objects. by eexists.
Qed.

Section Site.
Variable JSON_parse : string -> option JSValue.
Variable fuel : nat.
Variables repoUrl sitePath branch : string.
Variable net : Network.

Local Abbreviation matched items := (filter (fun f => isBMNodeFile f = true) items).

Lemma ts_run_fetchUrl url n m :
  exists t,
    run (fetchUrl fuel url) net n m =
      (t, (fetched fuel url net n).2, m, (fetched fuel url net n).1) /\
    only_requests t /\ (n < (fetched fuel url net n).2)%nat.
Proof. apply ts_run_fetchUrl_fuel. Qed.

(** The listing never throws: whatever goes wrong gives an empty
    listing. *)
Lemma ts_run_getGiteaDirectoryListing path n m :
  exists t,
    run (getGiteaDirectoryListing JSON_parse fuel repoUrl path branch) net n m =
      (t, (fetched fuel (convertToGiteaApiUrl repoUrl path branch) net n).2, m,
       listing_of JSON_parse
         (fetched fuel (convertToGiteaApiUrl repoUrl path branch) net n).1) /\
    only_requests t.
Proof.
  unfold getGiteaDirectoryListing. rewrite ts_run_try_catch, ts_run_bind.
  destruct (ts_run_fetchUrl (convertToGiteaApiUrl repoUrl path branch) n m)
    as (t & -> & Ht & _).
  destruct (fetched _ _ _ _) as [[response|e|] n']; cbn.
  - destruct (JSON_parse response) as [[items|]|]; cbn;
      rewrite ?app_nil_r; by eexists.
  - rewrite app_nil_r. by eexists.
  - by eexists.
Qed.

Lemma locator_spec file :
  (if truthy (download_url file) then default "" (download_url file)
   else constructRawUrl repoUrl (sitePath +:+ "/" +:+ default "" (name file)) branch)
  = locator repoUrl sitePath branch file.
Proof.
  unfold locator, truthy. destruct (download_url file) as [d|]; [|done].
  by destruct (bool_decide (d ≠ "")).
Qed.

(** The loop makes the requests of one fetch per file and appends one
    outcome per file; it has no result only when a fetch has none. *)
Lemma ts_run_processSiteDirectory_loop files si n m :
  exists t,
    run (processSiteDirectory_loop fuel repoUrl sitePath branch files si) net n m =
      match file_outcomes fuel repoUrl sitePath branch net n files with
      | Some (outs, n') =>
          (t, n', m,
           Returned {| TS.sitePath := TS.sitePath si;
                       hostnames := hostnames si ++ hostnames_of outs;
                       bmNodeFiles := bmNodeFiles si ++
                         ((fun f => default "" (name f)) <$> files);
                       errors := errors si ++ errors_of outs |})
      | None => (t, (run (processSiteDirectory_loop fuel repoUrl sitePath branch
                            files si) net n m).1.1.2, m, GaveUp)
      end /\
    only_requests t.
Proof.
  revert si n; induction files as [|file rest IH]; intros si n.
  - exists []. cbn. rewrite !app_nil_r. split; [by destruct si|constructor].
  - cbn [processSiteDirectory_loop file_outcomes].
    rewrite locator_spec.
    set (url := locator repoUrl sitePath branch file).
    rewrite ts_run_bind, ts_run_try_catch, ts_run_bind.
    destruct (ts_run_fetchUrl url n m) as (t & -> & Ht & _).
    destruct (fetched fuel url net n) as [[content|e|] n1]; cbn [fst snd file_outcome].
    + destruct (extractHostnameFromContent content) as [h|] eqn:Eh.
      * rewrite bool_decide_eq_true_2 by (by eapply extract_nonempty).
        cbn [run]. rewrite app_nil_r.
        destruct (IH (push_hostname (push_bmNodeFile si (default "" (name file))) h) n1)
          as (t' & Hrun & Ht').
        rewrite Hrun.
        destruct (file_outcomes fuel repoUrl sitePath branch net n1 rest)
          as [[outs n2]|].
        -- exists (t ++ t'). split; [|by apply Forall_app].
           cbn. unfold hostnames_of, errors_of. cbn.
           rewrite <- !app_assoc. reflexivity.
        -- exists (t ++ t'). split; [|by apply Forall_app]. done.
      * cbn [run]. rewrite app_nil_r.
        destruct (IH (push_error (push_bmNodeFile si (default "" (name file)))
                    ("No hostname annotation found in " +:+ default "" (name file))) n1)
          as (t' & Hrun & Ht').
        rewrite Hrun.
        destruct (file_outcomes fuel repoUrl sitePath branch net n1 rest)
          as [[outs n2]|].
        -- exists (t ++ t'). split; [|by apply Forall_app].
           cbn. unfold hostnames_of, errors_of. cbn.
           rewrite <- !app_assoc. reflexivity.
        -- exists (t ++ t'). split; [|by apply Forall_app]. done.
    + cbn [run]. rewrite app_nil_r.
      destruct (IH (push_error (push_bmNodeFile si (default "" (name file)))
                  ("Error processing " +:+ default "" (name file) +:+ ": " +:+ e)) n1)
        as (t' & Hrun & Ht').
      rewrite Hrun.
      destruct (file_outcomes fuel repoUrl sitePath branch net n1 rest)
        as [[outs n2]|].
      * exists (t ++ t'). split; [|by apply Forall_app].
        cbn. unfold hostnames_of, errors_of. cbn.
        rewrite <- !app_assoc. reflexivity.
      * exists (t ++ t'). split; [|by apply Forall_app]. done.
    + exists t. done.
Qed.

Lemma ts_run_processSiteDirectory n m t0 n1 items :
  run (getGiteaDirectoryListing JSON_parse fuel repoUrl sitePath branch) net n m =
    (t0, n1, m, Returned (Some <$> items)) ->
  match file_outcomes fuel repoUrl sitePath branch net n1 (matched items) with
  | Some (outs, n2) =>
      exists t,
        run (processSiteDirectory JSON_parse fuel repoUrl sitePath branch) net n m =
          (t, n2, m, Returned (site_record sitePath (matched items) outs)) /\
        only_requests t
  | None =>
      exists t n2,
        run (processSiteDirectory JSON_parse fuel repoUrl sitePath branch) net n m =
          (t, n2, m, GaveUp) /\
        only_requests t
  end.
Proof.
  intros H. unfold processSiteDirectory.
  rewrite ts_run_try_catch, ts_run_bind, H, ts_run_bind, ts_run_filter_objects.
  cbn [app].
  destruct (ts_run_getGiteaDirectoryListing sitePath n m) as (t0' & H' & Ht0).
  rewrite H in H'. injection H' as <- _ _.
  destruct (ts_run_processSiteDirectory_loop (matched items)
              {| TS.sitePath := sitePath; hostnames := [];
                 bmNodeFiles := []; errors := [] |} n1 m) as (t & -> & Ht).
  destruct (file_outcomes fuel repoUrl sitePath branch net n1 (matched items))
    as [[outs n2]|].
  - exists (t0 ++ t). split; [done|by apply Forall_app].
  - eexists _, _. split; [done|by apply Forall_app].
Qed.

(** On a listing that holds [null] the filter throws, and the record
    holds the error of the site directory and nothing else. *)
Lemma ts_run_processSiteDirectory_null n m t0 n1 items :
  run (getGiteaDirectoryListing JSON_parse fuel repoUrl sitePath branch) net n m =
    (t0, n1, m, Returned items) ->
  None ∈ items ->
  run (processSiteDirectory JSON_parse fuel repoUrl sitePath branch) net n m =
    (t0, n1, m,
     Returned {| TS.sitePath := sitePath; hostnames := []; bmNodeFiles := [];
                 errors := ["Error processing site directory " +:+ sitePath
                            +:+ ": " +:+ TypeError_null] |}).
Proof.
  intros H Hin. unfold processSiteDirectory.
  rewrite ts_run_try_catch, ts_run_bind, H, ts_run_bind, ts_run_filter_null by done.
  cbn [run app]. by rewrite !app_nil_r.
Qed.

(** Whatever the answers, the Site Processor makes requests only,
    leaves the site map alone and throws nothing. *)
Lemma ts_run_processSiteDirectory_total n m :
  exists t n2 res,
    run (processSiteDirectory JSON_parse fuel repoUrl sitePath branch) net n m =
      (t, n2, m, res) /\
    only_requests t /\
    forall e, res <> Threw e.
Proof.
  destruct (ts_run_getGiteaDirectoryListing sitePath n m) as (t0 & Hl & Ht0).
  destruct (listing_of JSON_parse _) as [items|e|] eqn:El.
  - destruct (objects_or_null items) as [Hin|[objects ->]].
    + rewrite (ts_run_processSiteDirectory_null _ _ _ _ _ Hl Hin).
      by eexists _, _, _.
    + pose proof (ts_run_processSiteDirectory _ _ _ _ _ Hl) as H.
      destruct (file_outcomes _ _ _ _ _ _ _) as [[outs n2]|].
      * destruct H as (t & -> & Ht). by eexists _, _, _.
      * destruct H as (t & n2 & -> & Ht). by eexists _, _, _.
  - exfalso. revert El. unfold listing_of.
    destruct (fetched _ _ _ _).1 as [response|e'|]; [|done|done].
    by destruct (JSON_parse response) as [[its|]|].
  - unfold processSiteDirectory.
    rewrite ts_run_try_catch, ts_run_bind, Hl. by eexists _, _, _.
Qed.
End Site.

(** A directory whose listing is empty: the walk returns, having stored
    nothing and called nothing. *)
Lemma ts_run_discover_empty JSON_parse fuel k repoUrl currentPath branch net n m t n' :
  run (getGiteaDirectoryListing JSON_parse fuel repoUrl currentPath branch) net n m =
    (t, n', m, Returned []) ->
  run (discoverSitesRecursively_fuel JSON_parse fuel k repoUrl currentPath branch)
      net n m = (t, n', m, Returned tt).
Proof.
  intros H. destruct k; cbn [discoverSitesRecursively_fuel];
    rewrite ts_run_try_catch, ts_run_bind, H; cbn; by rewrite !app_nil_r.
Qed.

(** A site whose listing request fails: the failure is swallowed by the
    listing, and the record is empty, its errors included. *)
Lemma ts_run_processSiteDirectory_failed JSON_parse fuel repoUrl sitePath branch
    net n m cause :
  (fetched fuel (convertToGiteaApiUrl repoUrl sitePath branch) net n).1 = Threw cause ->
  exists t n',
    run (processSiteDirectory JSON_parse fuel repoUrl sitePath branch) net n m =
      (t, n', m, Returned {| TS.sitePath := sitePath; hostnames := [];
                             bmNodeFiles := []; errors := [] |}).
Proof.
  intros Hf.
  destruct (ts_run_getGiteaDirectoryListing JSON_parse fuel repoUrl branch net
              sitePath n m) as (t & Hrun & _).
  rewrite Hf in Hrun. cbn in Hrun.
  pose proof (ts_run_processSiteDirectory JSON_parse fuel repoUrl sitePath branch
                net n m _ _ [] Hrun) as H.
  cbn in H. destruct H as (t' & H & _). by eexists _, _.
Qed.

(** The requests of the loop: one fetch per file, from its locator. *)
Lemma ts_loop_requests fuel repoUrl sitePath branch net files si n m outs n2 :
  file_outcomes fuel repoUrl sitePath branch net n files = Some (outs, n2) ->
  fetches_from_locators fuel repoUrl sitePath branch net files
    (run (processSiteDirectory_loop fuel repoUrl sitePath branch files si) net n m).1.1.1.
Proof.
  revert si n outs; induction files as [|file rest IH]; intros si n outs.
  - intros _. exists []. split; [done|constructor].
  - cbn [processSiteDirectory_loop file_outcomes].
    rewrite (locator_spec repoUrl sitePath branch).
    set (url := locator repoUrl sitePath branch file).
    rewrite ts_run_bind, ts_run_try_catch, ts_run_bind.
    destruct (ts_fetch_trace fuel url net n m) as (Htr & _ & c & ag & ev & tl & Hfirst).
    destruct (ts_run_fetchUrl fuel net url n m) as (t & Hrun & _).
    unfold fetchUrl in *. rewrite Hrun in Htr |- *. cbn [fst snd] in Htr. subst t.
    destruct (fetched fuel url net n) as [r n1]. cbn [fst snd].
    assert (Hstep : forall si1 os,
              file_outcomes fuel repoUrl sitePath branch net n1 rest = Some (os, n2) ->
              fetches_from_locators fuel repoUrl sitePath branch net (file :: rest)
                (fetch_trace fuel url net n ++
                 (run (processSiteDirectory_loop fuel repoUrl sitePath branch rest si1)
                      net n1 m).1.1.1)).
    { intros si1 os Hos. destruct (IH si1 n1 os Hos) as (ts & -> & Hts).
      exists (fetch_trace fuel url net n :: ts). split; [done|].
      constructor; [|done]. by exists n, c, ag, ev, tl. }
    destruct r as [content|e|]; cbn [file_outcome].
    + destruct (file_outcomes fuel repoUrl sitePath branch net n1 rest)
        as [[os n']|] eqn:Eos; [|by destruct (extractHostnameFromContent content)].
      intros Hsome.
      assert (n' = n2) as -> by (by destruct (extractHostnameFromContent content);
                                  injection Hsome).
      destruct (extractHostnameFromContent content) as [h|] eqn:Eh.
      * rewrite bool_decide_eq_true_2 by (by eapply extract_nonempty).
        cbn [run]. rewrite app_nil_r.
        destruct (run (processSiteDirectory_loop _ _ _ _ rest _) net n1 m)
          as [[[t' k'] m'] r'] eqn:E.
        match type of E with
        | run (processSiteDirectory_loop _ _ _ _ rest ?si1) _ _ _ = _ =>
            pose proof (Hstep si1 os eq_refl) as H; rewrite E in H; exact H
        end.
      * cbn [run]. rewrite app_nil_r.
        destruct (run (processSiteDirectory_loop _ _ _ _ rest _) net n1 m)
          as [[[t' k'] m'] r'] eqn:E.
        match type of E with
        | run (processSiteDirectory_loop _ _ _ _ rest ?si1) _ _ _ = _ =>
            pose proof (Hstep si1 os eq_refl) as H; rewrite E in H; exact H
        end.
    + destruct (file_outcomes fuel repoUrl sitePath branch net n1 rest)
        as [[os n']|] eqn:Eos; [|done].
      intros [= <- <-].
      cbn [run]. rewrite app_nil_r.
      destruct (run (processSiteDirectory_loop _ _ _ _ rest _) net n1 m)
        as [[[t' k'] m'] r'] eqn:E.
      match type of E with
      | run (processSiteDirectory_loop _ _ _ _ rest ?si1) _ _ _ = _ =>
          pose proof (Hstep si1 os eq_refl) as H; rewrite E in H; exact H
      end.
    + done.
Qed.

Lemma ts_processSiteDirectory_requests JSON_parse fuel repoUrl sitePath branch
    net n m t0 n1 items outs n2 :
  run (getGiteaDirectoryListing JSON_parse fuel repoUrl sitePath branch) net n m =
    (t0, n1, m, Returned (Some <$> items)) ->
  file_outcomes fuel repoUrl sitePath branch net n1
    (filter (fun f => isBMNodeFile f = true) items) = Some (outs, n2) ->
  exists t,
    (run (processSiteDirectory JSON_parse fuel repoUrl sitePath branch) net n m).1.1.1 =
      t0 ++ t /\
    fetches_from_locators fuel repoUrl sitePath branch net
      (filter (fun f => isBMNodeFile f = true) items) t.
Proof.
  intros H Hos. unfold processSiteDirectory.
  rewrite ts_run_try_catch, ts_run_bind, H, ts_run_bind, ts_run_filter_objects.
  cbn [app].
  pose proof (ts_loop_requests fuel repoUrl sitePath branch net
                (filter (fun f => isBMNodeFile f = true) items)
                {| TS.sitePath := sitePath; hostnames := [];
                   bmNodeFiles := []; errors := [] |} n1 m outs n2 Hos) as Hreq.
  destruct (ts_run_processSiteDirectory_loop fuel repoUrl sitePath branch net
              (filter (fun f => isBMNodeFile f = true) items)
              {| TS.sitePath := sitePath; hostnames := [];
                 bmNodeFiles := []; errors := [] |} n1 m) as (t & Hrun & _).
  rewrite Hos in Hrun. rewrite Hrun in Hreq |- *. cbn in *. by exists t.
Qed.

(** *** Enough fuel *)
Section Fuel.
Variable net : Network.

Hypothesis Hend : responses_end net.

Lemma fetched_settles k url n :
  (exists j, (j <= k)%nat /\ is_redirect (net (n + j)%nat) = false) ->
  (fetched k url net n).1 <> GaveUp.
Proof.
  unfold fetched, fetchUrl.
  revert url n; induction k as [|k IH]; intros url n (j & Hj & Hnet);
    cbn [fetchUrl_fuel run].
  - assert (j = 0)%nat as -> by lia. rewrite Nat.add_0_r in Hnet.
    pose proof (Hend n) as Hcut.
    destruct (net n) as [code msg loc data| |msg| |msg]; cbn in *; try done.
    rewrite Hnet. by destruct (negb (code =? 200)).
  - pose proof (Hend n) as Hcut.
    destruct (net n) as [code msg loc data| |msg| |msg] eqn:En; cbn; try done.
    destruct (((code =? 301) || (code =? 302)) && truthy loc) eqn:Er.
    + destruct j as [|j].
      { rewrite Nat.add_0_r, En in Hnet. cbn in Hnet. congruence. }
      specialize (IH (default "" loc) (S n)).
      destruct (run (fetchUrl_fuel k (default "" loc)) net (S n) ∅)
        as [[[t' n'] m'] r'] eqn:E. cbn in *.
      apply IH. exists j. split; [lia|].
      by replace (S (n + j)) with (n + S j)%nat by lia.
    + by destruct (negb (code =? 200)).
Qed.

Variable fuel : nat.
Hypothesis Hnet : redirects_bounded fuel net.

Lemma file_outcomes_settle repoUrl sitePath branch files n :
  is_Some (file_outcomes fuel repoUrl sitePath branch net n files).
Proof.
  revert n; induction files as [|file rest IH]; intros n; cbn; [by eexists|].
  pose proof (fetched_settles fuel (locator repoUrl sitePath branch file) n (Hnet n))
    as Hs.
  destruct (fetched fuel _ net n) as [[content|e|] n1]; cbn in *; [| |done].
  - destruct (extractHostnameFromContent content);
      destruct (IH n1) as [[outs n2] ->]; by eexists.
  - destruct (IH n1) as [[outs n2] ->]; by eexists.
Qed.
End Fuel.
End TSFacts.

(* ===================================================================== *)
(** ** The goroutines together: the invariant of a run *)
(* ===================================================================== *)

Module GoSys.
Import Go GoSpec GoInv.

Lemma quiet_bind {A B} (p : Prog A) (f : A -> Prog B) :
  quiet p -> (forall a, quiet (f a)) -> quiet (bind p f).
Proof. induction 1; intros Hf; cbn; [apply Hf|constructor; auto..]. Qed.

Lemma quiet_fetchURL url : quiet (fetchURL url).
Proof. repeat constructor. Qed.

Lemma sum_list_insert (l : list nat) i x y :
  l !! i = Some x -> (sum_list (<[i:=y]> l) + x = sum_list l + y)%nat.
Proof.
  revert i; induction l as [|a l IH]; intros [|i]; simpl; try done.
  - intros [= ->]. lia.
  - intros H. specialize (IH _ H). lia.
Qed.

Lemma sum_list_zero (l : list nat) :
  sum_list l = 0%nat -> Forall (fun d => d = 0%nat) l.
Proof.
  induction l as [|a l IH]; simpl; [constructor|].
  intros H. constructor; [lia|apply IH; lia].
Qed.

Lemma sum_list_lookup_le (l : list nat) i x :
  l !! i = Some x -> (x <= sum_list l)%nat.
Proof.
  revert i; induction l as [|a l IH]; intros [|i]; simpl; try done.
  - intros [= ->]. lia.
  - intros H. specialize (IH _ H). lia.
Qed.

Section Run.
Variable json_Unmarshal : string -> option (list GiteaFile).
Variables repoURL branch : string.
Hypothesis Hwf : well_formed repoURL = true.

Local Abbreviation owing := (GoInv.owing repoURL branch).
Local Abbreviation invariant := (GoInv.invariant repoURL branch).
Local Abbreviation step := (Go.step json_Unmarshal).
Local Abbreviation exec := (Go.exec json_Unmarshal).

Lemma quiet_getGiteaDirectoryListing path :
  quiet (getGiteaDirectoryListing json_Unmarshal repoURL path branch).
Proof.
  unfold getGiteaDirectoryListing.
  rewrite GoFacts.convertToGiteaAPIURL_returns by done. cbn [bind].
  apply quiet_bind; [apply quiet_fetchURL|].
  intros [body [err|]]; [constructor|].
  destruct (json_Unmarshal body); constructor.
Qed.

Lemma quiet_processSiteDirectory_loop sitePath items si :
  quiet (processSiteDirectory_loop repoURL sitePath branch items si).
Proof.
  revert si; induction items as [|file rest IH]; intros si;
    cbn [processSiteDirectory_loop]; [constructor|].
  destruct (isBMNodeFile file); [|apply IH].
  rewrite GoFacts.constructRawURL_returns by done. cbn [bind].
  apply quiet_bind; [apply quiet_fetchURL|].
  intros [content [err|]]; [apply IH|].
  destruct (matchHostname content); apply IH.
Qed.

Lemma quiet_processSiteDirectory sitePath :
  quiet (processSiteDirectory json_Unmarshal repoURL sitePath branch).
Proof.
  unfold processSiteDirectory.
  apply quiet_bind; [apply quiet_getGiteaDirectoryListing|].
  intros [items [err|]]; [repeat constructor|].
  apply quiet_bind; [apply quiet_processSiteDirectory_loop|].
  intros; repeat constructor.
Qed.

(** A quiet program in front of a branch changes nothing to what the
    branch owes. *)
Lemma owing_bind_quiet {A} (p : Prog A) (f : A -> Prog unit) d :
  quiet p -> (forall a, owing (f a) d) -> (0 < d)%nat -> owing (bind p f) d.
Proof. induction 1; intros Hf Hd; cbn; [apply Hf|constructor; auto..]. Qed.

Lemma owing_bind_bind_quiet {A B} (p : Prog A) (f : A -> Prog B)
    (g : B -> Prog unit) d :
  quiet p -> (forall a, owing (bind (f a) g) d) -> (0 < d)%nat ->
  owing (bind (bind p f) g) d.
Proof. induction 1; intros Hf Hd; cbn; [apply Hf|constructor; auto..]. Qed.

(** Each child is announced and started: the debt is unchanged. *)
Lemma owing_loop currentPath items k d :
  owing k d -> (0 < d)%nat ->
  owing (bind (discoverSitesRecursively_loop repoURL currentPath branch items)
              (fun _ => k)) d.
Proof.
  intros Hk Hd. induction items as [|item rest IH]; cbn; [done|].
  destruct (bool_decide (Type_ item = "dir")); [|done].
  cbn. apply owing_add; [|done]. by apply owing_go.
Qed.

(** A branch owes its [Done]. *)
Lemma owing_discoverSitesRecursively currentPath :
  owing (discoverSitesRecursively json_Unmarshal repoURL currentPath branch) 1.
Proof.
  unfold discoverSitesRecursively, defer.
  apply owing_bind_bind_quiet; [apply quiet_getGiteaDirectoryListing| |lia].
  intros [items [err|]].
  - cbn. repeat constructor.
  - assert (Hdone : owing (WgDone (Ret tt)) 1) by repeat constructor.
    destruct (isSiteDirectory items).
    + apply owing_bind_bind_quiet; [apply quiet_processSiteDirectory| |lia].
      intros _. cbn [bind]. apply owing_loop; [done|lia].
    + cbn [bind]. apply owing_loop; [done|lia].
Qed.

Lemma owing_zero p : owing p 0 -> p = Ret tt.
Proof. inversion 1; subst; try done; lia. Qed.

Lemma invariant_start : invariant (dataHandler_start json_Unmarshal repoURL branch).
Proof.
  split; [done|]. exists 0%nat, [], []. cbn.
  split_and!; try done; try lia.
Qed.

(** What the invariant says of a branch that can still move. *)
Lemma invariant_branch st (branches : list (Goroutine * Prog unit)) debts i g p d :
  Forall2 (fun gp d => owing gp.2 d) branches debts ->
  (3 <= st -> sum_list debts = 0)%nat ->
  (st <= 1 -> branches = [])%nat ->
  (st <= 4)%nat ->
  branches !! i = Some (g, p) -> debts !! i = Some d -> (0 < d)%nat ->
  st = 2%nat.
Proof.
  intros Hbs H3 H01 Hst Hi Hd Hpos.
  pose proof (sum_list_lookup_le _ _ _ Hd).
  destruct (decide (st <= 1)%nat) as [Hle|Hgt].
  { rewrite (H01 Hle) in Hi. done. }
  destruct (decide (3 <= st)%nat) as [Hge|Hlt]; [|lia].
  specialize (H3 Hge). lia.
Qed.

Lemma invariant_step s c s' : invariant s -> step s c = Some s' -> invariant s'.
Proof.
  intros (Hp & st & bs & debts & Hg & Hst & Hbs & H01 & H2 & Hwg & H3 & Hcl & Hh).
  unfold Go.step. rewrite Hp. destruct c as [i r|].
  - rewrite Hg. destruct i as [|i].
    + (* the producer *)
      cbn [lookup list_lookup].
      destruct st as [|[|[|[|[|st]]]]]; cbn [producer_stage]; try lia.
      * cbn. rewrite Hwg. rewrite (H01 ltac:(lia)) in *.
        inversion Hbs; subst. cbn.
        intros [= <-]. split; [done|].
        exists 1%nat, [], []. cbn. rewrite Hg. cbn.
        split_and!; try done; try lia.
      * rewrite (H01 ltac:(lia)) in *. inversion Hbs; subst.
        intros [= <-]. split; [done|].
        exists 2%nat, [(GoDiscover repoURL "" branch,
                        body json_Unmarshal (GoDiscover repoURL "" branch))], [1%nat].
        cbn. rewrite Hg. cbn. split_and!; try done; try lia.
        constructor; [|constructor]. apply owing_discoverSitesRecursively.
      * destruct (wg s =? 0) eqn:Ez; [|done].
        intros [= <-]. split; [done|].
        exists 3%nat, bs, debts. cbn. rewrite Hg. cbn.
        apply Z.eqb_eq in Ez. cbn in Hwg.
        split_and!; try done; try lia. intros _. apply H2. lia.
      * rewrite Hcl. cbn.
        intros [= <-]. split; [done|].
        exists 4%nat, bs, debts. cbn. rewrite Hg. cbn.
        split_and!; try done; try lia.
        intros _. apply H2. lia.
      * done.
    + (* a branch *)
      cbn [lookup list_lookup].
      change ((bs : list _) !! i) with (bs !! i).
      destruct (bs !! i) as [[g p]|] eqn:Ei; [|done].
      destruct (Forall2_lookup_l _ _ _ _ _ Hbs Ei) as (d & Hd & Hown). cbn in Hown.
      assert (Hst2 : (0 < d)%nat -> st = 2%nat)
        by (intros; eapply invariant_branch; eauto).
      inversion Hown as [|k d' Hk|c url k d' Hk Hpos|l k d' Hk Hpos|v k d' Hk Hpos
                        |k d' Hk Hpos|path k d' Hk Hpos]; subst p; subst.
      * done.
      * (* Done *)
        specialize (Hst2 ltac:(lia)). subst st.
        pose proof (sum_list_lookup_le _ _ _ Hd) as Hle.
        pose proof (sum_list_insert _ _ _ d' Hd) as Hsum.
        cbn in Hwg. rewrite Hwg.
        destruct (Z.of_nat (sum_list debts + 0) - 1 <? 0) eqn:Ez;
          [apply Z.ltb_lt in Ez; lia|].
        intros [= <-]. split; [done|].
        exists 2%nat, (<[i:=(g, k)]> bs), (<[i:=d']> debts). cbn. rewrite Hg. cbn.
        split_and!; try done; try lia.
        -- by apply Forall2_insert.
        -- intros _ Hnil. apply (f_equal length) in Hnil.
           rewrite length_insert in Hnil. apply lookup_lt_Some in Ei.
           cbn in Hnil. lia.
      * (* a request *)
        specialize (Hst2 Hpos). subst st.
        intros [= <-]. split; [done|].
        exists 2%nat, (<[i:=(g, k r)]> bs), (<[i:=d]> debts). cbn. rewrite Hg. cbn.
        split_and!; try done; try lia.
        -- apply Forall2_insert; [done|apply Hk].
        -- intros _ Hnil. apply (f_equal length) in Hnil.
           rewrite length_insert in Hnil. apply lookup_lt_Some in Ei.
           cbn in Hnil. lia.
        -- rewrite list_insert_id by done. exact Hwg.
      * (* the log *)
        specialize (Hst2 Hpos). subst st.
        intros [= <-]. split; [done|].
        exists 2%nat, (<[i:=(g, k)]> bs), (<[i:=d]> debts). cbn. rewrite Hg. cbn.
        split_and!; try done; try lia.
        -- by apply Forall2_insert.
        -- intros _ Hnil. apply (f_equal length) in Hnil.
           rewrite length_insert in Hnil. apply lookup_lt_Some in Ei.
           cbn in Hnil. lia.
        -- rewrite list_insert_id by done. exact Hwg.
      * (* a record is sent *)
        specialize (Hst2 Hpos). subst st.
        rewrite Hcl. cbn.
        destruct (handler s) eqn:Eh; [|done|done].
        intros [= <-]. split; [done|].
        exists 2%nat, (<[i:=(g, k)]> bs), (<[i:=d]> debts). cbn. rewrite Hg. cbn.
        split_and!; try done; try lia.
        -- by apply Forall2_insert.
        -- intros _ Hnil. apply (f_equal length) in Hnil.
           rewrite length_insert in Hnil. apply lookup_lt_Some in Ei.
           cbn in Hnil. lia.
        -- rewrite list_insert_id by done. exact Hwg.
      * (* a child is announced *)
        specialize (Hst2 Hpos). subst st.
        pose proof (sum_list_insert _ _ _ (S d) Hd) as Hsum.
        cbn in Hwg. rewrite Hwg.
        destruct (Z.of_nat (sum_list debts + 0) + 1 <? 0) eqn:Ez;
          [apply Z.ltb_lt in Ez; lia|].
        intros [= <-]. split; [done|].
        exists 2%nat, (<[i:=(g, k)]> bs), (<[i:=S d]> debts). cbn. rewrite Hg. cbn.
        split_and!; try done; try lia.
        -- by apply Forall2_insert.
        -- intros _ Hnil. apply (f_equal length) in Hnil.
           rewrite length_insert in Hnil. apply lookup_lt_Some in Ei.
           cbn in Hnil. lia.
      * (* a child is started *)
        specialize (Hst2 ltac:(lia)). subst st.
        pose proof (sum_list_insert _ _ _ d' Hd) as Hsum.
        intros [= <-]. split; [done|].
        exists 2%nat,
          (<[i:=(g, k)]> (bs ++ [(GoDiscover repoURL path branch,
                                  body json_Unmarshal (GoDiscover repoURL path branch))])),
          (<[i:=d']> (debts ++ [1%nat])).
        cbn. rewrite Hg. cbn.
        split_and!; try done; try lia.
        -- apply Forall2_insert; [|done].
           apply Forall2_app; [done|].
           constructor; [|constructor]. apply owing_discoverSitesRecursively.
        -- intros _ Hnil. apply (f_equal length) in Hnil.
           rewrite length_insert, length_app in Hnil. cbn in Hnil. lia.
        -- apply lookup_lt_Some in Hd.
           rewrite insert_app_l by done. rewrite sum_list_with_app. cbn in *. lia.
  - (* the handler *)
    destruct (handler s) eqn:Eh; [|..|done].
    + destruct (closed s) eqn:Ec; [|done].
      intros [= <-]. split; [done|].
      exists st, bs, debts. cbn. by split_and!.
    + intros [= <-]. split; [done|].
      exists st, bs, debts. cbn. by split_and!.
Qed.

Lemma invariant_exec s cs s' : invariant s -> exec s cs = Some s' -> invariant s'.
Proof.
  revert s; induction cs as [|c cs IH]; intros s Hinv; cbn.
  - by intros [= <-].
  - destruct (step s c) as [s1|] eqn:E; [|done].
    apply IH. by eapply invariant_step.
Qed.

Lemma exec_app s cs1 cs2 :
  exec s (cs1 ++ cs2) =
  match exec s cs1 with Some s1 => exec s1 cs2 | None => None end.
Proof.
  revert s; induction cs1 as [|c cs1 IH]; intros s; cbn; [done|].
  destruct (step s c); [apply IH|done].
Qed.

(** When the producer has closed the channel every goroutine has
    returned and the wait group is at zero. *)
Lemma invariant_closed s :
  invariant s -> closed s = true ->
  wg s = 0 /\ Forall (fun gp => gp.2 = Ret tt) (goroutines s).
Proof.
  intros (Hp & st & bs & debts & Hg & Hst & Hbs & H01 & H2 & Hwg & H3 & Hcl & Hh) Hc.
  rewrite Hc in Hcl. symmetry in Hcl. apply bool_decide_eq_true in Hcl. subst st.
  specialize (H3 ltac:(lia)). split.
  - rewrite Hwg, H3. done.
  - rewrite Hg. constructor; [done|].
    apply sum_list_zero in H3.
    clear -Hbs H3. induction Hbs as [|[g p] d bs debts Ho _ IH]; [constructor|].
    inversion H3; subst. constructor; [|by apply IH].
    by apply owing_zero.
Qed.

Lemma sum_list_pos (l : list nat) :
  sum_list l <> 0%nat -> exists i d, l !! i = Some d /\ (0 < d)%nat.
Proof.
  induction l as [|a l IH]; simpl; [done|]. intros H.
  destruct (decide (a = 0%nat)) as [->|Ha].
  - destruct IH as (i & d & Hi & Hd); [lia|]. by exists (S i), d.
  - exists 0%nat, a. split; [done|lia].
Qed.

(** The run never hangs: while it is not over, some party can move. *)
Lemma invariant_progress s :
  invariant s -> finished s \/ exists c s', step s c = Some s'.
Proof.
  intros (Hp & st & bs & debts & Hg & Hst & Hbs & H01 & H2 & Hwg & H3 & Hcl & Hh).
  assert (Hprod : (exists s', step s (RunGoroutine 0 (GetFailed "")) = Some s') ->
            finished s \/ exists c s', step s c = Some s').
  { intros [s' Hs']. right. by eexists _, _. }
  destruct st as [|[|[|[|[|st]]]]]; try lia.
  - apply Hprod. unfold Go.step. rewrite Hp, Hg. cbn.
    destruct (wg s + 1 <? 0); by eexists.
  - apply Hprod. unfold Go.step. rewrite Hp, Hg. cbn. by eexists.
  - destruct (decide (sum_list debts = 0%nat)) as [Hz|Hnz].
    + apply Hprod. unfold Go.step. rewrite Hp, Hg. cbn.
      rewrite Hwg, Hz. cbn. by eexists.
    + destruct (sum_list_pos _ Hnz) as (i & d & Hd & Hpos).
      destruct (Forall2_lookup_r _ _ _ _ _ Hbs Hd) as ([g p] & Hi & Hown).
      cbn in Hown.
      assert (Hlook : goroutines s !! S i = Some (g, p)) by (by rewrite Hg).
      inversion Hown as [|k d' Hk|c url k d' Hk Hpos'|l k d' Hk Hpos'|v k d' Hk Hpos'
                        |k d' Hk Hpos'|path k d' Hk Hpos']; subst p; subst; try lia.
      * right. exists (RunGoroutine (S i) (GetFailed "")). unfold Go.step.
        rewrite Hp, Hlook. destruct (wg s - 1 <? 0); by eexists.
      * right. exists (RunGoroutine (S i) (GetFailed "")). unfold Go.step.
        rewrite Hp, Hlook. by eexists.
      * right. exists (RunGoroutine (S i) (GetFailed "")). unfold Go.step.
        rewrite Hp, Hlook. by eexists.
      * destruct (handler s) as [|w|] eqn:Eh.
        -- right. exists (RunGoroutine (S i) (GetFailed "")). unfold Go.step.
           rewrite Hp, Hlook, Eh. destruct (closed s); by eexists.
        -- right. exists RunHandler. unfold Go.step. rewrite Hp, Eh. by eexists.
        -- rewrite (Hh eq_refl) in Hcl. done.
      * right. exists (RunGoroutine (S i) (GetFailed "")). unfold Go.step.
        rewrite Hp, Hlook. destruct (wg s + 1 <? 0); by eexists.
      * right. exists (RunGoroutine (S i) (GetFailed "")). unfold Go.step.
        rewrite Hp, Hlook. by eexists.
  - apply Hprod. unfold Go.step. rewrite Hp, Hg. cbn.
    destruct (closed s); by eexists.
  - assert (Hc : closed s = true) by (by rewrite Hcl).
    destruct (handler s) as [|w|] eqn:Eh.
    + right. exists RunHandler. unfold Go.step. rewrite Hp, Eh, Hc. by eexists.
    + right. exists RunHandler. unfold Go.step. rewrite Hp, Eh. by eexists.
    + left. split_and!; try done.
      apply invariant_closed; [|done].
      split; [done|]. by exists 4%nat, bs, debts.
Qed.

Lemma invariant_stuck s : invariant s -> stuck json_Unmarshal s -> finished s.
Proof.
  intros Hinv Hstuck. destruct (invariant_progress s Hinv) as [|(c & s' & Hs)]; [done|].
  by rewrite Hstuck in Hs.
Qed.

(** Once every branch has returned, each step is one of the few the
    producer and the handler have left. *)
Lemma done_step s c s' :
  invariant s -> branches_done s -> step s c = Some s' ->
  branches_done s' /\ (remaining s' < remaining s)%nat.
Proof.
  intros (Hp & st & bs & debts & Hg & Hst & Hbs & H01 & H2 & Hwg & H3 & Hcl & Hh)
         (p0 & bs0 & Hg0 & Hne & Hdone).
  rewrite Hg in Hg0. injection Hg0 as <- <-.
  assert (2 <= st)%nat.
  { destruct (decide (st <= 1)%nat) as [Hle|]; [|lia]. by rewrite (H01 Hle) in Hne. }
  assert (Hkeep : forall s1 p1,
            goroutines s1 = (GoProducer repoURL branch, p1) :: bs ->
            branches_done s1).
  { intros s1 p1 H1. by exists (GoProducer repoURL branch, p1), bs. }
  unfold Go.step, remaining. rewrite Hp. destruct c as [i r|].
  - rewrite Hg. destruct i as [|i]; cbn [lookup list_lookup].
    + destruct st as [|[|[|[|[|st]]]]]; cbn [producer_stage]; try lia.
      * destruct (wg s =? 0); [|done]. intros [= <-].
        split; [eapply Hkeep; cbn; by rewrite Hg|].
        cbn. rewrite Hg. cbn. lia.
      * rewrite Hcl. cbn. intros [= <-].
        split; [eapply Hkeep; cbn; by rewrite Hg|].
        cbn. rewrite Hg. cbn. lia.
      * done.
    + change ((bs : list _) !! i) with (bs !! i).
      destruct (bs !! i) as [[g p]|] eqn:Ei; [|done].
      pose proof (Forall_lookup_1 _ _ _ _ Hdone Ei) as Hret. cbn in Hret.
      by subst p.
  - rewrite Hg. destruct (handler s) eqn:Eh; [|..|done].
    + destruct (closed s); [|done]. intros [= <-].
      split; [eapply Hkeep; cbn; by rewrite ?Hg|]. cbn. lia.
    + intros [= <-].
      split; [eapply Hkeep; cbn; by rewrite ?Hg|]. cbn. lia.
Qed.

Lemma done_remaining s :
  invariant s -> branches_done s -> (remaining s <= 4)%nat.
Proof.
  intros (Hp & st & bs & debts & Hg & Hst & Hbs & H01 & H2 & Hwg & H3 & Hcl & Hh)
         (p0 & bs0 & Hg0 & Hne & Hdone).
  rewrite Hg in Hg0. injection Hg0 as <- <-.
  assert (2 <= st)%nat.
  { destruct (decide (st <= 1)%nat) as [Hle|]; [|lia]. by rewrite (H01 Hle) in Hne. }
  unfold remaining. rewrite Hg.
  destruct st as [|[|[|[|[|st]]]]]; cbn [producer_stage stage_of]; try lia;
    destruct (handler s); lia.
Qed.

Lemma done_bounded cs s s' :
  invariant s -> branches_done s -> exec s cs = Some s' ->
  (length cs + remaining s' <= remaining s)%nat.
Proof.
  revert s; induction cs as [|c cs IH]; intros s Hinv Hdone; cbn.
  - intros [= <-]. lia.
  - destruct (step s c) as [s1|] eqn:E; [|done]. intros Hex.
    destruct (done_step _ _ _ Hinv Hdone E) as [Hdone1 Hlt].
    pose proof (invariant_step _ _ _ Hinv E) as Hinv1.
    specialize (IH _ Hinv1 Hdone1 Hex). lia.
Qed.

Lemma done_eventually n s :
  (remaining s <= n)%nat -> invariant s -> branches_done s ->
  exists cs s', exec s cs = Some s' /\ finished s'.
Proof.
  revert s; induction n as [|n IH]; intros s Hn Hinv Hdone;
    destruct (invariant_progress s Hinv) as [Hfin|(c & s1 & Hs1)];
    try (by exists [], s).
  - destruct (done_step _ _ _ Hinv Hdone Hs1). lia.
  - destruct (done_step _ _ _ Hinv Hdone Hs1) as [Hdone1 Hlt].
    destruct (IH s1) as (cs & s' & Hex & Hfin);
      [lia|by eapply invariant_step|done|].
    exists (c :: cs), s'. cbn. by rewrite Hs1.
Qed.

Lemma invariant_reachable s :
  reachable json_Unmarshal repoURL branch s -> invariant s.
Proof. intros [cs Hcs]. eapply invariant_exec; [apply invariant_start|done]. Qed.
End Run.
End GoSys.

(* ===================================================================== *)
(** ** A run whose root listing fails *)
(* ===================================================================== *)

Module GoFailedRoot.
Import Go GoSpec GoInv.

Section Run.
Variable json_Unmarshal : string -> option (list GiteaFile).
Variables repoURL branch : string.
Hypothesis Hwf : well_formed repoURL = true.

Local Abbreviation step := (Go.step json_Unmarshal).
Local Abbreviation exec := (Go.exec json_Unmarshal).
Local Abbreviation start := (dataHandler_start json_Unmarshal repoURL branch).
Local Abbreviation shape := (failed_root_shape repoURL branch json_Unmarshal).
Local Abbreviation fails := (root_listing_fails repoURL branch).

(** A branch starts with the request of its listing, and logs the
    failure of that request. *)
Lemma discover_head path :
  exists k,
    discoverSitesRecursively json_Unmarshal repoURL path branch =
      ClientGet the_client (apiURL repoURL path branch) k /\
    forall r,
      fetch_failed (fetchURL_returns (apiURL repoURL path branch) r) = true ->
      exists line, k r = LogPrintf line (WgDone (Ret tt)).
Proof.
  unfold discoverSitesRecursively, defer, getGiteaDirectoryListing.
  rewrite GoFacts.convertToGiteaAPIURL_returns by done.
  unfold fetchURL. cbn [bind]. eexists. split; [reflexivity|].
  intros r Hr. cbn beta.
  destruct (fetchURL_returns (apiURL repoURL path branch) r) as [body [err|]];
    [|done].
  cbn. by eexists.
Qed.

(** Each step adds one event. *)
Lemma step_events s c s' :
  step s c = Some s' -> exists e, events s' = events s ++ [e].
Proof.
  unfold Go.step. destruct (panicked s); [done|].
  destruct c as [i r|].
  - destruct (goroutines s !! i) as [[g p]|]; [|done].
    destruct p; try done;
      repeat match goal with
      | |- context [if ?b then _ else _] => destruct b
      | |- context [match handler s with _ => _ end] => destruct (handler s)
      end; try done; intros [= <-]; by eexists.
  - destruct (handler s); [destruct (closed s)|..]; try done;
      intros [= <-]; by eexists.
Qed.

Lemma exec_events s cs s' :
  exec s cs = Some s' -> exists evs, events s' = events s ++ evs /\ length evs = length cs.
Proof.
  revert s; induction cs as [|c cs IH]; intros s; cbn.
  - intros [= <-]. exists []. by rewrite app_nil_r.
  - destruct (step s c) as [s1|] eqn:E; [|done]. intros Hex.
    destruct (step_events _ _ _ E) as [e He].
    destruct (IH _ Hex) as (evs & Hevs & Hlen).
    exists (e :: evs). rewrite Hevs, He, <- app_assoc. cbn. by rewrite Hlen.
Qed.

Lemma fails_step s c s' : step s c = Some s' -> fails s' -> fails s.
Proof.
  intros Hs Hf i c0 r Hin. destruct (step_events _ _ _ Hs) as [e He].
  apply (Hf i c0 r). rewrite He. apply elem_of_app. by left.
Qed.

Lemma shape_start : shape start.
Proof.
  split; [done|]. exists 0%nat, 0%nat. split_and!; try lia.
  - left. split_and!; [lia|done|done].
  - left. by split.
Qed.

Lemma shape_step s c s' :
  shape s -> step s c = Some s' -> panicked s' = None -> fails s' -> shape s'.
Proof.
  intros (Hw & st & rk & Hst & Hrk & Hgo & Hh) Hstep Hp' Hfail.
  destruct (step_events _ _ _ Hstep) as [e He].
  assert (Hlen : length (events s') = S (length (events s)))
    by (rewrite He, length_app; cbn; lia).
  revert Hstep. unfold Go.step. destruct (panicked s) eqn:Hp; [done|].
  destruct c as [i r|].
  - (* a goroutine *)
    assert (Hkeep : forall s1, handler s1 = handler s ->
              length (events s1) = S (length (events s)) -> forall n,
              n = S (st + rk) ->
              (handler s1 = Receiving /\ length (events s1) = n) \/
              (handler s1 = Finished /\ length (events s1) = S n)).
    { intros s1 H1 H2 n ->. rewrite H1, H2.
      destruct Hh as [[-> ->]|[-> ->]]; [by left|by right]. }
    destruct Hgo as [(Hle & -> & Hg)|(Hge & p & Hroot & Hg)]; rewrite Hg.
    + destruct i as [|i]; [|done]. cbn [lookup list_lookup].
      destruct st as [|[|st]]; [| |lia]; cbn [producer_stage].
      * cbn. destruct (wg s + 1 <? 0);
          intros [= <-]; [by cbn in Hp'|].
        split; [done|]. exists 1%nat, 0%nat. split_and!; try lia.
        -- left. split_and!; [lia|done|]. cbn. by rewrite Hg.
        -- apply Hkeep; [done|exact Hlen|lia].
      * intros [= <-].
        split; [done|]. exists 2%nat, 0%nat. split_and!; try lia.
        -- right. split; [lia|]. eexists. split; [|cbn; by rewrite Hg]. done.
        -- apply Hkeep; [done|exact Hlen|lia].
    + destruct i as [|[|i]]; [| |done]; cbn [lookup list_lookup].
      * (* the producer *)
        destruct st as [|[|[|[|[|st]]]]]; try lia; cbn [producer_stage].
        -- destruct (wg s =? 0); [|done]. intros [= <-].
           split; [done|]. exists 3%nat, rk. split_and!; try lia.
           ++ right. split; [lia|]. exists p. split; [done|]. cbn. by rewrite Hg.
           ++ apply Hkeep; [done|exact Hlen|lia].
        -- destruct (closed s); intros [= <-]; [by cbn in Hp'|].
           split; [done|]. exists 4%nat, rk. split_and!; try lia.
           ++ right. split; [lia|]. exists p. split; [done|]. cbn. by rewrite Hg.
           ++ apply Hkeep; [done|exact Hlen|lia].
        -- done.
      * (* the root branch *)
        destruct rk as [|[|[|rk]]]; cbn [failed_root_stage] in Hroot.
        -- destruct (discover_head "") as (k & Hk & Hfailed). rewrite Hroot, Hk.
           intros [= <-].
           destruct (Hfailed r) as [line Hline].
           { apply (Hfail 1%nat the_client r). cbn. apply elem_of_app. right.
             by apply list_elem_of_singleton. }
           split; [done|]. exists st, 1%nat. split_and!; try lia.
           ++ right. split; [lia|]. exists (k r). split; [by exists line|].
              cbn. by rewrite Hg.
           ++ apply Hkeep; [done|exact Hlen|lia].
        -- destruct Hroot as [line ->]. intros [= <-].
           split; [done|]. exists st, 2%nat. split_and!; try lia.
           ++ right. split; [lia|]. eexists. split; [|cbn; by rewrite Hg]. done.
           ++ apply Hkeep; [done|exact Hlen|lia].
        -- rewrite Hroot. destruct (wg s - 1 <? 0);
             intros [= <-]; [by cbn in Hp'|].
           split; [done|]. exists st, 3%nat. split_and!; try lia.
           ++ right. split; [lia|]. eexists. split; [|cbn; by rewrite Hg]. done.
           ++ apply Hkeep; [done|exact Hlen|lia].
        -- by rewrite Hroot.
  - (* the handler *)
    destruct Hh as [[Hr Hl]|[Hf Hl]].
    + rewrite Hr. destruct (closed s); [|done]. intros [= <-].
      split; [done|]. exists st, rk. split_and!; try lia.
      * destruct Hgo as [?|(? & p & ? & ?)]; [by left|right].
        split; [done|]. by exists p.
      * right. split; [done|]. rewrite Hlen, Hl. done.
    + by rewrite Hf.
Qed.

Lemma shape_exec cs s :
  exec start cs = Some s -> fails s -> shape s.
Proof.
  revert s; induction cs as [|c cs IH] using rev_ind; intros s.
  - intros [= <-] _. apply shape_start.
  - rewrite (GoSys.exec_app json_Unmarshal).
    destruct (exec start cs) as [s1|] eqn:E; [|done]. cbn.
    destruct (step s1 c) as [s2|] eqn:E2; [|done]. intros [= <-] Hf.
    eapply shape_step; [apply IH; [done|by eapply fails_step]|done| |done].
    assert (Hinv : GoInv.invariant repoURL branch s2).
    { eapply GoSys.invariant_reachable; [done|].
      exists (cs ++ [c]). rewrite (GoSys.exec_app json_Unmarshal), E. cbn.
      by rewrite E2. }
    apply Hinv.
Qed.
(** A goroutine that can move can move with its request refused, and
    that step keeps the root listing failed. *)
Lemma step_refused s i r s' :
  step s (RunGoroutine i r) = Some s' ->
  exists s'', step s (RunGoroutine i (GetFailed "")) = Some s''.
Proof.
  unfold Go.step. destruct (panicked s); [done|].
  destruct (goroutines s !! i) as [[g p]|]; [|done].
  destruct p; try done; intros H; first [by exists s'|by eexists].
Qed.

Lemma fails_refused s i s' :
  step s (RunGoroutine i (GetFailed "")) = Some s' -> fails s -> fails s'.
Proof.
  unfold Go.step. destruct (panicked s); [done|].
  destruct (goroutines s !! i) as [[g p]|]; [|done].
  intros Hs Hf j c r Hin.
  assert (Hev : exists a, events s' = events s ++ [EvGoroutine i a] /\
                  forall c' url r', a = AGet c' url r' -> r' = GetFailed "").
  { destruct p; try done;
      repeat match type of Hs with
      | context [if ?b then _ else _] => destruct b
      | context [match handler s with _ => _ end] => destruct (handler s)
      end; try done; injection Hs as <-; eexists; (split; [reflexivity|]);
      intros c' url' r'; try done. by intros [= _ _ <-]. }
  destruct Hev as (a & Hev & Ha). rewrite Hev in Hin.
  apply elem_of_app in Hin as [Hin|Hin]; [by eapply Hf|].
  apply list_elem_of_singleton in Hin. injection Hin as <- <-.
  by rewrite (Ha _ _ _ eq_refl).
Qed.

Lemma fails_handler s s' : step s RunHandler = Some s' -> fails s -> fails s'.
Proof.
  unfold Go.step. destruct (panicked s); [done|].
  intros Hs Hf j c r Hin.
  assert (Hev : events s' = events s ++ [EvEndOfStream] \/
                exists v, events s' = events s ++ [EvWrite v]).
  { destruct (handler s); [destruct (closed s)|..]; try done;
      injection Hs as <-; [by left|right; by eexists]. }
  destruct Hev as [Hev|[v Hev]]; rewrite Hev in Hin;
    apply elem_of_app in Hin as [Hin|Hin]; try (by eapply Hf);
    by apply list_elem_of_singleton in Hin.
Qed.

Lemma shape_bound s : shape s -> (length (events s) <= 8)%nat.
Proof. intros (_ & st & rk & ? & ? & _ & [[_ ->]|[_ ->]]); lia. Qed.

(** From every state of such a run the end is within reach. *)
Lemma failed_root_ends n s :
  (9 <= n + length (events s))%nat ->
  reachable json_Unmarshal repoURL branch s -> fails s ->
  exists cs s', exec s cs = Some s' /\ fails s' /\ finished s'.
Proof.
  revert s; induction n as [|n IH]; intros s Hn Hreach Hf.
  - destruct Hreach as [cs Hcs].
    pose proof (shape_bound _ (shape_exec _ _ Hcs Hf)). lia.
  - assert (Hinv : GoInv.invariant repoURL branch s)
      by (by eapply GoSys.invariant_reachable).
    destruct (GoSys.invariant_progress json_Unmarshal repoURL branch s Hinv)
      as [Hfin|(c & s1 & Hs1)]; [by exists [], s|].
    assert (Hnext : exists c' s2, step s c' = Some s2 /\ fails s2).
    { destruct c as [i r|].
      - destruct (step_refused _ _ _ _ Hs1) as [s2 Hs2].
        exists (RunGoroutine i (GetFailed "")), s2. split; [done|].
        by eapply fails_refused.
      - exists RunHandler, s1. split; [done|]. by eapply fails_handler. }
    destruct Hnext as (c' & s2 & Hs2 & Hf2).
    destruct (step_events _ _ _ Hs2) as [e He].
    destruct (IH s2) as (cs & s' & Hex & Hf' & Hfin); [| |done|].
    + rewrite He, length_app. cbn. lia.
    + destruct Hreach as [cs0 Hcs0]. exists (cs0 ++ [c']).
      rewrite (GoSys.exec_app json_Unmarshal), Hcs0. cbn. by rewrite Hs2.
    + exists (c' :: cs), s'. cbn. by rewrite Hs2.
Qed.
End Run.
End GoFailedRoot.

(* ===================================================================== *)
(** ** A goroutine of a run does what its body does alone *)
(* ===================================================================== *)

Module GoReplay.
Import Go GoSpec GoInv.

Lemma actions_of_snoc i evs e :
  actions_of i (evs ++ [e]) =
  actions_of i evs ++
    match e with
    | EvGoroutine j a => if bool_decide (j = i) then [a] else []
    | _ => []
    end.
Proof.
  unfold actions_of. rewrite omap_app. f_equal.
  destruct e as [j a| |]; cbn; [|done..]. by destruct (bool_decide (j = i)).
Qed.

Lemma actions_of_elem i evs a : a ∈ actions_of i evs <-> EvGoroutine i a ∈ evs.
Proof.
  unfold actions_of. rewrite list_elem_of_omap. split.
  - intros ([j b| |] & Hin & Hb); try done.
    destruct (bool_decide_reflect (j = i)) as [->|]; [|done]. by injection Hb as ->.
  - intros Hin. exists (EvGoroutine i a). split; [done|].
    by rewrite bool_decide_eq_true_2.
Qed.

Lemma answers_app t1 t2 : answers (t1 ++ t2) = answers t1 ++ answers t2.
Proof. apply omap_app. Qed.

Lemma agrees_net_of rs : agrees (net_of rs) rs.
Proof. intros j r Hj. unfold net_of. by rewrite Hj. Qed.

Lemma agrees_app net rs rs' :
  agrees net (rs ++ rs') ->
  agrees net rs /\ forall j r, rs' !! j = Some r -> net (length rs + j)%nat = r.
Proof.
  intros H. split.
  - intros j r Hj. apply H. by apply lookup_app_l_Some.
  - intros j r Hj. apply H. rewrite lookup_app_r by lia.
    by replace (length rs + j - length rs)%nat with j by lia.
Qed.

Section Run.
Variable json_Unmarshal : string -> option (list GiteaFile).

Local Abbreviation step := (Go.step json_Unmarshal).
Local Abbreviation replays := (GoInv.replays json_Unmarshal).

(** A step of goroutine [i] that is no panic: the action it adds is the
    first of what was left of the goroutine, and the goroutines are the
    same but for the one it may have started. *)
Lemma step_goroutine s i r s' g p :
  step s (RunGoroutine i r) = Some s' -> panicked s' = None ->
  goroutines s !! i = Some (g, p) ->
  exists a k extra,
    goroutines s' = <[i := (g, k)]> (goroutines s ++ extra) /\
    events s' = events s ++ [EvGoroutine i a] /\
    (extra = [] \/ exists g', extra = [(g', body json_Unmarshal g')]) /\
    forall net n,
      (forall c url r', a = AGet c url r' -> net n = r') ->
      trace_of p net n = a :: trace_of k net (n + length (answers [a]))%nat.
Proof.
  unfold Go.step. destruct (panicked s); [done|]. intros Hs Hp' Hg.
  rewrite Hg in Hs.
  destruct p as [[]|msg|c url k|line k|v k|k|d k|k|k|g' k];
    repeat match type of Hs with
    | context [if ?b then _ else _] => destruct b
    | context [match handler s with _ => _ end] => destruct (handler s)
    end; try done; injection Hs as <-; try done.
  all: eexists _, _, _; split;
    [first [by cbn; rewrite app_nil_r|reflexivity]|];
    (split; [reflexivity|]);
    (split; [first [by left|right; by eexists]|]);
    intros net n Hnet; unfold trace_of; cbn.
  2-8: rewrite Nat.add_0_r; by destruct (run k net n) as [[t m] a].
  rewrite (Hnet _ _ _ eq_refl). replace (n + 1)%nat with (S n) by lia.
  by destruct (run (k r) net (S n)) as [[t m] a].
Qed.

Lemma replays_start repoURL branch :
  replays (dataHandler_start json_Unmarshal repoURL branch).
Proof. intros [|i]; cbn; [|done]. by intros net _. Qed.

Lemma replays_step s c s' :
  replays s -> step s c = Some s' -> panicked s' = None -> replays s'.
Proof.
  intros Hrep Hstep Hp' j. destruct c as [i r|].
  - destruct (goroutines s !! i) as [[g p]|] eqn:Eg.
    2:{ revert Hstep. unfold Go.step. rewrite Eg. by destruct (panicked s). }
    destruct (step_goroutine _ _ _ _ _ _ Hstep Hp' Eg)
      as (a & k & extra & Hgs & Hev & Hextra & Htr).
    rewrite Hgs, Hev, actions_of_snoc.
    assert (Hi : (i < length (goroutines s))%nat) by (by eapply lookup_lt_Some).
    destruct (decide (i = j)) as [<-|Hne].
    + rewrite list_lookup_insert_eq by (rewrite length_app; lia).
      rewrite bool_decide_eq_true_2 by done.
      pose proof (Hrep i) as Hi'. rewrite Eg in Hi'.
      intros net Hnet. rewrite answers_app in Hnet.
      apply agrees_app in Hnet as [Hnet Hlast].
      rewrite (Hi' net Hnet), answers_app, length_app, <- app_assoc. f_equal.
      apply Htr. intros c url r' Ha. specialize (Hlast 0%nat r').
      rewrite Nat.add_0_r in Hlast. apply Hlast. by rewrite Ha.
    + rewrite list_lookup_insert_ne by done.
      rewrite bool_decide_eq_false_2 by done. rewrite app_nil_r.
      pose proof (Hrep j) as Hj.
      destruct (decide (j < length (goroutines s))%nat) as [Hlt|Hge].
      * by rewrite lookup_app_l by done.
      * rewrite lookup_ge_None_2 in Hj by lia.
        rewrite lookup_app_r by lia.
        destruct Hextra as [->|[g' ->]]; [done|].
        destruct (j - length (goroutines s))%nat as [|n]; [|done].
        cbn. intros net _. by rewrite Hj.
  - revert Hstep. unfold Go.step. destruct (panicked s); [done|].
    pose proof (Hrep j) as Hj.
    destruct (handler s); [destruct (closed s)|..]; try done;
      intros [= <-]; cbn [goroutines events];
      by rewrite actions_of_snoc, app_nil_r.
Qed.

Lemma replays_reachable repoURL branch s :
  well_formed repoURL = true ->
  reachable json_Unmarshal repoURL branch s -> replays s.
Proof.
  intros Hw [cs Hcs]. revert s Hcs.
  induction cs as [|c cs IH] using rev_ind; intros s.
  - intros [= <-]. apply replays_start.
  - rewrite (GoSys.exec_app json_Unmarshal).
    destruct (Go.exec json_Unmarshal _ cs) as [s1|] eqn:E; [|done]. cbn.
    destruct (step s1 c) as [s2|] eqn:E2; [|done]. intros [= <-].
    eapply replays_step; [by apply IH|done|].
    assert (Hinv : GoInv.invariant repoURL branch s2).
    { eapply GoSys.invariant_reachable; [done|].
      exists (cs ++ [c]). rewrite (GoSys.exec_app json_Unmarshal), E. cbn.
      by rewrite E2. }
    apply Hinv.
Qed.
End Run.
End GoReplay.

(* ===================================================================== *)
(** ** The walk of the extractor over a site *)
(* ===================================================================== *)

Module TSWalk.
Import TS TSSpec TSFacts.

(** Over a site the walk lists the directory, runs the Site Processor,
    stores its record, and only then goes on to the subdirectories; when
    the Site Processor has no result, the walk has none, and has called
    nothing. *)
Lemma ts_run_discover_site JSON_parse fuel k repoUrl path branch net n m t0 n1 items :
  run (getGiteaDirectoryListing JSON_parse fuel repoUrl path branch) net n m =
    (t0, n1, m, Returned items) ->
  isSiteDirectory items = Ret true ->
  exists tp n2 res,
    run (processSiteDirectory JSON_parse fuel repoUrl path branch) net n1 m =
      (tp, n2, m, res) /\
    only_requests (t0 ++ tp) /\
    match res with
    | Returned rec =>
        exists post n' m' res',
          run (discoverSitesRecursively_fuel JSON_parse fuel k repoUrl path branch)
              net n m =
            (t0 ++ tp ++ ASet (if bool_decide (path ≠ "") then path else "root") rec
                          :: post, n', m', res')
    | Threw _ => False
    | GaveUp =>
        run (discoverSitesRecursively_fuel JSON_parse fuel k repoUrl path branch)
            net n m = (t0 ++ tp, n2, m, GaveUp)
    end.
Proof.
  intros Hl Hsite.
  destruct (ts_run_getGiteaDirectoryListing JSON_parse fuel repoUrl branch net path n m)
    as (t0' & Hl0 & Ht0).
  rewrite Hl in Hl0. injection Hl0 as <- _ _.
  destruct (ts_run_processSiteDirectory_total JSON_parse fuel repoUrl path branch net
              n1 m) as (tp & n2 & res & Hp & Htp & Hres).
  exists tp, n2, res. split; [done|]. split; [by apply Forall_app|].
  assert (Hgoal : forall subdirs : list Item -> Prog unit,
            match res with
            | Returned rec =>
                exists post n' m' res',
                  run (try_catch
                         (do items <- getGiteaDirectoryListing JSON_parse fuel repoUrl
                                        path branch ;
                          do site <- isSiteDirectory items ;
                          do _ <- (if site then
                                     do siteInfo <- processSiteDirectory JSON_parse fuel
                                                      repoUrl path branch ;
                                     MapSet (if bool_decide (path ≠ "") then path
                                             else "root") siteInfo (Ret tt)
                                   else Ret tt) ;
                          do subdirectories <-
                            filter_ (fun item => bool_decide (type_ item = Some "dir"))
                                    items ;
                          subdirs subdirectories)
                         (fun _ => Ret tt)) net n m =
                  (t0 ++ tp ++ ASet (if bool_decide (path ≠ "") then path else "root")
                                   rec :: post, n', m', res')
            | Threw _ => False
            | GaveUp =>
                run (try_catch
                       (do items <- getGiteaDirectoryListing JSON_parse fuel repoUrl
                                      path branch ;
                        do site <- isSiteDirectory items ;
                        do _ <- (if site then
                                   do siteInfo <- processSiteDirectory JSON_parse fuel
                                                    repoUrl path branch ;
                                   MapSet (if bool_decide (path ≠ "") then path
                                           else "root") siteInfo (Ret tt)
                                 else Ret tt) ;
                        do subdirectories <-
                          filter_ (fun item => bool_decide (type_ item = Some "dir"))
                                  items ;
                        subdirs subdirectories)
                       (fun _ => Ret tt)) net n m = (t0 ++ tp, n2, m, GaveUp)
            end).
  { intros subdirs.
    rewrite ts_run_try_catch, ts_run_bind, Hl. cbn beta iota.
    rewrite Hsite. cbn [bind]. rewrite !ts_run_bind, Hp.
    destruct res as [rec|e|]; [|by destruct (Hres e)|done].
    cbn [run]. rewrite ts_run_bind.
    destruct (ts_run_filter (fun item => bool_decide (type_ item = Some "dir")) items
                net n2 (<[(if bool_decide (path ≠ "") then path else "root") := rec]> m))
      as (rf & -> & Hrf).
    destruct rf as [subdirectories|e|]; [| |done].
    - destruct (run (subdirs subdirectories) net n2 _) as [[[tl nl] ml] [[]|e|]]; cbn;
        eexists _, _, _, _; rewrite ?app_nil_r, <- ?app_assoc; cbn; reflexivity.
    - cbn. eexists _, _, _, _; rewrite ?app_nil_r, <- ?app_assoc; cbn; reflexivity. }
  destruct k; cbn [discoverSitesRecursively_fuel];
    exact (Hgoal (fun subdirectories => _)).
Qed.
End TSWalk.

(* ===================================================================== *)
(** ** The Site Processor: one outcome per matched file *)
(* ===================================================================== *)

Lemma go_file_outcomes_length repoURL sitePath branch net n matched :
  length (GoSpec.file_outcomes repoURL sitePath branch net n matched) = length matched.
Proof. revert n; induction matched as [|f rest IH]; intros n; cbn; [done|]. by rewrite IH. Qed.

Lemma ts_file_outcomes_length fuel repoUrl sitePath branch net n matched outs n2 :
  TSSpec.file_outcomes fuel repoUrl sitePath branch net n matched = Some (outs, n2) ->
  length outs = length matched.
Proof.
  revert n outs n2; induction matched as [|f rest IH]; intros n outs n2; cbn.
  - by intros [= <- _].
  - destruct (TSSpec.fetched _ _ _ _) as [r n1].
    destruct (TSSpec.file_outcome f r); [|done].
    destruct (TSSpec.file_outcomes _ _ _ _ _ n1 rest) as [[os n'']|] eqn:E; [|done].
    intros [= <- _]. cbn. by rewrite (IH _ _ _ E).
Qed.

Lemma go_processes_site json_Unmarshal repoURL sitePath branch net n t0 items :
  GoSpec.well_formed repoURL = true ->
  Go.run (Go.getGiteaDirectoryListing json_Unmarshal repoURL sitePath branch) net n =
    (t0, S n, Some (items, None)) ->
  GoSpec.processes_site json_Unmarshal repoURL sitePath branch net n items.
Proof.
  intros Hwf Hlist. unfold GoSpec.processes_site.
  destruct (GoFacts.run_processSiteDirectory_listed json_Unmarshal repoURL sitePath
              branch Hwf net n t0 items Hlist) as (t & Hrun & Hsent & _).
  set (matched := filter (fun f => Go.isBMNodeFile f = true) items) in *.
  set (outcomes := GoSpec.file_outcomes repoURL sitePath branch net (S n) matched) in *.
  pose proof (go_file_outcomes_length repoURL sitePath branch net (S n) matched) as Hlen.
  pose proof (GoFacts.outcomes_length outcomes) as Hsum. fold outcomes in Hlen.
  exists t, (GoSpec.site_record sitePath matched outcomes).
  split_and!; try done; cbn; rewrite ?length_fmap; lia.
Qed.

Lemma ts_processes_site JSON_parse fuel repoUrl sitePath branch net n m t0 n1 items :
  TSSpec.redirects_bounded fuel net ->
  TSSpec.responses_end net ->
  TS.run (TS.getGiteaDirectoryListing JSON_parse fuel repoUrl sitePath branch) net n m =
    (t0, n1, m, TS.Returned (Some <$> items)) ->
  TSSpec.processes_site JSON_parse fuel repoUrl sitePath branch net n m n1 items.
Proof.
  intros Hnet Hend Hlist. unfold TSSpec.processes_site.
  pose proof (TSFacts.ts_run_processSiteDirectory JSON_parse fuel repoUrl sitePath branch
                net n m t0 n1 items Hlist) as Hrun.
  set (matched := filter (fun f => TS.isBMNodeFile f = true) items) in *.
  destruct (TSFacts.file_outcomes_settle net Hend fuel Hnet repoUrl sitePath branch
              matched n1) as [[outcomes n2] Houts].
  rewrite Houts in Hrun. destruct Hrun as (t & Hrun & _).
  pose proof (ts_file_outcomes_length _ _ _ _ _ _ _ _ _ Houts) as Hlen.
  pose proof (GoFacts.outcomes_length outcomes) as Hsum.
  exists t, n2, outcomes, (TSSpec.site_record sitePath matched outcomes).
  split_and!; try done; cbn; rewrite ?length_fmap; lia.
Qed.

(** The extractor breaks the count on a listing that holds [null]: at the
    sample listing [[null]] no entry matches, and the record has one
    error. *)
Lemma ts_null_entry_breaks_the_count :
  ~ TSSpec.one_outcome_per_file Sample.TS.JSON_parse 0.
Proof.
  intros H.
  assert (Hl : exists t0,
             TS.run (TS.getGiteaDirectoryListing Sample.TS.JSON_parse 0 Go.repoURL
                       "site1" Go.branch) Sample.TS.net_null 0 ∅ =
               (t0, 1%nat, ∅, TS.Returned [None])) by (eexists; reflexivity).
  destruct Hl as [t0 Hl].
  destruct (H Go.repoURL "site1" Go.branch Sample.TS.net_null 0%nat ∅ t0 1%nat [None])
    as (t & n2 & rec & Hrun & Hfiles & Hsum); [| |exact Hl|].
  - intros n. by exists 0%nat.
  - done.
  - vm_compute in Hrun. injection Hrun as _ _ <-. vm_compute in Hsum. lia.
Qed.

(** [C1, as amended] For a site directory whose listing succeeds and
    yields N matched files, the Site Processor returns a record assembled
    from exactly one outcome per matched file, a hostname or an error: with
    K failures (fetch failure or absent annotation) it has N - K hostnames,
    K errors and N matched files.  The Go server does so on every such
    listing.  The extractor does so when the listing holds no [null] and
    every request settles, no response being cut and the redirects ending;
    on a listing that holds [null] its record has the one error of the
    site directory, no hostname and no matched file. *)
Theorem processSite_one_outcome_per_file :
  (forall json_Unmarshal repoURL sitePath branch net n t0 items,
     GoSpec.well_formed repoURL = true ->
     Go.run (Go.getGiteaDirectoryListing json_Unmarshal repoURL sitePath branch) net n =
       (t0, S n, Some (items, None)) ->
     GoSpec.processes_site json_Unmarshal repoURL sitePath branch net n items) /\
  (forall JSON_parse fuel repoUrl sitePath branch net n m t0 n1 items,
     TSSpec.redirects_bounded fuel net ->
     TSSpec.responses_end net ->
     TS.run (TS.getGiteaDirectoryListing JSON_parse fuel repoUrl sitePath branch) net n m =
       (t0, n1, m, TS.Returned (Some <$> items)) ->
     TSSpec.processes_site JSON_parse fuel repoUrl sitePath branch net n m n1 items) /\
  (forall JSON_parse fuel repoUrl sitePath branch net n m t0 n1 items,
     TS.run (TS.getGiteaDirectoryListing JSON_parse fuel repoUrl sitePath branch) net n m =
       (t0, n1, m, TS.Returned items) ->
     None ∈ items ->
     exists e,
       TS.run (TS.processSiteDirectory JSON_parse fuel repoUrl sitePath branch) net n m =
         (t0, n1, m,
          TS.Returned {| TS.sitePath := sitePath; TS.hostnames := [];
                         TS.bmNodeFiles := []; TS.errors := [e] |})).
Proof.
  split_and!.
  - intros. by eapply go_processes_site.
  - intros. by eapply ts_processes_site.
  - intros JSON_parse fuel repoUrl sitePath branch net n m t0 n1 items Hl Hin.
    eexists. by apply (TSFacts.ts_run_processSiteDirectory_null JSON_parse fuel repoUrl
                         sitePath branch net n m t0 n1 items).
Qed.

Lemma sample_ts_net_bounded : TSSpec.redirects_bounded 0 Sample.TS.net.
Proof. intros n. exists 0%nat. split; [done|]. by destruct n as [|[|n]]. Qed.

Lemma sample_ts_net_ends : TSSpec.responses_end Sample.TS.net.
Proof. intros n. by destruct n as [|[|n]]. Qed.

(** The theorem at the sample site: one hostname, one error, two files. *)
Lemma processSite_one_outcome_per_file_witness :
  (GoSpec.well_formed Go.repoURL = true /\
   GoSpec.processes_site Sample.Go.json_Unmarshal Go.repoURL "site1" Go.branch
     Sample.Go.net 0 Sample.Go.site_listing) /\
  (TSSpec.redirects_bounded 0 Sample.TS.net /\
   TSSpec.responses_end Sample.TS.net /\
   TSSpec.processes_site Sample.TS.JSON_parse 0 Go.repoURL "site1" Go.branch
     Sample.TS.net 0 ∅ 1 Sample.TS.site_listing) /\
  (exists e,
     TS.run (TS.processSiteDirectory Sample.TS.JSON_parse 0 Go.repoURL "site1" Go.branch)
            Sample.TS.net_null 0 ∅ =
       ([TS.AGet TS.Https (TS.convertToGiteaApiUrl Go.repoURL "site1" Go.branch)
           (Some TS.createInsecureAgent) 15000 (Sample.TS.net_null 0)], 1%nat, ∅,
        TS.Returned {| TS.sitePath := "site1"; TS.hostnames := [];
                       TS.bmNodeFiles := []; TS.errors := [e] |})).
Proof.
  split; [|split].
  - split; [reflexivity|].
    eapply (proj1 processSite_one_outcome_per_file); reflexivity.
  - split; [exact sample_ts_net_bounded|]. split; [exact sample_ts_net_ends|].
    eapply (proj1 (proj2 processSite_one_outcome_per_file));
      [exact sample_ts_net_bounded|exact sample_ts_net_ends|reflexivity].
  - apply (proj2 (proj2 processSite_one_outcome_per_file) Sample.TS.JSON_parse 0%nat
             Go.repoURL "site1" Go.branch Sample.TS.net_null 0%nat ∅ _ 1%nat [None]);
      [reflexivity|by left].
Defined.

(* ===================================================================== *)
(** ** The coordinator closes the channel after the last branch *)
(* ===================================================================== *)

(** [C2] In every state a run of [dataHandler] can reach, the channel is
    closed only if the wait group is at zero and every goroutine, the root
    branch and all the branches started since included, has returned; no
    run panics.  And once every branch has returned, the producer does
    close the channel and the handler sees the end of the stream: a run to
    that end exists, no run can go on for more than four steps, and a run
    that cannot go on has ended that way. *)
Theorem close_after_all_branches :
  forall json_Unmarshal repoURL branch s,
    GoSpec.well_formed repoURL = true ->
    Go.reachable json_Unmarshal repoURL branch s ->
    Go.panicked s = None /\
    (Go.closed s = true ->
     Go.wg s = 0 /\ Forall (fun gp => gp.2 = Go.Ret tt) (Go.goroutines s)) /\
    (GoInv.branches_done s ->
     (exists cs s', Go.exec json_Unmarshal s cs = Some s' /\ Go.finished s') /\
     (forall cs s',
        Go.exec json_Unmarshal s cs = Some s' ->
        (length cs <= 4)%nat /\ (Go.stuck json_Unmarshal s' -> Go.finished s'))).
Proof.
  intros json_Unmarshal repoURL branch s Hwf Hreach.
  pose proof (GoSys.invariant_reachable json_Unmarshal repoURL branch Hwf s Hreach) as Hinv.
  split_and!.
  - apply Hinv.
  - by eapply GoSys.invariant_closed.
  - intros Hdone. split.
    + eapply GoSys.done_eventually; eauto.
    + intros cs s' Hex. split.
      * assert (length cs + GoInv.remaining s' <= GoInv.remaining s)%nat
          by (eapply GoSys.done_bounded; eauto).
        assert (GoInv.remaining s <= 4)%nat
          by (eapply GoSys.done_remaining; eauto).
        lia.
      * eapply GoSys.invariant_stuck; eauto.
        eapply GoSys.invariant_exec; eauto.
Qed.

(** The state reached by the sample run, where the channel is closed. *)
Lemma sample_run_reachable :
  exists s,
    Go.exec Sample.Go.json_Unmarshal
      (Go.dataHandler_start Sample.Go.json_Unmarshal Go.repoURL Go.branch)
      Sample.Go.choices = Some s /\
    Go.closed s = true /\ length (Go.goroutines s) = 3%nat.
Proof. eexists. split; [vm_compute; reflexivity|]. by vm_compute. Qed.

Lemma close_after_all_branches_witness :
  exists s,
    GoSpec.well_formed Go.repoURL = true /\
    Go.reachable Sample.Go.json_Unmarshal Go.repoURL Go.branch s /\
    Go.closed s = true /\
    Go.wg s = 0 /\ Forall (fun gp => gp.2 = Go.Ret tt) (Go.goroutines s).
Proof.
  destruct sample_run_reachable as (s & Hs & Hc & _).
  exists s.
  assert (Hr : Go.reachable Sample.Go.json_Unmarshal Go.repoURL Go.branch s)
    by (by exists Sample.Go.choices).
  split_and!; [reflexivity|exact Hr|exact Hc|..];
    apply (close_after_all_branches Sample.Go.json_Unmarshal Go.repoURL Go.branch s
             eq_refl Hr); exact Hc.
Defined.

(* ===================================================================== *)
(** ** The Remote Tree Client *)
(* ===================================================================== *)

(** [C6] When the answer to a listing is not a listable collection (the
    decoder of the Go server returns an error; [JSON.parse] of the extractor
    throws or gives a value that is no array), the listing of both programs
    is empty and no failure is reported; the branch of the walk over that
    path ends normally, with no record and no children. *)
Theorem listChildren_unlistable_is_empty :
  (forall json_Unmarshal repoURL path branch net n body,
     GoSpec.well_formed repoURL = true ->
     Go.fetchURL_returns (GoSpec.apiURL repoURL path branch) (net n) = (body, None) ->
     json_Unmarshal body = None ->
     Go.run (Go.getGiteaDirectoryListing json_Unmarshal repoURL path branch) net n =
       ([Go.AGet GoSpec.the_client (GoSpec.apiURL repoURL path branch) (net n)],
        S n, Some ([], None)) /\
     Go.run (Go.discoverSitesRecursively json_Unmarshal repoURL path branch) net n =
       ([Go.AGet GoSpec.the_client (GoSpec.apiURL repoURL path branch) (net n);
         Go.ADone], S n, Some tt)) /\
  (forall JSON_parse fuel k repoUrl path branch net n m response,
     (TSSpec.fetched fuel (TS.convertToGiteaApiUrl repoUrl path branch) net n).1 =
       TS.Returned response ->
     JSON_parse response = None \/ JSON_parse response = Some TS.JSOther ->
     exists t n',
       TS.run (TS.getGiteaDirectoryListing JSON_parse fuel repoUrl path branch) net n m =
         (t, n', m, TS.Returned []) /\
       TS.run (TS.discoverSitesRecursively_fuel JSON_parse fuel k repoUrl path branch)
              net n m = (t, n', m, TS.Returned tt) /\
       TSSpec.only_requests t).
Proof.
  split.
  - intros json_Unmarshal repoURL path branch net n body Hwf Hfetch Hjson.
    assert (Hl : GoSpec.listing_of json_Unmarshal
                   (Go.fetchURL_returns (GoSpec.apiURL repoURL path branch) (net n))
                 = ([], None)).
    { rewrite Hfetch. cbn. by rewrite Hjson. }
    split.
    + rewrite GoFacts.run_getGiteaDirectoryListing by done. by rewrite Hl.
    + rewrite (GoFacts.run_discover_plain json_Unmarshal repoURL branch Hwf net path n []);
        done.
  - intros JSON_parse fuel k repoUrl path branch net n m response Hfetch Hjson.
    destruct (TSFacts.ts_run_getGiteaDirectoryListing JSON_parse fuel repoUrl branch
                net path n m) as (t & Hrun & Ht).
    rewrite Hfetch in Hrun. cbn in Hrun.
    assert (Hl : match JSON_parse response with
                 | Some (TS.JSArray items) => TS.Returned items
                 | _ => TS.Returned []
                 end = TS.Returned []).
    { by destruct Hjson as [-> | ->]. }
    rewrite Hl in Hrun.
    eexists t, _. split_and!; [exact Hrun| |done].
    by apply TSFacts.ts_run_discover_empty.
Qed.

(** The theorem where the listing is answered with something else than an
    array. *)
Lemma listChildren_unlistable_is_empty_witness :
  (GoSpec.well_formed Go.repoURL = true /\
   Sample.Go.json_Unmarshal "{}" = None /\
   Go.run (Go.getGiteaDirectoryListing Sample.Go.json_Unmarshal Go.repoURL
             "site1/bm-node-1.yaml" Go.branch)
          (fun _ => Sample.Go.ok "{}") 0 =
     ([Go.AGet GoSpec.the_client
         (GoSpec.apiURL Go.repoURL "site1/bm-node-1.yaml" Go.branch)
         (Sample.Go.ok "{}")], 1%nat, Some ([], None))) /\
  (Sample.TS.JSON_parse "OBJECT" = Some TS.JSOther /\
   exists t n',
     TS.run (TS.getGiteaDirectoryListing Sample.TS.JSON_parse 0 Go.repoURL
               "site1/bm-node-1.yaml" Go.branch)
            (fun _ => Sample.TS.ok "OBJECT") 0 ∅ = (t, n', ∅, TS.Returned [])).
Proof.
  split.
  - split; [reflexivity|]. split; [reflexivity|].
    apply (proj1 listChildren_unlistable_is_empty Sample.Go.json_Unmarshal Go.repoURL
             "site1/bm-node-1.yaml" Go.branch (fun _ => Sample.Go.ok "{}") 0%nat "{}");
      reflexivity.
  - split; [reflexivity|].
    destruct (proj2 listChildren_unlistable_is_empty Sample.TS.JSON_parse 0%nat 0%nat
                Go.repoURL "site1/bm-node-1.yaml" Go.branch
                (fun _ => Sample.TS.ok "OBJECT") 0%nat ∅ "OBJECT" eq_refl
                (or_intror eq_refl)) as (t & n' & H & _).
    by exists t, n'.
Defined.

(** [C9] Every request of [fetchURL] goes through a client whose timeout is
    15 seconds, and what is not a response with status 200 read to its end
    is returned as an error with its message: the error of [client.Get] (a
    timeout, a connection failure), "HTTP <code>: <status> for <url>" for
    another status, the error that ended the reading of the body;
    [fetchURL] always returns.  Every request of [fetchUrl] is armed with
    a timer of 15000 ms; the promise resolves on a response with status
    200 read to its end and rejects with a message when the request fails,
    times out or is answered with another status.  But when a response
    with status 200 is cut before its end, the promise never settles, for
    any number of redirects followed: that connection failure is returned
    to no one. *)
Theorem fetchContent_timeout_and_failures :
  (forall url,
     Go.fetchURL url =
       Go.ClientGet GoSpec.the_client url (fun r => Go.Ret (Go.fetchURL_returns url r)) /\
     Go.Timeout GoSpec.the_client = 15 * Go.Second /\
     (forall err, Go.fetchURL_returns url (Go.GetFailed err) = ("", Some err)) /\
     (forall resp,
        Go.StatusCode resp <> 200 ->
        Go.fetchURL_returns url (Go.GotResponse resp) =
          ("", Some ("HTTP " +:+ Str.itoa (Go.StatusCode resp) +:+ ": "
                     +:+ Go.Status resp +:+ " for " +:+ url))) /\
     (forall resp,
        Go.StatusCode resp = 200 ->
        Go.fetchURL_returns url (Go.GotResponse resp) = Go.Body resp) /\
     (forall r,
        GoSpec.fetch_failed (Go.fetchURL_returns url r) = false <-> GoSpec.transport_ok r) /\
     (forall net n,
        Go.run (Go.fetchURL url) net n =
          ([Go.AGet GoSpec.the_client url (net n)], S n,
           Some (Go.fetchURL_returns url (net n))))) /\
  (forall fuel url net n,
     Forall TSSpec.timer_armed (TSSpec.fetch_trace fuel url net n) /\
     (n < (TSSpec.fetched fuel url net n).2)%nat /\
     TSSpec.settles_as (TSSpec.fetched fuel url net n).1
       (net ((TSSpec.fetched fuel url net n).2 - 1)%nat)) /\
  (forall fuel url net n,
     net n = TS.ResponseCut ->
     TSSpec.fetched fuel url net n = (TS.GaveUp, S n)).
Proof.
  split; [|split].
  - intros url. split_and!; try done.
    + intros resp Hne. unfold Go.fetchURL_returns, Go.StatusOK.
      by destruct (Z.eqb_spec (Go.StatusCode resp) 200).
    + intros resp He. unfold Go.fetchURL_returns, Go.StatusOK. by rewrite He.
    + intros r. unfold GoSpec.transport_ok, Go.fetchURL_returns, Go.StatusOK. split.
      * destruct r as [resp|err]; [|done].
        destruct (Z.eqb_spec (Go.StatusCode resp) 200) as [He|]; [|done]. cbn.
        destruct (Go.Body resp) as [body [e|]] eqn:Eb; [done|].
        intros _. by exists resp, body.
      * intros (resp & body & -> & -> & ->). done.
  - intros fuel url net n.
    destruct (TSFacts.ts_fetch_trace fuel url net n ∅) as (_ & Harm & _).
    destruct (TSFacts.ts_fetched_settles_as fuel url net n) as [Hs Hlt].
    done.
  - intros fuel url net n Hcut. unfold TSSpec.fetched, TS.fetchUrl.
    destruct fuel; cbn [TS.fetchUrl_fuel TS.run]; by rewrite Hcut.
Qed.

Lemma fetchContent_timeout_and_failures_witness :
  Go.fetchURL_returns "https://host/x" Sample.Go.not_found =
    ("", Some "HTTP 404: 404 Not Found for https://host/x") /\
  TSSpec.settles_as
    (TSSpec.fetched 0 "https://host/x" (fun _ => TS.RequestTimeout) 0).1
    TS.RequestTimeout /\
  TSSpec.fetched 5 "https://host/x" Sample.TS.net_cut 0 = (TS.GaveUp, 1%nat).
Proof.
  split; [|split].
  - apply (proj1 fetchContent_timeout_and_failures "https://host/x"). done.
  - apply (proj1 (proj2 fetchContent_timeout_and_failures) 0%nat "https://host/x"
             (fun _ => TS.RequestTimeout) 0%nat).
  - apply (proj2 (proj2 fetchContent_timeout_and_failures) 5%nat "https://host/x"
             Sample.TS.net_cut 0%nat). reflexivity.
Defined.

(* ===================================================================== *)
(** ** A site whose own listing fails *)
(* ===================================================================== *)

(** [C3] In the Go server a site directory whose listing fails inside the
    Site Processor gives a record whose errors hold the failure and whose
    hostnames and matched files are empty, and the branch goes on to start
    every child directory and returns.  In the extractor the listing
    swallows the failure: at the sample input, where every request is
    refused, the record of the site has no error at all. *)
Theorem processSite_listing_failure :
  (forall json_Unmarshal repoURL sitePath branch net n t0 items cause,
     GoSpec.well_formed repoURL = true ->
     Go.run (Go.getGiteaDirectoryListing json_Unmarshal repoURL sitePath branch) net n =
       (t0, S n, Some (items, Some cause)) ->
     Go.run (Go.processSiteDirectory json_Unmarshal repoURL sitePath branch) net n =
       (t0 ++ [Go.ASend (GoSpec.failed_listing_record sitePath cause)], S n, Some tt)) /\
  (forall json_Unmarshal repoURL currentPath branch net n items cause,
     GoSpec.well_formed repoURL = true ->
     GoSpec.listing_of json_Unmarshal
       (Go.fetchURL_returns (GoSpec.apiURL repoURL currentPath branch) (net n)) =
       (items, None) ->
     Go.isSiteDirectory items = true ->
     (GoSpec.listing_of json_Unmarshal
        (Go.fetchURL_returns
           (GoSpec.apiURL repoURL (GoSpec.path_key currentPath) branch) (net (S n)))).2 =
       Some cause ->
     Go.run (Go.discoverSitesRecursively json_Unmarshal repoURL currentPath branch) net n =
       ([Go.AGet GoSpec.the_client (GoSpec.apiURL repoURL currentPath branch) (net n);
         Go.AGet GoSpec.the_client
           (GoSpec.apiURL repoURL (GoSpec.path_key currentPath) branch) (net (S n));
         Go.ASend (GoSpec.failed_listing_record (GoSpec.path_key currentPath) cause)]
        ++ GoSpec.spawn_actions (GoSpec.children repoURL currentPath branch items)
        ++ [Go.ADone],
        S (S n), Some tt)) /\
  (TSSpec.fetched 0 (TS.convertToGiteaApiUrl Go.repoURL "site1" Go.branch)
     Sample.TS.net_down 0).1 =
    TS.Threw ("Request failed for "
              +:+ TS.convertToGiteaApiUrl Go.repoURL "site1" Go.branch
              +:+ ": connect ECONNREFUSED") /\
  (TS.run (TS.processSiteDirectory Sample.TS.JSON_parse 0 Go.repoURL "site1" Go.branch)
          Sample.TS.net_down 0 ∅).2 =
    TS.Returned {| TS.sitePath := "site1"; TS.hostnames := [];
                   TS.bmNodeFiles := []; TS.errors := [] |}.
Proof.
  split_and!.
  - intros. by eapply GoFacts.run_processSiteDirectory_failed.
  - intros json_Unmarshal repoURL currentPath branch net n items cause Hwf Hl Hsite Hfail.
    destruct (GoFacts.run_discover_site json_Unmarshal repoURL branch Hwf net
                currentPath n items Hl Hsite) as (tp & n' & Hp & ->).
    pose proof (GoFacts.run_getGiteaDirectoryListing json_Unmarshal repoURL branch Hwf
                  net (GoSpec.path_key currentPath) (S n)) as Hlist.
    destruct (GoSpec.listing_of json_Unmarshal
                (Go.fetchURL_returns
                   (GoSpec.apiURL repoURL (GoSpec.path_key currentPath) branch)
                   (net (S n)))) as [items' [e|]] eqn:El; [|done].
    injection Hfail as ->.
    rewrite (GoFacts.run_processSiteDirectory_failed json_Unmarshal repoURL
               (GoSpec.path_key currentPath) branch net (S n) _ _ _ Hlist) in Hp.
    injection Hp as <- <-. done.
  - reflexivity.
  - reflexivity.
Qed.

(** The Go part at a sample run: the first listing succeeds, the listing of
    the Site Processor is refused. *)
Lemma processSite_listing_failure_witness :
  GoSpec.well_formed Go.repoURL = true /\
  Go.sent (Go.run (Go.discoverSitesRecursively Sample.Go.json_Unmarshal Go.repoURL
                     "site1" Go.branch) Sample.Go.net_then_down 0).1.1 =
    [GoSpec.failed_listing_record "site1" "dial tcp: connection refused"] /\
  Go.started (Go.run (Go.discoverSitesRecursively Sample.Go.json_Unmarshal Go.repoURL
                        "site1" Go.branch) Sample.Go.net_then_down 0).1.1 =
    [Go.GoDiscover Go.repoURL "site1/root" Go.branch].
Proof.
  split; [reflexivity|].
  rewrite (proj1 (proj2 processSite_listing_failure) Sample.Go.json_Unmarshal
             Go.repoURL "site1" Go.branch Sample.Go.net_then_down 0%nat
             Sample.Go.site_listing "dial tcp: connection refused"
             eq_refl eq_refl eq_refl eq_refl).
  split; reflexivity.
Defined.

(* ===================================================================== *)
(** ** Where the content of a matched file is fetched from *)
(* ===================================================================== *)

(** The Go server synthesizes every address: at the sample site the first
    node file carries a direct locator, which is never requested. *)
Lemma go_ignores_direct_locator : ~ GoSpec.fetches_direct_locators.
Proof.
  intros H.
  specialize (H Sample.Go.json_Unmarshal Go.repoURL "site1" Go.branch Sample.Go.net
                0%nat _ Sample.Go.site_listing _ _ _
                {| Go.Name := "bm-node-1.yaml"; Go.Type_ := "file";
                   Go.DownloadURL := "https://mirror.example/raw/bm-node-1.yaml" |}
                eq_refl eq_refl eq_refl).
  assert (Hin : {| Go.Name := "bm-node-1.yaml"; Go.Type_ := "file";
                   Go.DownloadURL := "https://mirror.example/raw/bm-node-1.yaml" |}
                ∈ filter (fun f => Go.isBMNodeFile f = true) Sample.Go.site_listing).
  { apply list_elem_of_In. vm_compute. by left. }
  specialize (H Hin ltac:(done)).
  apply list_elem_of_In in H. vm_compute in H.
  destruct H as [H|[H|[H|[]]]]; discriminate H.
Qed.

(** [C5, as amended] The extractor fetches a matched file from the direct
    locator of its entry when the entry carries a non-empty one, and from
    the address synthesized from the repository, the path and the branch
    otherwise; this on a listing without [null], every request settling.
    The Go server ignores the direct locator: it fetches every matched file
    from the synthesized address. *)
Theorem content_locator_per_program :
  (forall JSON_parse fuel repoUrl sitePath branch net n m t0 n1 items,
     TSSpec.redirects_bounded fuel net ->
     TSSpec.responses_end net ->
     TS.run (TS.getGiteaDirectoryListing JSON_parse fuel repoUrl sitePath branch) net n m =
       (t0, n1, m, TS.Returned (Some <$> items)) ->
     (exists t,
        (TS.run (TS.processSiteDirectory JSON_parse fuel repoUrl sitePath branch)
                net n m).1.1.1 = t0 ++ t /\
        TSSpec.fetches_from_locators fuel repoUrl sitePath branch net
          (filter (fun f => TS.isBMNodeFile f = true) items) t) /\
     (forall file direct,
        TS.download_url file = Some direct -> direct <> "" ->
        TSSpec.locator repoUrl sitePath branch file = direct) /\
     (forall file,
        TS.download_url file = None \/ TS.download_url file = Some "" ->
        TSSpec.locator repoUrl sitePath branch file =
          TS.constructRawUrl repoUrl
            (sitePath +:+ "/" +:+ default "" (TS.name file)) branch)) /\
  (forall json_Unmarshal repoURL sitePath branch net n t0 items,
     GoSpec.well_formed repoURL = true ->
     Go.run (Go.getGiteaDirectoryListing json_Unmarshal repoURL sitePath branch) net n =
       (t0, S n, Some (items, None)) ->
     Go.requested
       (Go.run (Go.processSiteDirectory json_Unmarshal repoURL sitePath branch) net n).1.1 =
       GoSpec.apiURL repoURL sitePath branch ::
       ((fun f => GoSpec.rawURL repoURL (sitePath +:+ "/" +:+ Go.Name f) branch)
          <$> filter (fun f => Go.isBMNodeFile f = true) items)).
Proof.
  split.
  - intros JSON_parse fuel repoUrl sitePath branch net n m t0 n1 items Hnet Hend Hlist.
    split_and!.
    + destruct (TSFacts.file_outcomes_settle net Hend fuel Hnet repoUrl sitePath branch
                  (filter (fun f => TS.isBMNodeFile f = true) items) n1)
        as [[outs n2] Hos].
      by eapply TSFacts.ts_processSiteDirectory_requests.
    + intros file direct Hd Hne. unfold TSSpec.locator. rewrite Hd.
      by rewrite bool_decide_eq_true_2.
    + intros file [Hd|Hd]; unfold TSSpec.locator; by rewrite Hd.
  - intros json_Unmarshal repoURL sitePath branch net n t0 items Hwf Hlist.
    destruct (GoFacts.run_processSiteDirectory_listed json_Unmarshal repoURL sitePath
                branch Hwf net n t0 items Hlist) as (t & -> & _ & _ & Hr).
    exact Hr.
Qed.

(** The theorem at the sample site, whose first node file carries a direct
    locator: the extractor requests it, the server does not. *)
Lemma content_locator_per_program_witness :
  (TSSpec.redirects_bounded 0 Sample.TS.net /\
   TSSpec.responses_end Sample.TS.net /\
   exists t,
     (TS.run (TS.processSiteDirectory Sample.TS.JSON_parse 0 Go.repoURL "site1" Go.branch)
             Sample.TS.net 0 ∅).1.1.1 =
       [TS.AGet TS.Https (TS.convertToGiteaApiUrl Go.repoURL "site1" Go.branch)
          (Some TS.createInsecureAgent) 15000 (Sample.TS.net 0)] ++ t /\
     TSSpec.fetches_from_locators 0 Go.repoURL "site1" Go.branch Sample.TS.net
       (filter (fun f => TS.isBMNodeFile f = true) Sample.TS.site_listing) t) /\
  (GoSpec.well_formed Go.repoURL = true /\
   Go.requested
     (Go.run (Go.processSiteDirectory Sample.Go.json_Unmarshal Go.repoURL "site1" Go.branch)
             Sample.Go.net 0).1.1 =
     GoSpec.apiURL Go.repoURL "site1" Go.branch ::
     ((fun f => GoSpec.rawURL Go.repoURL ("site1" +:+ "/" +:+ Go.Name f) Go.branch)
        <$> filter (fun f => Go.isBMNodeFile f = true) Sample.Go.site_listing)).
Proof.
  split.
  - split; [exact sample_ts_net_bounded|]. split; [exact sample_ts_net_ends|].
    apply (proj1 content_locator_per_program Sample.TS.JSON_parse 0%nat Go.repoURL
             "site1" Go.branch Sample.TS.net 0%nat ∅ _ 1%nat Sample.TS.site_listing
             sample_ts_net_bounded sample_ts_net_ends eq_refl).
  - split; [reflexivity|].
    eapply (proj2 content_locator_per_program); reflexivity.
Defined.

(* ===================================================================== *)
(** ** The sentinel path of the root *)
(* ===================================================================== *)

(** [C10] The path [root] given to the record of the tree root is not
    reserved.  On the sample tree, whose root is a site and has a directory
    named [root] that is a site too, a run of the Go server to its end, the
    remote answering by address, sends two records whose path is [root], one
    from the branch of the root and one from the branch of [root]; and the
    extractor stores the two records under the key [root], so that the map
    it resolves to holds the second one only. *)
Theorem root_sentinel_is_not_reserved :
  (exists s,
     Go.exec Sample.Go.json_Unmarshal
       (Go.dataHandler_start Sample.Go.json_Unmarshal Go.repoURL Go.branch)
       Sample.Go.choices = Some s /\
     Go.finished s /\
     GoSpec.answered_by Sample.Go.remote (Go.events s) /\
     fst <$> Go.goroutines s =
       [Go.GoProducer Go.repoURL Go.branch;
        Go.GoDiscover Go.repoURL "" Go.branch;
        Go.GoDiscover Go.repoURL "root" Go.branch] /\
     GoSpec.sends (Go.events s) =
       [(1%nat, Sample.Go.inner_record); (2%nat, Sample.Go.inner_record)] /\
     Go.written s = [Sample.Go.inner_record; Sample.Go.inner_record] /\
     Go.SitePath Sample.Go.inner_record = "root") /\
  (TSSpec.sets
     (TS.run (TS.extractHostnamesFromGiteaRepository Sample.TS.JSON_parse 1
                Go.repoURL (Some Go.branch)) Sample.TS.net_tree 0 ∅).1.1.1 =
     [("root", Sample.TS.root_record); ("root", Sample.TS.inner_record)] /\
   Sample.TS.root_record <> Sample.TS.inner_record /\
   exists m,
     TS.resolved_map Sample.TS.JSON_parse 1 Sample.TS.net_tree Go.repoURL
       (Some Go.branch) = Some m /\
     m !! "root" = Some Sample.TS.inner_record /\
     size m = 1%nat).
Proof.
  split.
  - eexists. split; [vm_compute; reflexivity|].
    split_and!; try (vm_compute; reflexivity).
    + split_and!; try reflexivity. repeat constructor.
    + repeat constructor.
  - split_and!; [by vm_compute|done|].
    eexists. split; [vm_compute; reflexivity|]. split; by vm_compute.
Qed.

(* ===================================================================== *)
(** ** The root listing fails *)
(* ===================================================================== *)

(** [C7] When the request of the root listing fails, the run terminates
    without a record.  For the Go server: in every state of a run of
    [dataHandler] in which each answer to the request of the root listing
    was a failure, nothing has panicked and nothing has been written to the
    client; the run has taken at most eight steps; a run that cannot go on
    has ended, with the channel closed and the handler out of its loop, the
    end of the stream received; and a run to that end exists.  For the
    extractor: [extractHostnamesFromGiteaRepository] resolves to the empty
    map. *)
Theorem root_listing_failure_terminates :
  (forall json_Unmarshal repoURL branch cs s,
     GoSpec.well_formed repoURL = true ->
     Go.exec json_Unmarshal (Go.dataHandler_start json_Unmarshal repoURL branch) cs
       = Some s ->
     GoInv.root_listing_fails repoURL branch s ->
     Go.panicked s = None /\ Go.written s = [] /\ (length cs <= 8)%nat /\
     (Go.stuck json_Unmarshal s -> Go.finished s) /\
     exists cs' s',
       Go.exec json_Unmarshal s cs' = Some s' /\
       GoInv.root_listing_fails repoURL branch s' /\
       Go.finished s' /\ Go.written s' = []) /\
  (forall JSON_parse fuel repoUrl branch net cause,
     (TSSpec.fetched fuel
        (TS.convertToGiteaApiUrl repoUrl "" (default "dev" branch)) net 0).1
       = TS.Threw cause ->
     TS.resolved_map JSON_parse fuel net repoUrl branch = Some ∅).
Proof.
  split.
  - intros json_Unmarshal repoURL branch cs s Hwf Hex Hf.
    assert (Hreach : Go.reachable json_Unmarshal repoURL branch s) by (by exists cs).
    pose proof (GoSys.invariant_reachable json_Unmarshal repoURL branch Hwf s Hreach)
      as Hinv.
    pose proof (GoFailedRoot.shape_exec json_Unmarshal repoURL branch Hwf cs s Hex Hf)
      as Hshape.
    split_and!.
    + apply Hinv.
    + apply Hshape.
    + destruct (GoFailedRoot.exec_events json_Unmarshal _ _ _ Hex) as (evs & He & <-).
      pose proof (GoFailedRoot.shape_bound json_Unmarshal repoURL branch s Hshape) as Hb.
      rewrite He, length_app in Hb. lia.
    + by eapply GoSys.invariant_stuck.
    + destruct (GoFailedRoot.failed_root_ends json_Unmarshal repoURL branch Hwf 9 s)
        as (cs' & s' & Hex' & Hf' & Hfin); [lia|done|done|].
      exists cs', s'. split_and!; try done.
      apply (GoFailedRoot.shape_exec json_Unmarshal repoURL branch Hwf (cs ++ cs') s');
        [|done].
      by rewrite (GoSys.exec_app json_Unmarshal), Hex.
  - intros JSON_parse fuel repoUrl branch net cause Hfetch.
    destruct (TSFacts.ts_run_getGiteaDirectoryListing JSON_parse fuel repoUrl
                (default "dev" branch) net "" 0 ∅) as (t & Hrun & _).
    rewrite Hfetch in Hrun. cbn [TSSpec.listing_of] in Hrun.
    apply (TSFacts.ts_run_discover_empty JSON_parse fuel fuel) in Hrun.
    unfold TS.resolved_map, TS.extractHostnamesFromGiteaRepository.
    rewrite TSFacts.ts_run_try_catch, TSFacts.ts_run_bind. cbn [TS.run].
    unfold TS.discoverSitesRecursively. by rewrite Hrun.
Qed.

(** The sample run against a remote that is down. *)
Lemma sample_down_run :
  exists s,
    Go.exec Sample.Go.json_Unmarshal
      (Go.dataHandler_start Sample.Go.json_Unmarshal Go.repoURL Go.branch)
      Sample.Go.choices_down = Some s /\
    GoInv.root_listing_fails Go.repoURL Go.branch s /\
    length Sample.Go.choices_down = 8%nat.
Proof.
  eexists. split; [vm_compute; reflexivity|]. split; [|reflexivity].
  intros i c r Hin. cbn [Go.events] in Hin.
  repeat (apply elem_of_cons in Hin as [Hin|Hin]; [try discriminate Hin|]).
  - injection Hin; intros; by subst.
  - by apply elem_of_nil in Hin.
Qed.

Lemma root_listing_failure_terminates_witness :
  (exists s,
     GoSpec.well_formed Go.repoURL = true /\
     Go.exec Sample.Go.json_Unmarshal
       (Go.dataHandler_start Sample.Go.json_Unmarshal Go.repoURL Go.branch)
       Sample.Go.choices_down = Some s /\
     GoInv.root_listing_fails Go.repoURL Go.branch s /\
     Go.panicked s = None /\ Go.written s = []) /\
  ((TSSpec.fetched 0
      (TS.convertToGiteaApiUrl Go.repoURL "" (default "dev" (Some Go.branch)))
      Sample.TS.net_down 0).1 =
     TS.Threw ("Request failed for "
               +:+ TS.convertToGiteaApiUrl Go.repoURL "" Go.branch
               +:+ ": connect ECONNREFUSED") /\
   TS.resolved_map Sample.TS.JSON_parse 0 Sample.TS.net_down Go.repoURL (Some Go.branch)
     = Some ∅).
Proof.
  split.
  - destruct sample_down_run as (s & Hs & Hf & _).
    destruct (proj1 root_listing_failure_terminates Sample.Go.json_Unmarshal
                Go.repoURL Go.branch Sample.Go.choices_down s eq_refl Hs Hf)
      as (Hp & Hw & _).
    exists s. split_and!; [reflexivity|exact Hs|exact Hf|exact Hp|exact Hw].
  - split; [reflexivity|].
    apply (proj2 root_listing_failure_terminates Sample.TS.JSON_parse 0%nat Go.repoURL
             (Some Go.branch) Sample.TS.net_down
             ("Request failed for " +:+ TS.convertToGiteaApiUrl Go.repoURL "" Go.branch
              +:+ ": connect ECONNREFUSED")).
    reflexivity.
Defined.

(* ===================================================================== *)
(** ** A site is published before its children are visited *)
(* ===================================================================== *)

(** An action a goroutine did before the [k]-th event of the run is an
    earlier event of the run. *)
Lemma action_before i evs k a :
  a ∈ GoInv.actions_of i (take k evs) ->
  exists j, (j < k)%nat /\ evs !! j = Some (Go.EvGoroutine i a).
Proof.
  intros Hin. apply GoReplay.actions_of_elem in Hin.
  apply list_elem_of_lookup in Hin as [j Hj].
  apply lookup_take_Some in Hj as [Hj Hlt]. by exists j.
Qed.

Lemma spawned_is_child g gs t :
  Go.AGo g ∈ GoSpec.spawn_actions gs ++ t -> Go.started t = [] -> g ∈ gs.
Proof.
  intros Hin Ht. apply elem_of_app in Hin as [Hin|Hin].
  - unfold GoSpec.spawn_actions in Hin.
    apply list_elem_of_bind in Hin as (g0 & Hin & Hg0).
    apply elem_of_cons in Hin as [|Hin]; [done|].
    apply list_elem_of_singleton in Hin. by injection Hin as ->.
  - assert (g ∈ Go.started t) as Hs.
    { unfold Go.started. apply list_elem_of_omap. by exists (Go.AGo g). }
    rewrite Ht in Hs. by apply elem_of_nil in Hs.
Qed.

(** [C8] What is published for a site comes before any visit of its
    children, in both programs; but at the root the Go server publishes the
    record of another directory.  For the Go server: in every state of a
    run of [dataHandler], when the goroutine of a directory whose listing
    was that of a site has started a goroutine, that goroutine is one of a
    child directory, and the goroutine of the directory has sent, at an
    earlier step, the one record the Site Processor sends when run on the
    key of the path against the answers the goroutine received: the path
    itself, and [root] for the empty path, where the Site Processor lists
    the directory named [root] and not the root.  At the sample tree the
    branch of the root sends, before it starts the branch of its child, the
    record of the node file of the directory [root], and neither of the two
    node files of its own listing.  For the extractor: the walk over a
    directory whose listing is that of a site runs the Site Processor on
    that directory; when it returns a record, the walk stores it before it
    calls itself on a subdirectory, requests only coming before the store;
    when it has no result, a request never settling, the walk has none and
    has called nothing. *)
Theorem site_published_before_children :
  (forall json_Unmarshal repoURL branch s i path p c url r items k g,
     GoSpec.well_formed repoURL = true ->
     Go.reachable json_Unmarshal repoURL branch s ->
     Go.goroutines s !! i = Some (Go.GoDiscover repoURL path branch, p) ->
     head (GoInv.actions_of i (Go.events s)) = Some (Go.AGet c url r) ->
     GoSpec.listing_of json_Unmarshal
       (Go.fetchURL_returns (GoSpec.apiURL repoURL path branch) r) = (items, None) ->
     Go.isSiteDirectory items = true ->
     Go.events s !! k = Some (Go.EvGoroutine i (Go.AGo g)) ->
     g ∈ GoSpec.children repoURL path branch items /\
     exists j rec,
       (j < k)%nat /\
       Go.events s !! j = Some (Go.EvGoroutine i (Go.ASend rec)) /\
       Go.SitePath rec = GoSpec.path_key path /\
       exists net tp n',
         GoInv.agrees net (GoInv.answers (GoInv.actions_of i (Go.events s))) /\
         Go.run (Go.processSiteDirectory json_Unmarshal repoURL
                   (GoSpec.path_key path) branch) net 1 = (tp, n', Some tt) /\
         Go.sent tp = [rec]) /\
  (forall JSON_parse fuel k repoUrl path branch net n m t0 n1 items,
     TS.run (TS.getGiteaDirectoryListing JSON_parse fuel repoUrl path branch) net n m =
       (t0, n1, m, TS.Returned items) ->
     TS.isSiteDirectory items = TS.Ret true ->
     exists tp n2 res,
       TS.run (TS.processSiteDirectory JSON_parse fuel repoUrl path branch) net n1 m =
         (tp, n2, m, res) /\
       TSSpec.only_requests (t0 ++ tp) /\
       match res with
       | TS.Returned rec =>
           exists post n' m' res',
             TS.run (TS.discoverSitesRecursively_fuel JSON_parse fuel k repoUrl path
                       branch) net n m =
               (t0 ++ tp ++
                TS.ASet (if bool_decide (path ≠ "") then path else "root") rec :: post,
                n', m', res')
       | TS.Threw _ => False
       | TS.GaveUp =>
           TS.run (TS.discoverSitesRecursively_fuel JSON_parse fuel k repoUrl path
                     branch) net n m = (t0 ++ tp, n2, m, TS.GaveUp)
       end) /\
  (exists s,
     Go.exec Sample.Go.json_Unmarshal
       (Go.dataHandler_start Sample.Go.json_Unmarshal Go.repoURL Go.branch)
       Sample.Go.choices = Some s /\
     GoSpec.answered_by Sample.Go.remote (Go.events s) /\
     (fst <$> Go.goroutines s) !! 1%nat = Some (Go.GoDiscover Go.repoURL "" Go.branch) /\
     Go.events s !! 5%nat = Some (Go.EvGoroutine 1 (Go.ASend Sample.Go.inner_record)) /\
     Go.events s !! 8%nat =
       Some (Go.EvGoroutine 1 (Go.AGo (Go.GoDiscover Go.repoURL "root" Go.branch))) /\
     Go.BMNodeFiles Sample.Go.inner_record = ["bm-node-3.yaml"] /\
     Go.Name <$> filter (fun f => Go.isBMNodeFile f = true) Sample.Go.site_listing =
       ["bm-node-1.yaml"; "bm-node-2.yaml"]).
Proof.
  split; [|split].
  - intros json_Unmarshal repoURL branch s i path p c url r items k g
      Hwf Hreach Hg Hhead Hlist Hsite Hk.
    pose proof (GoReplay.replays_reachable json_Unmarshal repoURL branch s Hwf Hreach i)
      as Hrep.
    rewrite Hg in Hrep.
    set (h := GoInv.actions_of i (Go.events s)) in *.
    set (net := GoInv.net_of (GoInv.answers h)).
    assert (Hnet : GoInv.agrees net (GoInv.answers h)) by apply GoReplay.agrees_net_of.
    specialize (Hrep net Hnet).
    assert (Hr : net 0%nat = r).
    { apply Hnet. destruct h as [|a h']; [done|]. by injection Hhead as ->. }
    destruct (GoFacts.run_processSiteDirectory json_Unmarshal repoURL branch Hwf net
                (GoSpec.path_key path) 1) as (tp & n' & Hp & Hstarted & rec & Hsent & Hrec).
    destruct (GoFacts.run_discover_site json_Unmarshal repoURL branch Hwf net path 0 items)
      as (tp' & n'' & Hp' & Hrun); [by rewrite Hr|done|].
    rewrite Hp in Hp'. injection Hp' as <- <-.
    unfold GoInv.trace_of in Hrep. cbn [Go.body] in Hrep. rewrite Hrun in Hrep.
    cbn [fst] in Hrep.
    (* the events before and after the start of [g] *)
    pose proof (take_drop_middle _ _ _ Hk) as Hsplit.
    assert (Hh : h = GoInv.actions_of i (take k (Go.events s)) ++
                     Go.AGo g :: GoInv.actions_of i (drop (S k) (Go.events s))).
    { subst h. rewrite <- Hsplit at 1. unfold GoInv.actions_of.
      rewrite omap_app. cbn. by rewrite bool_decide_eq_true_2. }
    set (h0 := GoInv.actions_of i (take k (Go.events s))) in *.
    assert (Hsend : Go.ASend rec ∈ tp).
    { assert (rec ∈ Go.sent tp) as Hin by (rewrite Hsent; by apply list_elem_of_singleton).
      unfold Go.sent in Hin. apply list_elem_of_omap in Hin as (a & Hin & Ha).
      destruct a; try done. by injection Ha as ->. }
    assert (Hnogo : Go.AGo g ∉ tp).
    { intros Hin. assert (g ∈ Go.started tp) as Hs.
      { unfold Go.started. apply list_elem_of_omap. by exists (Go.AGo g). }
      rewrite Hstarted in Hs. by apply elem_of_nil in Hs. }
    assert (Hpath : Go.SitePath rec = GoSpec.path_key path).
    { revert Hrec.
      destruct (GoSpec.listing_of json_Unmarshal
                  (Go.fetchURL_returns
                     (GoSpec.apiURL repoURL (GoSpec.path_key path) branch)
                     (net 1%nat))) as [its [cause|]]; by intros ->. }
    rewrite Hh, <- app_assoc in Hrep. cbn [app] in Hrep.
    change (?a :: tp ++ ?t) with ((a :: tp) ++ t) in Hrep.
    apply app_eq_app in Hrep as [l [[H1 H2]|[H1 H2]]].
    + (* the start of [g] is no later than the end of the Site Processor *)
      destruct l as [|a l].
      * rewrite app_nil_r in H1. cbn in H2. split.
        -- apply (spawned_is_child g _ [Go.ADone]); [|done]. rewrite <- H2. by left.
        -- destruct (action_before i (Go.events s) k (Go.ASend rec))
             as (j & Hj & Hev); [fold h0; rewrite <- H1; by right|].
           exists j, rec. split_and!; try done. by exists net, tp, n'.
      * injection H2 as <- _. exfalso.
        assert (Go.AGo g ∈ Go.AGet GoSpec.the_client
                  (GoSpec.apiURL repoURL path branch) (net 0%nat) :: tp) as Hin.
        { rewrite H1. apply elem_of_app. right. by left. }
        apply elem_of_cons in Hin as [|Hin]; done.
    + split.
      * apply (spawned_is_child g _ [Go.ADone]); [|done]. rewrite H2.
        apply elem_of_app. right. by left.
      * destruct (action_before i (Go.events s) k (Go.ASend rec))
          as (j & Hj & Hev).
        { fold h0. rewrite H1. apply elem_of_app. left. by right. }
        exists j, rec. split_and!; try done. by exists net, tp, n'.
  - intros JSON_parse fuel k repoUrl path branch net n m t0 n1 items Hl Hsite.
    exact (TSWalk.ts_run_discover_site JSON_parse fuel k repoUrl path branch net n m
             t0 n1 items Hl Hsite).
  - eexists. split; [vm_compute; reflexivity|].
    split_and!; try (vm_compute; reflexivity).
    repeat constructor.
Qed.

(** The sample run: the branch of the root has started the branch of
    [root], at the ninth step. *)
Lemma sample_run_spawn :
  exists s p,
    Go.exec Sample.Go.json_Unmarshal
      (Go.dataHandler_start Sample.Go.json_Unmarshal Go.repoURL Go.branch)
      Sample.Go.choices = Some s /\
    Go.goroutines s !! 1%nat = Some (Go.GoDiscover Go.repoURL "" Go.branch, p) /\
    head (GoInv.actions_of 1 (Go.events s)) =
      Some (Go.AGet GoSpec.the_client (GoSpec.apiURL Go.repoURL "" Go.branch)
              (Sample.Go.ok "LISTING")) /\
    Go.events s !! 8%nat =
      Some (Go.EvGoroutine 1 (Go.AGo (Go.GoDiscover Go.repoURL "root" Go.branch))).
Proof. eexists _, _. split_and!; vm_compute; reflexivity. Qed.


Lemma site_published_before_children_witness :
  (exists s,
     GoSpec.well_formed Go.repoURL = true /\
     Go.reachable Sample.Go.json_Unmarshal Go.repoURL Go.branch s /\
     GoSpec.listing_of Sample.Go.json_Unmarshal
       (Go.fetchURL_returns (GoSpec.apiURL Go.repoURL "" Go.branch)
          (Sample.Go.ok "LISTING")) = (Sample.Go.site_listing, None) /\
     Go.isSiteDirectory Sample.Go.site_listing = true /\
     Go.events s !! 8%nat =
       Some (Go.EvGoroutine 1 (Go.AGo (Go.GoDiscover Go.repoURL "root" Go.branch))) /\
     exists j rec,
       (j < 8)%nat /\
       Go.events s !! j = Some (Go.EvGoroutine 1 (Go.ASend rec)) /\
       Go.SitePath rec = "root") /\
  (TS.isSiteDirectory (Some <$> Sample.TS.site_listing) = TS.Ret true /\
   exists tp n2 post n' m' res',
     TS.run (TS.processSiteDirectory Sample.TS.JSON_parse 1 Go.repoURL "" Go.branch)
            Sample.TS.net_tree 1 ∅ = (tp, n2, ∅, TS.Returned Sample.TS.root_record) /\
     TS.run (TS.discoverSitesRecursively_fuel Sample.TS.JSON_parse 1 1 Go.repoURL ""
               Go.branch) Sample.TS.net_tree 0 ∅ =
       ([TS.AGet TS.Https (TS.convertToGiteaApiUrl Go.repoURL "" Go.branch)
           (Some TS.createInsecureAgent) 15000 (Sample.TS.net_tree 0)]
        ++ tp ++ TS.ASet "root" Sample.TS.root_record :: post, n', m', res')).
Proof.
  split.
  - destruct sample_run_spawn as (s & p & Hs & Hg & Hhead & Hk).
    exists s.
    assert (Hr : Go.reachable Sample.Go.json_Unmarshal Go.repoURL Go.branch s)
      by (by exists Sample.Go.choices).
    destruct (proj1 site_published_before_children Sample.Go.json_Unmarshal Go.repoURL
                Go.branch s 1%nat "" p _ _ _ Sample.Go.site_listing 8%nat _
                eq_refl Hr Hg Hhead eq_refl eq_refl Hk)
      as (_ & j & rec & Hj & Hev & Hpath & _).
    split_and!; [reflexivity|exact Hr|reflexivity|reflexivity|exact Hk|].
    exists j, rec. split_and!; [exact Hj|exact Hev|exact Hpath].
  - split; [reflexivity|].
    destruct (proj1 (proj2 site_published_before_children) Sample.TS.JSON_parse 1%nat 1%nat
                Go.repoURL "" Go.branch Sample.TS.net_tree 0%nat ∅ _ 1%nat
                (Some <$> Sample.TS.site_listing) eq_refl eq_refl)
      as (tp & n2 & res & Hp & _ & Hwalk).
    assert (Hrec : res = TS.Returned Sample.TS.root_record).
    { vm_compute in Hp. by injection Hp as _ _ <-. }
    subst res. destruct Hwalk as (post & n' & m' & res' & Hwalk).
    by exists tp, n2, post, n', m', res'.
Defined.

(* ===================================================================== *)
(** ** The pattern of the node files *)
(* ===================================================================== *)

Module NameFacts.
Import Regex.

Section Star.
Context {R : Type}.
Implicit Types (k : @cont R) (s : text) (cap : option text).

(** Greedy iteration of a class, with backtracking: it succeeds exactly
    when the continuation accepts what follows some run of the class. *)
Lemma star_cls_some m p n s cap k :
  reads_class m p ->
  (length s <= n)%nat ->
  is_Some (star m n s cap k) <->
  exists a b, s = a ++ b /\ Forall (fun c => p c = true) a /\ is_Some (k b cap).
Proof.
  intros Hm. revert s; induction n as [|n IH]; intros s Hn.
  - destruct s; [|simpl in Hn; lia]. cbn [star]. split.
    + intros H. by exists [], [].
    + intros (a & b & Hs & _ & H). symmetry in Hs.
      apply app_eq_nil in Hs as [_ ->]. exact H.
  - cbn [star]. rewrite Hm. destruct s as [|c s].
    { split.
      - intros H. by exists [], [].
      - intros (a & b & Hs & _ & H). symmetry in Hs.
        apply app_eq_nil in Hs as [_ ->]. exact H. }
    cbn [length] in *. destruct (p c) eqn:Ec.
    + destruct (length s <? S (length s))%nat eqn:El;
        [|apply Nat.ltb_ge in El; lia].
      specialize (IH s ltac:(lia)).
      destruct (star m n s cap k) as [x|] eqn:Es.
      * split; [intros _|by eexists].
        destruct (proj1 IH ltac:(by eexists)) as (a & b & -> & Ha & Hk).
        exists (c :: a), b. split_and!; [done|by constructor|done].
      * split.
        -- intros H. by exists [], (c :: s).
        -- intros (a & b & Hs & Ha & Hk). destruct a as [|c' a].
           ++ cbn in Hs. by subst b.
           ++ injection Hs as <- ->. apply Forall_cons in Ha as [_ Ha].
              assert (is_Some (@None R)) as [? ?]; [|done].
              apply IH. by exists a, b.
    + split.
      * intros H. by exists [], (c :: s).
      * intros (a & b & Hs & Ha & Hk). destruct a as [|c' a].
        -- cbn in Hs. by subst b.
        -- injection Hs as <- ->. apply Forall_cons in Ha as [Ha _]. congruence.
Qed.
End Star.

(** The leftmost match exists when an attempt succeeds somewhere. *)
Lemma search_some r s :
  is_Some (search r s) <->
  exists pre post, s = pre ++ post /\ is_Some (match_here r post).
Proof.
  induction s as [|c s IH]; rewrite RegexFacts.search_unfold.
  - destruct (match_here r []) eqn:E.
    + split; [intros _|by eexists]. exists [], []. by rewrite E.
    + split; [by intros [? ?]|].
      intros (pre & post & Hs & H). symmetry in Hs.
      apply app_eq_nil in Hs as [_ ->]. by rewrite E in H.
  - destruct (match_here r (c :: s)) eqn:E.
    + split; [intros _|by eexists]. exists [], (c :: s). by rewrite E.
    + rewrite IH. split.
      * intros (pre & post & -> & H). by exists (c :: pre), post.
      * intros (pre & post & Hs & H). destruct pre as [|c' pre].
        -- cbn in Hs. subst post. rewrite E in H. by destruct H.
        -- injection Hs as <- ->. by exists pre, post.
Qed.

Section NodeFile.
Variable dot : ascii -> bool.

(** An attempt at the start of [s]. *)
Lemma match_here_bmNodeFile s :
  is_Some (match_here (Patterns.bmNodeFile dot) s) <->
  exists mid,
    s = bm_node_prefix ++ mid ++ yaml_suffix /\ mid <> [] /\
    Forall (fun c => dot c = true) mid.
Proof.
  unfold match_here, Patterns.bmNodeFile.
  set (k := fun rest cap => Some (take (length s - length rest)%nat s, cap)).
  change (bt (Seq ?a ?b) s None k) with (bt a s None (fun s1 cap1 => bt b s1 cap1 k)).
  rewrite RegexFacts.bt_lit.
  destruct (strip bm_node_prefix s) as [s1|] eqn:E.
  2:{ split; [by intros [? ?]|]. intros (mid & -> & _).
      by rewrite strip_app in E. }
  apply strip_Some in E as ->.
  change (bt (Seq (Plus (Cls dot)) ?b) s1 None k)
    with (bt (Cls dot) s1 None
            (fun s2 cap2 =>
               star (bt (Cls dot)) (length s2) s2 cap2
                 (fun s3 cap3 => bt b s3 cap3 k))).
  assert (Hend : forall b cap,
            is_Some (bt (Seq (lit yaml_suffix) Eot) b cap k) <-> b = yaml_suffix).
  { intros b cap.
    change (bt (Seq ?x ?y) b cap k) with (bt x b cap (fun s1 cap1 => bt y s1 cap1 k)).
    rewrite RegexFacts.bt_lit.
    destruct (strip yaml_suffix b) as [rest|] eqn:Eb.
    - apply strip_Some in Eb as ->. destruct rest as [|c rest]; cbn [bt].
      + rewrite app_nil_r. split; [done|by eexists].
      + split; [by intros [? ?]|]. intros H.
        apply (f_equal length) in H. rewrite length_app in H. cbn in H. lia.
    - split; [by intros [? ?]|]. intros ->.
      rewrite <- (app_nil_r yaml_suffix), strip_app in Eb. done. }
  set (K := fun s3 cap3 => bt (Seq (lit yaml_suffix) Eot) s3 cap3 k) in *.
  rewrite (RegexFacts.bt_reads_class dot).
  destruct s1 as [|c s2].
  { split; [by intros [? ?]|]. intros (mid & Hs & Hne & _).
    apply app_inv_head in Hs. destruct mid; [done|discriminate Hs]. }
  destruct (dot c) eqn:Ec.
  - rewrite (star_cls_some (bt (Cls dot)) dot);
      [|apply RegexFacts.bt_reads_class|lia].
    split.
    + intros (a & b & -> & Ha & Hb%Hend). subst b.
      exists (c :: a). split_and!; [done|done|by constructor].
    + intros (mid & Hs & Hne & Hmid). apply app_inv_head in Hs.
      destruct mid as [|c' a]; [done|]. injection Hs as <- ->.
      apply Forall_cons in Hmid as [_ Ha].
      exists a, yaml_suffix. split_and!; [done|done|by apply Hend].
  - split; [by intros [? ?]|]. intros (mid & Hs & Hne & Hmid).
    apply app_inv_head in Hs. destruct mid as [|c' a]; [done|].
    injection Hs as <- ->. apply Forall_cons in Hmid as [Hc _]. congruence.
Qed.

Lemma search_bmNodeFile s :
  is_Some (search (Patterns.bmNodeFile dot) s) <-> node_file_name dot s.
Proof.
  rewrite search_some. unfold node_file_name. split.
  - intros (pre & post & -> & (mid & -> & Hne & Hmid)%match_here_bmNodeFile).
    by exists pre, mid.
  - intros (pre & mid & -> & Hne & Hmid).
    exists pre, (bm_node_prefix ++ mid ++ yaml_suffix). split; [done|].
    apply match_here_bmNodeFile. by exists mid.
Qed.
End NodeFile.
End NameFacts.

(** [X1] The pattern of the node files, in both programs: a name is
    accepted exactly when it ends in [.yaml] and holds, before that ending,
    [bm-node-] followed by at least one character, none of these a line
    terminator.  The pattern is not anchored at the start, so anything may
    precede [bm-node-]; nothing may follow [.yaml]. *)
Theorem bmNodeFileRegex_accepts :
  (forall name,
     Go.MatchString Go.bmNodeFileRegex name = true <->
     node_file_name Go.dot (txt name)) /\
  (forall name,
     TS.test TS.bmNodeFileRegex name = true <->
     node_file_name TS.dot (txt name)).
Proof.
  split; intros name.
  - unfold Go.MatchString, Go.bmNodeFileRegex.
    rewrite <- NameFacts.search_bmNodeFile.
    destruct (Regex.search _ _); split; done.
  - unfold TS.test, TS.bmNodeFileRegex.
    rewrite <- NameFacts.search_bmNodeFile.
    destruct (Regex.search _ _); split; done.
Qed.

(* ===================================================================== *)
(** ** The addresses the two programs build *)
(* ===================================================================== *)

Module SplitFacts.

Lemma txt_app a b : txt (a +:+ b) = txt a ++ txt b.
Proof.
  unfold txt. induction a as [|c a IH]; [done|].
  change (String c a +:+ b) with (String c (a +:+ b)).
  cbn [list_ascii_of_string app]. by rewrite IH.
Qed.

Lemma str_app a b : str (a ++ b) = str a +:+ str b.
Proof.
  unfold str. induction a as [|c a IH]; [done|].
  cbn [string_of_list_ascii app]. rewrite IH. done.
Qed.

Lemma split_go_at n c s cur :
  (length s <= n)%nat -> Str.split_go n [c] s cur = split_at c s cur.
Proof.
  revert s cur; induction n as [|n IH]; intros s cur Hn.
  - destruct s; [|simpl in Hn; lia]. cbn. by rewrite app_nil_r.
  - destruct s as [|a s]; [done|]. cbn [Str.split_go split_at strip].
    cbn [length] in Hn. destruct (Ascii.eqb a c); rewrite IH by lia; done.
Qed.

Lemma split_spec s c : Str.split s (String c "") = str <$> split_at c (txt s) [].
Proof. unfold Str.split. by rewrite (split_go_at _ c) by done. Qed.

Lemma split_at_no c s cur : c ∉ s -> split_at c s cur = [rev cur ++ s].
Proof.
  revert cur; induction s as [|a s IH]; intros cur Hc; cbn.
  - by rewrite app_nil_r.
  - destruct (Ascii.eqb_spec a c) as [->|Hne].
    + exfalso. apply Hc. by left.
    + rewrite IH by (intros H; apply Hc; by right). cbn.
      by rewrite <- app_assoc.
Qed.

Lemma split_at_app c x y cur :
  split_at c (x ++ c :: y) cur = split_at c x cur ++ split_at c y [].
Proof.
  revert cur; induction x as [|a x IH]; intros cur; cbn.
  - by rewrite Ascii.eqb_refl.
  - destruct (Ascii.eqb a c); by rewrite IH.
Qed.

Lemma split_at_nonempty c s cur : split_at c s cur <> [].
Proof.
  revert cur; induction s as [|a s IH]; intros cur; cbn; [done|].
  destruct (Ascii.eqb a c); [done|apply IH].
Qed.

(** One piece when the character is absent, two or more otherwise. *)
Lemma split_at_length c s cur :
  (2 <= length (split_at c s cur))%nat <-> c ∈ s.
Proof.
  split.
  - intros H. destruct (decide (c ∈ s)) as [|Hn]; [done|].
    rewrite split_at_no in H by done. cbn in H. lia.
  - intros (x & y & ->)%list_elem_of_split.
    rewrite split_at_app, length_app.
    pose proof (split_at_nonempty c x cur). pose proof (split_at_nonempty c y []).
    destruct (split_at c x cur), (split_at c y []); cbn; try done. lia.
Qed.

Lemma join_cons p rest sep :
  rest <> [] -> Str.join (p :: rest) sep = p +:+ sep +:+ Str.join rest sep.
Proof. by destruct rest. Qed.

Lemma txt_inj a b : txt a = txt b -> a = b.
Proof. intros H. by rewrite <- (str_txt a), <- (str_txt b), H. Qed.

Lemma append_assoc (a b c : string) : (a +:+ b) +:+ c = a +:+ (b +:+ c).
Proof. apply txt_inj. by rewrite !txt_app, app_assoc. Qed.

Lemma append_nil_r (a : string) : a +:+ "" = a.
Proof. apply txt_inj. by rewrite txt_app, app_nil_r. Qed.

Lemma join_app l1 l2 sep :
  l1 <> [] -> l2 <> [] ->
  Str.join (l1 ++ l2) sep = Str.join l1 sep +:+ sep +:+ Str.join l2 sep.
Proof.
  intros H1 H2. induction l1 as [|p l1 IH]; [done|].
  destruct l1 as [|q l1].
  - cbn [app]. by rewrite join_cons.
  - change ((p :: q :: l1) ++ l2) with (p :: ((q :: l1) ++ l2)).
    rewrite !join_cons by done. rewrite IH by done.
    by rewrite !append_assoc.
Qed.

(** Joining the pieces gives the text back. *)
Lemma join_split_at c s cur :
  Str.join (str <$> split_at c s cur) (String c "") = str (rev cur ++ s).
Proof.
  revert cur; induction s as [|a s IH]; intros cur; cbn [split_at].
  - cbn. by rewrite app_nil_r.
  - destruct (Ascii.eqb_spec a c) as [->|Hne].
    + rewrite fmap_cons, join_cons.
      2:{ intros H. apply fmap_nil_inv in H. by apply split_at_nonempty in H. }
      rewrite IH. cbn [rev app]. by rewrite str_app.
    + rewrite IH. cbn [rev]. by rewrite <- app_assoc.
Qed.

Lemma join_split s c : Str.join (Str.split s (String c "")) (String c "") = s.
Proof. rewrite split_spec, join_split_at. cbn. apply str_txt. Qed.

(** Trailing characters of the set are removed, down to the last
    character outside it. *)
Lemma trim_right_run p (y : text) d (run : text) :
  p d = false -> Forall (fun c => p c = true) run ->
  Str.trim_right p (y ++ d :: run) = y ++ [d].
Proof.
  intros Hd Hrun. unfold Str.trim_right.
  change (y ++ d :: run) with (y ++ [d] ++ run).
  rewrite !rev_app_distr. rewrite <- app_assoc.
  rewrite drop_while_app by (by apply Forall_rev).
  cbn. rewrite Hd. cbn. by rewrite rev_involutive.
Qed.

Lemma trim_right_all p (run : text) :
  Forall (fun c => p c = true) run -> Str.trim_right p run = [].
Proof.
  intros Hrun. unfold Str.trim_right.
  rewrite <- (app_nil_r (rev run)), drop_while_app by (by apply Forall_rev). done.
Qed.

Lemma last_char (s : text) : s <> [] -> exists y d, s = y ++ [d].
Proof.
  intros H. destruct (rev s) as [|d r] eqn:E.
  - apply (f_equal (@rev _)) in E. rewrite rev_involutive in E. done.
  - exists (rev r), d. apply (f_equal (@rev _)) in E.
    by rewrite rev_involutive in E.
Qed.
End SplitFacts.

Module UrlFacts.
Import SplitFacts.

Lemma txt_slashes k : txt (slashes k) = repeat slash k.
Proof. apply txt_str. Qed.

Lemma not_slash d : d <> slash -> bool_decide (d ∈ txt "/") = false.
Proof.
  intros Hd. apply bool_decide_eq_false_2. intros H.
  apply list_elem_of_singleton in H. done.
Qed.

Section ThreeParts.
Variables base owner repo : string.
Hypothesis Howner : slash ∉ txt owner.
Hypothesis Hrepo : slash ∉ txt repo.
Hypothesis Hne : repo <> "".

(** The address without its trailing slashes, as a text. *)
Local Abbreviation address := (txt base ++ slash :: txt owner ++ slash :: txt repo).

Lemma txt_address :
  txt (base +:+ "/" +:+ owner +:+ "/" +:+ repo) = address.
Proof. by rewrite !txt_app. Qed.

Lemma address_last : exists y d, address = y ++ [d] /\ d <> slash.
Proof.
  destruct (last_char (txt repo)) as (y & d & Hy).
  { intros H. apply Hne. apply txt_inj. by rewrite H. }
  exists (txt base ++ slash :: txt owner ++ slash :: y), d. split.
  - rewrite Hy. repeat (rewrite <- app_assoc; cbn [app]). done.
  - intros ->. apply Hrepo. rewrite Hy. apply elem_of_app. right. by left.
Qed.

Lemma TrimRight_address k :
  Go.TrimRight (base +:+ "/" +:+ owner +:+ "/" +:+ repo +:+ slashes k) "/" =
  base +:+ "/" +:+ owner +:+ "/" +:+ repo.
Proof.
  unfold Go.TrimRight. apply txt_inj. rewrite txt_str, txt_address.
  rewrite !txt_app, txt_slashes.
  change (txt base ++ txt "/" ++ txt owner ++ txt "/" ++ txt repo ++ repeat slash k)
    with (txt base ++ slash :: txt owner ++ slash :: (txt repo ++ repeat slash k)).
  destruct address_last as (y & d & Hy & Hd).
  replace (txt base ++ slash :: txt owner ++ slash :: txt repo ++ repeat slash k)
    with (y ++ d :: repeat slash k).
  2:{ change (y ++ d :: repeat slash k) with (y ++ [d] ++ repeat slash k).
      rewrite app_assoc, <- Hy. repeat (rewrite <- app_assoc; cbn [app]). done. }
  rewrite trim_right_run; [done|by apply not_slash|].
  apply Forall_forall. intros c Hc%list_elem_of_In%repeat_spec. by subst c.
Qed.

Lemma split_address :
  Str.split (base +:+ "/" +:+ owner +:+ "/" +:+ repo) "/" =
  Str.split base "/" ++ [owner; repo].
Proof.
  rewrite !(split_spec _ slash), txt_address.
  rewrite split_at_app.
  rewrite split_at_app.
  rewrite (split_at_no slash (txt owner)), (split_at_no slash (txt repo)) by done.
  cbn [rev app].
  rewrite !fmap_app. cbn. by rewrite !str_txt.
Qed.

Lemma split_base_nonempty : Str.split base "/" <> [].
Proof.
  rewrite (split_spec _ slash). intros H%fmap_nil_inv.
  by apply split_at_nonempty in H.
Qed.
End ThreeParts.
End UrlFacts.

(** [X2] The addresses of the Go server, in closed form.  For a repository
    address [base/owner/repo], followed by any number of slashes, where
    [owner] and [repo] hold no slash and [repo] is not empty,
    [convertToGiteaAPIURL] returns
    [base/api/v1/repos/owner/repo/contents[/path]?ref=branch], the path
    segment being left out for the empty path, and [constructRawURL] returns
    [base/owner/repo/raw/branch/<branch>/<filePath>]; neither panics. *)
Theorem go_addresses_closed_form :
  forall base owner repo k path filePath branch,
    slash ∉ txt owner -> slash ∉ txt repo -> repo <> "" ->
    Go.convertToGiteaAPIURL
      (base +:+ "/" +:+ owner +:+ "/" +:+ repo +:+ slashes k) path branch =
      Go.Ret (base +:+ "/api/v1/repos/" +:+ owner +:+ "/" +:+ repo +:+ "/contents"
              +:+ (if bool_decide (path ≠ "") then "/" +:+ path else "")
              +:+ "?ref=" +:+ branch) /\
    Go.constructRawURL
      (base +:+ "/" +:+ owner +:+ "/" +:+ repo +:+ slashes k) filePath branch =
      Go.Ret (base +:+ "/" +:+ owner +:+ "/" +:+ repo +:+ "/raw/branch/"
              +:+ branch +:+ "/" +:+ filePath).
Proof.
  intros base owner repo k path filePath branch Ho Hr Hne.
  unfold Go.convertToGiteaAPIURL, Go.constructRawURL, Go.Split, Go.Join.
  rewrite (UrlFacts.TrimRight_address base owner repo Hr Hne k).
  rewrite (UrlFacts.split_address base owner repo Ho Hr).
  pose proof (SplitFacts.join_split base slash) as Hjoin.
  change (String slash "") with "/" in Hjoin.
  set (parts := Str.split base "/") in *.
  assert (Hlen : Go.len (parts ++ [owner; repo]) - 2 = Z.of_nat (length parts)).
  { unfold Go.len. rewrite length_app. cbn [length]. lia. }
  assert (Hlen1 : Go.len (parts ++ [owner; repo]) - 1 = Z.of_nat (S (length parts))).
  { unfold Go.len. rewrite length_app. cbn [length]. lia. }
  rewrite Hlen, Hlen1.
  assert (Hslice : Go.slice_to (parts ++ [owner; repo]) (Z.of_nat (length parts)) =
                   Go.Ret parts).
  { unfold Go.slice_to, Go.len. rewrite length_app. cbn [length].
    rewrite Nat2Z.id, take_app_length.
    destruct (_ && _) eqn:E; [done|].
    apply andb_false_iff in E as [E%Z.leb_gt|E%Z.leb_gt]; lia. }
  assert (Howner : Go.index (parts ++ [owner; repo]) (Z.of_nat (length parts)) =
                   Go.Ret owner).
  { unfold Go.index, Go.len. rewrite length_app. cbn [length].
    rewrite Nat2Z.id, app_nth2, Nat.sub_diag by lia.
    destruct (_ && _) eqn:E; [done|].
    apply andb_false_iff in E as [E%Z.leb_gt|E%Z.ltb_ge]; lia. }
  assert (Hrepo : Go.index (parts ++ [owner; repo]) (Z.of_nat (S (length parts))) =
                  Go.Ret repo).
  { unfold Go.index, Go.len. rewrite length_app. cbn [length].
    rewrite Nat2Z.id, app_nth2 by lia.
    replace (S (length parts) - length parts)%nat with 1%nat by lia.
    destruct (_ && _) eqn:E; [done|].
    apply andb_false_iff in E as [E%Z.leb_gt|E%Z.ltb_ge]; lia. }
  rewrite Hslice, Howner, Hrepo. cbn [Go.bind]. by rewrite Hjoin.
Qed.

Lemma go_addresses_closed_form_witness :
  Go.convertToGiteaAPIURL "https://host/indradhanus/sites//" "site1" "prod" =
    Go.Ret "https://host/api/v1/repos/indradhanus/sites/contents/site1?ref=prod" /\
  Go.constructRawURL "https://host/indradhanus/sites//" "site1/bm-node-1.yaml" "prod" =
    Go.Ret "https://host/indradhanus/sites/raw/branch/prod/site1/bm-node-1.yaml".
Proof.
  apply (go_addresses_closed_form "https://host" "indradhanus" "sites" 2 "site1"
           "site1/bm-node-1.yaml" "prod"); [compute_done|compute_done|done].
Defined.

Lemma well_formed_slash repoURL :
  GoSpec.well_formed repoURL = true <-> slash ∈ txt (Go.TrimRight repoURL "/").
Proof.
  unfold GoSpec.well_formed, Go.Split, Go.len.
  rewrite (SplitFacts.split_spec _ slash), length_fmap.
  rewrite <- (SplitFacts.split_at_length slash _ []). rewrite Z.leb_le. lia.
Qed.

(** [X3] The address builders of the Go server need an owner and a name:
    they return when the repository address, its trailing slashes removed,
    holds a slash, and panic (a slice bound or an index out of range) when it
    holds none, as for the empty address or one made of slashes only. *)
Theorem go_addresses_need_a_slash :
  forall repoURL path filePath branch,
    (slash ∈ txt (Go.TrimRight repoURL "/") ->
     (exists u, Go.convertToGiteaAPIURL repoURL path branch = Go.Ret u) /\
     (exists u, Go.constructRawURL repoURL filePath branch = Go.Ret u)) /\
    (slash ∉ txt (Go.TrimRight repoURL "/") ->
     (exists msg, Go.convertToGiteaAPIURL repoURL path branch = Go.Panic msg) /\
     (exists msg, Go.constructRawURL repoURL filePath branch = Go.Panic msg)).
Proof.
  intros repoURL path filePath branch. split.
  - intros Hwf%well_formed_slash. split; eexists.
    + by apply GoFacts.convertToGiteaAPIURL_returns.
    + by apply GoFacts.constructRawURL_returns.
  - intros Hno.
    unfold Go.convertToGiteaAPIURL, Go.constructRawURL, Go.Split.
    rewrite (SplitFacts.split_spec _ slash), SplitFacts.split_at_no by done.
    cbn. split; by eexists.
Qed.

Lemma go_addresses_need_a_slash_witness :
  (exists u, Go.convertToGiteaAPIURL "owner/repo" "" "prod" = Go.Ret u) /\
  (exists msg, Go.constructRawURL "///" "x" "prod" = Go.Panic msg).
Proof.
  split.
  - apply (proj1 (go_addresses_need_a_slash "owner/repo" "" "x" "prod")).
    compute_done.
  - apply (proj2 (go_addresses_need_a_slash "///" "" "x" "prod")).
    compute_done.
Defined.

Module TSUrlFacts.
Import SplitFacts.

Lemma replace_trailing_slash_one s :
  TS.replace_trailing_slash (s +:+ "/") = s.
Proof.
  unfold TS.replace_trailing_slash. rewrite txt_app, rev_app_distr. cbn.
  by rewrite rev_involutive, str_txt.
Qed.

Lemma replace_trailing_slash_none y d :
  d <> slash -> TS.replace_trailing_slash (str (y ++ [d])) = str (y ++ [d]).
Proof.
  intros Hd. unfold TS.replace_trailing_slash.
  rewrite txt_str, rev_app_distr. cbn.
  destruct (Ascii.eqb_spec d "/"); [done|done].
Qed.

Section ThreeParts.
Variables base owner repo : string.
Hypothesis Howner : slash ∉ txt owner.
Hypothesis Hrepo : slash ∉ txt repo.
Hypothesis Hne : repo <> "".

Lemma replace_trailing_slash_address tail :
  tail = "" \/ tail = "/" ->
  TS.replace_trailing_slash (base +:+ "/" +:+ owner +:+ "/" +:+ repo +:+ tail) =
  base +:+ "/" +:+ owner +:+ "/" +:+ repo.
Proof.
  intros [-> | ->].
  - rewrite append_nil_r.
    destruct (UrlFacts.address_last base owner repo Hrepo Hne) as (y & d & Hy & Hd).
    rewrite <- (UrlFacts.txt_address base owner repo) in Hy.
    rewrite <- (str_txt (base +:+ "/" +:+ owner +:+ "/" +:+ repo)), Hy.
    by apply replace_trailing_slash_none.
  - replace (base +:+ "/" +:+ owner +:+ "/" +:+ repo +:+ "/")
      with ((base +:+ "/" +:+ owner +:+ "/" +:+ repo) +:+ "/")
      by (by rewrite !append_assoc).
    apply replace_trailing_slash_one.
Qed.

Lemma parts_address (parts := Str.split base "/") :
  TS.slice_0_minus2 (parts ++ [owner; repo]) = parts /\
  TS.from_end (parts ++ [owner; repo]) 2 = Some owner /\
  TS.from_end (parts ++ [owner; repo]) 1 = Some repo.
Proof.
  unfold TS.slice_0_minus2, TS.from_end. rewrite length_app. cbn [length].
  replace (length parts + 2 - 2)%nat with (length parts) by lia.
  replace (length parts + 2 - 1)%nat with (S (length parts)) by lia.
  rewrite take_app_length.
  destruct (2 <=? length parts + 2)%nat eqn:E2; [|apply Nat.leb_gt in E2; lia].
  destruct (1 <=? length parts + 2)%nat eqn:E1; [|apply Nat.leb_gt in E1; lia].
  split_and!; [done| |].
  - rewrite lookup_app_r by lia. by rewrite Nat.sub_diag.
  - rewrite lookup_app_r by lia.
    by replace (S (length parts) - length parts)%nat with 1%nat by lia.
Qed.
End ThreeParts.
End TSUrlFacts.

(** [X4] The addresses of the extractor, in closed form.  For a repository
    address [base/owner/repo], followed by one slash at most, where [owner]
    and [repo] hold no slash and [repo] is not empty, [convertToGiteaApiUrl]
    and [constructRawUrl] build the addresses the Go server builds:
    [base/api/v1/repos/owner/repo/contents[/path]?ref=branch] and
    [base/owner/repo/raw/branch/<branch>/<filePath>]. *)
Theorem ts_addresses_closed_form :
  forall base owner repo tail path filePath branch,
    slash ∉ txt owner -> slash ∉ txt repo -> repo <> "" ->
    tail = "" \/ tail = "/" ->
    TS.convertToGiteaApiUrl
      (base +:+ "/" +:+ owner +:+ "/" +:+ repo +:+ tail) path branch =
      base +:+ "/api/v1/repos/" +:+ owner +:+ "/" +:+ repo +:+ "/contents"
      +:+ (if bool_decide (path ≠ "") then "/" +:+ path else "")
      +:+ "?ref=" +:+ branch /\
    TS.constructRawUrl
      (base +:+ "/" +:+ owner +:+ "/" +:+ repo +:+ tail) filePath branch =
      base +:+ "/" +:+ owner +:+ "/" +:+ repo +:+ "/raw/branch/"
      +:+ branch +:+ "/" +:+ filePath.
Proof.
  intros base owner repo tail path filePath branch Ho Hr Hne Htail.
  unfold TS.convertToGiteaApiUrl, TS.constructRawUrl, TS.split, TS.join.
  rewrite (TSUrlFacts.replace_trailing_slash_address base owner repo Hr Hne tail Htail).
  rewrite (UrlFacts.split_address base owner repo Ho Hr).
  destruct (TSUrlFacts.parts_address base owner repo) as (-> & -> & ->).
  pose proof (SplitFacts.join_split base slash) as Hjoin.
  change (String slash "") with "/" in Hjoin. by rewrite Hjoin.
Qed.

Lemma ts_addresses_closed_form_witness :
  TS.convertToGiteaApiUrl "https://host/indradhanus/sites/" "site1" "prod" =
    "https://host/api/v1/repos/indradhanus/sites/contents/site1?ref=prod" /\
  TS.constructRawUrl "https://host/indradhanus/sites/" "site1/bm-node-1.yaml" "prod" =
    "https://host/indradhanus/sites/raw/branch/prod/site1/bm-node-1.yaml".
Proof.
  apply (ts_addresses_closed_form "https://host" "indradhanus" "sites" "/" "site1"
           "site1/bm-node-1.yaml" "prod");
    [compute_done|compute_done|done|by right].
Defined.

(** [X5] Where the extractor departs from the Go server.  It removes one
    trailing slash only: on [base/owner/repo//] it takes [repo] for the owner
    and the empty string for the name.  And it never fails: on an address
    without a slash it writes [undefined] for the owner. *)
Theorem ts_addresses_edge_cases :
  (forall base owner repo path branch,
     slash ∉ txt owner -> slash ∉ txt repo -> repo <> "" ->
     TS.convertToGiteaApiUrl
       (base +:+ "/" +:+ owner +:+ "/" +:+ repo +:+ "//") path branch =
       (base +:+ "/" +:+ owner) +:+ "/api/v1/repos/" +:+ repo +:+ "/" +:+ ""
       +:+ "/contents" +:+ (if bool_decide (path ≠ "") then "/" +:+ path else "")
       +:+ "?ref=" +:+ branch) /\
  (forall name path branch,
     slash ∉ txt name ->
     TS.convertToGiteaApiUrl name path branch =
       "/api/v1/repos/undefined/" +:+ name +:+ "/contents"
       +:+ (if bool_decide (path ≠ "") then "/" +:+ path else "")
       +:+ "?ref=" +:+ branch).
Proof.
  split.
  - intros base owner repo path branch Ho Hr Hne.
    unfold TS.convertToGiteaApiUrl, TS.split, TS.join.
    replace (base +:+ "/" +:+ owner +:+ "/" +:+ repo +:+ "//")
      with ((base +:+ "/" +:+ owner +:+ "/" +:+ repo +:+ "/") +:+ "/")
      by (by rewrite !SplitFacts.append_assoc).
    rewrite TSUrlFacts.replace_trailing_slash_one.
    replace (base +:+ "/" +:+ owner +:+ "/" +:+ repo +:+ "/")
      with ((base +:+ "/" +:+ owner) +:+ "/" +:+ repo +:+ "/" +:+ "")
      by (by rewrite !SplitFacts.append_assoc).
    rewrite (UrlFacts.split_address (base +:+ "/" +:+ owner) repo "" Hr);
      [|by intros H%elem_of_nil].
    assert (Hsplit : Str.split (base +:+ "/" +:+ owner) "/" =
                     Str.split base "/" ++ [owner]).
    { rewrite !(SplitFacts.split_spec _ slash), !SplitFacts.txt_app.
      change (txt base ++ txt "/" ++ txt owner) with (txt base ++ slash :: txt owner).
      rewrite SplitFacts.split_at_app, (SplitFacts.split_at_no slash (txt owner)) by done.
      rewrite fmap_app. cbn. by rewrite str_txt. }
    destruct (TSUrlFacts.parts_address (base +:+ "/" +:+ owner) repo "")
      as (-> & -> & ->).
    pose proof (SplitFacts.join_split (base +:+ "/" +:+ owner) slash) as Hjoin.
    change (String slash "") with "/" in Hjoin. by rewrite Hjoin.
  - intros name path branch Hno.
    unfold TS.convertToGiteaApiUrl, TS.split, TS.join.
    assert (Hkeep : TS.replace_trailing_slash name = name).
    { unfold TS.replace_trailing_slash. destruct (rev (txt name)) as [|c r] eqn:E; [done|].
      destruct (Ascii.eqb_spec c "/") as [->|]; [|done].
      exfalso. apply Hno. apply (f_equal (@rev _)) in E.
      rewrite rev_involutive in E. rewrite E. cbn. apply elem_of_app. right. by left. }
    rewrite Hkeep, (SplitFacts.split_spec _ slash), SplitFacts.split_at_no by done.
    cbn. by rewrite str_txt.
Qed.

Lemma ts_addresses_edge_cases_witness :
  TS.convertToGiteaApiUrl "https://host/indradhanus/sites//" "" "prod" =
    "https://host/indradhanus/api/v1/repos/sites//contents?ref=prod" /\
  TS.convertToGiteaApiUrl "sites" "" "prod" =
    "/api/v1/repos/undefined/sites/contents?ref=prod".
Proof.
  split.
  - apply (proj1 ts_addresses_edge_cases "https://host" "indradhanus" "sites" "" "prod");
      [compute_done|compute_done|done].
  - apply (proj2 ts_addresses_edge_cases "sites" "" "prod"). compute_done.
Defined.

(* ===================================================================== *)
(** ** What the handler of the Go server writes *)
(* ===================================================================== *)

Module GoStream.
Import Go GoSpec.

Lemma sends_snoc evs e :
  sends (evs ++ [e]) =
  sends evs ++ match e with
               | EvGoroutine i (ASend v) => [(i, v)]
               | _ => []
               end.
Proof.
  unfold sends. rewrite omap_app. f_equal.
  destruct e as [i []| |]; done.
Qed.

Section Run.
Variable json_Unmarshal : string -> option (list GiteaFile).

Lemma delivered_step s c s' :
  delivered s -> step json_Unmarshal s c = Some s' -> delivered s'.
Proof.
  unfold delivered, step. intros Hd. destruct (panicked s); [done|].
  destruct c as [i r|].
  - destruct (goroutines s !! i) as [[g p]|]; [|done].
    destruct p; try done;
      repeat match goal with
      | |- context [if ?b then _ else _] => destruct b
      | |- context [match handler s with _ => _ end] =>
          destruct (handler s) eqn:?
      end; try done; intros [= <-]; cbn [written handler events advance crash
        with_wg with_closed with_handler with_started in_flight] in *;
      rewrite sends_snoc, fmap_app, <- Hd; cbn; by rewrite ?app_nil_r.
  - destruct (handler s) eqn:Eh; [destruct (closed s)|..]; try done;
      intros [= <-]; cbn [written handler events in_flight] in *;
      rewrite sends_snoc, fmap_app, <- Hd; cbn; by rewrite ?app_nil_r.
Qed.

Lemma delivered_exec s cs s' :
  delivered s -> exec json_Unmarshal s cs = Some s' -> delivered s'.
Proof.
  revert s; induction cs as [|c cs IH]; intros s Hd; cbn.
  - by intros [= <-].
  - destruct (step json_Unmarshal s c) as [s1|] eqn:E; [|done].
    apply IH. by eapply delivered_step.
Qed.
End Run.
End GoStream.

(** The sample run, at its end. *)
Lemma sample_run_written :
  exists s,
    Go.exec Sample.Go.json_Unmarshal
      (Go.dataHandler_start Sample.Go.json_Unmarshal Go.repoURL Go.branch)
      Sample.Go.choices = Some s /\
    Go.finished s /\ length (Go.written s) = 2%nat.
Proof.
  eexists. split; [vm_compute; reflexivity|]. split; [|by vm_compute].
  split_and!; try (vm_compute; reflexivity). repeat constructor.
Qed.

(** [X6] The handler of the Go server loses no record, repeats none and
    keeps their order: in every state of a run of [dataHandler] the records
    written to the client, followed by the one received and not written yet,
    are the records the branches have sent over the channel, in the order
    sent; at the end of the run every record sent has been written. *)
Theorem handler_writes_what_was_sent :
  forall json_Unmarshal repoURL branch s,
    Go.reachable json_Unmarshal repoURL branch s ->
    delivered s /\
    (Go.finished s -> Go.written s = (GoSpec.sends (Go.events s)).*2).
Proof.
  intros json_Unmarshal repoURL branch s [cs Hcs].
  assert (Hd : delivered s).
  { eapply GoStream.delivered_exec; [|exact Hcs]. done. }
  split; [exact Hd|].
  intros (_ & _ & Hh & _). unfold delivered in Hd. rewrite Hh in Hd.
  cbn in Hd. by rewrite app_nil_r in Hd.
Qed.

Lemma handler_writes_what_was_sent_witness :
  exists s,
    Go.reachable Sample.Go.json_Unmarshal Go.repoURL Go.branch s /\
    Go.finished s /\
    Go.written s = (GoSpec.sends (Go.events s)).*2 /\
    length (Go.written s) = 2%nat.
Proof.
  destruct sample_run_written as (s & Hs & Hfin & Hlen).
  assert (Hr : Go.reachable Sample.Go.json_Unmarshal Go.repoURL Go.branch s)
    by (by exists Sample.Go.choices).
  exists s. split_and!; [exact Hr|exact Hfin| |exact Hlen].
  exact (proj2 (handler_writes_what_was_sent Sample.Go.json_Unmarshal Go.repoURL
                  Go.branch s Hr) Hfin).
Defined.

(* ===================================================================== *)
(** ** The goroutines of a run and what they may do *)
(* ===================================================================== *)

Module GoCensusFacts.
Import Go GoSpec GoCensus.

Section Obeys.
Variables repoURL branch : string.

Lemma obeys_bind {A B} key (Q : A -> Prop) (Q' : B -> Prop) p (f : A -> Prog B) :
  obeys repoURL branch key Q p ->
  (forall a, Q a -> obeys repoURL branch key Q' (f a)) ->
  obeys repoURL branch key Q' (bind p f).
Proof.
  intros Hp Hf. induction Hp; cbn [bind]; try (constructor; auto); auto.
Qed.

Lemma obeys_slice_to key l n :
  obeys repoURL branch key (fun _ : list string => True) (slice_to l n).
Proof. unfold slice_to. destruct (_ && _); by constructor. Qed.

Lemma obeys_index key l n :
  obeys repoURL branch key (fun _ : string => True) (index l n).
Proof. unfold index. destruct (_ && _); by constructor. Qed.

Lemma obeys_fetchURL key url :
  obeys repoURL branch key (fun _ => True) (fetchURL url).
Proof. unfold fetchURL. apply (obeys_get _ _ _ _ url). intros r. by constructor. Qed.

Lemma obeys_convertToGiteaAPIURL key r path b :
  obeys repoURL branch key (fun _ => True) (convertToGiteaAPIURL r path b).
Proof.
  unfold convertToGiteaAPIURL.
  eapply obeys_bind; [apply obeys_slice_to|]. intros base _.
  eapply obeys_bind; [apply obeys_index|]. intros owner _.
  eapply obeys_bind; [apply obeys_index|]. intros repo _. by constructor.
Qed.

Lemma obeys_constructRawURL key r filePath b :
  obeys repoURL branch key (fun _ => True) (constructRawURL r filePath b).
Proof.
  unfold constructRawURL.
  eapply obeys_bind; [apply obeys_index|]. intros owner _.
  eapply obeys_bind; [apply obeys_index|]. intros repo _.
  eapply obeys_bind; [apply obeys_slice_to|]. intros base _.
  by constructor.
Qed.

Variable json_Unmarshal : string -> option (list GiteaFile).

Lemma obeys_getGiteaDirectoryListing key r path b :
  obeys repoURL branch key (fun _ => True)
    (getGiteaDirectoryListing json_Unmarshal r path b).
Proof.
  unfold getGiteaDirectoryListing.
  eapply obeys_bind; [apply obeys_convertToGiteaAPIURL|]. intros url _.
  eapply obeys_bind; [apply obeys_fetchURL|]. intros [body [err|]] _.
  - by constructor.
  - destruct (json_Unmarshal body); by constructor.
Qed.

(** What the loop of the Site Processor keeps true of the record. *)
Local Abbreviation filled sitePath :=
  (fun si : SiteHostnameInfo =>
     SitePath si = sitePath /\
     (length (Hostnames si) + length (Errors si) = length (BMNodeFiles si))%nat).

Lemma obeys_processSiteDirectory_loop key r sitePath b items si :
  filled sitePath si ->
  obeys repoURL branch key (filled sitePath)
    (processSiteDirectory_loop r sitePath b items si).
Proof.
  revert si; induction items as [|file rest IH]; intros si [Hp Hlen];
    cbn [processSiteDirectory_loop]; [by constructor|].
  destruct (isBMNodeFile file); [|by apply IH].
  eapply obeys_bind; [apply obeys_constructRawURL|]. intros url _.
  eapply obeys_bind; [apply obeys_fetchURL|]. intros [content [err|]] _.
  - apply IH. split; [done|]. cbn. rewrite !length_app. cbn. lia.
  - destruct (matchHostname content); apply IH; (split; [done|]); cbn;
      rewrite !length_app; cbn; lia.
Qed.

Lemma obeys_processSiteDirectory r sitePath b :
  obeys repoURL branch (Some sitePath) (fun _ => True)
    (processSiteDirectory json_Unmarshal r sitePath b).
Proof.
  unfold processSiteDirectory.
  eapply obeys_bind; [apply obeys_getGiteaDirectoryListing|].
  intros [items [err|]] _.
  - constructor; [by right|done|by constructor].
  - eapply obeys_bind; [by apply obeys_processSiteDirectory_loop|].
    intros si [Hp Hlen]. constructor; [by left|by rewrite Hp|by constructor].
Qed.

Lemma obeys_discoverSitesRecursively_loop key currentPath items :
  obeys repoURL branch key (fun _ => True)
    (discoverSitesRecursively_loop repoURL currentPath branch items).
Proof.
  induction items as [|subdir rest IH]; cbn [discoverSitesRecursively_loop];
    [by constructor|].
  destruct (bool_decide (Type_ subdir = "dir")); [|done].
  by repeat constructor.
Qed.

Lemma obeys_discoverSitesRecursively currentPath :
  obeys repoURL branch (Some (path_key currentPath)) (fun _ => True)
    (discoverSitesRecursively json_Unmarshal repoURL currentPath branch).
Proof.
  unfold discoverSitesRecursively, defer.
  apply (obeys_bind _ (fun _ => True)); [|intros; by repeat constructor].
  eapply obeys_bind; [apply obeys_getGiteaDirectoryListing|].
  intros [items [err|]] _; [by repeat constructor|].
  apply (obeys_bind _ (fun _ => True));
    [|intros; apply obeys_discoverSitesRecursively_loop].
  destruct (isSiteDirectory items); [|by constructor].
  apply obeys_processSiteDirectory.
Qed.

Lemma obeys_body g :
  g = GoProducer repoURL branch \/ (exists path, g = GoDiscover repoURL path branch) ->
  obeys repoURL branch (key_of g) (fun _ => True) (body json_Unmarshal g).
Proof.
  intros [->|[path ->]]; cbn [body key_of].
  - unfold producer, defer, extractHostnamesFromGiteaRepository. cbn [bind].
    by repeat constructor.
  - apply obeys_discoverSitesRecursively.
Qed.

(** The first step of a program that obeys. *)
Lemma obeys_head_step key r (p : Prog unit) a k extra :
  obeys repoURL branch key (fun _ => True) p ->
  head_step json_Unmarshal r p = Some (a, k, extra) ->
  obeys repoURL branch key (fun _ => True) k /\
  match a with
  | AGet c _ _ => c = the_client
  | ASend v => record_ok v /\ key = Some (SitePath v)
  | _ => True
  end /\
  (extra = [] \/
   exists path, extra = [(GoDiscover repoURL path branch,
                          body json_Unmarshal (GoDiscover repoURL path branch))]).
Proof.
  intros Hp. destruct Hp; cbn [head_step]; try done; intros [= <- <- <-];
    split_and!; auto. right. by eexists.
Qed.
End Obeys.

Section Run.
Variable json_Unmarshal : string -> option (list GiteaFile).
Variables repoURL branch : string.

Lemma step_head s i r s' g p :
  step json_Unmarshal s (RunGoroutine i r) = Some s' ->
  goroutines s !! i = Some (g, p) ->
  (goroutines s' = goroutines s /\
   exists msg, events s' = events s ++ [EvGoroutine i (APanic msg)]) \/
  (exists a k extra,
     head_step json_Unmarshal r p = Some (a, k, extra) /\
     goroutines s' = <[i := (g, k)]> (goroutines s ++ extra) /\
     events s' = events s ++ [EvGoroutine i a]).
Proof.
  unfold step. destruct (panicked s); [done|]. intros Hs Hg. rewrite Hg in Hs.
  destruct p as [[]|msg|c url k|line k|v k|k|d k|k|k|g' k];
    repeat match type of Hs with
    | context [if ?b then _ else _] => destruct b
    | context [match handler s with _ => _ end] => destruct (handler s)
    end; try done; injection Hs as <-;
    first [left; split; [done|by eexists]
          |right; eexists _, _, _; split; [reflexivity|];
           cbn; rewrite ?app_nil_r; done].
Qed.

Lemma event_ok_mono labels extra e :
  event_ok labels e -> event_ok (labels ++ extra) e.
Proof.
  destruct e as [i []| |]; try done. intros (Hv & g & Hg & Hk).
  split; [done|]. exists g. split; [|done]. by apply lookup_app_l_Some.
Qed.

Lemma census_start :
  census repoURL branch (dataHandler_start json_Unmarshal repoURL branch).
Proof.
  split_and!.
  - by exists [].
  - constructor; [|constructor]. apply obeys_body. by left.
  - constructor.
Qed.

Lemma census_step s c s' :
  census repoURL branch s -> step json_Unmarshal s c = Some s' ->
  census repoURL branch s'.
Proof.
  intros ([paths Hl] & Hob & Hev) Hstep. destruct c as [i r|].
  - destruct (goroutines s !! i) as [[g p]|] eqn:Eg.
    2:{ revert Hstep. unfold step. rewrite Eg. by destruct (panicked s). }
    destruct (step_head _ _ _ _ _ _ Hstep Eg)
      as [[Hgs [msg He]]|(a & k & extra & Hh & Hgs & He)].
    { unfold census. rewrite Hgs, He. split_and!; [by exists paths|done|].
      apply Forall_app. split; [done|]. by repeat constructor. }
    pose proof (Forall_lookup_1 _ _ _ _ Hob Eg) as Hp. cbn in Hp.
    destruct (obeys_head_step _ _ _ _ _ _ _ _ _ Hp Hh) as (Hk & Ha & Hextra).
    assert (Hlabels : (goroutines s').*1 = (goroutines s).*1 ++ extra.*1).
    { rewrite Hgs, list_fmap_insert, fmap_app. apply list_insert_id.
      apply lookup_app_l_Some. by rewrite list_lookup_fmap, Eg. }
    split_and!.
    + rewrite Hlabels, Hl. destruct Hextra as [->|[path ->]].
      * exists paths. by rewrite app_nil_r.
      * exists (paths ++ [path]). by rewrite fmap_app.
    + rewrite Hgs. apply Forall_insert; [|done].
      apply Forall_app. split; [done|].
      destruct Hextra as [->|[path ->]]; [constructor|].
      constructor; [|constructor]. apply obeys_body. right. by eexists.
    + rewrite Hlabels, He. apply Forall_app. split.
      * eapply Forall_impl; [exact Hev|]. intros e. apply event_ok_mono.
      * constructor; [|constructor]. destruct a; try done.
        destruct Ha as [Hv Hkey]. split; [done|]. exists g. split; [|done].
        apply lookup_app_l_Some. by rewrite list_lookup_fmap, Eg.
  - revert Hstep. unfold step. destruct (panicked s); [done|].
    destruct (handler s); [destruct (closed s)|..]; try done;
      intros [= <-]; (split_and!; [by exists paths|done|]);
      cbn [events goroutines]; apply Forall_app; split; try done;
      by repeat constructor.
Qed.

Lemma census_reachable s :
  reachable json_Unmarshal repoURL branch s -> census repoURL branch s.
Proof.
  intros [cs Hcs]. revert Hcs. generalize (census_start).
  generalize (dataHandler_start json_Unmarshal repoURL branch).
  induction cs as [|c cs IH]; intros s0 H0; cbn.
  - by intros [= <-].
  - destruct (step json_Unmarshal s0 c) as [s1|] eqn:E; [|done].
    apply IH. by eapply census_step.
Qed.
End Run.
End GoCensusFacts.

(* ===================================================================== *)
(** ** More on the runs of the Go server *)
(* ===================================================================== *)

(** [X7] The goroutines of a run of [dataHandler]: the first is the
    producer, every other one is a branch of the walk over the repository
    and the branch of the handler.  And every request any of them has made
    went through the client of [fetchURL], which skips the verification of
    certificates, speaks TLS 1.2 only and gives up after 15 seconds. *)
Theorem goroutines_are_branches :
  forall json_Unmarshal repoURL branch s,
    Go.reachable json_Unmarshal repoURL branch s ->
    (exists paths,
       (Go.goroutines s).*1 =
       Go.GoProducer repoURL branch ::
       ((fun path => Go.GoDiscover repoURL path branch) <$> paths)) /\
    (forall i c url r,
       Go.EvGoroutine i (Go.AGet c url r) ∈ Go.events s ->
       c = GoSpec.the_client /\
       Go.InsecureSkipVerify (Go.TLSClientConfig c) = true /\
       Go.Timeout c = 15 * Go.Second).
Proof.
  intros json_Unmarshal repoURL branch s Hr.
  destruct (GoCensusFacts.census_reachable json_Unmarshal repoURL branch s Hr)
    as (Hl & _ & Hev).
  split; [exact Hl|]. intros i c url r Hin.
  rewrite Forall_forall in Hev. specialize (Hev _ Hin). cbn in Hev. by subst c.
Qed.

Lemma goroutines_are_branches_witness :
  exists s,
    Go.reachable Sample.Go.json_Unmarshal Go.repoURL Go.branch s /\
    (Go.goroutines s).*1 =
      Go.GoProducer Go.repoURL Go.branch ::
      ((fun path => Go.GoDiscover Go.repoURL path Go.branch) <$> [""; "root"]).
Proof.
  destruct sample_run_written as (s & Hs & _).
  assert (Hr : Go.reachable Sample.Go.json_Unmarshal Go.repoURL Go.branch s)
    by (by exists Sample.Go.choices).
  exists s. split; [exact Hr|].
  destruct (proj1 (goroutines_are_branches Sample.Go.json_Unmarshal Go.repoURL
                     Go.branch s Hr)) as [paths Hp].
  rewrite Hp. f_equal.
  assert (Hlab : (Go.goroutines s).*1 =
                 [Go.GoProducer Go.repoURL Go.branch;
                  Go.GoDiscover Go.repoURL "" Go.branch;
                  Go.GoDiscover Go.repoURL "root" Go.branch]).
  { revert Hs. vm_compute. by intros [= <-]. }
  rewrite Hp in Hlab. by injection Hlab.
Defined.

(** The sample run has written the record of [root]. *)
Lemma sample_run_record :
  exists s,
    Go.exec Sample.Go.json_Unmarshal
      (Go.dataHandler_start Sample.Go.json_Unmarshal Go.repoURL Go.branch)
      Sample.Go.choices = Some s /\
    Sample.Go.inner_record ∈ Go.written s.
Proof. eexists. split; [vm_compute; reflexivity|]. vm_compute. by left. Qed.

(** [X8] Every record the Go server has written to the client was sent by
    a branch of the walk, carries the path of that branch, [root] for the
    branch of the empty path, so never the empty path, and is well formed:
    one hostname or one error for each matched file, or, for a site whose
    listing failed, one error and nothing else. *)
Theorem written_records_are_well_formed :
  forall json_Unmarshal repoURL branch s v,
    Go.reachable json_Unmarshal repoURL branch s ->
    v ∈ Go.written s ->
    record_ok v /\
    Go.SitePath v <> "" /\
    exists i path,
      Go.EvGoroutine i (Go.ASend v) ∈ Go.events s /\
      (Go.goroutines s).*1 !! i = Some (Go.GoDiscover repoURL path branch) /\
      Go.SitePath v = GoSpec.path_key path.
Proof.
  intros json_Unmarshal repoURL branch s v Hr Hv.
  destruct (GoCensusFacts.census_reachable json_Unmarshal repoURL branch s Hr)
    as ([paths Hl] & _ & Hev).
  assert (Hd : delivered s).
  { destruct Hr as [cs Hcs]. eapply GoStream.delivered_exec; [|exact Hcs]. done. }
  assert (Hin : v ∈ (GoSpec.sends (Go.events s)).*2).
  { rewrite <- Hd. apply elem_of_app. by left. }
  apply list_elem_of_fmap in Hin as ([i v'] & -> & Hin). cbn.
  unfold GoSpec.sends in Hin. apply list_elem_of_omap in Hin as (e & He & Hs).
  destruct e as [j []| |]; try done. injection Hs as -> ->.
  rewrite Forall_forall in Hev. destruct (Hev _ He) as (Hok & g & Hg & Hkey).
  assert (exists path, g = Go.GoDiscover repoURL path branch /\
                       Go.SitePath v' = GoSpec.path_key path) as (path & -> & Hp).
  { rewrite Hl in Hg. destruct i as [|i]; cbn in Hg.
    - injection Hg as <-. done.
    - apply list_lookup_fmap_Some in Hg as (path & -> & _).
      exists path. split; [done|]. cbn in Hkey. by injection Hkey. }
  split_and!; [done| |by exists i, path].
  rewrite Hp. unfold GoSpec.path_key. by destruct (bool_decide_reflect (path = "")).
Qed.

Lemma written_records_are_well_formed_witness :
  exists s,
    Go.reachable Sample.Go.json_Unmarshal Go.repoURL Go.branch s /\
    Sample.Go.inner_record ∈ Go.written s /\
    record_ok Sample.Go.inner_record /\
    Go.SitePath Sample.Go.inner_record <> "".
Proof.
  destruct sample_run_record as (s & Hs & Hin).
  assert (Hr : Go.reachable Sample.Go.json_Unmarshal Go.repoURL Go.branch s)
    by (by exists Sample.Go.choices).
  exists s.
  destruct (written_records_are_well_formed Sample.Go.json_Unmarshal Go.repoURL
              Go.branch s Sample.Go.inner_record Hr Hin) as (Hok & Hne & _).
  split_and!; [exact Hr|exact Hin|exact Hok|exact Hne].
Defined.

(** [X9] A run of [dataHandler] never deadlocks: in every state it can
    reach, either the run is over, with the channel closed, every goroutine
    returned and the handler out of its loop, or some goroutine or the
    handler can take a step; and nothing has panicked. *)
Theorem run_never_deadlocks :
  forall json_Unmarshal repoURL branch s,
    GoSpec.well_formed repoURL = true ->
    Go.reachable json_Unmarshal repoURL branch s ->
    Go.panicked s = None /\
    (Go.finished s \/ exists c s', Go.step json_Unmarshal s c = Some s').
Proof.
  intros json_Unmarshal repoURL branch s Hwf Hr.
  pose proof (GoSys.invariant_reachable json_Unmarshal repoURL branch Hwf s Hr) as Hinv.
  split; [apply Hinv|]. by eapply GoSys.invariant_progress.
Qed.

Lemma run_never_deadlocks_witness :
  exists c s',
    Go.step Sample.Go.json_Unmarshal
      (Go.dataHandler_start Sample.Go.json_Unmarshal Go.repoURL Go.branch) c = Some s'.
Proof.
  destruct (run_never_deadlocks Sample.Go.json_Unmarshal Go.repoURL Go.branch
              (Go.dataHandler_start Sample.Go.json_Unmarshal Go.repoURL Go.branch)
              eq_refl (ex_intro _ [] eq_refl)) as [_ [Hfin|Hstep]].
  - destruct Hfin as (_ & Hc & _). discriminate Hc.
  - exact Hstep.
Defined.

(* ===================================================================== *)
(** ** What one branch of the Go server does *)
(* ===================================================================== *)

Module GoBranch.
Import Go GoSpec GoInv.

Lemma sent_app t1 t2 : sent (t1 ++ t2) = sent t1 ++ sent t2.
Proof. apply omap_app. Qed.

Lemma started_app t1 t2 : started (t1 ++ t2) = started t1 ++ started t2.
Proof. apply omap_app. Qed.

Lemma sent_spawn gs : sent (spawn_actions gs) = [].
Proof. induction gs as [|g gs IH]; [done|]. exact IH. Qed.

Lemma started_spawn gs : started (spawn_actions gs) = gs.
Proof. induction gs as [|g gs IH]; [done|]. cbn. by rewrite <- IH at 2. Qed.

Section Branch.
Variable json_Unmarshal : string -> option (list GiteaFile).
Variables repoURL branch : string.
Hypothesis Hwf : well_formed repoURL = true.

(** A branch run alone: the request of its listing, then at most one
    record, and no goroutine but for the directories of that listing. *)
Lemma trace_discover net path n :
  exists rest,
    trace_of (discoverSitesRecursively json_Unmarshal repoURL path branch) net n =
      AGet the_client (apiURL repoURL path branch) (net n) :: rest /\
    (length (sent rest) <= 1)%nat /\
    forall g, g ∈ started rest ->
      exists items,
        listing_of json_Unmarshal
          (fetchURL_returns (apiURL repoURL path branch) (net n)) = (items, None) /\
        g ∈ children repoURL path branch items.
Proof.
  unfold trace_of.
  destruct (listing_of json_Unmarshal
              (fetchURL_returns (apiURL repoURL path branch) (net n)))
    as [items [cause|]] eqn:El.
  - rewrite (GoFacts.run_discover_failed json_Unmarshal repoURL branch Hwf net
               path n cause) by (by rewrite El).
    eexists. split; [reflexivity|]. split; [cbn; lia|].
    intros g Hg. cbn in Hg. by apply elem_of_nil in Hg.
  - destruct (isSiteDirectory items) eqn:Es.
    + destruct (GoFacts.run_discover_site json_Unmarshal repoURL branch Hwf net
                  path n items El Es) as (tp & n' & Hp & ->).
      destruct (GoFacts.run_processSiteDirectory json_Unmarshal repoURL branch Hwf
                  net (path_key path) (S n))
        as (tp' & n'' & Hp' & Hst & rec & Hsent & _).
      rewrite Hp in Hp'. injection Hp' as <- <-.
      eexists. split; [reflexivity|].
      rewrite !sent_app, !started_app, Hsent, Hst, sent_spawn, started_spawn.
      split; [cbn; lia|]. intros g Hg. exists items. split; [done|].
      cbn in Hg. rewrite app_nil_r in Hg. exact Hg.
    + rewrite (GoFacts.run_discover_plain json_Unmarshal repoURL branch Hwf net
                 path n items El Es).
      eexists. split; [reflexivity|].
      rewrite !sent_app, !started_app, sent_spawn, started_spawn.
      split; [cbn; lia|]. intros g Hg. exists items. split; [done|].
      cbn in Hg. rewrite app_nil_r in Hg. exact Hg.
Qed.
End Branch.
End GoBranch.

(** [X10] One branch of the Go server, in any run of [dataHandler]: it
    has sent one record at most, and every goroutine it has started is the
    branch of a directory of the listing it received for its own path, the
    first answer it got. *)
Theorem branch_sends_once_and_starts_children :
  forall json_Unmarshal repoURL branch s i path p,
    GoSpec.well_formed repoURL = true ->
    Go.reachable json_Unmarshal repoURL branch s ->
    Go.goroutines s !! i = Some (Go.GoDiscover repoURL path branch, p) ->
    (length (Go.sent (GoInv.actions_of i (Go.events s))) <= 1)%nat /\
    forall g,
      g ∈ Go.started (GoInv.actions_of i (Go.events s)) ->
      exists c url r items,
        head (GoInv.actions_of i (Go.events s)) = Some (Go.AGet c url r) /\
        GoSpec.listing_of json_Unmarshal
          (Go.fetchURL_returns (GoSpec.apiURL repoURL path branch) r) = (items, None) /\
        g ∈ GoSpec.children repoURL path branch items.
Proof.
  intros json_Unmarshal repoURL branch s i path p Hwf Hreach Hg.
  pose proof (GoReplay.replays_reachable json_Unmarshal repoURL branch s Hwf Hreach i)
    as Hrep.
  rewrite Hg in Hrep.
  set (h := GoInv.actions_of i (Go.events s)) in *.
  set (net := GoInv.net_of (GoInv.answers h)).
  assert (Hnet : GoInv.agrees net (GoInv.answers h)) by apply GoReplay.agrees_net_of.
  specialize (Hrep net Hnet). cbn [Go.body] in Hrep.
  destruct (GoBranch.trace_discover json_Unmarshal repoURL branch Hwf net path 0)
    as (rest & Htr & Hone & Hch).
  rewrite Htr in Hrep.
  destruct h as [|a h'] eqn:Eh.
  { split; [cbn; lia|]. intros g Hin. cbn in Hin. by apply elem_of_nil in Hin. }
  injection Hrep as Ha Hrest.
  destruct a as [c url r| | | | | | | |]; try discriminate Ha.
  assert (Hr : net 0%nat = r) by congruence.
  split.
  - change (Go.sent (Go.AGet c url r :: h')) with (Go.sent h').
    rewrite Hrest, GoBranch.sent_app, length_app in Hone. lia.
  - intros g Hin. change (Go.started (Go.AGet c url r :: h')) with (Go.started h') in Hin.
    destruct (Hch g) as (items & Hl & Hc).
    { rewrite Hrest, GoBranch.started_app. apply elem_of_app. by left. }
    exists c, url, r, items. split; [done|]. split; [|done]. by rewrite <- Hr.
Qed.

Lemma branch_sends_once_and_starts_children_witness :
  exists s p,
    GoSpec.well_formed Go.repoURL = true /\
    Go.reachable Sample.Go.json_Unmarshal Go.repoURL Go.branch s /\
    Go.goroutines s !! 1%nat = Some (Go.GoDiscover Go.repoURL "" Go.branch, p) /\
    (length (Go.sent (GoInv.actions_of 1 (Go.events s))) <= 1)%nat.
Proof.
  destruct sample_run_spawn as (s & p & Hs & Hg & _).
  assert (Hr : Go.reachable Sample.Go.json_Unmarshal Go.repoURL Go.branch s)
    by (by exists Sample.Go.choices).
  exists s, p. split_and!; [reflexivity|exact Hr|exact Hg|].
  exact (proj1 (branch_sends_once_and_starts_children Sample.Go.json_Unmarshal
                  Go.repoURL Go.branch s 1%nat "" p eq_refl Hr Hg)).
Defined.

Lemma requested_spawn gs : Go.requested (GoSpec.spawn_actions gs) = [].
Proof. induction gs as [|g gs IH]; [done|]. exact IH. Qed.

(** [X11] The record the Go server gives to the root of the tree is that
    of the directory named [root].  When the listing of the root shows a
    node file, the branch of the root runs the Site Processor on the path
    [root]: it requests the listing of [root] and the node files of that
    listing, under [root/], and sends the record assembled from them; the
    node files of the root's own listing are not requested. *)
Theorem root_site_is_read_from_root_directory :
  forall json_Unmarshal repoURL branch net n items inner,
    GoSpec.well_formed repoURL = true ->
    GoSpec.listing_of json_Unmarshal
      (Go.fetchURL_returns (GoSpec.apiURL repoURL "" branch) (net n)) = (items, None) ->
    Go.isSiteDirectory items = true ->
    GoSpec.listing_of json_Unmarshal
      (Go.fetchURL_returns (GoSpec.apiURL repoURL "root" branch) (net (S n))) =
      (inner, None) ->
    let t := GoInv.trace_of
               (Go.discoverSitesRecursively json_Unmarshal repoURL "" branch) net n in
    let matched := filter (fun f => Go.isBMNodeFile f = true) inner in
    Go.requested t =
      GoSpec.apiURL repoURL "" branch ::
      GoSpec.apiURL repoURL "root" branch ::
      ((fun f => GoSpec.rawURL repoURL ("root" +:+ "/" +:+ Go.Name f) branch)
         <$> matched) /\
    Go.sent t =
      [GoSpec.site_record "root" matched
         (GoSpec.file_outcomes repoURL "root" branch net (S (S n)) matched)].
Proof.
  intros json_Unmarshal repoURL branch net n items inner Hwf Hl Hsite Hinner t matched.
  subst t. unfold GoInv.trace_of.
  destruct (GoFacts.run_discover_site json_Unmarshal repoURL branch Hwf net "" n items
              Hl Hsite) as (tp & n' & Hp & ->).
  change (GoSpec.path_key "") with "root" in Hp.
  destruct (GoFacts.run_processSiteDirectory_listed json_Unmarshal repoURL "root" branch
              Hwf net (S n)
              [Go.AGet GoSpec.the_client (GoSpec.apiURL repoURL "root" branch)
                 (net (S n))] inner) as (tp' & Hp' & Hsent & _ & Hreq).
  { rewrite GoFacts.run_getGiteaDirectoryListing by done. by rewrite Hinner. }
  rewrite Hp in Hp'. injection Hp' as <- _.
  cbn [fst]. unfold Go.requested, Go.sent in *.
  rewrite !omap_app. fold (Go.requested tp) (Go.sent tp).
  fold (Go.requested (GoSpec.spawn_actions (GoSpec.children repoURL "" branch items))).
  fold (Go.sent (GoSpec.spawn_actions (GoSpec.children repoURL "" branch items))).
  rewrite requested_spawn, GoBranch.sent_spawn.
  unfold Go.requested, Go.sent in *. rewrite Hreq, Hsent. cbn.
  by rewrite !app_nil_r.
Qed.

Lemma root_site_is_read_from_root_directory_witness :
  Go.requested
    (GoInv.trace_of
       (Go.discoverSitesRecursively Sample.Go.json_Unmarshal Go.repoURL "" Go.branch)
       MoreSamples.go_net_root 0) =
    [GoSpec.apiURL Go.repoURL "" Go.branch;
     GoSpec.apiURL Go.repoURL "root" Go.branch;
     GoSpec.rawURL Go.repoURL "root/bm-node-3.yaml" Go.branch].
Proof.
  exact (proj1 (root_site_is_read_from_root_directory Sample.Go.json_Unmarshal
                  Go.repoURL Go.branch MoreSamples.go_net_root 0%nat Sample.Go.site_listing
                  Sample.Go.inner_listing eq_refl eq_refl eq_refl eq_refl)).
Defined.

(* ===================================================================== *)
(** ** More on the walk of the extractor *)
(* ===================================================================== *)

Module TSCensusFacts.
Import TS TSSpec TSCensus.

(** *** Nothing is thrown past the walk *)

Lemma never_throws_try_catch {A} (p : Prog A) h :
  (forall e, never_throws (h e)) -> never_throws (try_catch p h).
Proof.
  intros Hh. induction p as [a|e| |c url ag to k IH|key v k IH|path k IH];
    cbn [try_catch]; try constructor; auto.
Qed.

Lemma never_throws_run {A} (p : Prog A) net n m e :
  never_throws p -> (run p net n m).2 <> Threw e.
Proof.
  intros Hp. revert n m. induction Hp as [a| |c url ag t k _ IH|key v k _ IH|path k _ IH];
    intros n m; cbn [run]; try done.
  - specialize (IH (net n) (S n) m).
    by destruct (run (k (net n)) net (S n) m) as [[[tr n'] m'] r].
  - specialize (IH n (<[key:=v]> m)).
    by destruct (run k net n (<[key:=v]> m)) as [[[tr n'] m'] r].
  - specialize (IH n m). by destruct (run k net n m) as [[[tr n'] m'] r].
Qed.

Section Walk.
Variable JSON_parse : string -> option JSValue.
Variable fuel : nat.

Lemma never_throws_getGiteaDirectoryListing repoUrl path branch :
  never_throws (getGiteaDirectoryListing JSON_parse fuel repoUrl path branch).
Proof. apply never_throws_try_catch. intros; constructor. Qed.

Lemma never_throws_processSiteDirectory repoUrl sitePath branch :
  never_throws (processSiteDirectory JSON_parse fuel repoUrl sitePath branch).
Proof. apply never_throws_try_catch. intros; constructor. Qed.

Lemma never_throws_discoverSitesRecursively k repoUrl path branch :
  never_throws (discoverSitesRecursively_fuel JSON_parse fuel k repoUrl path branch).
Proof. destruct k; apply never_throws_try_catch; intros; constructor. Qed.
End Walk.
(** *** What is stored in the site map *)

Lemma ts_obeys_bind {A B} (Q : A -> Prop) (Q' : B -> Prop) p (f : A -> Prog B) :
  obeys Q p -> (forall a, Q a -> obeys Q' (f a)) -> obeys Q' (bind p f).
Proof. intros Hp Hf. induction Hp; cbn [bind]; try constructor; auto. Qed.

Lemma obeys_try_catch {A} (Q : A -> Prop) p h :
  obeys Q p -> (forall e, obeys Q (h e)) -> obeys Q (try_catch p h).
Proof. intros Hp Hh. induction Hp; cbn [try_catch]; try constructor; auto. Qed.

Lemma obeys_run {A} (Q : A -> Prop) (p : Prog A) net n m :
  obeys Q p ->
  Forall (fun kv => stored_ok kv.1 kv.2) (sets (run p net n m).1.1.1) /\
  (run p net n m).1.2 = apply_sets m (sets (run p net n m).1.1.1).
Proof.
  intros Hp. revert n m.
  induction Hp as [a Ha|e| |c url ag t k _ IH|key v k Hok _ IH|path k _ IH];
    intros n m; cbn [run]; try (split; [constructor|done]).
  - specialize (IH (net n) (S n) m).
    destruct (run (k (net n)) net (S n) m) as [[[tr n'] m'] r]. exact IH.
  - specialize (IH n (<[key:=v]> m)).
    destruct (run k net n (<[key:=v]> m)) as [[[tr n'] m'] r]. cbn in *.
    destruct IH as [IH1 IH2]. split; [by constructor|done].
  - specialize (IH n m). destruct (run k net n m) as [[[tr n'] m'] r]. exact IH.
Qed.

Lemma apply_sets_ok m kvs key rec :
  (forall k v, m !! k = Some v -> stored_ok k v) ->
  Forall (fun kv => stored_ok kv.1 kv.2) kvs ->
  apply_sets m kvs !! key = Some rec -> stored_ok key rec.
Proof.
  intros Hm Hall. revert m Hm. induction Hall as [|[k v] kvs Hkv _ IH]; intros m Hm.
  - apply Hm.
  - cbn. apply IH. intros k' v' Hl.
    destruct (decide (k = k')) as [<-|Hne].
    + rewrite lookup_insert_eq in Hl. by injection Hl as <-.
    + rewrite lookup_insert_ne in Hl by done. by apply Hm.
Qed.

Section Stores.
Variable JSON_parse : string -> option JSValue.
Variable fuel : nat.

Lemma obeys_fetchUrl_fuel k url : obeys (fun _ => True) (fetchUrl_fuel k url).
Proof.
  revert url; induction k as [|k IH]; intros url; cbn [fetchUrl_fuel];
    constructor; intros [code msg loc data| |msg| |msg]; try by constructor.
  - destruct (_ && _); [constructor|]. by destruct (negb _); constructor.
  - destruct (_ && _); [apply IH|]. by destruct (negb _); constructor.
Qed.

Lemma ts_obeys_getGiteaDirectoryListing repoUrl path branch :
  obeys (fun _ => True)
    (getGiteaDirectoryListing JSON_parse fuel repoUrl path branch).
Proof.
  apply obeys_try_catch; [|intros; by constructor].
  eapply ts_obeys_bind; [apply obeys_fetchUrl_fuel|]. intros response _.
  destruct (JSON_parse response) as [[items|]|]; by constructor.
Qed.

Lemma obeys_some test items : obeys (fun _ => True) (some test items).
Proof.
  induction items as [|[item|] rest IH]; cbn [some]; try by constructor.
  destruct (test item); [by constructor|done].
Qed.

Lemma obeys_filter test items : obeys (fun _ => True) (filter_ test items).
Proof.
  induction items as [|[item|] rest IH]; cbn [filter_]; try by constructor.
  eapply ts_obeys_bind; [exact IH|]. intros; by constructor.
Qed.

Lemma obeys_mono {A} (Q Q' : A -> Prop) p :
  (forall a, Q a -> Q' a) -> obeys Q p -> obeys Q' p.
Proof. intros HQ Hp. induction Hp; constructor; auto. Qed.

(** The record while the loop fills it, and the record returned. *)
Local Abbreviation counted sp :=
  (fun si : SiteHostnameInfo =>
     sitePath si = sp /\
     (length (hostnames si) + length (errors si) = length (bmNodeFiles si))%nat).
Local Abbreviation filled sp :=
  (fun si : SiteHostnameInfo =>
     sitePath si = sp /\
     ((length (hostnames si) + length (errors si) = length (bmNodeFiles si))%nat \/
      (hostnames si = [] /\ bmNodeFiles si = [] /\ length (errors si) = 1%nat))).

Lemma obeys_loop repoUrl sp branch files si :
  counted sp si ->
  obeys (counted sp) (processSiteDirectory_loop fuel repoUrl sp branch files si).
Proof.
  revert si; induction files as [|file rest IH]; intros si [Hp Hlen];
    cbn [processSiteDirectory_loop]; [by constructor|].
  assert (Hpush : forall e,
            counted sp (push_error (push_bmNodeFile si (default "" (name file))) e)).
  { intros e. split; [done|]. cbn. rewrite !length_app. cbn. lia. }
  apply (ts_obeys_bind (counted sp)); [|intros si' Hsi'; by apply IH].
  apply obeys_try_catch; [|intros; constructor; apply Hpush].
  eapply ts_obeys_bind; [apply obeys_fetchUrl_fuel|]. intros content _.
  destruct (extractHostnameFromContent content) as [h|];
    [|constructor; apply Hpush].
  destruct (bool_decide (h ≠ "")); constructor; [|apply Hpush].
  split; [done|]. cbn. rewrite !length_app. cbn. lia.
Qed.

Lemma ts_obeys_processSiteDirectory repoUrl sp branch :
  obeys (filled sp) (processSiteDirectory JSON_parse fuel repoUrl sp branch).
Proof.
  unfold processSiteDirectory. apply obeys_try_catch.
  - eapply ts_obeys_bind; [apply ts_obeys_getGiteaDirectoryListing|]. intros items _.
    eapply ts_obeys_bind; [apply obeys_filter|]. intros files _.
    apply (obeys_mono (counted sp)); [intros si [Hp Hlen]; split; [done|by left]|].
    by apply obeys_loop.
  - intros e. constructor. split; [done|]. right. done.
Qed.

Lemma ts_obeys_discoverSitesRecursively k repoUrl path branch :
  obeys (fun _ => True)
    (discoverSitesRecursively_fuel JSON_parse fuel k repoUrl path branch).
Proof.
  revert path; induction k as [|k IH]; intros path;
    cbn [discoverSitesRecursively_fuel];
    (apply obeys_try_catch; [|intros; by constructor]);
    (eapply ts_obeys_bind; [apply ts_obeys_getGiteaDirectoryListing|]); intros items _;
    (eapply ts_obeys_bind; [apply obeys_some|]); intros site _;
    (apply (ts_obeys_bind (fun _ => True));
     [destruct site; [|by constructor];
      eapply ts_obeys_bind; [apply ts_obeys_processSiteDirectory|];
      intros si [Hp Hlen]; constructor; [|by constructor];
      split; [by rewrite Hp|done]
     |intros _ _]);
    (eapply ts_obeys_bind; [apply obeys_filter|]); intros subdirs _;
    induction subdirs as [|subdir rest IHl]; try by constructor.
  - constructor. constructor.
  - constructor. apply (ts_obeys_bind (fun _ => True)); [apply IH|]. by intros.
Qed.

Lemma obeys_extractHostnamesFromGiteaRepository repoUrl branch :
  obeys (fun _ => True)
    (extractHostnamesFromGiteaRepository JSON_parse fuel repoUrl branch).
Proof.
  unfold extractHostnamesFromGiteaRepository, discoverSitesRecursively.
  apply obeys_try_catch; [|intros; by constructor].
  cbn [bind]. constructor.
  eapply ts_obeys_bind; [apply ts_obeys_discoverSitesRecursively|]. intros; by constructor.
Qed.
End Stores.
End TSCensusFacts.

(** [X12] The walk of the extractor throws nothing: the listing, the Site
    Processor and [discoverSitesRecursively] each catch whatever goes wrong,
    for every way the requests may end.  So the promise of
    [extractHostnamesFromGiteaRepository] is never rejected, and its own
    [catch], which would return a new empty map, never runs: it resolves to
    the map the walk has filled, or has no result, a request never
    settling or the model following the run no further. *)
Theorem extractor_never_rejects :
  forall JSON_parse fuel k repoUrl path branch net n m,
    (forall e,
       (TS.run (TS.getGiteaDirectoryListing JSON_parse fuel repoUrl path branch)
               net n m).2 <> TS.Threw e /\
       (TS.run (TS.processSiteDirectory JSON_parse fuel repoUrl path branch)
               net n m).2 <> TS.Threw e /\
       (TS.run (TS.discoverSitesRecursively_fuel JSON_parse fuel k repoUrl path branch)
               net n m).2 <> TS.Threw e) /\
    forall optional_branch,
      let r := (TS.run (TS.extractHostnamesFromGiteaRepository JSON_parse fuel repoUrl
                          optional_branch) net n m).2 in
      r = TS.Returned TS.SiteMap \/ r = TS.GaveUp.
Proof.
  intros JSON_parse fuel k repoUrl path branch net n m. split.
  - intros e. split_and!; apply TSCensusFacts.never_throws_run.
    + apply TSCensusFacts.never_throws_getGiteaDirectoryListing.
    + apply TSCensusFacts.never_throws_processSiteDirectory.
    + apply TSCensusFacts.never_throws_discoverSitesRecursively.
  - intros optional_branch r. subst r.
    unfold TS.extractHostnamesFromGiteaRepository, TS.discoverSitesRecursively.
    rewrite TSFacts.ts_run_try_catch, TSFacts.ts_run_bind. cbn [TS.run].
    pose proof (fun e => TSCensusFacts.never_throws_run
                  (TS.discoverSitesRecursively_fuel JSON_parse fuel fuel repoUrl ""
                     (default "dev" optional_branch)) net n m e
                  (TSCensusFacts.never_throws_discoverSitesRecursively
                     JSON_parse fuel fuel repoUrl "" (default "dev" optional_branch)))
      as Hnt.
    destruct (TS.run (TS.discoverSitesRecursively_fuel _ _ _ _ _ _) net n m)
      as [[[t n'] m'] [[]|e|]]; cbn in *.
    + by left.
    + by destruct (Hnt e).
    + by right.
Qed.

(** [X13] Every record in the map [extractHostnamesFromGiteaRepository]
    resolves to sits under the key it is due, the path of the record, or
    [root] for the record of the empty path, and either has one hostname or
    one error for each of its matched files, or, its listing holding
    [null], has the one error of the site directory and nothing else. *)
Theorem stored_records_are_well_formed :
  forall JSON_parse fuel net repoUrl branch m key rec,
    TS.resolved_map JSON_parse fuel net repoUrl branch = Some m ->
    m !! key = Some rec ->
    TSCensus.stored_ok key rec.
Proof.
  intros JSON_parse fuel net repoUrl branch m key rec Hm Hl.
  unfold TS.resolved_map in Hm.
  destruct (TSCensusFacts.obeys_run (fun _ => True)
              (TS.extractHostnamesFromGiteaRepository JSON_parse fuel repoUrl branch)
              net 0 ∅
              (TSCensusFacts.obeys_extractHostnamesFromGiteaRepository
                 JSON_parse fuel repoUrl branch)) as [Hall Hmap].
  destruct (TS.run _ net 0 ∅) as [[[t n'] m'] [[]|e|]]; cbn in *; try done.
  - injection Hm as <-. rewrite Hmap in Hl.
    eapply TSCensusFacts.apply_sets_ok; [|exact Hall|exact Hl].
    intros k v Hk. by rewrite lookup_empty in Hk.
  - injection Hm as <-. by rewrite lookup_empty in Hl.
Qed.

Lemma sample_ts_map :
  exists m,
    TS.resolved_map Sample.TS.JSON_parse 1 Sample.TS.net_tree Go.repoURL
      (Some Go.branch) = Some m /\
    m !! "root" = Some Sample.TS.inner_record.
Proof. eexists. split; [vm_compute; reflexivity|]. by vm_compute. Qed.

Lemma sample_ts_map_null :
  exists m rec,
    TS.resolved_map Sample.TS.JSON_parse 1 Sample.TS.net_mixed Go.repoURL
      (Some Go.branch) = Some m /\
    m !! "root" = Some rec /\
    TS.bmNodeFiles rec = [] /\ length (TS.errors rec) = 1%nat.
Proof. eexists _, _. split; [vm_compute; reflexivity|]. split; by vm_compute. Qed.

Lemma stored_records_are_well_formed_witness :
  TSCensus.stored_ok "root" Sample.TS.inner_record /\
  exists rec,
    TSCensus.stored_ok "root" rec /\
    TS.bmNodeFiles rec = [] /\ length (TS.errors rec) = 1%nat.
Proof.
  split.
  - destruct sample_ts_map as (m & Hm & Hl).
    exact (stored_records_are_well_formed Sample.TS.JSON_parse 1%nat Sample.TS.net_tree
             Go.repoURL (Some Go.branch) m "root" Sample.TS.inner_record Hm Hl).
  - destruct sample_ts_map_null as (m & rec & Hm & Hl & Hfiles & Herr).
    exists rec. split; [|done].
    exact (stored_records_are_well_formed Sample.TS.JSON_parse 1%nat Sample.TS.net_mixed
             Go.repoURL (Some Go.branch) m "root" rec Hm Hl).
Defined.

(* ===================================================================== *)
(** ** The requests of one fetch of the extractor *)
(* ===================================================================== *)

(** [X14] The requests of [fetchUrl], whatever the answers: each goes over
    https, through an agent that does not verify certificates, when its
    address starts with [https://], and over plain http otherwise; each but
    the first goes to the [location] of a 301 or 302 answer to the one
    before, whatever the scheme of that location; and all of them are
    requests. *)
Theorem fetchUrl_follows_redirects :
  forall fuel url net n,
    Forall TSHops.hop_ok (TSSpec.fetch_trace fuel url net n) /\
    TSHops.chained (TSSpec.fetch_trace fuel url net n) /\
    TSSpec.only_requests (TSSpec.fetch_trace fuel url net n) /\
    (length (TSSpec.fetch_trace fuel url net n) <= S fuel)%nat.
Proof.
  intros fuel url net n. unfold TSSpec.fetch_trace, TS.fetchUrl.
  assert (Hhop : forall u to ev,
            TSHops.hop_ok
              (TS.AGet (if TS.startsWith u "https://" then TS.Https else TS.Http) u
                 (if TS.startsWith u "https://" then Some TS.createInsecureAgent
                  else None) to ev)).
  { intros u to ev. unfold TSHops.hop_ok. by destruct (TS.startsWith u "https://"). }
  revert url n; induction fuel as [|k IH]; intros url n; cbn [TS.fetchUrl_fuel TS.run].
  - destruct (net n) as [code msg loc data| |msg| |msg]; cbn;
      try (split_and!; [by repeat constructor|done|by repeat constructor|lia]).
    destruct (((code =? 301) || (code =? 302)) && TS.truthy loc); cbn;
      [|destruct (negb (code =? 200)); cbn];
      (split_and!; [by repeat constructor|done|by repeat constructor|lia]).
  - destruct (net n) as [code msg loc data| |msg| |msg]; cbn;
      try (split_and!; [by repeat constructor|done|by repeat constructor|lia]).
    destruct (((code =? 301) || (code =? 302)) && TS.truthy loc) eqn:Er; cbn;
      [|destruct (negb (code =? 200)); cbn;
        (split_and!; [by repeat constructor|done|by repeat constructor|lia])].
    apply andb_true_iff in Er as [Hcode Hloc].
    destruct loc as [l|]; [|done]. cbn in Hloc. apply bool_decide_eq_true in Hloc.
    change (default "" (Some l)) with l. change (id l) with l.
    destruct (IH l (S n)) as (Hall & Hch & Hreq & Hlen).
    destruct (TS.run (TS.fetchUrl_fuel k l) net (S n) ∅) as [[[t1 n1] m1] r1] eqn:E.
    cbn [fst snd default] in *.
    split_and!; [by constructor| |by constructor|cbn; lia].
    assert (Hfirst : exists c ag to ev rest, t1 = TS.AGet c l ag to ev :: rest).
    { destruct k; cbn [TS.fetchUrl_fuel TS.run] in E;
        destruct (TS.run _ net (S (S n)) ∅) as [[[t2 n2] m2] r2];
        injection E as <- _ _ _; by eexists _, _, _, _, _. }
    destruct Hfirst as (c & ag & to & ev & rest & ->).
    cbn [TSHops.chained]. split; [|exact Hch].
    exists code, msg, data. split_and!; [done| |done].
    apply orb_true_iff in Hcode as [H%Z.eqb_eq|H%Z.eqb_eq]; auto.
Qed.

(* ===================================================================== *)
(** ** More on the Annotation Extractor *)
(* ===================================================================== *)

Module ExtractFacts.

Lemma take_while_ext p q (s : text) :
  Forall (fun c => p c = q c) s -> take_while p s = take_while q s.
Proof. induction 1 as [|c s Hc _ IH]; cbn; [done|]. by rewrite Hc, IH. Qed.

Lemma drop_while_ext p q (s : text) :
  Forall (fun c => p c = q c) s -> drop_while p s = drop_while q s.
Proof. induction 1 as [|c s Hc _ IH]; cbn; [done|]. by rewrite Hc, IH. Qed.

Lemma Forall_drop_while (P : ascii -> Prop) p (s : text) :
  Forall P s -> Forall P (drop_while p s).
Proof.
  induction 1 as [|c s Hc Hs IH]; cbn; [constructor|].
  destruct (p c); [done|by constructor].
Qed.

Section Ext.
Variables sp1 sp2 : ascii -> bool.

Lemma value_after_ext post :
  Forall (fun c => sp1 c = sp2 c) post ->
  value_after sp1 post = value_after sp2 post.
Proof.
  intros H. unfold value_after.
  rewrite (drop_while_ext sp1 sp2) by done.
  pose proof (Forall_drop_while _ sp2 _ H) as H1.
  set (s1 := drop_while sp2 post) in *.
  assert (H2 : Forall (fun c => sp1 c = sp2 c)
                 match s1 with
                 | c :: t => if is_quote c then t else s1
                 | [] => []
                 end).
  { destruct s1 as [|c t]; [constructor|].
    destruct (is_quote c); [by inversion H1|done]. }
  rewrite (take_while_ext (value_char sp1) (value_char sp2)); [done|].
  eapply Forall_impl; [exact H2|]. intros c Hc. unfold value_char. by rewrite Hc.
Qed.

Lemma first_annotation_ext s :
  Forall (fun c => sp1 c = sp2 c) s ->
  first_annotation sp1 s = first_annotation sp2 s.
Proof.
  induction 1 as [|c s Hc Hs IH].
  - cbn. destruct (strip annotation_key []) as [post|] eqn:E; [|done].
    apply strip_Some in E. symmetry in E. apply app_eq_nil in E as [_ ->]. done.
  - cbn [first_annotation]. rewrite IH.
    destruct (strip annotation_key (c :: s)) as [post|] eqn:E; [|done].
    apply strip_Some in E.
    assert (Hpost : Forall (fun c => sp1 c = sp2 c) post).
    { assert (Hall : Forall (fun c => sp1 c = sp2 c) (c :: s)) by (by constructor).
      rewrite E in Hall. by apply Forall_app in Hall as [_ ?]. }
    by rewrite (value_after_ext post).
Qed.
End Ext.

Lemma plain_char_space c : plain_char c = true -> Go.space c = TS.space c.
Proof. destruct c as [[] [] [] [] [] [] [] []]; by vm_compute. Qed.
End ExtractFacts.

(** [X15] The two programs agree on ASCII text, where the bytes the Go
    server reads and the code units the extractor reads are the same.  On
    ASCII content without a vertical tab, the one ASCII character on which
    their classes [\s] differ, the two Annotation Extractors return the
    same hostname, or both nothing.  On ASCII names without a carriage
    return, the one ASCII character on which their [.] differ, the two
    patterns of the node files accept the same names. *)
Theorem programs_agree_on_plain_text :
  (forall content,
     Forall (fun c => plain_char c = true) (txt content) ->
     Go.matchHostname content = TS.extractHostnameFromContent content) /\
  (forall name,
     Forall (fun c => (nat_of_ascii c <? 128)%nat = true) (txt name) ->
     chr 13 ∉ txt name ->
     Go.MatchString Go.bmNodeFileRegex name = TS.test TS.bmNodeFileRegex name).
Proof.
  split.
  - intros content Hplain.
    rewrite go_matchHostname, ts_extractHostnameFromContent.
    rewrite (ExtractFacts.first_annotation_ext Go.space TS.space); [done|].
    eapply Forall_impl; [exact Hplain|]. apply ExtractFacts.plain_char_space.
  - intros name _ Hcr.
    assert (Hiff : node_file_name Go.dot (txt name) <-> node_file_name TS.dot (txt name)).
    { assert (Hdot : forall mid pre,
                txt name = pre ++ bm_node_prefix ++ mid ++ yaml_suffix ->
                Forall (fun c => Go.dot c = true) mid <->
                Forall (fun c => TS.dot c = true) mid).
      { intros mid pre Hname.
        assert (Hmid : Forall (fun c => c <> chr 13) mid).
        { apply Forall_forall. intros c Hc ->. apply Hcr. rewrite Hname.
          apply elem_of_app. right. apply elem_of_app. right.
          apply elem_of_app. by left. }
        split; intros H; apply Forall_forall; intros c Hc;
          rewrite Forall_forall in H, Hmid; specialize (H c Hc);
          specialize (Hmid c Hc); revert H Hmid;
          destruct c as [[] [] [] [] [] [] [] []]; by vm_compute. }
      split; intros (pre & mid & Hname & Hne & Hmid); exists pre, mid;
        (split_and!; [done|done|by apply (Hdot mid pre Hname)]). }
    pose proof (proj1 (NameFacts.search_bmNodeFile Go.dot (txt name))) as H1.
    pose proof (proj2 (NameFacts.search_bmNodeFile Go.dot (txt name))) as H2.
    pose proof (proj1 (NameFacts.search_bmNodeFile TS.dot (txt name))) as H3.
    pose proof (proj2 (NameFacts.search_bmNodeFile TS.dot (txt name))) as H4.
    unfold Go.MatchString, TS.test, Go.bmNodeFileRegex, TS.bmNodeFileRegex.
    destruct (Regex.search (Patterns.bmNodeFile Go.dot) (txt name)) as [x|];
      destruct (Regex.search (Patterns.bmNodeFile TS.dot) (txt name)) as [y|];
      try done.
    + assert (is_Some (@None Regex.result)) as [? ?]; [|done].
      apply H4, Hiff, H1. by eexists.
    + assert (is_Some (@None Regex.result)) as [? ?]; [|done].
      apply H2, Hiff, H3. by eexists.
Qed.

Lemma programs_agree_on_plain_text_witness :
  Go.matchHostname (Sample.annotated "node1.example.com") =
    TS.extractHostnameFromContent (Sample.annotated "node1.example.com") /\
  Go.MatchString Go.bmNodeFileRegex "bm-node-1.yaml" =
    TS.test TS.bmNodeFileRegex "bm-node-1.yaml".
Proof.
  split.
  - apply (proj1 programs_agree_on_plain_text). compute_done.
  - apply (proj2 programs_agree_on_plain_text); compute_done.
Defined.

(** [X17] The quotes around a value need neither match nor close.  In
    content that starts with the key, followed by blank space, an optional
    quote of either kind and a value, both extractors return the value
    whatever follows it, provided that is nothing, a blank or a quote of
    either kind. *)
Theorem quotes_need_not_match :
  forall ws q v rest,
    (q = [] \/ q = [squote] \/ q = [dquote]) ->
    v <> [] ->
    (Forall (fun c => Go.space c = true) ws ->
     Forall (fun c => value_char Go.space c = true) v ->
     rest = [] \/ (exists c t, rest = c :: t /\ value_char Go.space c = false) ->
     Go.matchHostname (str (annotation_key ++ ws ++ q ++ v ++ rest)) = Some (str v)) /\
    (Forall (fun c => TS.space c = true) ws ->
     Forall (fun c => value_char TS.space c = true) v ->
     rest = [] \/ (exists c t, rest = c :: t /\ value_char TS.space c = false) ->
     TS.extractHostnameFromContent (str (annotation_key ++ ws ++ q ++ v ++ rest)) =
       Some (str v)).
Proof.
  intros ws q v rest Hq Hne.
  assert (Hfirst : forall space,
            (forall c, space c = true -> is_quote c = false) ->
            Forall (fun c => space c = true) ws ->
            Forall (fun c => value_char space c = true) v ->
            rest = [] \/ (exists c t, rest = c :: t /\ value_char space c = false) ->
            first_annotation space (annotation_key ++ ws ++ q ++ v ++ rest) = Some v).
  { intros space Hsq Hws Hv Hrest. apply first_annotation_first; [done|].
    exists [], (ws ++ q ++ v ++ rest). split_and!; [done| |intros; cbn; lia].
    by exists ws, q, rest. }
  split; intros Hws Hv Hrest.
  - rewrite go_matchHostname, txt_str, (Hfirst Go.space); try done.
    apply go_space_not_quote.
  - rewrite ts_extractHostnameFromContent, txt_str, (Hfirst TS.space); try done.
    apply ts_space_not_quote.
Qed.

Lemma quotes_need_not_match_witness :
  Go.matchHostname
    (str (annotation_key ++ [chr 32] ++ [dquote] ++ txt "node1" ++ [squote])) =
    Some "node1" /\
  TS.extractHostnameFromContent
    (str (annotation_key ++ [chr 32] ++ [dquote] ++ txt "node1" ++ [squote])) =
    Some "node1".
Proof.
  destruct (quotes_need_not_match [chr 32] [dquote] (txt "node1") [squote])
    as [Hgo Hts]; [by right; right|done|].
  split.
  - apply Hgo; [by repeat constructor|by repeat constructor|].
    right. by exists squote, [].
  - apply Hts; [by repeat constructor|by repeat constructor|].
    right. by exists squote, [].
Defined.

(* ===================================================================== *)
(** ** The legacy entry point of the extractor *)
(* ===================================================================== *)

Module RegexNFacts.
Import RegexN.

Section Facts.
Context {R : Type}.
Implicit Types (k : @cont R) (s : text) (caps : captures).

Lemma btn_lit whole l s caps k :
  bt whole (lit l) s caps k =
  match strip l s with Some s' => k s' caps | None => None end.
Proof.
  revert s; induction l as [|a l IH]; intros [|b s]; simpl; try done.
  destruct (Ascii.eqb b a); [apply IH|done].
Qed.

Lemma btn_reads_class whole p : reads_class (R:=R) (bt whole (Cls p)) p.
Proof. by intros [|a s] caps k. Qed.

(** Greedy iteration of a class before a continuation that refuses a
    text starting with a character of the class: the longest run. *)
Lemma starn_cls_longest m p n s caps k :
  reads_class m p ->
  (length s <= n)%nat ->
  (forall c t, p c = true -> k (c :: t) caps = None) ->
  star m n s caps k = k (drop_while p s) caps.
Proof.
  intros Hm Hn Hk. revert s Hn; induction n as [|n IH]; intros s Hn.
  - destruct s; [done|simpl in Hn; lia].
  - cbn [star]. rewrite Hm. destruct s as [|c s]; [done|].
    cbn [drop_while length] in *.
    destruct (p c) eqn:Ec; [|done].
    destruct (length s <? S (length s))%nat eqn:El;
      [|apply Nat.ltb_ge in El; lia].
    rewrite (IH s) by lia. rewrite (Hk c s Ec).
    by destruct (k (drop_while p s) caps).
Qed.

Lemma btn_plus_cls whole p s caps k :
  (forall c t, p c = true -> k (c :: t) caps = None) ->
  bt whole (Plus (Cls p)) s caps k =
  match take_while p s with
  | [] => None
  | _ :: _ => k (drop_while p s) caps
  end.
Proof.
  intros Hk. cbn [bt]. destruct s as [|c s]; [done|]. cbn [take_while drop_while].
  destruct (p c); [|done].
  apply (starn_cls_longest _ p); [apply (btn_reads_class whole)|lia|done].
Qed.
End Facts.
End RegexNFacts.

Module LegacyFacts.
Import RegexN Legacy RegexNFacts.

Section Steps.
Context {R : Type}.
Implicit Types (k : @cont R) (s : text) (caps : captures).

Lemma bt_seq W r1 r2 s caps k :
  bt W (Seq r1 r2) s caps k = bt W r1 s caps (fun s1 caps1 => bt W r2 s1 caps1 k).
Proof. done. Qed.

Lemma bt_grp W i r s caps k :
  bt W (Grp i r) s caps k =
  bt W r s caps
     (fun s1 caps1 => k s1 ((i, take (length s - length s1)%nat s) :: caps1)).
Proof. done. Qed.

Lemma bt_chr W a s caps k :
  bt W (Chr a) s caps k =
  match s with
  | c :: t => if Ascii.eqb c a then k t caps else None
  | [] => None
  end.
Proof. done. Qed.

Lemma bt_bot W s caps k :
  bt W Bot s caps k = if (length s =? W)%nat then k s caps else None.
Proof. done. Qed.

Lemma bt_eot W s caps k :
  bt W Eot s caps k = match s with [] => k [] caps | _ :: _ => None end.
Proof. done. Qed.
End Steps.

Lemma not_slash_false c : not_slash c = false -> c = slash.
Proof. unfold not_slash. intros H%negb_false_iff. by apply Ascii.eqb_eq. Qed.

Lemma not_slash_true c : not_slash c = true -> Ascii.eqb c slash = false.
Proof. unfold not_slash. by intros H%negb_true_iff. Qed.

Lemma take_prefix (pre rest : text) :
  take (length (pre ++ rest) - length rest)%nat (pre ++ rest) = pre.
Proof.
  rewrite length_app. replace (length pre + length rest - length rest)%nat
    with (length pre) by lia. by rewrite take_app_length.
Qed.

Lemma match_here_rawUrl s :
  match_here (length s) rawUrlRegex s =
  match parse_rawUrl s with
  | Some (g1, b, p) => Some [(3%nat, p); (2%nat, b); (1%nat, g1)]
  | None => None
  end.
Proof.
  unfold match_here, rawUrlRegex, parse_rawUrl.
  rewrite bt_seq, bt_bot, Nat.eqb_refl.
  rewrite bt_seq, bt_grp, bt_seq, btn_lit.
  destruct (strip (txt "https://") s) as [s1|] eqn:E1; [|done].
  apply strip_Some in E1. cbv zeta.
  (* the host *)
  rewrite bt_seq, btn_plus_cls.
  2:{ intros c t Hc. by rewrite bt_seq, bt_chr, (not_slash_true _ Hc). }
  pose proof (take_drop_while not_slash s1) as Hs1.
  destruct (take_while not_slash s1) as [|h0 host] eqn:Eh; [done|].
  rewrite bt_seq, bt_chr.
  destruct (drop_while not_slash s1) as [|c1 s2] eqn:Ed1; [done|].
  rewrite (not_slash_false c1 (drop_while_head _ _ _ _ Ed1)) in *.
  rewrite Ascii.eqb_refl.
  (* the owner *)
  rewrite bt_seq, btn_plus_cls.
  2:{ intros c t Hc. by rewrite bt_seq, bt_chr, (not_slash_true _ Hc). }
  pose proof (take_drop_while not_slash s2) as Hs2.
  destruct (take_while not_slash s2) as [|o0 owner] eqn:Eo; [done|].
  rewrite bt_seq, bt_chr.
  destruct (drop_while not_slash s2) as [|c2 s3] eqn:Ed2; [done|].
  rewrite (not_slash_false c2 (drop_while_head _ _ _ _ Ed2)) in *.
  rewrite Ascii.eqb_refl.
  (* the name *)
  rewrite btn_plus_cls.
  2:{ intros c t Hc. rewrite bt_seq, btn_lit.
      change (txt "/raw/branch/") with (slash :: txt "raw/branch/").
      cbn [strip]. by rewrite (not_slash_true _ Hc). }
  pose proof (take_drop_while not_slash s3) as Hs3.
  destruct (take_while not_slash s3) as [|r0 repo] eqn:Er; [done|].
  rewrite bt_seq, btn_lit.
  destruct (strip (txt "/raw/branch/") (drop_while not_slash s3)) as [s4|] eqn:E4;
    [|done].
  (* the branch *)
  rewrite bt_seq, bt_grp, btn_plus_cls.
  2:{ intros c t Hc. by rewrite bt_seq, bt_chr, (not_slash_true _ Hc). }
  pose proof (take_len_drop_while not_slash s4) as Hb.
  destruct (take_while not_slash s4) as [|b0 branch] eqn:Eb; [done|].
  rewrite bt_seq, bt_chr.
  destruct (drop_while not_slash s4) as [|c4 s5] eqn:Ed4; [done|].
  rewrite (not_slash_false c4 (drop_while_head _ _ _ _ Ed4)) in *.
  rewrite Ascii.eqb_refl.
  (* the path *)
  rewrite bt_seq, bt_grp, btn_plus_cls by done.
  destruct s5 as [|p0 s5]; [done|]. cbn [take_while drop_while].
  destruct (TS.dot p0) eqn:Ep; [|done].
  rewrite bt_eot. destruct (drop_while TS.dot s5) as [|c5 s6] eqn:Ed5; [|done].
  (* the groups *)
  f_equal. rewrite Hb. cbn [length]. rewrite take_ge by (cbn; lia).
  repeat f_equal. clear E4.
  remember (drop_while not_slash s3) as D eqn:HD. clear HD.
  subst s s1 s2 s3.
  replace (txt "https://" ++ (h0 :: host) ++ slash :: (o0 :: owner) ++
           slash :: (r0 :: repo) ++ D)
    with ((txt "https://" ++ (h0 :: host) ++ slash :: (o0 :: owner) ++
           slash :: r0 :: repo) ++ D).
  2:{ repeat (rewrite <- app_assoc; cbn [app]). done. }
  apply take_prefix.
Qed.

(** The pattern is anchored: no attempt succeeds further right. *)
Lemma search_from_later W s :
  (length s < W)%nat -> search_from W rawUrlRegex s = None.
Proof.
  induction s as [|c s IH]; intros Hlen; cbn [search_from].
  - unfold match_here, rawUrlRegex. rewrite bt_seq, bt_bot.
    destruct (Nat.eqb_spec (length (@nil ascii)) W) as [E|_]; [cbn in *; lia|done].
  - unfold match_here at 1. unfold rawUrlRegex at 1. rewrite bt_seq, bt_bot.
    destruct (Nat.eqb_spec (length (c :: s)) W) as [E|_]; [lia|].
    apply IH. cbn in Hlen. lia.
Qed.

Lemma search_rawUrl s :
  search rawUrlRegex s =
  match parse_rawUrl s with
  | Some (g1, b, p) => Some [(3%nat, p); (2%nat, b); (1%nat, g1)]
  | None => None
  end.
Proof.
  unfold search. rewrite <- match_here_rawUrl.
  destruct s as [|c s]; cbn [search_from].
  - by destruct (match_here _ _ _).
  - destruct (match_here _ _ (c :: s)); [done|].
    apply search_from_later. cbn. lia.
Qed.

Lemma match_rawUrl_parse baseUrl :
  match_rawUrl baseUrl =
  match parse_rawUrl (txt baseUrl) with
  | Some (g1, b, p) => Some (str g1, str b, str p)
  | None => None
  end.
Proof.
  unfold match_rawUrl. rewrite search_rawUrl.
  by destruct (parse_rawUrl (txt baseUrl)) as [[[g1 b] p]|].
Qed.

(** *** The addresses the pattern accepts *)

Lemma take_while_run p (v rest : text) :
  Forall (fun c => p c = true) v ->
  rest = [] \/ (exists c t, rest = c :: t /\ p c = false) ->
  take_while p (v ++ rest) = v /\ drop_while p (v ++ rest) = rest.
Proof.
  intros Hv Hrest. split.
  - rewrite take_while_app by done.
    destruct Hrest as [->|(c & t & -> & Hc)]; cbn; [|rewrite Hc]; by rewrite app_nil_r.
  - rewrite drop_while_app by done.
    destruct Hrest as [->|(c & t & -> & Hc)]; cbn; [done|by rewrite Hc].
Qed.

Lemma slash_stops t : exists c t', slash :: t = c :: t' /\ not_slash c = false.
Proof. by exists slash, t. Qed.

Lemma parse_rawUrl_complete host owner repo branch path :
  host <> [] -> owner <> [] -> repo <> [] -> branch <> [] -> path <> [] ->
  Forall (fun c => not_slash c = true) host ->
  Forall (fun c => not_slash c = true) owner ->
  Forall (fun c => not_slash c = true) repo ->
  Forall (fun c => not_slash c = true) branch ->
  Forall (fun c => TS.dot c = true) path ->
  parse_rawUrl
    (txt "https://" ++ host ++ slash :: owner ++ slash :: repo
       ++ txt "/raw/branch/" ++ branch ++ slash :: path) =
  Some (txt "https://" ++ host ++ slash :: owner ++ slash :: repo, branch, path).
Proof.
  intros Hh Ho Hr Hb Hp Fh Fo Fr Fb Fp. unfold parse_rawUrl.
  rewrite strip_app. cbv zeta.
  destruct (take_while_run not_slash host
              (slash :: owner ++ slash :: repo ++ txt "/raw/branch/" ++ branch
                 ++ slash :: path) Fh) as [-> ->]; [right; apply slash_stops|].
  destruct host as [|h0 host]; [done|].
  destruct (take_while_run not_slash owner
              (slash :: repo ++ txt "/raw/branch/" ++ branch ++ slash :: path) Fo)
    as [-> ->]; [right; apply slash_stops|].
  destruct owner as [|o0 owner]; [done|].
  destruct (take_while_run not_slash repo
              (txt "/raw/branch/" ++ branch ++ slash :: path) Fr)
    as [-> ->]; [right; apply slash_stops|].
  destruct repo as [|r0 repo]; [done|].
  rewrite strip_app.
  destruct (take_while_run not_slash branch (slash :: path) Fb)
    as [-> ->]; [right; apply slash_stops|].
  destruct branch as [|b0 branch]; [done|].
  destruct path as [|p0 path]; [done|].
  rewrite <- (app_nil_r (p0 :: path)) at 1.
  rewrite drop_while_app by done. done.
Qed.

Lemma parse_rawUrl_sound s g1 b p :
  parse_rawUrl s = Some (g1, b, p) ->
  exists host owner repo,
    g1 = txt "https://" ++ host ++ slash :: owner ++ slash :: repo /\
    s = g1 ++ txt "/raw/branch/" ++ b ++ slash :: p /\
    host <> [] /\ owner <> [] /\ repo <> [] /\ b <> [] /\ p <> [] /\
    Forall (fun c => not_slash c = true) host /\
    Forall (fun c => not_slash c = true) owner /\
    Forall (fun c => not_slash c = true) repo /\
    Forall (fun c => not_slash c = true) b /\
    Forall (fun c => TS.dot c = true) p.
Proof.
  unfold parse_rawUrl.
  destruct (strip (txt "https://") s) as [s1|] eqn:E1; [|done].
  apply strip_Some in E1. cbv zeta.
  pose proof (take_drop_while not_slash s1) as Hs1.
  pose proof (take_while_all not_slash s1) as Fh.
  destruct (take_while not_slash s1) as [|h0 host] eqn:Eh; [done|].
  destruct (drop_while not_slash s1) as [|c1 s2] eqn:Ed1; [done|].
  rewrite (not_slash_false c1 (drop_while_head _ _ _ _ Ed1)) in *.
  pose proof (take_drop_while not_slash s2) as Hs2.
  pose proof (take_while_all not_slash s2) as Fo.
  destruct (take_while not_slash s2) as [|o0 owner] eqn:Eo; [done|].
  destruct (drop_while not_slash s2) as [|c2 s3] eqn:Ed2; [done|].
  rewrite (not_slash_false c2 (drop_while_head _ _ _ _ Ed2)) in *.
  pose proof (take_drop_while not_slash s3) as Hs3.
  pose proof (take_while_all not_slash s3) as Fr.
  destruct (take_while not_slash s3) as [|r0 repo] eqn:Er; [done|].
  destruct (strip (txt "/raw/branch/") (drop_while not_slash s3)) as [s4|] eqn:E4;
    [|done].
  apply strip_Some in E4.
  pose proof (take_drop_while not_slash s4) as Hs4.
  pose proof (take_while_all not_slash s4) as Fb.
  destruct (take_while not_slash s4) as [|b0 branch] eqn:Eb; [done|].
  destruct (drop_while not_slash s4) as [|c4 s5] eqn:Ed4; [done|].
  rewrite (not_slash_false c4 (drop_while_head _ _ _ _ Ed4)) in *.
  destruct s5 as [|p0 s5]; [done|].
  pose proof (take_drop_while TS.dot (p0 :: s5)) as Hs5.
  pose proof (take_while_all TS.dot (p0 :: s5)) as Fp.
  destruct (drop_while TS.dot (p0 :: s5)) as [|c5 s6] eqn:Ed5; [|done].
  rewrite app_nil_r in Hs5. rewrite Hs5 in Fp.
  intros [= <- <- <-].
  exists (h0 :: host), (o0 :: owner), (r0 :: repo).
  split_and!; try done.
  rewrite E4 in Hs3. clear E4 Eh Eo Er Eb Ed1 Ed2 Ed4 Ed5 Hs5.
  subst s4. subst s3. subst s2. subst s1. subst s.
  by simplify_list_eq.
Qed.
End LegacyFacts.

(* ===================================================================== *)
(** ** What the legacy entry point accepts, and what it returns *)
(* ===================================================================== *)

Module LegacyRun.
Import TS Legacy SplitFacts.

Lemma txt_rawUrl host owner repo branch path :
  txt (rawUrl host owner repo branch path) =
  txt "https://" ++ txt host ++ slash :: txt owner ++ slash :: txt repo
    ++ txt "/raw/branch/" ++ txt branch ++ slash :: txt path.
Proof. unfold rawUrl. by rewrite !txt_app. Qed.

Lemma txt_nonempty s : s <> "" -> txt s <> [].
Proof. intros Hs H. apply Hs. apply txt_inj. by rewrite H. Qed.

Lemma no_slash_Forall (t : text) :
  slash ∉ t <-> Forall (fun c => not_slash c = true) t.
Proof.
  rewrite Forall_forall. split.
  - intros Hn c Hc. unfold not_slash.
    destruct (Ascii.eqb_spec c slash) as [->|]; [done|done].
  - intros Hall Hin. specialize (Hall _ Hin). unfold not_slash in Hall.
    by rewrite Ascii.eqb_refl in Hall.
Qed.

Lemma str_repository (host owner repo : text) :
  str (txt "https://" ++ host ++ slash :: owner ++ slash :: repo) =
  "https://" +:+ str host +:+ "/" +:+ str owner +:+ "/" +:+ str repo.
Proof.
  apply txt_inj. by rewrite !txt_app, !txt_str.
Qed.

(** The match of a raw address: its three groups. *)
Lemma match_rawUrl_rawUrl host owner repo branch path :
  segment host -> segment owner -> segment repo -> segment branch ->
  one_line path ->
  match_rawUrl (rawUrl host owner repo branch path) =
  Some ("https://" +:+ host +:+ "/" +:+ owner +:+ "/" +:+ repo, branch, path).
Proof.
  intros [Hh Fh] [Ho Fo] [Hr Fr] [Hb Fb] [Hp Fp].
  rewrite LegacyFacts.match_rawUrl_parse, txt_rawUrl.
  rewrite LegacyFacts.parse_rawUrl_complete;
    try (by apply txt_nonempty); try (by apply no_slash_Forall); [|done].
  by rewrite str_repository, !str_txt.
Qed.

(** Nothing else matches. *)
Lemma match_rawUrl_is_rawUrl baseUrl x :
  match_rawUrl baseUrl = Some x -> is_rawUrl baseUrl.
Proof.
  rewrite LegacyFacts.match_rawUrl_parse.
  destruct (parse_rawUrl (txt baseUrl)) as [[[g1 b] p]|] eqn:E; [|done].
  intros _. apply LegacyFacts.parse_rawUrl_sound in E
    as (host & owner & repo & -> & Hs & Hh & Ho & Hr & Hb & Hp & Fh & Fo & Fr & Fb & Fp).
  assert (Hne : forall t : text, t <> [] -> str t <> "").
  { intros t Ht H. apply Ht. by rewrite <- (txt_str t), H. }
  exists (str host), (str owner), (str repo), (str b), (str p).
  unfold segment, one_line. rewrite !txt_str.
  split_and!; try (by apply Hne); try (by apply no_slash_Forall); [done|].
  apply txt_inj. rewrite txt_rawUrl, !txt_str, Hs. by simplify_list_eq.
Qed.

Lemma match_rawUrl_None baseUrl :
  match_rawUrl baseUrl = None <-> ~ is_rawUrl baseUrl.
Proof.
  split.
  - intros Hm (host & owner & repo & branch & path & Hh & Ho & Hr & Hb & Hp & ->).
    by rewrite match_rawUrl_rawUrl in Hm.
  - intros Hn. destruct (match_rawUrl baseUrl) as [x|] eqn:E; [|done].
    destruct Hn. by apply (match_rawUrl_is_rawUrl _ x).
Qed.

Section Runs.
Variable JSON_parse : string -> option JSValue.
Variable fuel : nat.

(** The repository method resolves to the map of the walk. *)
Lemma repository_result repoUrl branch net n m :
  (run (extractHostnamesFromGiteaRepository JSON_parse fuel repoUrl branch)
       net n m).2 = Returned SiteMap \/
  (run (extractHostnamesFromGiteaRepository JSON_parse fuel repoUrl branch)
       net n m).2 = GaveUp.
Proof.
  unfold extractHostnamesFromGiteaRepository, discoverSitesRecursively.
  rewrite TSFacts.ts_run_try_catch, TSFacts.ts_run_bind. cbn [run].
  pose proof (fun e => TSCensusFacts.never_throws_run
                (discoverSitesRecursively_fuel JSON_parse fuel fuel repoUrl ""
                   (default "dev" branch)) net n m e
                (TSCensusFacts.never_throws_discoverSitesRecursively
                   JSON_parse fuel fuel repoUrl "" (default "dev" branch)))
    as Hnt.
  destruct (run (discoverSitesRecursively_fuel _ _ _ _ _ _) net n m)
    as [[[t n'] m'] [[]|e|]]; cbn in *.
  - by left.
  - by destruct (Hnt e).
  - by right.
Qed.

Lemma legacy_not_raw baseUrl net :
  match_rawUrl baseUrl = None ->
  extractHostnamesFromGiteaDirectory JSON_parse fuel baseUrl net =
  Threw "Please use extractHostnamesFromGiteaRepository with repository URL format".
Proof. unfold extractHostnamesFromGiteaDirectory. by intros ->. Qed.

Lemma legacy_raw baseUrl repoUrl branch path net :
  match_rawUrl baseUrl = Some (repoUrl, branch, path) ->
  extractHostnamesFromGiteaDirectory JSON_parse fuel baseUrl net =
  match run (extractHostnamesFromGiteaRepository JSON_parse fuel repoUrl
               (Some branch)) net 0 ∅ with
  | (t, _, _, Returned SiteMap) =>
      Returned (concat ((fun kv => hostnames kv.2) <$> map_of (TSSpec.sets t)))
  | (_, _, _, Returned NewMap) => Returned []
  | (_, _, _, Threw e) => Threw e
  | (_, _, _, GaveUp) => GaveUp
  end.
Proof. unfold extractHostnamesFromGiteaDirectory. by intros ->. Qed.

Lemma legacy_raw_no_throw baseUrl x net e :
  match_rawUrl baseUrl = Some x ->
  extractHostnamesFromGiteaDirectory JSON_parse fuel baseUrl net <> Threw e.
Proof.
  destruct x as [[repoUrl branch] path]. intros Hm.
  rewrite (legacy_raw _ _ _ _ _ Hm).
  destruct (repository_result repoUrl (Some branch) net 0%nat ∅) as [H|H];
    destruct (run _ net 0%nat ∅) as [[[t n'] m'] r]; cbn in H; by subst r.
Qed.
End Runs.
End LegacyRun.

(** [X18] The legacy method [extractHostnamesFromGiteaDirectory] rejects
    with its usage message exactly the addresses that are not of the form
    [https://host/owner/repo/raw/branch/<branch>/<path>], where the host,
    the owner, the repository and the branch are not empty and hold no
    slash and the path is not empty and holds no line terminator; it
    rejects in no other way. *)
Theorem legacy_rejects_all_but_raw_addresses :
  forall JSON_parse fuel baseUrl net,
    (Legacy.extractHostnamesFromGiteaDirectory JSON_parse fuel baseUrl net =
       TS.Threw "Please use extractHostnamesFromGiteaRepository with repository URL format"
     <-> ~ Legacy.is_rawUrl baseUrl) /\
    (forall e,
       Legacy.extractHostnamesFromGiteaDirectory JSON_parse fuel baseUrl net = TS.Threw e ->
       e = "Please use extractHostnamesFromGiteaRepository with repository URL format").
Proof.
  intros JSON_parse fuel baseUrl net.
  destruct (Legacy.match_rawUrl baseUrl) as [x|] eqn:E.
  - split.
    + split.
      * intros H. by destruct (LegacyRun.legacy_raw_no_throw JSON_parse fuel _ _ net _ E H).
      * intros Hn. destruct Hn. by apply (LegacyRun.match_rawUrl_is_rawUrl _ x).
    + intros e H. by destruct (LegacyRun.legacy_raw_no_throw JSON_parse fuel _ _ net _ E H).
  - rewrite (LegacyRun.legacy_not_raw JSON_parse fuel _ net E). split.
    + split; [intros _; by apply LegacyRun.match_rawUrl_None|done].
    + by intros e [= <-].
Qed.

Lemma legacy_rejects_all_but_raw_addresses_witness :
  ~ Legacy.is_rawUrl "https://host/indradhanus/sites".
Proof.
  apply (proj1 (proj1 (legacy_rejects_all_but_raw_addresses Sample.TS.JSON_parse 1%nat
                         "https://host/indradhanus/sites" Sample.TS.net_tree))).
  vm_compute. reflexivity.
Defined.

(** [X19] The directory named in a raw address is ignored: for two paths
    under the same host, owner, repository and branch, the legacy method
    gives the same result against the same network, the walk being that of
    the whole repository. *)
Theorem legacy_ignores_the_directory :
  forall JSON_parse fuel host owner repo branch path path' net,
    Legacy.segment host -> Legacy.segment owner -> Legacy.segment repo ->
    Legacy.segment branch -> Legacy.one_line path -> Legacy.one_line path' ->
    Legacy.extractHostnamesFromGiteaDirectory JSON_parse fuel
      (Legacy.rawUrl host owner repo branch path) net =
    Legacy.extractHostnamesFromGiteaDirectory JSON_parse fuel
      (Legacy.rawUrl host owner repo branch path') net.
Proof.
  intros JSON_parse fuel host owner repo branch path path' net Hh Ho Hr Hb Hp Hp'.
  rewrite (LegacyRun.legacy_raw JSON_parse fuel _ _ _ _ net
             (LegacyRun.match_rawUrl_rawUrl host owner repo branch path Hh Ho Hr Hb Hp)).
  by rewrite (LegacyRun.legacy_raw JSON_parse fuel _ _ _ _ net
                (LegacyRun.match_rawUrl_rawUrl host owner repo branch path' Hh Ho Hr Hb Hp')).
Qed.

Lemma legacy_ignores_the_directory_witness :
  Legacy.extractHostnamesFromGiteaDirectory Sample.TS.JSON_parse 1
    (Legacy.rawUrl "host" "indradhanus" "sites" "prod" "site1") Sample.TS.net_tree =
  Legacy.extractHostnamesFromGiteaDirectory Sample.TS.JSON_parse 1
    (Legacy.rawUrl "host" "indradhanus" "sites" "prod" "other/site2") Sample.TS.net_tree.
Proof.
  apply (legacy_ignores_the_directory Sample.TS.JSON_parse 1%nat "host" "indradhanus"
           "sites" "prod" "site1" "other/site2" Sample.TS.net_tree);
    (split; [done|compute_done]).
Defined.

Module LegacyMap.
Import TS Legacy SplitFacts.


(** *** The map in iteration order *)

Implicit Types (l : list (string * SiteHostnameInfo)).

Lemma map_set_keys key v l k :
  k ∈ (map_set key v l).*1 -> k = key \/ k ∈ l.*1.
Proof.
  induction l as [|[k0 w] l IH]; cbn [map_set].
  - cbn. rewrite list_elem_of_singleton. by left.
  - case_bool_decide as E; cbn [fmap list_fmap fst]; rewrite !elem_of_cons.
    + intros [->|H]; right; [by left|by right].
    + intros [->|H]; [right; by left|].
      destruct (IH H) as [->|H']; [by left|right; by right].
Qed.

Lemma map_set_spec key v l :
  NoDup l.*1 ->
  NoDup (map_set key v l).*1 /\
  list_to_map (map_set key v l) =@{gmap string SiteHostnameInfo}
    <[key := v]> (list_to_map l).
Proof.
  induction l as [|[k0 w] l IH]; cbn [map_set].
  - intros _. split; [cbn; apply NoDup_singleton|done].
  - cbn [fmap list_fmap fst]. rewrite NoDup_cons. intros [Hk Hnd].
    destruct (IH Hnd) as [IH1 IH2].
    case_bool_decide as E.
    + subst k0. split; [cbn; by apply NoDup_cons|].
      by rewrite !list_to_map_cons, insert_insert_eq.
    + split.
      * cbn [fmap list_fmap fst]. apply NoDup_cons. split; [|done].
        intros H. by destruct (map_set_keys _ _ _ _ H).
      * rewrite !list_to_map_cons, IH2. by apply insert_insert_ne.
Qed.

Lemma map_of_from acc kvs :
  NoDup acc.*1 ->
  NoDup (foldl (fun a kv => map_set kv.1 kv.2 a) acc kvs).*1 /\
  list_to_map (foldl (fun a kv => map_set kv.1 kv.2 a) acc kvs) =
  TSCensus.apply_sets (list_to_map acc) kvs.
Proof.
  revert acc; induction kvs as [|[k v] kvs IH]; intros acc Hnd; [done|].
  cbn [foldl]. unfold TSCensus.apply_sets. cbn [foldl].
  destruct (map_set_spec k v acc Hnd) as [H1 H2].
  destruct (IH _ H1) as [IH1 IH2]. split; [done|].
  cbn [fst snd] in *. by rewrite IH2, H2.
Qed.

Lemma map_of_spec kvs :
  NoDup (map_of kvs).*1 /\ list_to_map (map_of kvs) = TSCensus.apply_sets ∅ kvs.
Proof. apply (map_of_from [] kvs). constructor. Qed.

Lemma elem_of_allHostnames h l :
  h ∈ concat ((fun kv => hostnames kv.2) <$> l) <->
  exists key rec, (key, rec) ∈ l /\ h ∈ hostnames rec.
Proof.
  rewrite list_elem_of_In, in_concat. split.
  - intros (hs & Hin & Hh). apply list_elem_of_In, list_elem_of_fmap in Hin
      as ([key rec] & -> & Hkv).
    exists key, rec. split; [done|by apply list_elem_of_In].
  - intros (key & rec & Hkv & Hh). exists (hostnames rec). split.
    + apply list_elem_of_In, list_elem_of_fmap. by exists (key, rec).
    + by apply list_elem_of_In.
Qed.
End LegacyMap.



(** [X21] What the legacy method returns for a raw address, when the walk
    of the repository resolves to the map [m]: the hostnames of the records
    of [m], those of each record together and each record once.  So a
    hostname is returned exactly when a record of the map holds it. *)
Theorem legacy_returns_the_hostnames_of_the_map :
  forall JSON_parse fuel host owner repo branch path net m,
    Legacy.segment host -> Legacy.segment owner -> Legacy.segment repo ->
    Legacy.segment branch -> Legacy.one_line path ->
    TS.resolved_map JSON_parse fuel net
      ("https://" +:+ host +:+ "/" +:+ owner +:+ "/" +:+ repo) (Some branch) = Some m ->
    exists l : list (string * TS.SiteHostnameInfo),
      NoDup l.*1 /\ list_to_map l = m /\
      Legacy.extractHostnamesFromGiteaDirectory JSON_parse fuel
        (Legacy.rawUrl host owner repo branch path) net =
        TS.Returned (concat ((fun kv => TS.hostnames kv.2) <$> l)) /\
      forall h,
        h ∈ concat ((fun kv => TS.hostnames kv.2) <$> l) <->
        exists key rec, m !! key = Some rec /\ h ∈ TS.hostnames rec.
Proof.
  intros JSON_parse fuel host owner repo branch path net m Hh Ho Hr Hb Hp Hm.
  rewrite (LegacyRun.legacy_raw JSON_parse fuel _ _ _ _ net
             (LegacyRun.match_rawUrl_rawUrl host owner repo branch path Hh Ho Hr Hb Hp)).
  unfold TS.resolved_map in Hm.
  pose proof (TSCensusFacts.obeys_run (fun _ => True)
                (TS.extractHostnamesFromGiteaRepository JSON_parse fuel
                   ("https://" +:+ host +:+ "/" +:+ owner +:+ "/" +:+ repo) (Some branch))
                net 0%nat ∅
                (TSCensusFacts.obeys_extractHostnamesFromGiteaRepository
                   JSON_parse fuel _ _)) as [_ Hsets].
  pose proof (LegacyRun.repository_result JSON_parse fuel
                ("https://" +:+ host +:+ "/" +:+ owner +:+ "/" +:+ repo) (Some branch)
                net 0%nat ∅) as Hres.
  destruct (TS.run _ net 0%nat ∅) as [[[t n'] m'] r]. cbn [fst snd] in Hsets, Hres.
  destruct Hres as [-> | ->]; [|done].
  injection Hm as <-.
  destruct (LegacyMap.map_of_spec (TSSpec.sets t)) as [Hnd Hl].
  exists (Legacy.map_of (TSSpec.sets t)). split_and!; [done|by rewrite Hl|done|].
  intros h. rewrite LegacyMap.elem_of_allHostnames. rewrite Hsets, <- Hl.
  split; intros (key & rec & Hkv & Hin); exists key, rec; (split; [|done]).
  - by apply elem_of_list_to_map_1.
  - by apply elem_of_list_to_map_2.
Qed.

Lemma sample_legacy_map :
  exists m,
    TS.resolved_map Sample.TS.JSON_parse 1 Sample.TS.net_tree
      ("https://" +:+ "host" +:+ "/" +:+ "indradhanus" +:+ "/" +:+ "sites")
      (Some "prod") = Some m.
Proof. eexists. vm_compute. reflexivity. Qed.

Lemma legacy_returns_the_hostnames_of_the_map_witness :
  exists hs,
    Legacy.extractHostnamesFromGiteaDirectory Sample.TS.JSON_parse 1
      (Legacy.rawUrl "host" "indradhanus" "sites" "prod" "site1") Sample.TS.net_tree =
    TS.Returned hs.
Proof.
  destruct sample_legacy_map as (m & Hm).
  destruct (legacy_returns_the_hostnames_of_the_map Sample.TS.JSON_parse 1%nat
              "host" "indradhanus" "sites" "prod" "site1" Sample.TS.net_tree m)
    as (l & _ & _ & Hl & _); try (split; [done|compute_done]); [exact Hm|].
  by eexists.
Defined.
